(** * VectorEasy: the raster-to-vector pipeline, embedded and checked

    A shallow embedding of the pipeline under [app]:

    - [vectorizer/color_quantizer.py]   (module [Quantizer])
    - [vectorizer/preprocessor.py]      (modules [Preprocessor], [PreprocessorRuns])
    - [vectorizer/optimizer.py]         (modules [Optimizer], [OptimizerShapes])
    - [vectorizer/engine.py]            (modules [Engine], [EngineVariants])
    - [vectorizer/tracer.py]            (module [Tracer]: [_chaikin_smooth])
    - [vectorizer/segmentation.py]      (module [Segmentation])
    - [main.py]                         (module [Main]: the job of one upload)
    - [batch/processor.py]              (module [Batch]: [get_status])

    The model comes first, one module per source file, then the
    properties, one group of sections per source file.

    Conventions.  An 8-bit channel is a [Z] in [0, 255].  A numpy array of
    shape (h, w) is the row-major list of its h*w entries, pixel (y, x)
    sitting at index [y * w + x].  A Python float is the rational it
    holds.  Text is ASCII.  Calls into OpenCV, scikit-learn, Pillow and
    ElementTree are parameters of the section that uses them; draws from
    numpy's process-wide random generator are explicit arguments; loops
    that are not structural run on fuel, with the bound that suffices
    stated where the loop is defined. *)

From stdpp Require Import gmap strings list pretty.
From Stdlib Require Import ZArith QArith Qround Lia Reals Lra Ascii Sorted.
From Stdlib Require Lqa.

Open Scope Z_scope.

(** * Model *)

(** ** Arrays and images *)

(** One B, G, R triple of an (h, w, 3) uint8 array. *)
Definition bgr : Type := Z * Z * Z.

Definition chan_b (c : bgr) : Z := c.1.1.
Definition chan_g (c : bgr) : Z := c.1.2.
Definition chan_r (c : bgr) : Z := c.2.

Definition is_uint8 (v : Z) : Prop := 0 <= v < 256.
Definition bgr_uint8 (c : bgr) : Prop :=
  is_uint8 (chan_b c) /\ is_uint8 (chan_g c) /\ is_uint8 (chan_r c).

Definition bgr_eqb (c d : bgr) : bool :=
  (chan_b c =? chan_b d) && (chan_g c =? chan_g d) && (chan_r c =? chan_r d).

(** The arrays the pipeline handles: what [cv2.imdecode(..., IMREAD_UNCHANGED)]
    and the Pillow fallback return. *)
Inductive image : Type :=
  | Gray (h w : nat) (data : list Z)                  (* ndim = 2 *)
  | Gray1 (h w : nat) (data : list Z)                 (* shape (h, w, 1) *)
  | BGR (h w : nat) (data : list bgr)                 (* shape (h, w, 3) *)
  | BGRA (h w : nat) (data : list bgr) (a : list Z).  (* shape (h, w, 4) *)

(** ** Results of calls that may raise *)

Inductive result (E A : Type) : Type :=
  | Ok (a : A)
  | Raise (e : E).
Arguments Ok {E A} a.
Arguments Raise {E A} e.

(** ** Settings dictionaries *)

(** The values a settings dictionary holds. *)
Inductive value : Type :=
  | VStr (s : string)
  | VInt (n : Z)
  | VBool (b : bool).

Definition value_eqb (a b : value) : bool :=
  match a, b with
  | VStr s, VStr t => bool_decide (s = t)
  | VInt n, VInt m => n =? m
  | VBool x, VBool y => Bool.eqb x y
  (* Python: True == 1 and False == 0 *)
  | VInt n, VBool y | VBool y, VInt n => n =? (if y then 1 else 0)
  | _, _ => false
  end.

(** Truth value of [if v:]. *)
Definition truthy (v : value) : bool :=
  match v with
  | VStr s => negb (bool_decide (s = ""))
  | VInt n => negb (n =? 0)
  | VBool b => b
  end.

(** [d.get(key, dflt)]. *)
Definition dict_get (d : gmap string value) (key : string) (dflt : value) : value :=
  default dflt (d !! key).

(** ** color_quantizer.py *)

Module Quantizer.

(** *** Helpers *)

(** [_color_distance]: the radicand.  With 8-bit channels every
    intermediate value is a multiple of 1/512 below 2^20, so the double
    arithmetic of the source is exact and the radicand is this rational. *)
Definition radicand (c1 c2 : bgr) : Q :=
  let dr := inject_Z (chan_r c1 - chan_r c2) in
  let dg := inject_Z (chan_g c1 - chan_g c2) in
  let db := inject_Z (chan_b c1 - chan_b c2) in
  let r_mean := (inject_Z (chan_r c1 + chan_r c2) / 2)%Q in
  ((2 + r_mean / 256) * dr * dr + 4 * dg * dg
   + (2 + (255 - r_mean) / 256) * db * db)%Q.

(** [_color_distance(c1, c2)], the value of the formula. *)
Definition _color_distance (c1 c2 : bgr) : R := sqrt (Q2R (radicand c1 c2)).

(** The test [_color_distance(palette[i], palette[j]) < 15] of the merge
    loop.  A radicand below 225 is at most 225 - 1/512, whose root is more
    than 6e-5 below 15, so the rounding of [** 0.5] cannot change the
    outcome: the test is [radicand < 225]. *)
Definition distance_lt_15 (c1 c2 : bgr) : bool :=
  negb (Qle_bool 225 (radicand c1 c2)).

(** *** _assign_labels *)

Definition dist_sq (p c : bgr) : Z :=
  (chan_b p - chan_b c) ^ 2 + (chan_g p - chan_g c) ^ 2 + (chan_r p - chan_r c) ^ 2.

(** [np.argmin]: index of the first minimum, scanning left to right. *)
Fixpoint argmin_from (best_i : nat) (best : Z) (i : nat) (l : list Z) : nat :=
  match l with
  | [] => best_i
  | x :: l' =>
      if x <? best then argmin_from i x (S i) l'
      else argmin_from best_i best (S i) l'
  end.

Definition argmin (l : list Z) : nat :=
  match l with
  | [] => 0%nat
  | x :: l' => argmin_from 0%nat x 1%nat l'
  end.

(** [np.argmax]: index of the first maximum. *)
Fixpoint argmax_from (best_i : nat) (best : Z) (i : nat) (l : list Z) : nat :=
  match l with
  | [] => best_i
  | x :: l' =>
      if best <? x then argmax_from i x (S i) l'
      else argmax_from best_i best (S i) l'
  end.

Definition argmax (l : list Z) : nat :=
  match l with
  | [] => 0%nat
  | x :: l' => argmax_from 0%nat x 1%nat l'
  end.

Definition _assign_labels (pixels palette : list bgr) : list nat :=
  map (fun p => argmin (map (dist_sq p) palette)) pixels.

(** *** _auto_k *)

Section AutoK.
(** [cv2.cvtColor(image, cv2.COLOR_BGR2GRAY)], per pixel. *)
Variable cvtColor_BGR2GRAY : bgr -> Z.

(** [cv2.calcHist([gray], [0], None, [256], [0, 256])]. *)
Definition calcHist (gray : list Z) : list nat :=
  map (fun v => length (filter (fun g => g = v) gray)) (seqZ 0 256).

Definition _auto_k (pixels : list bgr) : Z :=
  let gray := map cvtColor_BGR2GRAY pixels in
  let hist := calcHist gray in
  let non_zero_bins := Z.of_nat (length (filter (fun n => (0 < n)%nat) hist)) in
  Z.max 2 (Z.min 32 (non_zero_bins / 8)).

(** The palette size [quantize] hands to the palette computation:
    lines 149 to 161, in the order of the source. *)
Definition quantize_n_colors (pixels : list bgr) (n_colors : Z) : Z :=
  let n_colors := Z.max 2 (Z.min 64 n_colors) in
  if n_colors =? 0 then _auto_k pixels else n_colors.
End AutoK.

(** *** Median cut *)

(** [x.astype(np.uint8)] on a non-negative float: truncate, keep 8 bits. *)
Definition astype_uint8 (q : Q) : Z := (Qnum q ÷ Zpos (Qden q)) mod 256.

Definition channel (ch : nat) (c : bgr) : Z :=
  match ch with
  | O => chan_b c
  | S O => chan_g c
  | _ => chan_r c
  end.

Definition list_max (l : list Z) : Z :=
  match l with [] => 0 | x :: l' => fold_left Z.max l' x end.
Definition list_min (l : list Z) : Z :=
  match l with [] => 0 | x :: l' => fold_left Z.min l' x end.

(** [_MedianCutBox._channel_range]: the channel of widest range. *)
Definition _channel_range (pixels : list bgr) : nat :=
  argmax (map (fun ch => list_max (map (channel ch) pixels)
                         - list_min (map (channel ch) pixels)) [0; 1; 2]%nat).

(** Insertion into a list kept in ascending key order, ahead of equal keys.
    Folding it from the right sorts stably; numpy's [argsort] fixes the
    order of equal keys only up to the sorting routine, and on the arrays
    evaluated below equal keys of a box belong to equal pixels. *)
Fixpoint insert_asc {A} (key : A -> Z) (x : A) (l : list A) : list A :=
  match l with
  | [] => [x]
  | y :: l' => if key x <=? key y then x :: l else y :: insert_asc key x l'
  end.

Definition sort_asc {A} (key : A -> Z) (l : list A) : list A :=
  foldr (insert_asc key) [] l.

(** [boxes.sort(key=..., reverse=True)]: stable, largest key first. *)
Fixpoint insert_desc {A} (key : A -> Z) (x : A) (l : list A) : list A :=
  match l with
  | [] => [x]
  | y :: l' => if key y <=? key x then x :: l else y :: insert_desc key x l'
  end.

Definition sort_desc {A} (key : A -> Z) (l : list A) : list A :=
  foldr (insert_desc key) [] l.

(** [_MedianCutBox.split]. *)
Definition split (pixels : list bgr) : list bgr * list bgr :=
  let ch := _channel_range pixels in
  let sorted_pixels := sort_asc (channel ch) pixels in
  let mid := (length sorted_pixels / 2)%nat in
  (take mid sorted_pixels, drop mid sorted_pixels).

(** [_MedianCutBox.average]: [pixels.mean(axis=0).astype(np.uint8)]. *)
Definition average (pixels : list bgr) : bgr :=
  let n := Z.of_nat (length pixels) in
  let total ch := foldr Z.add 0 (map (channel ch) pixels) in
  let mean ch := (inject_Z (total ch) / inject_Z n)%Q in
  (astype_uint8 (mean 0%nat), astype_uint8 (mean 1%nat), astype_uint8 (mean 2%nat)).

Definition box_len (b : list bgr) : Z := Z.of_nat (length b).

(** The [while len(boxes) < n_colors] loop; every turn that does not
    break adds one box, so [n_colors] turns are enough. *)
Fixpoint median_cut_loop (fuel : nat) (boxes : list (list bgr)) (n_colors : Z)
  : list (list bgr) :=
  match fuel with
  | O => boxes
  | S fuel' =>
      if Z.of_nat (length boxes) <? n_colors then
        match sort_desc box_len boxes with
        | [] => []
        | largest :: rest =>
            if box_len largest <? 2 then largest :: rest
            else
              let '(lo, hi) := split largest in
              median_cut_loop fuel' (rest ++ [lo; hi]) n_colors
        end
      else boxes
  end.

Definition _median_cut (pixels : list bgr) (n_colors : Z) : list bgr :=
  map average (median_cut_loop (Z.to_nat n_colors) [pixels] n_colors).

(** *** Palette refinement *)

(** [np.bincount(labels, minlength=k)], for labels below [k]. *)
Definition bincount (labels : list nat) (k : nat) : list Z :=
  map (fun i => Z.of_nat (length (filter (fun l => l = i) labels))) (seq 0 k).

(** [pixel_counts / total >= 0.001].  The two doubles compare as the
    exact quotients do for any array of fewer than 10^16 entries. *)
Definition covers (count total : Z) : bool :=
  (0 <? total) && (total <=? 1000 * count).

(** Position of [x] in [l]: the [remap] dictionary of the source. *)
Fixpoint index_of (x : nat) (l : list nat) : option nat :=
  match l with
  | [] => None
  | y :: l' => if (x =? y)%nat then Some 0%nat else S <$> index_of x l'
  end.

(** First pair (i, j), i < j, in the order of the two nested [for] loops,
    whose colors are closer than 15. *)
Fixpoint find_j (ci : bgr) (j : nat) (rest : list bgr) : option nat :=
  match rest with
  | [] => None
  | cj :: rest' => if distance_lt_15 ci cj then Some j else find_j ci (S j) rest'
  end.

Fixpoint find_pair (i : nat) (palette : list bgr) : option (nat * nat) :=
  match palette with
  | [] => None
  | ci :: rest =>
      match find_j ci (S i) rest with
      | Some j => Some (i, j)
      | None => find_pair (S i) rest
      end
  end.

(** [_compact_labels]: shift labels above [removed_idx] down by one. *)
Definition _compact_labels (labels : list nat) (removed_idx : nat) : list nat :=
  map (fun l => if (removed_idx <? l)%nat then (l - 1)%nat else l) labels.

(** One merge: [new_labels[new_labels == j] = i], [np.delete(palette, j)],
    then compaction. *)
Definition merge_step (i j : nat) (palette : list bgr) (labels : list nat)
  : list bgr * list nat :=
  let labels1 := map (fun l => if (l =? j)%nat then i else l) labels in
  (delete j palette, _compact_labels labels1 j).

(** The [while merged and len(palette) > 2] loop.  Every merge shortens
    the palette, so [len(palette)] turns are enough. *)
Fixpoint merge_loop (fuel : nat) (palette : list bgr) (labels : list nat)
  : list bgr * list nat :=
  match fuel with
  | O => (palette, labels)
  | S fuel' =>
      if (2 <? length palette)%nat then
        match find_pair 0 palette with
        | Some (i, j) =>
            let '(palette', labels') := merge_step i j palette labels in
            merge_loop fuel' palette' labels'
        | None => (palette, labels)
        end
      else (palette, labels)
  end.

Definition palette_at (palette : list bgr) (l : nat) : bgr := nth l palette (0, 0, 0).

(** [keep]: the indices with coverage of at least 0.1 percent, or the
    single most frequent one. *)
Definition keep_indices (palette : list bgr) (labels_2d : list nat) : list nat :=
  let total := Z.of_nat (length labels_2d) in
  let k := length palette in
  let pixel_counts := bincount labels_2d k in
  let keep := filter (fun i => covers (nth i pixel_counts 0) total) (seq 0 k) in
  match keep with [] => [argmax pixel_counts] | _ => keep end.

(** [new_labels] before the merge loop: a kept label moves to its position
    in [keep], any other pixel goes to the nearest kept color. *)
Definition remap_labels (keep : list nat) (palette : list bgr)
    (quantized_img : list bgr) (labels_2d : list nat) : list nat :=
  map (fun '(old_idx, px) =>
         match index_of old_idx keep with
         | Some new_idx => new_idx
         | None => argmin (map (dist_sq px) palette)
         end) (zip labels_2d quantized_img).

Definition _refine_palette (quantized_img palette : list bgr) (labels_2d : list nat)
  : list bgr * list nat :=
  let keep := keep_indices palette labels_2d in
  let palette := map (palette_at palette) keep in
  let new_labels := remap_labels keep palette quantized_img labels_2d in
  merge_loop (length palette) palette new_labels.

Definition _rebuild_from_labels (labels_2d : list nat) (palette : list bgr)
  : list bgr * list bgr * list nat :=
  (map (palette_at palette) labels_2d, palette, labels_2d).

(** *** Masks *)

Definition _build_masks (labels_2d : list nat) (k : nat) : list (list Z) :=
  map (fun i => map (fun l => if (l =? i)%nat then 255 else 0) labels_2d) (seq 0 k).

(** [cv2.bitwise_and(mask, alpha)] on two uint8 planes. *)
Definition bitwise_and (mask alpha : list Z) : list Z :=
  zip_with Z.land mask alpha.

(** *** Hex colors *)

Definition hex_digit (d : Z) : ascii :=
  nth (Z.to_nat d) (String.list_ascii_of_string "0123456789abcdef") "0"%char.

(** [f"{v:02x}"] for a channel value below 256. *)
Definition format_02x (v : Z) : string :=
  String (hex_digit (v / 16)) (String (hex_digit (v mod 16)) EmptyString).

Definition _bgr_to_hex (c : bgr) : string :=
  String "#"%char (format_02x (chan_r c) +:+ format_02x (chan_g c) +:+ format_02x (chan_b c)).

(** Value of one hexadecimal digit, as [int(s, 16)] reads it. *)
Definition hex_value (a : ascii) : Z :=
  let n := Z.of_nat (nat_of_ascii a) in
  if (48 <=? n) && (n <=? 57) then n - 48
  else if (97 <=? n) && (n <=? 102) then n - 87
  else if (65 <=? n) && (n <=? 70) then n - 55
  else 0.

Definition int16 (s : string) : Z :=
  fold_left (fun acc a => 16 * acc + hex_value a) (String.list_ascii_of_string s) 0.

Fixpoint lstrip_hash (s : string) : string :=
  match s with
  | String "#"%char s' => lstrip_hash s'
  | _ => s
  end.

Definition _hex_to_bgr (hex_color : string) : bgr :=
  let hex_color := lstrip_hash hex_color in
  let r := int16 (String.substring 0 2 hex_color) in
  let g := int16 (String.substring 2 2 hex_color) in
  let b := int16 (String.substring 4 2 hex_color) in
  (b, g, r).

(** *** ColorQuantizer.quantize *)

Inductive method : Type := kmeans | median_cut | octree.

Section Quantize.
(** Exceptions, opaque. *)
Variable exn : Type.
(** [cv2.cvtColor(image, cv2.COLOR_BGR2GRAY)], per pixel. *)
Variable cvtColor_BGR2GRAY : bgr -> Z.
(** [MiniBatchKMeans(n_clusters, random_state, batch_size, n_init,
    max_iter).fit(sample).cluster_centers_]. *)
Variable MiniBatchKMeans_fit :
  forall (n_clusters random_state batch_size n_init max_iter : Z) (sample : list bgr),
    result exn (list (Q * Q * Q)).
(** [cv2.kmeans(sample, k, None, criteria, attempts, flags)[2]]. *)
Variable cv2_kmeans :
  forall (sample : list bgr) (k : Z) (max_iter : Z) (eps : Q) (attempts : Z),
    result exn (list (Q * Q * Q)).

Definition centers_astype_uint8 (centers : list (Q * Q * Q)) : list bgr :=
  map (fun c => (astype_uint8 c.1.1, astype_uint8 c.1.2, astype_uint8 c.2)) centers.

Definition take_rows (pixels : list bgr) (idx : list nat) : list bgr :=
  map (fun i => nth i pixels (0, 0, 0)) idx.

(** [_kmeans].  [idx] is what [np.random.choice(len(pixels), sample_size,
    replace=False)] returns when the call is made. *)
Definition _kmeans (idx : list nat) (pixels : list bgr) (k : Z)
  : result exn (list bgr) :=
  let sample_size := Z.min (Z.of_nat (length pixels)) 100000 in
  let sample :=
    if sample_size <? Z.of_nat (length pixels) then take_rows pixels idx else pixels in
  match MiniBatchKMeans_fit k 42 (Z.min 10000 (Z.of_nat (length sample))) 3 100 sample with
  | Ok centers => Ok (centers_astype_uint8 centers)
  | Raise e => Raise e
  end.

(** [_octree_quantize]: the draw is made on every call. *)
Definition _octree_quantize (idx : list nat) (pixels : list bgr) (n_colors : Z)
  : result exn (list bgr) :=
  let sample := take_rows pixels idx in
  match cv2_kmeans sample n_colors 20 1 5 with
  | Ok centers => Ok (centers_astype_uint8 centers)
  | Raise e => Raise e
  end.

Record quantized : Type := Quantized {
  quantized_img : list bgr;
  hex_colors : list string;
  masks : list (list Z);
  (* the locals [palette] and [labels_2d] at the [return] *)
  final_palette : list bgr;
  final_labels : list nat
}.

(** [quantize(image, n_colors, method)] on an (h, w, 3) or (h, w, 4)
    array, given as its color rows and its alpha plane if it has one. *)
Definition quantize (idx : list nat) (data : list bgr) (alpha : option (list Z))
    (n_colors : Z) (m : method) : result exn quantized :=
  let n_colors := quantize_n_colors cvtColor_BGR2GRAY data n_colors in
  let pixels := data in
  let computed :=
    match m with
    | median_cut => Ok (_median_cut pixels n_colors)
    | octree => _octree_quantize idx pixels n_colors
    | kmeans => _kmeans idx pixels n_colors
    end in
  match computed with
  | Raise e => Raise e
  | Ok palette =>
      let labels := _assign_labels pixels palette in
      let quantized_img := map (palette_at palette) labels in
      let '(palette, labels_2d) := _refine_palette quantized_img palette labels in
      let '(quantized_img, palette, labels_2d) := _rebuild_from_labels labels_2d palette in
      let hex_colors := map _bgr_to_hex palette in
      let masks := _build_masks labels_2d (length palette) in
      let masks :=
        match alpha with
        | Some a => map (fun mask => bitwise_and mask a) masks
        | None => masks
        end in
      Ok (Quantized quantized_img hex_colors masks palette labels_2d)
  end.
End Quantize.

(** *** Library stand-ins for evaluating concrete runs *)

(** The fixed-point luma of OpenCV's 8-bit [COLOR_BGR2GRAY] kernel
    (14 fractional bits); a gray pixel (v, v, v) maps to v. *)
Definition luma14 (c : bgr) : Z :=
  Z.shiftr (1868 * chan_b c + 9617 * chan_g c + 4899 * chan_r c + 8192) 14.

(** With [method = median_cut] neither clustering library is called. *)
Definition fit_not_called (n_clusters random_state batch_size n_init max_iter : Z)
    (sample : list bgr) : result unit (list (Q * Q * Q)) := Raise tt.
Definition cv2_kmeans_not_called (sample : list bgr) (k max_iter : Z) (eps : Q)
    (attempts : Z) : result unit (list (Q * Q * Q)) := Raise tt.

(** [quantize] with [method = median_cut], which runs on the source alone. *)
Definition quantize_median_cut (data : list bgr) (alpha : option (list Z)) (n_colors : Z)
  : result unit quantized :=
  quantize unit luma14 fit_not_called cv2_kmeans_not_called [] data alpha n_colors median_cut.

(** The property of a hex palette that no two entries are closer than 15. *)
Definition far_apart (hex : list string) : Prop :=
  forall i j hi hj, i <> j ->
    hex !! i = Some hi -> hex !! j = Some hj ->
    (15 <= _color_distance (_hex_to_bgr hi) (_hex_to_bgr hj))%R.

End Quantizer.

(** ** preprocessor.py *)

Module Preprocessor.

Inductive interpolation : Type := INTER_NEAREST | INTER_LANCZOS4.

(** The dictionary [_analyse] returns. *)
Record params : Type := Params {
  scale : nat;
  interp : interpolation;
  denoise : bool;
  bilateral : bool;
  clahe : bool;
  sharpen : bool;
  h_lum : Z;
  template_window : Z;
  search_window : Z;
  bilateral_d : Z;
  bilateral_sigma_color : Z;
  bilateral_sigma_space : Z;
  clahe_clip : Q;
  clahe_grid : Z * Z;
  sharpen_amount : Q
}.

(** Lines 113 to 177 of [_analyse]: the parameters, from the shape, the two
    statistics that are used, and the mode. *)
Definition analyse_params (h w : nat) (laplacian_var unique_ratio : Q) (mode : value)
  : params :=
  let longest := Nat.max h w in
  let scale :=
    if (longest <? 200)%nat then 4%nat
    else if (longest <? 500)%nat then 3%nat
    else if (longest <? 1000)%nat then 2%nat
    else 1%nat in
  if value_eqb mode (VStr "pixel_art") then
    Params scale INTER_NEAREST false false false false
           5 7 21 5 50 50 2 (8, 8) (1 # 2)
  else if value_eqb mode (VStr "line_art") then
    let scale := if (1 <? scale)%nat then scale else 1%nat in
    Params scale INTER_LANCZOS4 true false true true
           4 7 21 7 75 75 3 (8, 8) (3 # 2)
  else if value_eqb mode (VStr "logo") then
    Params scale INTER_LANCZOS4 true true true true
           5 7 21 9 75 75 2 (8, 8) (8 # 10)
  else
    let heavy_noise := negb (Qle_bool laplacian_var 500) in
    let low_contrast := negb (Qle_bool (3 # 10) unique_ratio) in
    let h_lum := if heavy_noise then 10 else 6 in
    let bilateral_sigma := if heavy_noise then 100 else 75 in
    Params scale INTER_LANCZOS4
           (heavy_noise || value_eqb mode (VStr "photo"))
           true
           (low_contrast || value_eqb mode (VStr "photo"))
           true
           h_lum 7 21 9 bilateral_sigma bilateral_sigma 2 (8, 8) 1.

(** The interpolation of the one [cv2.resize] call on the alpha plane
    (line 87). *)
Definition alpha_interpolation : interpolation := INTER_LANCZOS4.

(** Which array a call works on. *)
Inductive target : Type := color_planes | alpha_plane.

(** The OpenCV calls of one [preprocess] run that produce pixels. *)
Inductive cv2_call : Type :=
  | call_resize (t : target) (dsize_w dsize_h : nat) (i : interpolation)
  | call_fastNlMeansDenoisingColored (t : target)
  | call_bilateralFilter (t : target)
  | call_CLAHE (t : target)
  | call_unsharp (t : target).

Inductive error : Type :=
  | ValueError_empty      (* "Empty or None image passed to preprocessor" *)
  | cv2_error.

(** The three planes of a color array, and [cv2.merge]. *)
Definition plane_of (ch : nat) (data : list bgr) : list Z :=
  map (Quantizer.channel ch) data.

Fixpoint merge3 (b g r : list Z) : list bgr :=
  match b, g, r with
  | x :: b', y :: g', z :: r' => (x, y, z) :: merge3 b' g' r'
  | _, _, _ => []
  end.

Section Preprocess.
(** OpenCV.  A kernel that raises [cv2.error] returns [None]. *)
(** [cv2.resize(plane, (w', h'), interpolation=i)] on one (h, w) plane;
    OpenCV resizes the planes of a multi-channel array one by one. *)
Variable cv2_resize : interpolation -> forall (h w h' w' : nat), list Z -> list Z.
(** [float(cv2.Laplacian(gray, cv2.CV_64F).var())] *)
Variable Laplacian_var : nat -> nat -> list bgr -> Q.
(** [np.unique(gray).size] *)
Variable unique_gray : list bgr -> nat.
Variable fastNlMeansDenoisingColored :
  nat -> nat -> list bgr -> forall (h hColor tw sw : Z), option (list bgr).
Variable bilateralFilter :
  nat -> nat -> list bgr -> forall (d sigmaColor sigmaSpace : Z), option (list bgr).
(** The five calls of [_clahe], from [cvtColor] to LAB and back. *)
Variable clahe_lab :
  nat -> nat -> list bgr -> forall (clipLimit : Q) (tileGridSize : Z * Z), option (list bgr).
(** [GaussianBlur], [addWeighted] and the clip of [_sharpen]. *)
Variable unsharp_mask : nat -> nat -> list bgr -> forall (amount : Q), option (list bgr).

Definition _analyse (h w : nat) (data : list bgr) (mode : value) : params :=
  analyse_params h w (Laplacian_var h w data)
                 (inject_Z (Z.of_nat (unique_gray data)) / 256)%Q mode.

Definition resize_color (i : interpolation) (h w h' w' : nat) (data : list bgr)
  : list bgr :=
  merge3 (cv2_resize i h w h' w' (plane_of 0 data))
         (cv2_resize i h w h' w' (plane_of 1 data))
         (cv2_resize i h w h' w' (plane_of 2 data)).

(** A color array on its way through the stages, and the calls so far. *)
Record work : Type := Work {
  wh : nat;
  ww : nat;
  wdata : list bgr;
  wcalls : list cv2_call
}.

Definition _upscale (p : params) (x : work) : work :=
  if (scale p <=? 1)%nat then x
  else
    let h' := (wh x * scale p)%nat in
    let w' := (ww x * scale p)%nat in
    Work h' w' (resize_color (interp p) (wh x) (ww x) h' w' (wdata x))
         (wcalls x ++ [call_resize color_planes w' h' (interp p)]).

(** A stage that keeps its input when OpenCV raises. *)
Definition guarded (c : cv2_call) (out : option (list bgr)) (x : work) : work :=
  match out with
  | Some data => Work (wh x) (ww x) data (wcalls x ++ [c])
  | None => Work (wh x) (ww x) (wdata x) (wcalls x ++ [c])
  end.

Definition _denoise (p : params) (x : work) : work :=
  guarded (call_fastNlMeansDenoisingColored color_planes)
    (fastNlMeansDenoisingColored (wh x) (ww x) (wdata x)
       (h_lum p) (h_lum p) (template_window p) (search_window p)) x.

Definition _bilateral (p : params) (x : work) : work :=
  guarded (call_bilateralFilter color_planes)
    (bilateralFilter (wh x) (ww x) (wdata x)
       (bilateral_d p) (bilateral_sigma_color p) (bilateral_sigma_space p)) x.

Definition _clahe (p : params) (x : work) : work :=
  guarded (call_CLAHE color_planes)
    (clahe_lab (wh x) (ww x) (wdata x) (clahe_clip p) (clahe_grid p)) x.

(** [_sharpen] has no [try]: an OpenCV error leaves [preprocess]. *)
Definition _sharpen (p : params) (x : work) : result error work :=
  match unsharp_mask (wh x) (ww x) (wdata x) (sharpen_amount p) with
  | Some data => Ok (Work (wh x) (ww x) data (wcalls x ++ [call_unsharp color_planes]))
  | None => Raise cv2_error
  end.

Definition stage_on (enabled : bool) (f : work -> work) (x : work) : work :=
  if enabled then f x else x.

(** [preprocess(image, settings)]: the array returned or the exception,
    and the OpenCV calls made on the way. *)
Definition preprocess (im : image) (settings : gmap string value)
  : result error (image * list cv2_call) :=
  let mode := dict_get settings "mode" (VStr "auto") in
  let on key := truthy (dict_get settings key (VBool true)) in
  match im with
  | Gray h w data | Gray1 h w data =>
      (* [cv2.cvtColor(image, cv2.COLOR_BGR2GRAY)] of [_analyse] needs three
         channels *)
      if (h * w =? 0)%nat then Raise ValueError_empty else Raise cv2_error
  | BGR h w data | BGRA h w data _ =>
      if (h * w =? 0)%nat then Raise ValueError_empty
      else
        let alpha := match im with BGRA _ _ _ a => Some a | _ => None end in
        let p := _analyse h w data mode in
        let x := Work h w data [] in
        let x := stage_on (on "upscale") (_upscale p) x in
        let x := stage_on (on "denoise" && denoise p) (_denoise p) x in
        let x := stage_on (on "bilateral" && bilateral p) (_bilateral p) x in
        let x := stage_on (on "clahe" && clahe p) (_clahe p) x in
        let sharpened :=
          if on "sharpen" && sharpen p then _sharpen p x else Ok x in
        match sharpened with
        | Raise e => Raise e
        | Ok x =>
            match alpha with
            | Some a =>
                let alpha_resized := cv2_resize alpha_interpolation h w (wh x) (ww x) a in
                Ok (BGRA (wh x) (ww x) (wdata x) alpha_resized,
                    wcalls x ++ [call_resize alpha_plane (ww x) (wh x) alpha_interpolation])
            | None => Ok (BGR (wh x) (ww x) (wdata x), wcalls x)
            end
        end
  end.
End Preprocess.

(** *** Library stand-ins for evaluating concrete runs *)

(** Nearest-neighbour sampling, taken for every interpolation: it fixes
    the shape of the result, which is all a call log depends on. *)
Definition sample_resize (i : interpolation) (h w h' w' : nat) (plane : list Z) : list Z :=
  map (fun k => nth ((k / w') * h / h' * w + (k mod w') * w / w')%nat plane 0)
      (seq 0 (h' * w')).

Definition preprocess_with_identity_kernels (im : image) (settings : gmap string value)
  : result error (image * list cv2_call) :=
  preprocess sample_resize (fun _ _ _ => 0%Q) (fun _ => 1%nat)
    (fun _ _ data _ _ _ _ => Some data) (fun _ _ data _ _ _ => Some data)
    (fun _ _ data _ _ => Some data) (fun _ _ data _ => Some data) im settings.



(** The factor by which [preprocess] enlarges the array. *)
Definition upscale_factor (p : params) (settings : gmap string value) : nat :=
  if truthy (dict_get settings "upscale" (VBool true)) && negb (scale p <=? 1)%nat
  then scale p else 1%nat.


(** The claim that every resize of the alpha plane is one the color planes
    get too: same target size, same interpolation. *)
Definition alpha_resized_as_color (calls : list cv2_call) : Prop :=
  forall w h i, call_resize alpha_plane w h i ∈ calls ->
                call_resize color_planes w h i ∈ calls.

End Preprocessor.

(** ** optimizer.py *)

Module Optimizer.

(** *** Text *)

Definition code (a : ascii) : Z := Z.of_nat (nat_of_ascii a).

(** [\d] on ASCII text. *)
Definition is_digit (a : ascii) : bool := (48 <=? code a) && (code a <=? 57).

(** [\s], and the characters [str.strip()] removes, on ASCII text. *)
Definition is_space (a : ascii) : bool :=
  ((9 <=? code a) && (code a <=? 13)) || ((28 <=? code a) && (code a <=? 32)).

Definition chars (s : string) : list ascii := String.list_ascii_of_string s.
Definition text (l : list ascii) : string := String.string_of_list_ascii l.

Fixpoint lstrip (l : list ascii) : list ascii :=
  match l with
  | c :: l' => if is_space c then lstrip l' else l
  | [] => []
  end.

(** [s.strip()] *)
Definition strip (l : list ascii) : list ascii := rev (lstrip (rev (lstrip l))).

(** [s.rstrip(c)] for a single character. *)
Fixpoint lstrip_char (c : ascii) (l : list ascii) : list ascii :=
  match l with
  | x :: l' => if Ascii.eqb x c then lstrip_char c l' else l
  | [] => []
  end.
Definition rstrip_char (c : ascii) (l : list ascii) : list ascii :=
  rev (lstrip_char c (rev l)).

(** The double quote and the line feed, as one-character strings. *)
Definition dquote : string := String (ascii_of_nat 34) EmptyString.
Definition newline : string := String (ascii_of_nat 10) EmptyString.

(** *** Python floats *)

(** A double: a sign and the exact value of a finite magnitude. *)
Inductive pyfloat : Type :=
  | Finite (neg : bool) (mag : Q)
  | Infinite (neg : bool)
  | NaN.

(** [a / b] rounded to the nearest integer, ties to even. *)
Definition round_half_even (a b : Z) : Z :=
  let q := a / b in
  let r := a mod b in
  if 2 * r <? b then q
  else if b <? 2 * r then q + 1
  else if Z.even q then q else q + 1.

(** The largest [e] with [2^e <= n / d]. *)
Definition floor_log2 (n d : positive) : Z :=
  let e0 := Z.log2 (Zpos n) - Z.log2 (Zpos d) in
  if Zpos d * 2 ^ Z.max 0 e0 <=? Zpos n * 2 ^ Z.max 0 (- e0) then e0 else e0 - 1.

(** Round a non-negative rational to binary64 (53-bit significand,
    subnormals from 2^-1074, ties to even); [None] on overflow. *)
Definition to_binary64 (q : Q) : option Q :=
  match Qnum q with
  | Zpos n =>
      let d := Qden q in
      let e := floor_log2 n d in
      let u := Z.max (e - 52) (-1074) in
      let m := round_half_even (Zpos n * 2 ^ Z.max 0 (- u)) (Zpos d * 2 ^ Z.max 0 u) in
      if 2 ^ 1024 <=? m * 2 ^ Z.max 0 u then None
      else Some (Qred (Qmake (m * 2 ^ Z.max 0 u) (Z.to_pos (2 ^ Z.max 0 (- u)))))
  | _ => Some 0%Q
  end.

Definition float_of_Q (neg : bool) (q : Q) : pyfloat :=
  match to_binary64 q with
  | Some m => Finite neg m
  | None => Infinite neg
  end.

(** The number of hundredths nearest to a non-negative rational. *)
Definition hundredths (q : Q) : Z := round_half_even (Qnum q * 100) (Zpos (Qden q)).

(** [round(x, 2)]: the double nearest to the correctly rounded two-digit
    decimal of [x]. *)
Definition py_round2 (x : pyfloat) : pyfloat :=
  match x with
  | Finite neg m => float_of_Q neg (Qmake (hundredths m) 100)
  | _ => x
  end.

Definition two_digits (n : Z) : string :=
  pretty (Z.to_N (n / 10)) +:+ pretty (Z.to_N (n mod 10)).

(** [f"{x:.2f}"] *)
Definition format_2f (x : pyfloat) : string :=
  match x with
  | Finite neg m =>
      let k := hundredths m in
      (if neg then "-" else "") +:+ pretty (Z.to_N (k / 100)) +:+ "." +:+ two_digits (k mod 100)
  | Infinite neg => if neg then "-inf" else "inf"
  | NaN => "nan"
  end.

(** *** _COORD_RE and _round_coords *)

Fixpoint span_digits (l : list ascii) : list ascii * list ascii :=
  match l with
  | c :: l' =>
      if is_digit c then let '(ds, rest) := span_digits l' in (c :: ds, rest)
      else ([], l)
  | [] => ([], [])
  end.

Definition digits_value (ds : list ascii) : Z :=
  fold_left (fun acc c => 10 * acc + (code c - 48)) ds 0.

(** One number as [_COORD_RE] splits it. *)
Record coord : Type := Coord {
  minus : bool;
  int_digits : list ascii;
  frac_digits : list ascii;
  exp_minus : bool;
  exp_digits : list ascii
}.

(** A match of [-?\d+\.?\d*(?:e[+-]?\d+)?] (ignoring case) at the head of
    [l]: the number, the length of the match, the text after it. *)
Definition match_coord (l : list ascii) : option (coord * list ascii) :=
  let '(neg, l1) :=
    match l with
    | "-"%char :: l' => (true, l')
    | _ => (false, l)
    end in
  let '(ds, l2) := span_digits l1 in
  match ds with
  | [] => None
  | _ =>
      let l3 := match l2 with "."%char :: l' => l' | _ => l2 end in
      let '(fs, l4) := span_digits l3 in
      let no_exp := Some (Coord neg ds fs false [], l4) in
      match l4 with
      | e :: l5 =>
          if Ascii.eqb e "e" || Ascii.eqb e "E" then
            let '(eneg, l6) :=
              match l5 with
              | "-"%char :: l' => (true, l')
              | "+"%char :: l' => (false, l')
              | _ => (false, l5)
              end in
            let '(es, l7) := span_digits l6 in
            match es with
            | [] => no_exp
            | _ => Some (Coord neg ds fs eneg es, l7)
            end
          else no_exp
      | [] => no_exp
      end
  end.

(** [float(match.group(1))] *)
Definition float_of_coord (c : coord) : pyfloat :=
  let m := digits_value (int_digits c ++ frac_digits c) in
  let e := (if exp_minus c then - digits_value (exp_digits c) else digits_value (exp_digits c))
           - Z.of_nat (length (frac_digits c)) in
  float_of_Q (minus c)
    (if 0 <=? e then inject_Z (m * 10 ^ e) else Qmake m (Z.to_pos (10 ^ (- e)))).

(** [_round_coords]: round, print with two decimals, drop trailing zeros
    and a trailing point. *)
Definition _round_coords (c : coord) : list ascii :=
  let val := float_of_coord c in
  let rounded := py_round2 val in
  rstrip_char "." (rstrip_char "0" (chars (format_2f rounded))).

(** [_COORD_RE.sub(_round_coords, d)], left to right.  A turn consumes at
    least one character, so [length d] turns are enough. *)
Fixpoint sub_coords (fuel : nat) (l : list ascii) : list ascii :=
  match fuel with
  | O => l
  | S fuel' =>
      match l with
      | [] => []
      | c :: l' =>
          match match_coord l with
          | Some (m, rest) => _round_coords m ++ sub_coords fuel' rest
          | None => c :: sub_coords fuel' l'
          end
      end
  end.

Definition _round_path_coords (d : string) : string :=
  text (sub_coords (length (chars d)) (chars d)).

(** *** Element trees *)

(** An [xml.etree.ElementTree.Element]; [attrib] is the dictionary in
    insertion order. *)
#[warnings="-register-all"]
Inductive element : Type :=
  | Element (tag : string) (attrib : list (string * string)) (txt tail : string)
            (children : list element).

Definition tag_of (e : element) : string := match e with Element t _ _ _ _ => t end.
Definition attrib_of (e : element) : list (string * string) :=
  match e with Element _ a _ _ _ => a end.
Definition children_of (e : element) : list element :=
  match e with Element _ _ _ _ c => c end.

Fixpoint size (e : element) : nat :=
  match e with
  | Element _ _ _ _ cs => S (foldr (fun c n => (size c + n)%nat) 0%nat cs)
  end.

(** [elem.get(key)] *)
Fixpoint get (a : list (string * string)) (key : string) : option string :=
  match a with
  | [] => None
  | (k, v) :: a' => if bool_decide (k = key) then Some v else get a' key
  end.

(** [elem.set(key, v)] *)
Fixpoint set (a : list (string * string)) (key v : string) : list (string * string) :=
  match a with
  | [] => [(key, v)]
  | (k, v') :: a' => if bool_decide (k = key) then (k, v) :: a' else (k, v') :: set a' key v
  end.

(** [tag.split("}")[-1] if "}" in tag else tag] *)
Fixpoint after_last_brace (acc : list ascii) (l : list ascii) : list ascii :=
  match l with
  | [] => acc
  | "}"%char :: l' => after_last_brace l' l'
  | _ :: l' => after_last_brace acc l'
  end.
Definition local_name (tag : string) : string :=
  text (after_last_brace (chars tag) (chars tag)).

Definition NUMERIC_ATTRS : list string :=
  ["x"; "y"; "x1"; "y1"; "x2"; "y2"; "cx"; "cy"; "r"; "rx"; "ry"; "width"; "height"].

Section Rounding.
(** [float(val)] on any string ([None]: ValueError) and [str(x)]. *)
Variable float_of_string : string -> option pyfloat.
Variable str_of_float : pyfloat -> string.

(** The body of the loop of [_round_all_paths], on one element. *)
Definition round_attrib (a : list (string * string)) : list (string * string) :=
  let a :=
    match get a "d" with
    | Some d => if negb (bool_decide (d = "")) then set a "d" (_round_path_coords d) else a
    | None => a
    end in
  fold_left
    (fun a attr =>
       match get a attr with
       | Some val =>
           if negb (bool_decide (val = "")) then
             match float_of_string val with
             | Some x => set a attr (str_of_float (py_round2 x))
             | None => a
             end
           else a
       | None => a
       end) NUMERIC_ATTRS a.

Fixpoint _round_all_paths (e : element) : element :=
  match e with
  | Element tag attrib txt tail children =>
      Element tag (round_attrib attrib) txt tail (map _round_all_paths children)
  end.

(** [_optimize_viewbox] *)
Definition _optimize_viewbox (root : element) : element :=
  match root with
  | Element tag attrib txt tail children =>
      let nonempty o := match o with Some v => negb (bool_decide (v = "")) | None => false end in
      if nonempty (get attrib "width") && nonempty (get attrib "height")
         && negb (nonempty (get attrib "viewBox")) then
        match float_of_string (default "" (get attrib "width")),
              float_of_string (default "" (get attrib "height")) with
        | Some w, Some h =>
            Element tag (set attrib "viewBox" ("0 0 " +:+ format_2f w +:+ " " +:+ format_2f h))
                    txt tail children
        | _, _ => root
        end
      else root
  end.
End Rounding.

(** *** _collapse_empty_groups *)

(** A [<g>] with no attribute other than [id]. *)
Definition plain_group (e : element) : bool :=
  bool_decide (local_name (tag_of e) = "g")
  && forallb (fun kv => bool_decide (kv.1 = "id")) (attrib_of e).

(** The loop body on one parent: an empty plain group goes, a plain group
    with children is replaced by them, in place.  The flag is [changed]. *)
Fixpoint collapse_children (children : list element) : list element * bool :=
  match children with
  | [] => ([], false)
  | child :: rest =>
      let '(rest', changed) := collapse_children rest in
      if plain_group child then
        match children_of child with
        | [] => (rest', changed)
        | grandchildren => (grandchildren ++ rest', true)
        end
      else (child :: rest', changed)
  end.

(** One [for parent in root.iter()] pass.  The iterator reads each child
    list when it reaches it, so a parent's new children are visited next. *)
Fixpoint collapse_pass (fuel : nat) (e : element) : element * bool :=
  match fuel with
  | O => (e, false)
  | S fuel' =>
      match e with
      | Element tag attrib txt tail children =>
          let '(children', changed) := collapse_children children in
          let visited := map (collapse_pass fuel') children' in
          (Element tag attrib txt tail (map fst visited),
           changed || existsb snd visited)
      end
  end.

(** [while changed]: a pass that sets the flag removes a group, so
    [size root] passes are enough. *)
Fixpoint collapse_loop (fuel : nat) (root : element) : element :=
  match fuel with
  | O => root
  | S fuel' =>
      let '(root', changed) := collapse_pass (size root) root in
      if changed then collapse_loop fuel' root' else root'
  end.

Definition _collapse_empty_groups (root : element) : element :=
  collapse_loop (size root) root.

(** *** _merge_same_fill_paths *)

Definition mergeable (curr nxt : element) : bool :=
  bool_decide (local_name (tag_of curr) = "path")
  && bool_decide (local_name (tag_of nxt) = "path")
  && bool_decide (default "" (get (attrib_of curr) "fill")
                  = default "" (get (attrib_of nxt) "fill"))
  && bool_decide (default "" (get (attrib_of curr) "fill-rule")
                  = default "" (get (attrib_of nxt) "fill-rule"))
  && negb (bool_decide (default "" (get (attrib_of curr) "fill") = "")).

Definition merge_into (curr nxt : element) : element :=
  match curr with
  | Element tag attrib txt tail children =>
      let merged_d :=
        text (strip (chars (default "" (get attrib "d") +:+ " "
                            +:+ default "" (get (attrib_of nxt) "d")))) in
      Element tag (set attrib "d" merged_d) txt tail children
  end.

(** The [while i < len(children) - 1] loop, [curr] being [children[i]]. *)
Fixpoint merge_run (curr : element) (rest : list element) : list element :=
  match rest with
  | [] => [curr]
  | nxt :: rest' =>
      if mergeable curr nxt then merge_run (merge_into curr nxt) rest'
      else curr :: merge_run nxt rest'
  end.

Definition merge_children (children : list element) : list element :=
  match children with
  | [] => []
  | c :: rest => merge_run c rest
  end.

Fixpoint merge_pass (fuel : nat) (e : element) : element :=
  match fuel with
  | O => e
  | S fuel' =>
      match e with
      | Element tag attrib txt tail children =>
          Element tag attrib txt tail (map (merge_pass fuel') (merge_children children))
      end
  end.

Definition _merge_same_fill_paths (root : element) : element :=
  merge_pass (size root) root.

(** *** Comments and whitespace *)

(** The text after the first ["-->"] of [l], if there is one. *)
Fixpoint after_comment_end (l : list ascii) : option (list ascii) :=
  match l with
  | "-"%char :: (("-"%char :: ">"%char :: rest) as l') =>
      Some rest
  | _ :: l' => after_comment_end l'
  | [] => None
  end.

(** [_COMMENT_RE.sub("", svg)] *)
Fixpoint remove_comments (fuel : nat) (l : list ascii) : list ascii :=
  match fuel with
  | O => l
  | S fuel' =>
      match l with
      | [] => []
      | c :: l' =>
          match l with
          | "<"%char :: "!"%char :: "-"%char :: "-"%char :: body =>
              match after_comment_end body with
              | Some rest => remove_comments fuel' rest
              | None => c :: remove_comments fuel' l'
              end
          | _ => c :: remove_comments fuel' l'
          end
      end
  end.

(** [_WHITESPACE_RE.sub(" ", svg)] *)
Fixpoint collapse_whitespace (in_run : bool) (l : list ascii) : list ascii :=
  match l with
  | [] => []
  | c :: l' =>
      if is_space c then
        if in_run then collapse_whitespace true l'
        else " "%char :: collapse_whitespace true l'
      else c :: collapse_whitespace false l'
  end.

(** [re.sub(r"\s*X\s*", "X", svg)] for a character X that is no space:
    [pending] is the run of spaces read since the last other character,
    [skipping] says that the last other character was an X. *)
Fixpoint squeeze (x : ascii) (skipping : bool) (pending l : list ascii) : list ascii :=
  match l with
  | [] => pending
  | c :: l' =>
      if Ascii.eqb c x then c :: squeeze x true [] l'
      else if is_space c then
        if skipping then squeeze x true [] l' else squeeze x false (pending ++ [c]) l'
      else pending ++ c :: squeeze x false [] l'
  end.

Definition _minify (svg : list ascii) : list ascii :=
  let svg := map (fun c => if (code c =? 10) || (code c =? 13) || (code c =? 9)
                           then " "%char else c) svg in
  let svg := collapse_whitespace false svg in
  let svg := squeeze ">" false [] svg in
  let svg := squeeze "<" false [] svg in
  let svg := squeeze "=" false [] svg in
  strip svg.

(** *** optimize_svg *)

Definition XML_DECLARATION : string :=
  "<?xml version=" +:+ dquote +:+ "1.0" +:+ dquote +:+ " encoding=" +:+ dquote
  +:+ "UTF-8" +:+ dquote +:+ "?>" +:+ newline.

Section OptimizeSvg.
Variable float_of_string : string -> option pyfloat.
Variable str_of_float : pyfloat -> string.
(** [ET.fromstring] ([None]: ParseError) and
    [ET.tostring(root, encoding="unicode", xml_declaration=False)], with
    the two namespaces registered. *)
Variable fromstring : string -> option element.
Variable tostring : element -> string.

Definition optimize_svg (svg_content : string) (settings : gmap string value) : string :=
  if bool_decide (svg_content = "") then svg_content
  else
    let flag key := truthy (dict_get settings key (VBool true)) in
    let do_round := flag "round_coords" in
    let do_comments := flag "remove_comments" in
    let do_minify := flag "minify" in
    let do_merge := flag "merge_paths" in
    let do_collapse := flag "collapse_groups" in
    let do_viewbox := flag "optimize_viewbox" in
    let svg := svg_content in
    let svg :=
      if do_comments then text (remove_comments (length (chars svg)) (chars svg)) else svg in
    match fromstring svg with
    | None =>
        if do_minify then text (strip (collapse_whitespace false (chars svg))) else svg
    | Some root =>
        let root :=
          if do_round then _round_all_paths float_of_string str_of_float root else root in
        let root := if do_collapse then _collapse_empty_groups root else root in
        let root := if do_merge then _merge_same_fill_paths root else root in
        let root := if do_viewbox then _optimize_viewbox float_of_string root else root in
        let svg_out := tostring root in
        let svg_out := XML_DECLARATION +:+ svg_out in
        if do_minify then text (_minify (chars svg_out)) else svg_out
    end.
End OptimizeSvg.

(** *** A document for evaluating [optimize_svg] *)

Definition SVG_NS : string := "http://www.w3.org/2000/svg".

(** An SVG document with one path, as text ... *)
Definition svg_doc (d : string) : string :=
  "<svg xmlns=" +:+ dquote +:+ SVG_NS +:+ dquote +:+ "><path d=" +:+ dquote +:+ d
  +:+ dquote +:+ "/></svg>".

(** ... as the tree ElementTree builds from it ... *)
Definition svg_tree (d : string) : element :=
  Element ("{" +:+ SVG_NS +:+ "}svg") [] "" ""
    [Element ("{" +:+ SVG_NS +:+ "}path") [("d", d)] "" "" []].

(** ... as ElementTree writes that tree ... *)
Definition svg_serialized (d : string) : string :=
  "<svg xmlns=" +:+ dquote +:+ SVG_NS +:+ dquote +:+ "><path d=" +:+ dquote +:+ d
  +:+ dquote +:+ " /></svg>".

(** ... and as [optimize_svg] returns it: declaration first, no line
    feed, no space next to a tag bracket. *)
Definition svg_optimized (d : string) : string :=
  "<?xml version=" +:+ dquote +:+ "1.0" +:+ dquote +:+ " encoding=" +:+ dquote
  +:+ "UTF-8" +:+ dquote +:+ "?>" +:+ svg_serialized d.

(** A parser and a writer that know these documents only. *)
Definition fromstring_table (s : string) : option element :=
  if bool_decide (s = svg_doc "M2.0.125 3 4") then Some (svg_tree "M2.0.125 3 4")
  else if bool_decide (s = svg_optimized "M2.125 3 4") then Some (svg_tree "M2.125 3 4")
  else None.

Definition tostring_table (e : element) : string :=
  match e with
  | Element _ _ _ _ [Element _ [(_, d)] _ _ _] => svg_serialized d
  | _ => ""
  end.

End Optimizer.

(** ** engine.py *)

Module Engine.

(** *** Defaults *)

Definition DEFAULT_SETTINGS : gmap string value :=
  list_to_map
    [ ("mode", VStr "auto"); ("n_colors", VInt 16); ("quantize_method", VStr "kmeans");
      ("detail", VStr "medium"); ("smooth", VBool true); ("upscale", VBool true);
      ("denoise", VBool true); ("bilateral", VBool true); ("clahe", VBool true);
      ("sharpen", VBool true); ("background", VStr "none"); ("optimize", VBool true);
      ("min_area", VInt 4) ].

(** *** _detect_mode *)

(** [len(np.unique(rows))]: the number of distinct rows. *)
Fixpoint unique_rows (seen : list bgr) (rows : list bgr) : list bgr :=
  match rows with
  | [] => seen
  | x :: rows' =>
      if existsb (bgr_eqb x) seen then unique_rows seen rows'
      else unique_rows (x :: seen) rows'
  end.

(** The three statistics, then the decision list of lines 63 to 71.
    [edge_density] and [std_dev] are the doubles that OpenCV and numpy
    return, as rationals; a double is below 0.05 (below 30) exactly when
    its value is below 1/20 (below 30). *)
Definition decide_mode (unique_colors : nat) (edge_density std_dev : Q) : string :=
  if (unique_colors <? 64)%nat && negb (Qle_bool (5 # 100) edge_density) then "logo"
  else if (unique_colors <? 16)%nat then "pixel_art"
  else if negb (Qle_bool 30 std_dev) then "line_art"
  else if (1000 <? unique_colors)%nat then "photo"
  else "auto".

(** [unique_colors]: the distinct rows of the sample, which is the whole
    array up to 10000 pixels and the rows [idx] of it beyond.  [idx] is what
    [np.random.choice(len(sample), 10000, replace=False)] returns if the
    call is made: numpy's process-wide generator is not seeded anywhere in
    the repository. *)
Definition unique_colors_of (idx : list nat) (data : list bgr) : nat :=
  let sample :=
    if (10000 <? Z.of_nat (length data))
    then map (fun i => nth i data (0, 0, 0)) idx
    else data in
  length (unique_rows [] sample).

Section DetectMode.
(** [float(cv2.Canny(gray, 50, 150).sum() / 255) / (h * w)] and
    [float(gray.std())] of the image's color planes. *)
Variable Canny_edge_density : list bgr -> Q.
Variable gray_std : list bgr -> Q.

Definition _detect_mode (idx : list nat) (im : image) : string :=
  match im with
  | Gray _ _ _ | Gray1 _ _ _ => "line_art"
  | BGR _ _ data | BGRA _ _ data _ =>
      decide_mode (unique_colors_of idx data) (Canny_edge_density data) (gray_std data)
  end.
End DetectMode.


(** *** The pipeline *)

(** The object store: every dictionary the run can reach, by identity. *)
Record state : Type := State {
  heap : gmap positive (gmap string value);
  (** the calls made to [progress_callback], oldest first *)
  calls : list (Z * string)
}.

Record bundle : Type := Bundle {
  svg : string;
  quantized_img : list bgr;
  palette : list string;
  masks : list (list Z);
  width : nat;
  height : nat
}.

(** The collaborators of [VectorizationEngine.vectorize]: what each call
    returns or raises.  [exn] is the type of exceptions. *)
Record components (exn : Type) : Type := Components {
  (** [self._load_image(image_data)] *)
  _load_image : list Byte.byte -> result exn image;
  (** the two statistics and the draw of [_detect_mode] *)
  Canny_edge_density : list bgr -> Q;
  gray_std : list bgr -> Q;
  random_choice : list nat;
  (** [self._preprocessor.preprocess(image, cfg)] *)
  preprocess : image -> gmap string value -> result exn image;
  (** [self._quantizer.quantize(bgr_image, n_colors, method)] *)
  quantize : nat -> nat -> list bgr -> value -> value ->
             result exn (list bgr * list string * list (list Z));
  (** [self._tracer.trace_layer(mask, color, cfg)] *)
  trace_layer : list Z -> string -> gmap string value -> result exn string;
  (** [self._tracer.assemble_svg(layers, w, h, cfg)], which joins
      formatted strings and has no raising path *)
  assemble_svg : list (string * string) -> nat -> nat -> gmap string value -> string;
  (** [self._optimizer.optimize_svg(svg_raw, cfg)] *)
  optimize_svg : string -> gmap string value -> result exn string;
  (** [progress_callback], if one is supplied *)
  progress_callback : option (Z -> string -> result exn unit)
}.
Arguments _load_image {exn}.
Arguments Canny_edge_density {exn}.
Arguments gray_std {exn}.
Arguments random_choice {exn}.
Arguments preprocess {exn}.
Arguments quantize {exn}.
Arguments trace_layer {exn}.
Arguments assemble_svg {exn}.
Arguments optimize_svg {exn}.
Arguments progress_callback {exn}.

Section Vectorize.
Context {exn : Type}.

(** Computations that read and update the store and may raise. *)
Definition M (A : Type) : Type := state -> result exn A * state.

Definition ret {A} (a : A) : M A := fun st => (Ok a, st).
Definition raise {A} (e : exn) : M A := fun st => (Raise e, st).
Definition bind {A B} (m : M A) (k : A -> M B) : M B :=
  fun st =>
    match m st with
    | (Ok a, st') => k a st'
    | (Raise e, st') => (Raise e, st')
    end.
Definition lift {A} (r : result exn A) : M A := fun st => (r, st).
(** [try: m  except Exception as exc: h exc] *)
Definition try_except {A} (m : M A) (h : exn -> M A) : M A :=
  fun st =>
    match m st with
    | (Ok a, st') => (Ok a, st')
    | (Raise e, st') => h e st'
    end.

Notation "'do' x <- m ; k" := (bind m (fun x => k))
  (at level 10, x name, m at level 100, k at level 200).
Notation "'run' m ; k" := (bind m (fun _ => k))
  (at level 10, m at level 100, k at level 200).

(** [{**a, **b}]: a new dictionary object. *)
Definition new_dict (d : gmap string value) : M positive :=
  fun st =>
    let l := fresh (dom (heap st)) in
    (Ok l, State (<[l := d]> (heap st)) (calls st)).

(** The dictionary behind a reference; an unbound reference reads empty. *)
Definition read (l : positive) : M (gmap string value) :=
  fun st => (Ok (default ∅ (heap st !! l)), st).

(** [d[key] = v] on the object [l]. *)
Definition setitem (l : positive) (key : string) (v : value) : M unit :=
  fun st =>
    (Ok tt, State (alter (fun d => <[key := v]> d) l (heap st)) (calls st)).

Variable C : components exn.

(** The nested [_progress]: the callback is called if there is one, and
    whatever it raises is dropped. *)
Definition _progress (pct : Z) (stage : string) : M unit :=
  match progress_callback C with
  | Some cb =>
      try_except
        (fun st =>
           let st' := State (heap st) (calls st ++ [(pct, stage)]) in
           (cb pct stage, st'))
        (fun _ => ret tt)
  | None => ret tt
  end.

(** Lines 145 to 159: drop the alpha plane, widen gray to three planes. *)
Definition to_bgr_image (processed : image) : nat * nat * list bgr :=
  match processed with
  | BGRA h w data _ => (h, w, data)
  | BGR h w data => (h, w, data)
  | Gray h w data | Gray1 h w data => (h, w, map (fun v => (v, v, v)) data)
  end.

(** The [for ... in zip(palette, masks)] loop. *)
Fixpoint trace_layers (cfg : gmap string value) (pairs : list (string * list Z))
  : list (string * string) :=
  match pairs with
  | [] => []
  | (color, mask) :: pairs' =>
      match trace_layer C mask color cfg with
      | Ok path_el =>
          if negb (bool_decide (path_el = ""))
          then (color, path_el) :: trace_layers cfg pairs'
          else trace_layers cfg pairs'
      | Raise _ => trace_layers cfg pairs'
      end
  end.

Definition vectorize (image_data : list Byte.byte) (settings : positive) : M bundle :=
  do s <- read settings;
  do cfg <- new_dict (s ∪ DEFAULT_SETTINGS);
  run _progress 0 "loading";
  do image <- lift (_load_image C image_data);
  do c <- read cfg;
  run (if value_eqb (dict_get c "mode" (VStr "")) (VStr "auto")
       then setitem cfg "mode"
              (VStr (_detect_mode (Canny_edge_density C) (gray_std C) (random_choice C) image))
       else ret tt);
  run _progress 10 "preprocessing";
  do c <- read cfg;
  do processed <- try_except (lift (preprocess C image c)) (fun _ => ret image);
  run _progress 30 "quantizing";
  let '(h, w, bgr_image) := to_bgr_image processed in
  let unique_pixels := unique_rows [] bgr_image in
  match unique_pixels with
  | [color] =>
      let hex_c := Quantizer._bgr_to_hex color in
      let full_mask := replicate (h * w) 255 in
      do path_el <- lift (trace_layer C full_mask hex_c c);
      let svg := assemble_svg C [(hex_c, path_el)] w h c in
      ret (Bundle svg bgr_image [hex_c] [full_mask] w h)
  | _ =>
      let n_colors := dict_get c "n_colors" (VInt 16) in
      let method := dict_get c "quantize_method" (VStr "kmeans") in
      do q <- try_except (lift (quantize C h w bgr_image n_colors method))
                         (fun exc => raise exc);
      let '(quantized_img, palette, masks) := q in
      run _progress 55 "tracing";
      let layers := trace_layers c (zip palette masks) in
      run _progress 80 "assembling";
      let svg_raw := assemble_svg C layers w h c in
      run _progress 90 "optimizing";
      do svg_final <-
        (if truthy (dict_get c "optimize" (VBool true))
         then try_except (lift (optimize_svg C svg_raw c)) (fun _ => ret svg_raw)
         else ret svg_raw);
      run _progress 100 "done";
      ret (Bundle svg_final quantized_img palette masks w h)
  end.
(** Named intermediates of a run: [cfg] when [preprocess] is called, and
    [processed] after the [try] around it. *)
Definition cfg_after_detect (s : gmap string value) (im : image) : gmap string value :=
  let c := s ∪ DEFAULT_SETTINGS in
  if value_eqb (dict_get c "mode" (VStr "")) (VStr "auto")
  then <["mode" :=
           VStr (_detect_mode (Canny_edge_density C) (gray_std C) (random_choice C) im)]> c
  else c.

Definition processed_of (im : image) (c : gmap string value) : image :=
  match preprocess C im c with
  | Ok processed => processed
  | Raise _ => im
  end.

(** The processed array has exactly one distinct color. *)
Definition single_color (processed : image) : Prop :=
  exists color, unique_rows [] (to_bgr_image processed).2 = [color].

(** The log after one [_progress] call. *)
Definition emit (pct : Z) (stage : string) (log : list (Z * string)) : list (Z * string) :=
  match progress_callback C with
  | Some _ => log ++ [(pct, stage)]
  | None => log
  end.

(** The SVG of the main path, after the optimizer's [try]. *)
Definition svg_final_of (c : gmap string value) (svg_raw : string) : string :=
  if truthy (dict_get c "optimize" (VBool true)) then
    match optimize_svg C svg_raw c with
    | Ok out => out
    | Raise _ => svg_raw
    end
  else svg_raw.

(** A run of [vectorize], stage by stage. *)
Definition outcome (image_data : list Byte.byte) (settings : positive) (st : state)
  : result exn bundle * state :=
  let s := default ∅ (heap st !! settings) in
  let cfg := fresh (dom (heap st)) in
  let log1 := emit 0 "loading" (calls st) in
  match _load_image C image_data with
  | Raise e => (Raise e, State (<[cfg := s ∪ DEFAULT_SETTINGS]> (heap st)) log1)
  | Ok im =>
      let c := cfg_after_detect s im in
      let hp := <[cfg := c]> (heap st) in
      let processed := processed_of im c in
      let log3 := emit 30 "quantizing" (emit 10 "preprocessing" log1) in
      let '(h, w, bgr_image) := to_bgr_image processed in
      match unique_rows [] bgr_image with
      | [color] =>
          let hex_c := Quantizer._bgr_to_hex color in
          let full_mask := replicate (h * w) 255 in
          match trace_layer C full_mask hex_c c with
          | Ok path_el =>
              (Ok (Bundle (assemble_svg C [(hex_c, path_el)] w h c)
                          bgr_image [hex_c] [full_mask] w h),
               State hp log3)
          | Raise e => (Raise e, State hp log3)
          end
      | _ =>
          match quantize C h w bgr_image (dict_get c "n_colors" (VInt 16))
                         (dict_get c "quantize_method" (VStr "kmeans")) with
          | Raise e => (Raise e, State hp log3)
          | Ok (quantized_img, palette, masks) =>
              let layers := trace_layers c (zip palette masks) in
              let svg_raw := assemble_svg C layers w h c in
              (Ok (Bundle (svg_final_of c svg_raw) quantized_img palette masks w h),
               State hp
                 (emit 100 "done"
                    (emit 90 "optimizing"
                       (emit 80 "assembling" (emit 55 "tracing" log3)))))
          end
      end
  end.

End Vectorize.

(** The seven stage boundaries, as [vectorize] names them. *)
Definition STAGES : list (Z * string) :=
  [(0, "loading"); (10, "preprocessing"); (30, "quantizing"); (55, "tracing");
   (80, "assembling"); (90, "optimizing"); (100, "done")].

(** [C] with a preprocessor that returns its input where [C]'s raises. *)
Definition absorb_preprocess {exn} (C : components exn) : components exn :=
  Components exn (_load_image C) (Canny_edge_density C) (gray_std C) (random_choice C)
    (fun im cfg => match preprocess C im cfg with Ok p => Ok p | Raise _ => Ok im end)
    (quantize C) (trace_layer C) (assemble_svg C) (optimize_svg C) (progress_callback C).

(** [C] with an optimizer that returns its input where [C]'s raises. *)
Definition absorb_optimize {exn} (C : components exn) : components exn :=
  Components exn (_load_image C) (Canny_edge_density C) (gray_std C) (random_choice C)
    (preprocess C) (quantize C) (trace_layer C) (assemble_svg C)
    (fun svg cfg => match optimize_svg C svg cfg with Ok o => Ok o | Raise _ => Ok svg end)
    (progress_callback C).

(** *** Components for evaluating concrete runs *)

(** A decoder that yields [im]; the preprocessor with sampling kernels;
    the quantizer by median cut, whatever the method asked for; a tracer
    that returns a token per layer or raises; an optimizer that returns its
    input; a callback that returns, if [with_callback]. *)
Definition example_components (im : image) (with_callback tracer_raises : bool)
  : components unit :=
  Components unit
    (fun _ => Ok im)
    (fun _ => 0%Q) (fun _ => 0%Q) []
    (fun im cfg =>
       match Preprocessor.preprocess_with_identity_kernels im cfg with
       | Ok (processed, _) => Ok processed
       | Raise _ => Raise tt
       end)
    (fun h w data n_colors method =>
       match n_colors with
       | VInt k =>
           match Quantizer.quantize_median_cut data None k with
           | Ok q => Ok (Quantizer.quantized_img q, Quantizer.hex_colors q, Quantizer.masks q)
           | Raise e => Raise e
           end
       | _ => Raise tt
       end)
    (fun mask color cfg => if tracer_raises then Raise tt else Ok ("path " +:+ color))
    (fun layers w h cfg => foldr (fun l acc => l.2 +:+ ";" +:+ acc) "" layers)
    (fun svg cfg => Ok svg)
    (if with_callback then Some (fun _ _ => Ok tt) else None).

(** A 2x2 array of one color, and one of two colors. *)
Definition solid_red : image := BGR 2 2 (replicate 4 (0, 0, 255)).
Definition black_white : image := BGR 2 2 [(0, 0, 0); (255, 255, 255); (0, 0, 0); (255, 255, 255)].

(** A caller's store: the settings dictionary [{"upscale": False}] at
    reference 1, and an empty call log. *)
Definition example_settings : gmap string value := {[ "upscale" := VBool false ]}.
Definition example_store : state := State {[ 1%positive := example_settings ]} [].

(** [C] with a decoder that raises, and with a quantizer that raises. *)
Definition with_failing_decoder {exn} (e : exn) (C : components exn) : components exn :=
  Components exn (fun _ => Raise e) (Canny_edge_density C) (gray_std C) (random_choice C)
    (preprocess C) (quantize C) (trace_layer C) (assemble_svg C) (optimize_svg C)
    (progress_callback C).
Definition with_failing_quantizer {exn} (e : exn) (C : components exn) : components exn :=
  Components exn (_load_image C) (Canny_edge_density C) (gray_std C) (random_choice C)
    (preprocess C) (fun _ _ _ _ _ => Raise e) (trace_layer C) (assemble_svg C)
    (optimize_svg C) (progress_callback C).

(** The run of the two-color array, with a callback. *)
Definition two_color_run : result unit bundle * state :=
  vectorize (example_components black_white true false) [] 1%positive example_store.

(** *** Arrays for evaluating [_detect_mode] *)

(** An 8x16 array of 128 grays, 0, 2, ..., 254. *)
Definition gray_ramp : list bgr := map (fun v => (2 * v, 2 * v, 2 * v)) (seqZ 0 128).

End Engine.

(** ** engine.py: one collaborator replaced *)

Module EngineVariants.
Import Engine.

(** [C] with another quantizer and another optimizer. *)
Definition replace_quantizer_optimizer {exn}
    (q : nat -> nat -> list bgr -> value -> value ->
         result exn (list bgr * list string * list (list Z)))
    (o : string -> gmap string value -> result exn string)
    (C : components exn) : components exn :=
  Components exn (_load_image C) (Canny_edge_density C) (gray_std C) (random_choice C)
    (preprocess C) q (trace_layer C) (assemble_svg C) o (progress_callback C).

(** [C] with other statistics and another random draw in [_detect_mode]. *)
Definition replace_detector {exn} (edge_density std_dev : list bgr -> Q) (idx : list nat)
    (C : components exn) : components exn :=
  Components exn (_load_image C) edge_density std_dev idx
    (preprocess C) (quantize C) (trace_layer C) (assemble_svg C) (optimize_svg C)
    (progress_callback C).

End EngineVariants.

(** ** engine.py: the tracer and the alpha plane *)

Module EngineTracing.
Import Engine.

(** [C] with another tracer. *)
Definition replace_tracer {exn}
    (t : list Z -> string -> gmap string value -> result exn string)
    (C : components exn) : components exn :=
  Components exn (_load_image C) (Canny_edge_density C) (gray_std C) (random_choice C)
    (preprocess C) (quantize C) t (assemble_svg C) (optimize_svg C) (progress_callback C).

(** [C] with a tracer that returns the empty path where [C]'s raises: the
    layer is left out, as the [except] of the tracing loop (lines 194 and
    195) leaves it out. *)
Definition absorb_tracer {exn} (C : components exn) : components exn :=
  replace_tracer
    (fun mask color cfg =>
       match trace_layer C mask color cfg with
       | Ok path_el => Ok path_el
       | Raise _ => Ok ""
       end) C.

(** [C] with another quantizer. *)
Definition replace_quantizer {exn}
    (q : nat -> nat -> list bgr -> value -> value ->
         result exn (list bgr * list string * list (list Z)))
    (C : components exn) : components exn :=
  Components exn (_load_image C) (Canny_edge_density C) (gray_std C) (random_choice C)
    (preprocess C) q (trace_layer C) (assemble_svg C) (optimize_svg C) (progress_callback C).

(** The array [im] with [f] applied to its alpha plane, if it has one. *)
Definition map_alpha (f : list Z -> list Z) (im : image) : image :=
  match im with
  | BGRA h w data a => BGRA h w data (f a)
  | _ => im
  end.

(** [C] with a preprocessor whose results carry another alpha plane, and
    the same color planes. *)
Definition replace_processed_alpha {exn} (f : list Z -> list Z) (C : components exn)
  : components exn :=
  Components exn (_load_image C) (Canny_edge_density C) (gray_std C) (random_choice C)
    (fun im cfg =>
       match preprocess C im cfg with
       | Ok processed => Ok (map_alpha f processed)
       | Raise e => Raise e
       end)
    (quantize C) (trace_layer C) (assemble_svg C) (optimize_svg C) (progress_callback C).

(** A tracer that compares as [trace_layer] does at line 192 of
    tracer.py, [area < min_area] with
    [min_area = settings.get("min_area", 4)] and [area] a float: the
    comparison raises TypeError when the setting is a string, and the
    tracer returns a token otherwise. *)
Definition tracer_comparing_min_area (mask : list Z) (color : string)
    (cfg : gmap string value) : result unit string :=
  match dict_get cfg "min_area" (VInt 4) with
  | VStr _ => Raise tt
  | _ => Ok ("path " +:+ color)
  end.

(** A caller's store whose settings name the mode and the median cut and
    switch every stage of the preprocessor off: the run calls OpenCV for
    no pixel of the array it quantizes. *)
Definition plain_settings : gmap string value :=
  list_to_map
    [ ("mode", VStr "logo"); ("quantize_method", VStr "median_cut");
      ("upscale", VBool false); ("denoise", VBool false); ("bilateral", VBool false);
      ("clahe", VBool false); ("sharpen", VBool false) ].
Definition plain_store : state := State {[ 1%positive := plain_settings ]} [].

(** The same settings with [min_area] given as text, ["4"]. *)
Definition min_area_as_text : gmap string value :=
  <["min_area" := VStr "4"]> plain_settings.
Definition store_with_min_area_as_text : state :=
  State {[ 1%positive := min_area_as_text ]} [].

(** A 1x2 array of two colors with four channels: the first pixel is
    fully transparent, the second fully opaque. *)
Definition translucent_pair : image :=
  BGRA 1 2 [(10, 10, 10); (200, 200, 200)] [0; 255].

End EngineTracing.

(** ** engine.py: an array whose mode depends on the draw *)

Module EngineSampling.






End EngineSampling.

(** ** preprocessor.py: the array of a run *)

Module PreprocessorRuns.
Import Preprocessor.

(** The array a call of [preprocess] returns, without the call log. *)
Definition returned_image (r : result error (image * list cv2_call)) : result error image :=
  match r with
  | Ok (im, _) => Ok im
  | Raise e => Raise e
  end.

(** An (h, w, 3) array, or an (h, w, 4) array if there is an alpha plane. *)
Definition color_image (h w : nat) (data : list bgr) (alpha : option (list Z)) : image :=
  match alpha with
  | Some a => BGRA h w data a
  | None => BGR h w data
  end.

(** The upscale factor by the longest side: lines 115 to 122 of [_analyse]. *)
Definition scale_for (longest : nat) : nat :=
  if (longest <? 200)%nat then 4%nat
  else if (longest <? 500)%nat then 3%nat
  else if (longest <? 1000)%nat then 2%nat
  else 1%nat.

(** Two work records with the same pixels. *)
Definition same_pixels (x y : work) : Prop :=
  wh x = wh y /\ ww x = ww y /\ wdata x = wdata y.

End PreprocessorRuns.

(** ** optimizer.py: shapes of element trees *)

Module OptimizerShapes.
Import Optimizer.

(** No two neighbours of a child list would be merged. *)
Fixpoint no_adjacent_mergeable (l : list element) : Prop :=
  match l with
  | a :: rest =>
      match rest with
      | b :: _ => mergeable a b = false
      | [] => True
      end /\ no_adjacent_mergeable rest
  | [] => True
  end.

(** A tree in which no two neighbouring siblings would be merged. *)
#[warnings="-register-all"]
Inductive merged : element -> Prop :=
  | merged_intro tag attrib txt tail children :
      no_adjacent_mergeable children ->
      Forall merged children ->
      merged (Element tag attrib txt tail children).

(** A tree in which no element below the root is a [<g>] without
    attributes other than [id]. *)
#[warnings="-register-all"]
Inductive group_free : element -> Prop :=
  | group_free_intro tag attrib txt tail children :
      Forall (fun c => plain_group c = false) children ->
      Forall group_free children ->
      group_free (Element tag attrib txt tail children).

(** Tag and attributes of the elements that are no such group, in document
    order. *)
Fixpoint content (e : element) : list (string * list (string * string)) :=
  match e with
  | Element tag attrib _ _ children =>
      (if plain_group e then [] else [(tag, attrib)]) ++ flat_map content children
  end.

(** What [mergeable] reads of an element. *)
Definition alike (a b : element) : Prop :=
  tag_of a = tag_of b /\
  get (attrib_of a) "fill" = get (attrib_of b) "fill" /\
  get (attrib_of a) "fill-rule" = get (attrib_of b) "fill-rule".

(** The sizes of a child list, summed. *)
Definition sizes (l : list element) : nat := foldr (fun c n => (size c + n)%nat) 0%nat l.

(** What one pass of [_collapse_empty_groups] does to an element: it
    does not grow, it shrinks if the flag is raised, it keeps the elements
    that are no bare group, and it leaves no bare group if the flag is not
    raised. *)
Definition pass_ok (fuel : nat) (e : element) : Prop :=
  let r := collapse_pass fuel e in
  (size r.1 <= size e)%nat /\
  (r.2 = true -> (size r.1 < size e)%nat) /\
  content r.1 = content e /\
  (r.2 = false -> group_free r.1).

End OptimizerShapes.

(** ** tracer.py *)

Module Tracer.

(** *** Chaikin's corner cutting *)

(** A row of an (N, 2) float64 array.  The points [_contour_to_path] hands
    to [_chaikin_smooth] are pixel coordinates, and every pass divides by
    four, exactly: the doubles of the source are these rationals as long as
    a coordinate times 4 to the number of passes stays below 2^53. *)
Definition point : Type := (Q * Q)%type.

(** [a * p0 + b * p1] without rounding: the value of the double where
    none of the two products and the sum rounds.  [lerp_float64] below
    rounds each of them. *)
Definition lerp (a b : Q) (p0 p1 : point) : point :=
  (a * p0.1 + b * p1.1, a * p0.2 + b * p1.2)%Q.

(** One turn of the [for _ in range(iterations)] loop. *)
Definition chaikin_pass (closed : bool) (pts : list point) : list point :=
  let n := length pts in
  let stop := if closed then n else (n - 1)%nat in
  flat_map
    (fun i =>
       let p0 := nth i pts (0, 0)%Q in
       let p1 := nth ((i + 1) mod n) pts (0, 0)%Q in
       [lerp (3 # 4) (1 # 4) p0 p1; lerp (1 # 4) (3 # 4) p0 p1])
    (seq 0 stop).

Fixpoint chaikin_loop (iterations : nat) (closed : bool) (pts : list point) : list point :=
  match iterations with
  | O => pts
  | S k => chaikin_loop k closed (chaikin_pass closed pts)
  end.

(** [points.astype(np.float64)] on a contour of pixel coordinates. *)
Definition astype_float64 (points : list (Z * Z)) : list point :=
  map (fun p => (inject_Z p.1, inject_Z p.2)) points.

Definition _chaikin_smooth (points : list (Z * Z)) (iterations : Z) (closed : bool)
  : list point :=
  chaikin_loop (Z.to_nat iterations) closed (astype_float64 points).

(** A point inside an axis-parallel box. *)
Definition in_box (xlo xhi ylo yhi : Q) (p : point) : Prop :=
  (xlo <= p.1 /\ p.1 <= xhi /\ ylo <= p.2 /\ p.2 <= yhi)%Q.

(** The sums of the two coordinates of a list of points. *)
Definition sum_x (pts : list point) : Q := foldr (fun p acc => (p.1 + acc)%Q) 0%Q pts.
Definition sum_y (pts : list point) : Q := foldr (fun p acc => (p.2 + acc)%Q) 0%Q pts.

End Tracer.

(** ** tracer.py: the smoothing loop on doubles *)

Module TracerFloat64.
Import Tracer.

(** The double nearest to a rational, ties to even; [None] where the
    magnitude is beyond the largest double. *)
Definition to_float64 (q : Q) : option Q :=
  match Qnum q with
  | Zneg n => Qopp <$> Optimizer.to_binary64 (Zpos n # Qden q)
  | _ => Optimizer.to_binary64 q
  end.

(** One coordinate of [a * p0 + b * p1] on float64 rows: numpy rounds the
    two products and the sum, each to a double. *)
Definition axpby (a b x0 x1 : Q) : option Q :=
  ax ← to_float64 (a * x0);
  bx ← to_float64 (b * x1);
  to_float64 (ax + bx).

Definition lerp_float64 (a b : Q) (p0 p1 : point) : option point :=
  x ← axpby a b p0.1 p1.1;
  y ← axpby a b p0.2 p1.2;
  Some (x, y).

(** One turn of the [for _ in range(iterations)] loop. *)
Definition chaikin_pass_float64 (closed : bool) (pts : list point) : option (list point) :=
  let n := length pts in
  let stop := if closed then n else (n - 1)%nat in
  new_pts ← mapM (fun i =>
                    let p0 := nth i pts (0, 0)%Q in
                    let p1 := nth ((i + 1) mod n) pts (0, 0)%Q in
                    q ← lerp_float64 (3 # 4) (1 # 4) p0 p1;
                    r ← lerp_float64 (1 # 4) (3 # 4) p0 p1;
                    Some [q; r])
                 (seq 0 stop);
  Some (concat new_pts).

Fixpoint chaikin_loop_float64 (iterations : nat) (closed : bool) (pts : list point)
  : option (list point) :=
  match iterations with
  | O => Some pts
  | S k => chaikin_pass_float64 closed pts ≫= chaikin_loop_float64 k closed
  end.

(** [points.astype(np.float64)]: each integer becomes the nearest double. *)
Definition astype_float64_rounded (points : list (Z * Z)) : option (list point) :=
  mapM (fun p : Z * Z =>
          x ← to_float64 (inject_Z p.1);
          y ← to_float64 (inject_Z p.2);
          Some (x, y))
       points.

(** [_chaikin_smooth] with the arithmetic of float64 arrays. *)
Definition _chaikin_smooth_float64 (points : list (Z * Z)) (iterations : Z) (closed : bool)
  : option (list point) :=
  astype_float64_rounded points ≫= chaikin_loop_float64 (Z.to_nat iterations) closed.

(** Two points with the same coordinates. *)
Definition same_point (p q : point) : Prop := (p.1 == q.1 /\ p.2 == q.2)%Q.

(** [x] is [z / 2^j] for an integer [z] of magnitude at most [M]. *)
Definition dyadic (j M : Z) (x : Q) : Prop :=
  exists z, Z.abs z <= M /\ (x == z # Z.to_pos (2 ^ j))%Q.
Definition dyadic_point (j M : Z) (p : point) : Prop := dyadic j M p.1 /\ dyadic j M p.2.

End TracerFloat64.

(** ** segmentation.py *)

Module Segmentation.

(** [l[i]] for a Python int: a negative index counts from the end;
    [None] stands for IndexError. *)
Definition py_index {A} (l : list A) (i : Z) : option A :=
  let n := Z.of_nat (length l) in
  if (0 <=? i) && (i <? n) then l !! Z.to_nat i
  else if (i <? 0) && (- n <=? i) then l !! Z.to_nat (n + i)
  else None.

(** [sorted(set(xs))] on ints. *)
Fixpoint insert_sorted (x : Z) (l : list Z) : list Z :=
  match l with
  | [] => [x]
  | y :: l' =>
      if x <? y then x :: l
      else if x =? y then l
      else y :: insert_sorted x l'
  end.

Definition sorted_set (xs : list Z) : list Z := foldr insert_sorted [] xs.

(** *** Colors *)

Definition is_hex (a : ascii) : bool :=
  let n := Z.of_nat (nat_of_ascii a) in
  ((48 <=? n) && (n <=? 57)) || ((97 <=? n) && (n <=? 102)) || ((65 <=? n) && (n <=? 70)).

(** [int(s, 16)] on a slice of two hexadecimal digits, which is its
    value.  [None] is every other slice: there the source raises
    ValueError, or, for a digit that stands alone or next to a sign or a
    blank, returns a number that this function does not give.  The
    statements about colors are about strings made of hexadecimal digits,
    as [_bgr_to_hex] writes them. *)
Definition hex_pair (s : string) : option Z :=
  match s with
  | String a (String b EmptyString) =>
      if is_hex a && is_hex b
      then Some (16 * Quantizer.hex_value a + Quantizer.hex_value b)
      else None
  | _ => None
  end.

(** [_hex_to_bgr], the copy of this file. *)
Definition _hex_to_bgr (hex_color : string) : option bgr :=
  let hex_color := Quantizer.lstrip_hash hex_color in
  match hex_pair (String.substring 0 2 hex_color),
        hex_pair (String.substring 2 2 hex_color),
        hex_pair (String.substring 4 2 hex_color) with
  | Some r, Some g, Some b => Some (b, g, r)
  | _, _, _ => None
  end.

(** The first six characters after the leading ['#'] are hexadecimal
    digits: each of the three slices is two digits, which [int(s, 16)]
    reads as [hex_pair] does. *)
Definition six_hex_digits (hex_color : string) : bool :=
  match String.list_ascii_of_string (Quantizer.lstrip_hash hex_color) with
  | a :: b :: c :: d :: e :: f :: _ =>
      is_hex a && is_hex b && is_hex c && is_hex d && is_hex e && is_hex f
  | _ => false
  end.

(** *** Arrays *)

Definition zeros_like (m : list Z) : list Z := map (fun _ => 0) m.

(** [cv2.bitwise_or] on two planes; [None] stands for the cv2.error that
    planes of different sizes raise. *)
Definition bitwise_or (a b : list Z) : option (list Z) :=
  if (length a =? length b)%nat then Some (zip_with Z.lor a b) else None.

(** [new_img[mask == 255] = c]; [None] stands for the IndexError that a
    mask of another shape raises. *)
Definition paint (img : list bgr) (mask : list Z) (c : bgr) : option (list bgr) :=
  if (length img =? length mask)%nat
  then Some (zip_with (fun px v => if v =? 255 then c else px) img mask)
  else None.

(** What the three operations return: image, masks, palette. *)
Definition segmentation : Type := (list bgr * list (list Z) * list string)%type.

(** *** merge_segments *)

(** The [for idx in indices_to_merge] loop. *)
Fixpoint merge_masks (indices : list Z) (keep_idx : Z) (keep_bgr : bgr)
    (masks : list (list Z)) (new_img : list bgr) (merged_mask : list Z)
  : option (list bgr * list Z) :=
  match indices with
  | [] => Some (new_img, merged_mask)
  | idx :: rest =>
      match py_index masks idx with
      | None => None
      | Some m =>
          match bitwise_or merged_mask m with
          | None => None
          | Some merged_mask' =>
              if idx =? keep_idx
              then merge_masks rest keep_idx keep_bgr masks new_img merged_mask'
              else
                match paint new_img m keep_bgr with
                | None => None
                | Some new_img' =>
                    merge_masks rest keep_idx keep_bgr masks new_img' merged_mask'
                end
          end
      end
  end.

(** The [for i, (m, c) in enumerate(zip(masks, palette))] loop, from
    position [i] on. *)
Fixpoint rebuild (i : nat) (indices : list Z) (keep_idx : Z) (merged_mask : list Z)
    (pairs : list (list Z * string)) : list (list Z * string) :=
  match pairs with
  | [] => []
  | (m, c) :: pairs' =>
      let rest := rebuild (S i) indices keep_idx merged_mask pairs' in
      if existsb (Z.eqb (Z.of_nat i)) indices && negb (Z.of_nat i =? keep_idx) then rest
      else if Z.of_nat i =? keep_idx then (merged_mask, c) :: rest
      else (m, c) :: rest
  end.

Definition merge_segments (quantized_img : list bgr) (masks : list (list Z))
    (palette : list string) (indices_to_merge : list Z) : option segmentation :=
  if (length indices_to_merge <? 2)%nat then Some (quantized_img, masks, palette)
  else
    let indices := sorted_set indices_to_merge in
    match indices with
    | [] => None
    | keep_idx :: _ =>
        match py_index palette keep_idx with
        | None => None
        | Some keep_color =>
            match _hex_to_bgr keep_color with
            | None => None
            | Some keep_bgr =>
                match py_index masks keep_idx with
                | None => None
                | Some keep_mask =>
                    match merge_masks indices keep_idx keep_bgr masks quantized_img
                            (zeros_like keep_mask) with
                    | None => None
                    | Some (new_img, merged_mask) =>
                        let rows := rebuild 0 indices keep_idx merged_mask (zip masks palette) in
                        Some (new_img, map fst rows, map snd rows)
                    end
                end
            end
        end
    end.

(** *** recolor_segment *)

(** [s.lower()] on ASCII text. *)
Definition lower_char (a : ascii) : ascii :=
  let n := nat_of_ascii a in
  if (65 <=? n)%nat && (n <=? 90)%nat then ascii_of_nat (n + 32) else a.

Fixpoint lower (s : string) : string :=
  match s with
  | EmptyString => EmptyString
  | String a s' => String (lower_char a) (lower s')
  end.

(** [new_color.lower() if new_color.startswith("#") else f"#{new_color}"] *)
Definition startswith_hash (s : string) : bool :=
  match s with
  | String a _ => Ascii.eqb a "#"%char
  | EmptyString => false
  end.

Definition palette_entry (new_color : string) : string :=
  if startswith_hash new_color then lower new_color else String "#"%char new_color.

Definition recolor_segment (quantized_img : list bgr) (masks : list (list Z))
    (palette : list string) (index : Z) (new_color : string) : option segmentation :=
  if (index <? 0) || (Z.of_nat (length masks) <=? index)
  then Some (quantized_img, masks, palette)
  else
    match _hex_to_bgr new_color with
    | None => None
    | Some new_bgr =>
        match paint quantized_img (nth (Z.to_nat index) masks []) new_bgr with
        | None => None
        | Some new_img =>
            if (Z.to_nat index <? length palette)%nat
            then Some (new_img, masks, <[Z.to_nat index := palette_entry new_color]> palette)
            else None
        end
    end.

(** *** delete_segment *)

(** [[x for i, x in enumerate(l) if i != index]] *)
Definition without {A} (index : nat) (l : list A) : list A := delete index l.

Definition delete_segment (quantized_img : list bgr) (masks : list (list Z))
    (palette : list string) (index : Z) : option segmentation :=
  if (index <? 0) || (Z.of_nat (length masks) <=? index)
  then Some (quantized_img, masks, palette)
  else
    match paint quantized_img (nth (Z.to_nat index) masks []) (0, 0, 0) with
    | None => None
    | Some new_img =>
        Some (new_img, without (Z.to_nat index) masks, without (Z.to_nat index) palette)
    end.

(** *** split_segment *)

Section Split.
(** [cv2.kmeans(pixel_coords, n_parts, None, criteria, 5,
    cv2.KMEANS_PP_CENTERS)[1].flatten()]; [None] stands for an
    exception. *)
Variable cv2_kmeans_labels : list (Z * Z) -> Z -> option (list Z).

(** [np.where(mask == 255)]: the positions in row-major order. *)
Definition where_255 (mask : list Z) : list nat :=
  filter (fun p => mask !! p = Some 255) (seq 0 (length mask)).

(** [part_mask[py, px] = 255] on an array of width [w]. *)
Definition set_255 (w : nat) (part_mask : list Z) (c : Z * Z) : list Z :=
  <[Z.to_nat (c.2 * Z.of_nat w + c.1) := 255]> part_mask.

(** One turn of the [for part in range(n_parts)] loop. *)
Definition part_mask_of (w : nat) (mask : list Z) (pixel_coords : list (Z * Z))
    (labels : list Z) (part : nat) : list Z :=
  let part_pixels :=
    map fst (filter (fun cl => cl.2 = Z.of_nat part) (zip pixel_coords labels)) in
  fold_left (set_255 w) part_pixels (zeros_like mask).

(** [split_segment] on arrays of width [w].  The coordinates are small
    integers, which float32 and int32 hold exactly. *)
Definition split_segment (w : nat) (quantized_img : list bgr) (masks : list (list Z))
    (palette : list string) (index : Z) (n_parts : Z) : option segmentation :=
  if (index <? 0) || (Z.of_nat (length masks) <=? index)
  then Some (quantized_img, masks, palette)
  else if n_parts <? 2 then Some (quantized_img, masks, palette)
  else
    let mask := nth (Z.to_nat index) masks [] in
    match palette !! Z.to_nat index with
    | None => None
    | Some color =>
        let positions := where_255 mask in
        if Z.of_nat (length positions) <? n_parts then Some (quantized_img, masks, palette)
        else
          let pixel_coords :=
            map (fun p => (Z.of_nat (p mod w), Z.of_nat (p / w))) positions in
          match cv2_kmeans_labels pixel_coords n_parts with
          | None => None
          | Some labels =>
              if negb (length labels =? length pixel_coords)%nat then None
              else
                let part_masks :=
                  map (part_mask_of w mask pixel_coords labels) (seq 0 (Z.to_nat n_parts)) in
                Some (quantized_img,
                      take (Z.to_nat index) masks ++ part_masks
                        ++ drop (S (Z.to_nat index)) masks,
                      take (Z.to_nat index) palette ++ replicate (Z.to_nat n_parts) color
                        ++ drop (S (Z.to_nat index)) palette)
          end
    end.
End Split.

(** *** Segmentations that fit together *)

(** The masks at the listed positions, [masks] starting at position [i]. *)
Fixpoint listed (i : nat) (indices : list Z) (masks : list (list Z)) : list (list Z) :=
  match masks with
  | [] => []
  | m :: masks' =>
      if existsb (Z.eqb (Z.of_nat i)) indices
      then m :: listed (S i) indices masks'
      else listed (S i) indices masks'
  end.

Definition binary_value (v : Z) : Prop := v = 0 \/ v = 255.

(** The number of masks that hold 255 at pixel [p]. *)
Definition owners (p : nat) (masks : list (list Z)) : nat :=
  length (filter (fun m => m !! p = Some 255) masks).

(** Image, masks and palette as [quantize] returns them without an alpha
    plane: one color per mask, all of the size of the image; at every
    pixel one mask holds 255 and the others 0; and the pixel has the color
    of the mask that holds it. *)
Record fits (quantized_img : list bgr) (masks : list (list Z)) (palette : list string)
  : Prop := Fits {
  fits_length : length masks = length palette;
  fits_shape : Forall (fun m => length m = length quantized_img) masks;
  fits_binary : Forall (Forall binary_value) masks;
  fits_owner : forall p, (p < length quantized_img)%nat -> owners p masks = 1%nat;
  fits_valid : Forall (fun c => is_Some (_hex_to_bgr c)) palette;
  fits_color : forall i m c p,
    masks !! i = Some m -> palette !! i = Some c -> m !! p = Some 255 ->
    exists px, _hex_to_bgr c = Some px /\ quantized_img !! p = Some px
}.

End Segmentation.

(** ** main.py: the job of a single upload *)

Module Main.

(** The entries of a job dictionary that are written after [_new_job]
    made it ([job_id], [type] and [created_at] never are). *)
Record job : Type := Job {
  status : string;
  progress : Z;
  stage : string;
  error : option string;
  svg : option string;
  palette : list string;
  masks : list (list Z);
  quantized_img : option (list bgr);
  width : nat;
  height : nat
}.

Definition _new_job : job := Job "queued" 0 "queued" None None [] [] None 0 0.

(** [_cb(pct, stage)], the closure that [_progress_cb(job)] returns. *)
Definition _cb (j : job) (call : Z * string) : job :=
  Job (status j) call.1 call.2 (error j) (svg j) (palette j) (masks j)
      (quantized_img j) (width j) (height j).

Section RunVectorize.
Context {exn : Type}.
(** The collaborators of the module-level [_engine]. *)
Variable C : Engine.components exn.
(** [str(exc)] *)
Variable str : exn -> string.

(** [_engine.vectorize(..., progress_callback=_progress_cb(job))]: the
    callback returns None and raises nothing. *)
Definition engine_with_job_callback : Engine.components exn :=
  Engine.Components exn (Engine._load_image C) (Engine.Canny_edge_density C)
    (Engine.gray_std C) (Engine.random_choice C) (Engine.preprocess C) (Engine.quantize C)
    (Engine.trace_layer C) (Engine.assemble_svg C) (Engine.optimize_svg C)
    (Some (fun _ _ => Ok tt)).

(** [_run_vectorize(job, image_data, settings)].  The writes of the
    callback to [job] are replayed from the calls that the run of the
    engine added to the log. *)
Definition _run_vectorize (j : job) (image_data : list Byte.byte) (settings : positive)
    (st : Engine.state) : job * Engine.state :=
  let j := Job "processing" (progress j) (stage j) (error j) (svg j) (palette j) (masks j)
               (quantized_img j) (width j) (height j) in
  let '(r, st') := Engine.vectorize engine_with_job_callback image_data settings st in
  let j := fold_left _cb (drop (length (Engine.calls st)) (Engine.calls st')) j in
  match r with
  | Ok result =>
      (Job "done" 100 "done" (error j) (Some (Engine.svg result)) (Engine.palette result)
           (Engine.masks result) (Some (Engine.quantized_img result))
           (Engine.width result) (Engine.height result), st')
  | Raise exc =>
      (Job "error" (progress j) "error" (Some (str exc)) (svg j) (palette j) (masks j)
           (quantized_img j) (width j) (height j), st')
  end.

End RunVectorize.

End Main.

(** ** batch/processor.py *)

Module Batch.

(** [_BatchJob], without the image bytes, the settings and the time
    stamps. *)
Record _BatchJob : Type := BatchJob {
  job_id : string;
  filename : string;
  status : string;
  error : option string;
  svg : option string
}.

(** [sum(1 for j in self._jobs.values() if j.status == s)] *)
Definition count_status (s : string) (jobs : list _BatchJob) : Z :=
  Z.of_nat (length (filter (fun j => status j = s) jobs)).

(** [int(done / total * 100) if total else 0] on two ints, [done] not
    negative.  The quotient and the product are doubles; [None] stands for
    the OverflowError of [int] on an infinite double. *)
Definition percent_of (done total : Z) : option Z :=
  if total =? 0 then Some 0
  else
    match Optimizer.to_binary64 (Qmake done (Z.to_pos total)) with
    | Some x =>
        match Optimizer.to_binary64 (x * 100) with
        | Some y => Some (Qnum y ÷ Zpos (Qden y))
        | None => None
        end
    | None => None
    end.

Record batch_status : Type := BatchStatus {
  total : Z;
  done : Z;
  error_count : Z;
  in_progress : Z;
  queued : Z;
  percent : Z
}.

(** [get_status], without the per-job table; [jobs] is
    [self._jobs.values()]. *)
Definition get_status (jobs : list _BatchJob) : option batch_status :=
  let total := Z.of_nat (length jobs) in
  let done := count_status "done" jobs in
  let error_count := count_status "error" jobs in
  let in_progress := count_status "processing" jobs in
  match percent_of done total with
  | Some percent =>
      Some (BatchStatus total done error_count in_progress
              (total - done - error_count - in_progress) percent)
  | None => None
  end.

(** main.py, [job_status] on a batch:
    ["done" if st["percent"] == 100 else "processing"]. *)
Definition batch_job_status (st : batch_status) : string :=
  if percent st =? 100 then "done" else "processing".

End Batch.

(** * Properties *)

(** ** color_quantizer.py *)

Section QuantizerFacts.
Import Quantizer.

(** *** The perceptual distance test *)

Lemma sqrt_225 : sqrt 225 = 15%R.
Proof.
  replace 225%R with (15 * 15)%R by lra.
  apply sqrt_square; lra.
Qed.

Lemma Q2R_225 : Q2R 225 = 225%R.
Proof. unfold Q2R; simpl; lra. Qed.

(** The boolean test of the merge loop decides [_color_distance < 15]. *)
Lemma distance_lt_15_spec (c1 c2 : bgr) :
  distance_lt_15 c1 c2 = true <-> (_color_distance c1 c2 < 15)%R.
Proof.
  unfold distance_lt_15, _color_distance.
  rewrite negb_true_iff, <- not_true_iff_false, Qle_bool_iff.
  split.
  - intros Hn.
    assert (Hlt : (radicand c1 c2 < 225)%Q) by (apply Qnot_le_lt; exact Hn).
    apply Qreals.Qlt_Rlt in Hlt. rewrite Q2R_225 in Hlt.
    destruct (Rle_lt_dec 0 (Q2R (radicand c1 c2))) as [Hpos | Hneg].
    + rewrite <- sqrt_225. apply sqrt_lt_1_alt. lra.
    + rewrite sqrt_neg_0 by lra. lra.
  - intros Hlt Hle.
    apply Qreals.Qle_Rle in Hle. rewrite Q2R_225 in Hle.
    apply sqrt_le_1_alt in Hle. rewrite sqrt_225 in Hle. lra.
Qed.

Lemma distance_ge_15_spec (c1 c2 : bgr) :
  distance_lt_15 c1 c2 = false <-> (15 <= _color_distance c1 c2)%R.
Proof.
  rewrite <- not_true_iff_false, distance_lt_15_spec. split; lra.
Qed.

Lemma radicand_sym (c1 c2 : bgr) : (radicand c1 c2 == radicand c2 c1)%Q.
Proof.
  unfold radicand.
  rewrite (Z.add_comm (chan_r c2) (chan_r c1)).
  replace (chan_r c2 - chan_r c1) with (- (chan_r c1 - chan_r c2)) by lia.
  replace (chan_g c2 - chan_g c1) with (- (chan_g c1 - chan_g c2)) by lia.
  replace (chan_b c2 - chan_b c1) with (- (chan_b c1 - chan_b c2)) by lia.
  rewrite !inject_Z_opp. field.
Qed.

Lemma distance_lt_15_sym (c1 c2 : bgr) :
  distance_lt_15 c1 c2 = distance_lt_15 c2 c1.
Proof.
  unfold distance_lt_15. f_equal.
  apply eq_true_iff_eq. rewrite !Qle_bool_iff, radicand_sym. reflexivity.
Qed.

(** *** The merge loop *)

Lemma find_j_some ci j0 rest j :
  find_j ci j0 rest = Some j -> (j0 <= j < j0 + length rest)%nat.
Proof.
  revert j0; induction rest as [| cj rest IH]; simpl; intros j0 H; [discriminate |].
  destruct (distance_lt_15 ci cj).
  - injection H as <-. lia.
  - apply IH in H. lia.
Qed.

Lemma find_j_none ci j0 rest :
  find_j ci j0 rest = None -> Forall (fun cj => distance_lt_15 ci cj = false) rest.
Proof.
  revert j0; induction rest as [| cj rest IH]; simpl; intros j0 H; [constructor |].
  destruct (distance_lt_15 ci cj) eqn:E; [discriminate |].
  constructor; [exact E | eapply IH; exact H].
Qed.

Lemma find_pair_some i0 palette i j :
  find_pair i0 palette = Some (i, j) -> (i0 <= i < j /\ j < i0 + length palette)%nat.
Proof.
  revert i0; induction palette as [| ci rest IH]; simpl; intros i0 H; [discriminate |].
  destruct (find_j ci (S i0) rest) as [j' |] eqn:E.
  - injection H as <- <-. apply find_j_some in E. lia.
  - apply IH in H. lia.
Qed.

(** No pair found: any two entries at different positions are not closer
    than 15. *)
Lemma find_pair_none i0 (palette : list bgr) :
  find_pair i0 palette = None ->
  forall a b ca cb, (a < b)%nat ->
    palette !! a = Some ca -> palette !! b = Some cb ->
    distance_lt_15 ca cb = false.
Proof.
  revert i0; induction palette as [| ci rest IH]; simpl; intros i0 H a b ca cb Hab Ha Hb.
  - discriminate.
  - destruct (find_j ci (S i0) rest) eqn:E; [discriminate |].
    destruct b as [| b]; [lia |]. simpl in Hb.
    destruct a as [| a]; simpl in Ha.
    + injection Ha as <-. apply find_j_none in E.
      rewrite Forall_forall in E. apply E.
      apply list_elem_of_lookup. exists b. exact Hb.
    + eapply (IH (S i0) H a b); [lia | exact Ha | exact Hb].
Qed.

(** The loop stops with at most two entries or with no close pair left. *)
Lemma merge_loop_post fuel (palette : list bgr) (labels : list nat) :
  (length palette <= fuel)%nat ->
  (length (merge_loop fuel palette labels).1 <= 2)%nat \/
  find_pair 0 (merge_loop fuel palette labels).1 = None.
Proof.
  revert palette labels; induction fuel as [| fuel IH]; intros palette labels Hlen.
  - left. simpl. lia.
  - simpl. destruct (2 <? length palette)%nat eqn:E2.
    + destruct (find_pair 0 palette) as [[i j] |] eqn:Ep.
      * unfold merge_step. apply IH.
        apply find_pair_some in Ep.
        rewrite length_delete; [lia |].
        apply lookup_lt_is_Some. lia.
      * right. exact Ep.
    + left. apply Nat.ltb_ge in E2. simpl. lia.
Qed.

(** The loop only deletes entries. *)
Lemma merge_loop_sublist fuel (palette : list bgr) (labels : list nat) :
  (merge_loop fuel palette labels).1 `sublist_of` palette.
Proof.
  revert palette labels; induction fuel as [| fuel IH]; intros palette labels; simpl.
  - reflexivity.
  - destruct (2 <? length palette)%nat; [| reflexivity].
    destruct (find_pair 0 palette) as [[i j] |]; [| reflexivity].
    unfold merge_step. etransitivity; [apply IH | apply sublist_delete].
Qed.

(** Labels stay below the length of the palette through the loop. *)
Lemma merge_loop_labels fuel (palette : list bgr) (labels : list nat) :
  Forall (fun l => (l < length palette)%nat) labels ->
  Forall (fun l => (l < length (merge_loop fuel palette labels).1)%nat)
         (merge_loop fuel palette labels).2.
Proof.
  revert palette labels; induction fuel as [| fuel IH]; intros palette labels Hl; simpl.
  - exact Hl.
  - destruct (2 <? length palette)%nat eqn:E2; [| exact Hl].
    destruct (find_pair 0 palette) as [[i j] |] eqn:Ep; [| exact Hl].
    unfold merge_step. apply IH.
    apply find_pair_some in Ep.
    rewrite length_delete by (apply lookup_lt_is_Some; lia).
    unfold _compact_labels. rewrite !Forall_map.
    eapply Forall_impl; [exact Hl |].
    intros l Hlt. simpl in Hlt |- *.
    destruct (l =? j)%nat eqn:Elj.
    + destruct (j <? i)%nat eqn:Eji; [apply Nat.ltb_lt in Eji; lia | lia].
    + apply Nat.eqb_neq in Elj.
      destruct (j <? l)%nat eqn:Ejl; [apply Nat.ltb_lt in Ejl | apply Nat.ltb_ge in Ejl]; lia.
Qed.

Lemma merge_loop_length fuel (palette : list bgr) (labels : list nat) :
  length (merge_loop fuel palette labels).2 = length labels.
Proof.
  revert palette labels; induction fuel as [| fuel IH]; intros palette labels; simpl.
  - reflexivity.
  - destruct (2 <? length palette)%nat; [| reflexivity].
    destruct (find_pair 0 palette) as [[i j] |]; [| reflexivity].
    unfold merge_step. rewrite IH. unfold _compact_labels.
    rewrite !length_map. reflexivity.
Qed.

(** *** Refinement as a whole *)

Lemma argmin_from_lt best_i best i (l : list Z) :
  (best_i < i)%nat -> (argmin_from best_i best i l < i + length l)%nat.
Proof.
  revert best_i best i; induction l as [| x l IH]; simpl; intros best_i best i H.
  - lia.
  - destruct (x <? best).
    + specialize (IH i x (S i)). lia.
    + specialize (IH best_i best (S i)). lia.
Qed.

Lemma argmin_lt (l : list Z) : l <> [] -> (argmin l < length l)%nat.
Proof.
  destruct l as [| x l]; [congruence | intros _].
  simpl. pose proof (argmin_from_lt 0 x 1 l). lia.
Qed.

Lemma index_of_lt x (l : list nat) n : index_of x l = Some n -> (n < length l)%nat.
Proof.
  revert n; induction l as [| y l IH]; simpl; intros n H; [discriminate |].
  destruct (x =? y)%nat.
  - injection H as <-. lia.
  - destruct (index_of x l) as [m |]; simpl in H; [| discriminate].
    injection H as <-. specialize (IH m eq_refl). lia.
Qed.

Lemma keep_indices_nonempty palette labels_2d : keep_indices palette labels_2d <> [].
Proof.
  unfold keep_indices.
  destruct (filter _ (seq 0 (length palette))); simpl; congruence.
Qed.

Lemma palette_at_uint8 (palette : list bgr) i :
  Forall bgr_uint8 palette -> bgr_uint8 (palette_at palette i).
Proof.
  intros H. unfold palette_at.
  destruct (nth_in_or_default i palette (0, 0, 0)) as [Hin | ->].
  - rewrite Forall_forall in H. apply H. apply list_elem_of_In. exact Hin.
  - unfold bgr_uint8, is_uint8, chan_b, chan_g, chan_r; simpl. lia.
Qed.

Lemma sublist_Forall {A} (P : A -> Prop) (l1 l2 : list A) :
  l1 `sublist_of` l2 -> Forall P l2 -> Forall P l1.
Proof.
  intros Hs H. rewrite Forall_forall in *.
  intros x Hx. apply H. eapply elem_of_sublist; eauto.
Qed.

Lemma merge_loop_nonempty fuel (palette : list bgr) (labels : list nat) :
  palette <> [] -> (merge_loop fuel palette labels).1 <> [].
Proof.
  revert palette labels; induction fuel as [| fuel IH]; intros palette labels Hne; simpl.
  - exact Hne.
  - destruct (2 <? length palette)%nat eqn:E2; [| exact Hne].
    destruct (find_pair 0 palette) as [[i j] |] eqn:Ep; [| exact Hne].
    unfold merge_step. apply IH.
    apply Nat.ltb_lt in E2. intros Hnil.
    apply (f_equal length) in Hnil.
    apply find_pair_some in Ep.
    rewrite length_delete in Hnil by (apply lookup_lt_is_Some; lia).
    simpl in Hnil. lia.
Qed.

Lemma remap_labels_lt keep (palette quantized_img : list bgr) (labels_2d : list nat) :
  palette <> [] -> length palette = length keep ->
  Forall (fun l => (l < length palette)%nat)
         (remap_labels keep palette quantized_img labels_2d).
Proof.
  intros Hne Hlen. unfold remap_labels. rewrite Forall_map.
  apply Forall_true. intros [old_idx px]. simpl.
  destruct (index_of old_idx keep) as [n |] eqn:E.
  - apply index_of_lt in E. lia.
  - pose proof (argmin_lt (map (dist_sq px) palette)) as H.
    rewrite length_map in H. apply H.
    destruct palette; simpl; congruence.
Qed.

Lemma _refine_palette_post quantized_img palette labels_2d :
  let P := (_refine_palette quantized_img palette labels_2d).1 in
  (length P <= 2)%nat \/ find_pair 0 P = None.
Proof.
  unfold _refine_palette. cbv zeta. apply merge_loop_post. reflexivity.
Qed.

Lemma _refine_palette_uint8 quantized_img palette labels_2d :
  Forall bgr_uint8 palette ->
  Forall bgr_uint8 (_refine_palette quantized_img palette labels_2d).1.
Proof.
  intros H. unfold _refine_palette. cbv zeta.
  eapply sublist_Forall; [apply merge_loop_sublist |].
  rewrite Forall_map. apply Forall_true. intros i. simpl.
  apply palette_at_uint8. exact H.
Qed.

Lemma _refine_palette_nonempty quantized_img palette labels_2d :
  (_refine_palette quantized_img palette labels_2d).1 <> [].
Proof.
  unfold _refine_palette. cbv zeta. apply merge_loop_nonempty.
  pose proof (keep_indices_nonempty palette labels_2d).
  destruct (keep_indices palette labels_2d); simpl; congruence.
Qed.

Lemma _refine_palette_labels quantized_img palette labels_2d :
  let r := _refine_palette quantized_img palette labels_2d in
  Forall (fun l => (l < length r.1)%nat) r.2.
Proof.
  unfold _refine_palette. cbv zeta. apply merge_loop_labels.
  apply remap_labels_lt.
  - pose proof (keep_indices_nonempty palette labels_2d).
    destruct (keep_indices palette labels_2d); simpl; congruence.
  - rewrite length_map. reflexivity.
Qed.

Lemma _refine_palette_length quantized_img palette labels_2d :
  length quantized_img = length labels_2d ->
  length (_refine_palette quantized_img palette labels_2d).2 = length labels_2d.
Proof.
  intros Hlen. unfold _refine_palette. cbv zeta.
  rewrite merge_loop_length. unfold remap_labels.
  rewrite length_map, length_zip_with. lia.
Qed.

(** *** Hex colors *)

Lemma int16_format_02x v : 0 <= v < 256 -> int16 (format_02x v) = v.
Proof.
  intros Hv.
  assert (Hall : forallb (fun v => int16 (format_02x v) =? v) (seqZ 0 256) = true)
    by (vm_compute; reflexivity).
  rewrite forallb_forall in Hall.
  apply Z.eqb_eq, Hall, list_elem_of_In, elem_of_seqZ. lia.
Qed.

Lemma lstrip_hash_hex_digit d (s : string) :
  lstrip_hash (String (hex_digit d) s) = String (hex_digit d) s.
Proof.
  unfold hex_digit. generalize (Z.to_nat d) as n. intros n.
  do 17 (destruct n as [| n]; [reflexivity |]). reflexivity.
Qed.

Lemma _hex_to_bgr_to_hex (c : bgr) : bgr_uint8 c -> _hex_to_bgr (_bgr_to_hex c) = c.
Proof.
  destruct c as [[b g] r]. unfold bgr_uint8, is_uint8, chan_b, chan_g, chan_r; simpl.
  intros (Hb & Hg & Hr).
  unfold _hex_to_bgr, _bgr_to_hex, chan_b, chan_g, chan_r.
  cbn [fst snd lstrip_hash].
  replace (lstrip_hash (format_02x r +:+ format_02x g +:+ format_02x b))
    with (format_02x r +:+ format_02x g +:+ format_02x b)
    by (symmetry; apply lstrip_hash_hex_digit).
  change (String.substring 0 2 (format_02x r +:+ format_02x g +:+ format_02x b))
    with (format_02x r).
  change (String.substring 2 2 (format_02x r +:+ format_02x g +:+ format_02x b))
    with (format_02x g).
  change (String.substring 4 2 (format_02x r +:+ format_02x g +:+ format_02x b))
    with (format_02x b).
  rewrite !int16_format_02x by lia. reflexivity.
Qed.

End QuantizerFacts.

Section QuantizeFacts.
Import Quantizer.
Variable exn : Type.
Variable gray : bgr -> Z.
Variable fit : Z -> Z -> Z -> Z -> Z -> list bgr -> result exn (list (Q * Q * Q)).
Variable cvk : list bgr -> Z -> Z -> Q -> Z -> result exn (list (Q * Q * Q)).

Lemma astype_uint8_range q : is_uint8 (astype_uint8 q).
Proof. unfold is_uint8, astype_uint8. apply Z.mod_pos_bound. lia. Qed.

Lemma centers_astype_uint8_range centers :
  Forall bgr_uint8 (centers_astype_uint8 centers).
Proof.
  unfold centers_astype_uint8. rewrite Forall_map.
  apply Forall_true. intros c. repeat split; apply astype_uint8_range.
Qed.

Lemma _median_cut_uint8 pixels n : Forall bgr_uint8 (_median_cut pixels n).
Proof.
  unfold _median_cut. rewrite Forall_map.
  apply Forall_true. intros b. repeat split; apply astype_uint8_range.
Qed.

(** What a returning call of [quantize] returns, in terms of the palette
    its method computed. *)
Lemma quantize_ok idx data alpha n m q :
  quantize exn gray fit cvk idx data alpha n m = Ok q ->
  exists palette0, Forall bgr_uint8 palette0 /\
    let labels := _assign_labels data palette0 in
    let r := _refine_palette (map (palette_at palette0) labels) palette0 labels in
    q = Quantized (map (palette_at r.1) r.2) (map _bgr_to_hex r.1)
          match alpha with
          | Some a => map (fun mask => bitwise_and mask a) (_build_masks r.2 (length r.1))
          | None => _build_masks r.2 (length r.1)
          end r.1 r.2.
Proof.
  unfold quantize. intros H.
  match type of H with
  | match ?c with _ => _ end = _ => destruct c as [palette0 | e] eqn:Ec; [| discriminate]
  end.
  exists palette0. split.
  - destruct m; simpl in Ec.
    + unfold _kmeans in Ec. destruct (fit _ _ _ _ _ _); [| discriminate].
      injection Ec as <-. apply centers_astype_uint8_range.
    + injection Ec as <-. apply _median_cut_uint8.
    + unfold _octree_quantize in Ec. destruct (cvk _ _ _ _ _); [| discriminate].
      injection Ec as <-. apply centers_astype_uint8_range.
  - cbv zeta.
    destruct (_refine_palette _ palette0 _) as [P L] eqn:Er.
    unfold _rebuild_from_labels in H. simpl in H |- *.
    destruct alpha; injection H as <-; reflexivity.
Qed.

Lemma quantize_hex_colors idx data alpha n m q :
  quantize exn gray fit cvk idx data alpha n m = Ok q ->
  hex_colors q = map _bgr_to_hex (final_palette q) /\
  Forall bgr_uint8 (final_palette q) /\
  ((length (final_palette q) <= 2)%nat \/ find_pair 0 (final_palette q) = None).
Proof.
  intros H. apply quantize_ok in H as (palette0 & Hu & ->). simpl.
  split; [reflexivity |]. split.
  - apply _refine_palette_uint8. exact Hu.
  - apply _refine_palette_post.
Qed.

Lemma _build_masks_lookup (labels : list nat) k i :
  (i < k)%nat ->
  _build_masks labels k !! i
  = Some (map (fun l => if (l =? i)%nat then 255 else 0) labels).
Proof.
  intros Hi. unfold _build_masks.
  rewrite list_lookup_fmap.
  assert (Hs : seq 0 k !! i = Some i) by (apply lookup_seq; lia).
  rewrite Hs. reflexivity.
Qed.

Lemma quantize_labels idx data alpha n m q :
  quantize exn gray fit cvk idx data alpha n m = Ok q ->
  length (final_labels q) = length data /\
  Forall (fun l => (l < length (final_palette q))%nat) (final_labels q) /\
  length (masks q) = length (final_palette q).
Proof.
  intros H. apply quantize_ok in H as (palette0 & _ & ->). cbn [final_labels final_palette masks].
  split; [| split].
  - rewrite _refine_palette_length.
    + unfold _assign_labels. apply length_map.
    + unfold _assign_labels. rewrite !length_map. reflexivity.
  - apply _refine_palette_labels.
  - destruct alpha; unfold _build_masks; rewrite ?length_map, length_seq; reflexivity.
Qed.

(** What the masks hold at a pixel when [quantize] is given an alpha
    plane: the mask of the pixel's label holds [255 & alpha] there, every
    other mask holds [0 & alpha]. *)
Lemma masks_at_pixel idx data a n m q p l i mask :
  quantize exn gray fit cvk idx data (Some a) n m = Ok q ->
  final_labels q !! p = Some l ->
  masks q !! i = Some mask ->
  (l < length (final_palette q))%nat /\
  mask !! p = Z.land (if (l =? i)%nat then 255 else 0) <$> a !! p.
Proof.
  intros H Hl Hm.
  pose proof (quantize_labels _ _ _ _ _ _ H) as (_ & Hlt & Hlen).
  split.
  { rewrite Forall_forall in Hlt. apply Hlt. apply list_elem_of_lookup. eauto. }
  apply quantize_ok in H as (palette0 & _ & ->).
  cbn [final_labels final_palette masks] in *.
  assert (Hi : (i < length (_refine_palette
                   (map (palette_at palette0) (_assign_labels data palette0)) palette0
                   (_assign_labels data palette0)).1)%nat).
  { apply lookup_lt_Some in Hm. rewrite Hlen in Hm. exact Hm. }
  rewrite list_lookup_fmap in Hm.
  rewrite _build_masks_lookup in Hm by exact Hi.
  injection Hm as <-. unfold bitwise_and.
  rewrite lookup_zip_with, list_lookup_fmap, Hl. cbn [fmap option_fmap option_map mbind option_bind].
  destruct (a !! p); reflexivity.
Qed.

(** With an alpha plane of zeros and 255s the masks are as the
    specification has them: at a pixel of alpha 255 the mask of the
    pixel's label, and no other, holds 255; at a pixel of alpha 0 every
    mask holds 0. *)
Lemma masks_partition_under_binary_alpha idx data a n m q p l ap :
  quantize exn gray fit cvk idx data (Some a) n m = Ok q ->
  final_labels q !! p = Some l ->
  a !! p = Some ap ->
  ap = 0 \/ ap = 255 ->
  forall i mask, masks q !! i = Some mask ->
    mask !! p = Some (if (l =? i)%nat then ap else 0).
Proof.
  intros H Hl Ha Hbin i mask Hm.
  destruct (masks_at_pixel _ _ _ _ _ _ _ _ _ _ H Hl Hm) as [_ ->].
  rewrite Ha. cbn [fmap option_fmap option_map]. f_equal.
  destruct (l =? i)%nat; destruct Hbin as [-> | ->]; reflexivity.
Qed.

(** C4, as amended.  Whenever [quantize] returns more than two colors, any
    two entries of the returned palette at different positions are at
    perceptual distance 15 or more; the merge loop does not run on a
    palette of two entries or fewer, which carries no such guarantee. *)
Theorem palette_far_apart_above_two idx data alpha n m q :
  quantize exn gray fit cvk idx data alpha n m = Ok q ->
  (2 < length (hex_colors q))%nat ->
  far_apart (hex_colors q).
Proof.
  intros H Hlen.
  apply quantize_hex_colors in H as (Hhex & Hu & Hpost).
  rewrite Hhex in Hlen |- *. rewrite length_map in Hlen.
  destruct Hpost as [Hle | Hnone]; [lia |].
  intros i j hi hj Hij Hi Hj.
  rewrite list_lookup_fmap in Hi, Hj.
  destruct (final_palette q !! i) as [ci |] eqn:Eci; [| discriminate].
  destruct (final_palette q !! j) as [cj |] eqn:Ecj; [| discriminate].
  injection Hi as <-. injection Hj as <-.
  rewrite Forall_forall in Hu.
  rewrite !_hex_to_bgr_to_hex
    by (apply Hu, list_elem_of_lookup; eauto).
  apply distance_ge_15_spec.
  destruct (Nat.lt_ge_cases i j) as [Hlt | Hge].
  - exact (find_pair_none 0 _ Hnone i j ci cj Hlt Eci Ecj).
  - rewrite distance_lt_15_sym.
    apply (find_pair_none 0 _ Hnone j i cj ci); [lia | exact Ecj | exact Eci].
Qed.

End QuantizeFacts.

Section QuantizerRuns.
Import Quantizer.

(** C4, witness: five pixels, sixteen colors requested, three returned. *)
Lemma palette_far_apart_above_two_witness :
  far_apart ["#0a0a0a"; "#0000c8"; "#fa0000"].
Proof.
  apply (palette_far_apart_above_two unit luma14 fit_not_called cv2_kmeans_not_called
           [] [(10, 10, 10); (12, 12, 12); (200, 0, 0); (201, 1, 1); (0, 0, 250)]
           None 16 median_cut
           (Quantized
              [(10, 10, 10); (10, 10, 10); (200, 0, 0); (200, 0, 0); (0, 0, 250)]
              ["#0a0a0a"; "#0000c8"; "#fa0000"]
              [[255; 255; 0; 0; 0]; [0; 0; 255; 255; 0]; [0; 0; 0; 0; 255]]
              [(10, 10, 10); (200, 0, 0); (0, 0, 250)]
              [0; 0; 1; 1; 2]%nat)).
  - vm_compute. reflexivity.
  - simpl. lia.
Defined.

(** C4, counterexample: a two-pixel image of two near-identical grays,
    two colors requested.  Both survive, 6 apart. *)
Lemma two_close_colors_survive :
  exists q,
    quantize_median_cut [(10, 10, 10); (12, 12, 12)] None 2 = Ok q /\
    hex_colors q = ["#0a0a0a"; "#0c0c0c"] /\
    ~ far_apart (hex_colors q).
Proof.
  eexists. split; [vm_compute; reflexivity |]. split; [reflexivity |].
  cbn [hex_colors]. intros Hfar.
  specialize (Hfar 0%nat 1%nat "#0a0a0a" "#0c0c0c").
  assert (Hlt : (_color_distance (_hex_to_bgr "#0a0a0a") (_hex_to_bgr "#0c0c0c") < 15)%R)
    by (apply distance_lt_15_spec; vm_compute; reflexivity).
  assert (Hge : (15 <= _color_distance (_hex_to_bgr "#0a0a0a") (_hex_to_bgr "#0c0c0c"))%R)
    by (apply Hfar; [lia | reflexivity | reflexivity]).
  lra.
Qed.

(** C1.  The clamp of line 149 runs before the test [n_colors == 0] of
    line 160, so the palette size is the clamped request for every
    request and [_auto_k] is never called.  On a 24-level gray ramp,
    [n_colors = 0] gives K = 2 and two colors, where [_auto_k] gives 3. *)
Theorem zero_request_never_reaches_auto_k :
  (forall gray pixels n,
      quantize_n_colors gray pixels n = Z.max 2 (Z.min 64 n)) /\
  let ramp := map (fun v => (v, v, v)) (seqZ 0 24) in
  _auto_k luma14 ramp = 3 /\
  quantize_n_colors luma14 ramp 0 = 2 /\
  (exists q, quantize_median_cut ramp None 0 = Ok q /\ length (hex_colors q) = 2%nat) /\
  (exists q, quantize_median_cut ramp None 3 = Ok q /\ length (hex_colors q) = 3%nat).
Proof.
  split.
  - intros gray pixels n. unfold quantize_n_colors.
    destruct (Z.max 2 (Z.min 64 n) =? 0) eqn:E; [| reflexivity].
    apply Z.eqb_eq in E. lia.
  - cbv zeta. split; [vm_compute; reflexivity |]. split; [vm_compute; reflexivity |].
    split; eexists; (split; [vm_compute; reflexivity | reflexivity]).
Qed.

(** C3.  A 1x2 BGRA image whose first pixel has alpha 128: after
    [cv2.bitwise_and(mask, alpha)] the mask of that pixel's color holds
    128 there, so no mask holds 255 at a pixel of nonzero alpha, and the
    masks are not {0, 255} images. *)
Theorem partial_alpha_mask_not_255 :
  exists q,
    quantize_median_cut [(10, 10, 10); (200, 200, 200)] (Some [128; 255]) 2 = Ok q /\
    masks q = [[128; 0]; [0; 255]] /\
    (forall mask, mask ∈ masks q -> mask !! 0%nat <> Some 255).
Proof.
  eexists. split; [vm_compute; reflexivity |]. split; [reflexivity |].
  cbn [masks]. intros mask Hin.
  apply elem_of_cons in Hin as [-> | Hin]; [simpl; congruence |].
  apply elem_of_cons in Hin as [-> | Hin]; [simpl; congruence |].
  inversion Hin.
Qed.

End QuantizerRuns.

(** ** engine.py *)

Section EngineFacts.
Import Engine.
Context {exn : Type}.
Variable C : components exn.

Lemma _progress_run pct stage st :
  _progress C pct stage st = (Ok tt, State (heap st) (emit C pct stage (calls st))).
Proof.
  unfold _progress, emit. destruct (progress_callback C) as [cb |].
  - unfold try_except, ret. destruct (cb pct stage) as [[] | e]; reflexivity.
  - unfold ret. destruct st; reflexivity.
Qed.

Lemma bind_ok {A B} (m : M (exn:=exn) A) (k : A -> M B) st a st' :
  m st = (Ok a, st') -> bind m k st = k a st'.
Proof. unfold bind. intros ->. reflexivity. Qed.

Lemma bind_raise {A B} (m : M (exn:=exn) A) (k : A -> M B) st e st' :
  m st = (Raise e, st') -> bind m k st = (Raise e, st').
Proof. unfold bind. intros ->. reflexivity. Qed.

Lemma read_run l st : read (exn:=exn) l st = (Ok (default ∅ (heap st !! l)), st).
Proof. reflexivity. Qed.

Lemma read_fresh_run l d h log :
  read (exn:=exn) l (State (<[l := d]> h) log) = (Ok d, State (<[l := d]> h) log).
Proof. unfold read. cbn [heap]. rewrite lookup_insert_eq. reflexivity. Qed.

Lemma setitem_fresh_run l key v d h log :
  setitem (exn:=exn) l key v (State (<[l := d]> h) log)
  = (Ok tt, State (<[l := <[key := v]> d]> h) log).
Proof. unfold setitem. cbn [heap calls]. rewrite alter_insert_eq. reflexivity. Qed.

Ltac run_step lem := erewrite bind_ok; [| apply lem].

Lemma vectorize_outcome image_data settings st :
  vectorize C image_data settings st = outcome C image_data settings st.
Proof.
  unfold vectorize, outcome.
  run_step read_run.
  erewrite bind_ok; [| reflexivity]. cbn [heap calls].
  run_step _progress_run. cbn [heap calls].
  destruct (_load_image C image_data) as [im | e].
  2:{ erewrite bind_raise; reflexivity. }
  erewrite bind_ok; [| reflexivity].
  run_step read_fresh_run.
  set (c0 := default ∅ (heap st !! settings) ∪ DEFAULT_SETTINGS).
  set (l := fresh (dom (heap st))).
  set (c := cfg_after_detect C (default ∅ (heap st !! settings)) im).
  assert (Hmode :
    (if value_eqb (dict_get c0 "mode" (VStr "")) (VStr "auto")
     then setitem l "mode"
            (VStr (_detect_mode (Canny_edge_density C) (gray_std C) (random_choice C) im))
     else ret tt) (State (<[l := c0]> (heap st)) (emit C 0 "loading" (calls st)))
    = (Ok (E:=exn) tt, State (<[l := c]> (heap st)) (emit C 0 "loading" (calls st)))).
  { subst c. unfold cfg_after_detect. fold c0.
    destruct (value_eqb _ _); [apply setitem_fresh_run | reflexivity]. }
  run_step Hmode. clear Hmode.
  run_step _progress_run. cbn [heap calls].
  run_step read_fresh_run.
  assert (Hpre :
    try_except (lift (preprocess C im c)) (fun _ => ret im)
      (State (<[l := c]> (heap st)) (emit C 10 "preprocessing" (emit C 0 "loading" (calls st))))
    = (Ok (processed_of C im c),
       State (<[l := c]> (heap st)) (emit C 10 "preprocessing" (emit C 0 "loading" (calls st))))).
  { unfold try_except, lift, processed_of, ret.
    destruct (preprocess C im c); reflexivity. }
  run_step Hpre. clear Hpre.
  run_step _progress_run. cbn [heap calls].
  destruct (to_bgr_image (processed_of C im c)) as [[h w] bgr_image].
  assert (Hmain :
    forall st0,
    bind (try_except
            (lift (quantize C h w bgr_image (dict_get c "n_colors" (VInt 16))
                            (dict_get c "quantize_method" (VStr "kmeans"))))
            (fun exc => raise exc))
         (fun q =>
            let '(quantized_img, palette, masks) := q in
            bind (_progress C 55 "tracing") (fun _ =>
            let layers := trace_layers C c (zip palette masks) in
            bind (_progress C 80 "assembling") (fun _ =>
            let svg_raw := assemble_svg C layers w h c in
            bind (_progress C 90 "optimizing") (fun _ =>
            bind (if truthy (dict_get c "optimize" (VBool true))
                  then try_except (lift (optimize_svg C svg_raw c)) (fun _ => ret svg_raw)
                  else ret svg_raw) (fun svg_final =>
            bind (_progress C 100 "done") (fun _ =>
            ret (Bundle svg_final quantized_img palette masks w h))))))) st0
    = match quantize C h w bgr_image (dict_get c "n_colors" (VInt 16))
                     (dict_get c "quantize_method" (VStr "kmeans")) with
      | Raise e => (Raise e, st0)
      | Ok (quantized_img, palette, masks) =>
          (Ok (Bundle (svg_final_of C c (assemble_svg C (trace_layers C c (zip palette masks)) w h c))
                      quantized_img palette masks w h),
           State (heap st0)
             (emit C 100 "done" (emit C 90 "optimizing" (emit C 80 "assembling"
                (emit C 55 "tracing" (calls st0))))))
      end).
  { intros st0.
    destruct (quantize C h w bgr_image _ _) as [[[qi pal] ms] | e] eqn:Eq.
    2:{ erewrite bind_raise; reflexivity. }
    erewrite bind_ok; [| reflexivity]. lazy beta iota zeta.
    run_step _progress_run. cbn [heap calls].
    run_step _progress_run. cbn [heap calls].
    run_step _progress_run. cbn [heap calls].
    set (svg_raw := assemble_svg C _ w h c).
    match goal with
    | |- bind ?m _ ?s = _ =>
        assert (Hopt : m s = (Ok (svg_final_of C c svg_raw), s))
    end.
    { unfold svg_final_of. destruct (truthy _); [| reflexivity].
      unfold try_except, lift, ret. destruct (optimize_svg C svg_raw c); reflexivity. }
    run_step Hopt.
    run_step _progress_run. reflexivity. }
  destruct (unique_rows [] bgr_image) as [| color [| color' rest]].
  - apply Hmain.
  - cbv zeta. unfold lift.
    destruct (trace_layer C _ _ c) as [path_el | e] eqn:Et.
    + erewrite bind_ok; reflexivity.
    + erewrite bind_raise; reflexivity.
  - apply Hmain.
Qed.

Lemma emit_app cb pct stage log :
  progress_callback C = Some cb -> emit C pct stage log = log ++ [(pct, stage)].
Proof. unfold emit. intros ->. reflexivity. Qed.

(** The store after a run is the store before it plus one new object. *)
Lemma outcome_heap image_data settings st :
  exists c, heap (outcome C image_data settings st).2
            = <[fresh (dom (heap st)) := c]> (heap st).
Proof.
  unfold outcome.
  destruct (_load_image C image_data) as [im | e]; [| eexists; reflexivity].
  destruct (to_bgr_image _) as [[h w] bgr_image].
  destruct (unique_rows [] bgr_image) as [| color [| color' rest]].
  - destruct (quantize C h w bgr_image _ _) as [[[qi pal] ms] | e];
      eexists; reflexivity.
  - destruct (trace_layer C _ _ _); eexists; reflexivity.
  - destruct (quantize C h w bgr_image _ _) as [[[qi pal] ms] | e];
      eexists; reflexivity.
Qed.

(** C10.  [vectorize] leaves the caller's settings dictionary as it found
    it: the store after the call is the store before it plus one new
    dictionary, the merged copy [cfg], which alone receives the defaults
    and the resolved mode. *)
Theorem vectorize_leaves_settings_unchanged image_data settings st s :
  (heap st) !! settings = Some s ->
  (heap (vectorize C image_data settings st).2) !! settings = Some s /\
  exists cfg c, (cfg ∉ dom (heap st)) /\
    heap (vectorize C image_data settings st).2 = <[cfg := c]> (heap st).
Proof.
  intros Hs. rewrite vectorize_outcome.
  destruct (outcome_heap image_data settings st) as [c Hc].
  pose proof (is_fresh (dom (heap st))) as Hfresh.
  split.
  - rewrite Hc, lookup_insert_ne; [exact Hs |].
    intros Heq. apply Hfresh. rewrite Heq. apply elem_of_dom. eauto.
  - exists (fresh (dom (heap st))), c. split; [exact Hfresh | exact Hc].
Qed.

Lemma outcome_absorb_preprocess image_data settings st :
  outcome (absorb_preprocess C) image_data settings st = outcome C image_data settings st.
Proof.
  unfold outcome.
  change (_load_image (absorb_preprocess C)) with (_load_image C).
  destruct (_load_image C image_data) as [im | e]; [| reflexivity].
  change (cfg_after_detect (absorb_preprocess C)) with (cfg_after_detect C).
  set (c := cfg_after_detect C _ im).
  replace (processed_of (absorb_preprocess C) im c) with (processed_of C im c)
    by (unfold processed_of, absorb_preprocess; cbn [preprocess];
        destruct (preprocess C im c); reflexivity).
  reflexivity.
Qed.

Lemma outcome_absorb_optimize image_data settings st :
  outcome (absorb_optimize C) image_data settings st = outcome C image_data settings st.
Proof.
  unfold outcome.
  change (_load_image (absorb_optimize C)) with (_load_image C).
  destruct (_load_image C image_data) as [im | e]; [| reflexivity].
  change (cfg_after_detect (absorb_optimize C)) with (cfg_after_detect C).
  set (c := cfg_after_detect C _ im).
  change (processed_of (absorb_optimize C)) with (processed_of C).
  assert (Hsvg : forall svg_raw,
             svg_final_of (absorb_optimize C) c svg_raw = svg_final_of C c svg_raw).
  { intros svg_raw. unfold svg_final_of, absorb_optimize. cbn [optimize_svg].
    destruct (truthy _); [| reflexivity].
    destruct (optimize_svg C svg_raw c); reflexivity. }
  destruct (to_bgr_image _) as [[h w] bgr_image].
  destruct (unique_rows [] bgr_image) as [| color [| color' rest]];
    try reflexivity;
    change (quantize (absorb_optimize C)) with (quantize C);
    (destruct (quantize C h w bgr_image _ _) as [[[qi pal] ms] | e]; [| reflexivity]);
    rewrite Hsvg; reflexivity.
Qed.

End EngineFacts.

Section EngineStages.
Import Engine.
Context {exn : Type}.
Variable C : components exn.

Lemma vectorize_outcome_absorb_preprocess image_data settings st :
  vectorize (absorb_preprocess C) image_data settings st = outcome C image_data settings st.
Proof. rewrite vectorize_outcome. apply outcome_absorb_preprocess. Qed.

Lemma vectorize_outcome_absorb_optimize image_data settings st :
  vectorize (absorb_optimize C) image_data settings st = outcome C image_data settings st.
Proof. rewrite vectorize_outcome. apply outcome_absorb_optimize. Qed.

(** X30.  A preprocessor that raises is the same to [vectorize] as one
    that returns the raw array, an optimizer that raises the same as one
    that returns the unoptimized SVG: the run, its result and its effects
    are equal.  An exception of the decoder leaves [vectorize], and so
    does one of the quantizer when the quantizer is called. *)
Theorem stage_failures image_data settings st :
  vectorize C image_data settings st
    = vectorize (absorb_preprocess C) image_data settings st /\
  vectorize C image_data settings st
    = vectorize (absorb_optimize C) image_data settings st /\
  (forall e, _load_image C image_data = Raise e ->
     (vectorize C image_data settings st).1 = Raise e) /\
  (forall im e, _load_image C image_data = Ok im ->
     let c := cfg_after_detect C (default ∅ (heap st !! settings)) im in
     let processed := processed_of C im c in
     ~ single_color processed ->
     quantize C (to_bgr_image processed).1.1 (to_bgr_image processed).1.2
       (to_bgr_image processed).2
       (dict_get c "n_colors" (VInt 16))
       (dict_get c "quantize_method" (VStr "kmeans")) = Raise e ->
     (vectorize C image_data settings st).1 = Raise e).
Proof.
  rewrite (vectorize_outcome C image_data settings st).
  split; [rewrite vectorize_outcome_absorb_preprocess; reflexivity |].
  split; [rewrite vectorize_outcome_absorb_optimize; reflexivity |]. split.
  - intros e He. unfold outcome. rewrite He. reflexivity.
  - intros im e Him. cbv zeta. unfold outcome, single_color. rewrite Him.
    destruct (to_bgr_image _) as [[h w] bgr_image]. cbn [fst snd].
    intros Hmulti Hq.
    destruct (unique_rows [] bgr_image) as [| color [| color' rest]].
    + rewrite Hq. reflexivity.
    + exfalso. apply Hmulti. eexists. reflexivity.
    + rewrite Hq. reflexivity.
Qed.

End EngineStages.

Section DetectModeFacts.
Import Engine.
Variable Canny_edge_density : list bgr -> Q.
Variable gray_std : list bgr -> Q.

Lemma decide_mode_cases u ed sd :
  decide_mode u ed sd ∈ ["photo"; "logo"; "line_art"; "pixel_art"; "auto"].
Proof.
  unfold decide_mode.
  repeat match goal with |- context [if ?b then _ else _] => destruct b end;
    apply list_elem_of_In; simpl; tauto.
Qed.

Lemma decide_mode_residual u ed sd :
  ~ ((u < 64)%nat /\ (ed < 5 # 100)%Q) -> ~ (u < 16)%nat ->
  ~ (sd < 30)%Q -> ~ (1000 < u)%nat ->
  decide_mode u ed sd = "auto".
Proof.
  intros H1 H2 H3 H4. unfold decide_mode.
  destruct ((u <? 64)%nat && negb (Qle_bool (5 # 100) ed)) eqn:E1.
  { exfalso. apply H1. apply andb_true_iff in E1 as [Eu Ee].
    apply Nat.ltb_lt in Eu. split; [exact Eu |].
    apply negb_true_iff in Ee. apply Qnot_le_lt. intros Hle.
    apply Qle_bool_iff in Hle. congruence. }
  destruct (u <? 16)%nat eqn:E2; [apply Nat.ltb_lt in E2; contradiction |].
  destruct (negb (Qle_bool 30 sd)) eqn:E3.
  { exfalso. apply H3. apply negb_true_iff in E3. apply Qnot_le_lt. intros Hle.
    apply Qle_bool_iff in Hle. congruence. }
  destruct (1000 <? u)%nat eqn:E4; [apply Nat.ltb_lt in E4; contradiction |].
  reflexivity.
Qed.

(** C5, as amended.  A three- or four-channel array that matches none of
    the four rules is classified ["auto"], not ["photo"]; the detector
    returns one of five modes, ["auto"] among them; and the mode that an
    ["auto"] request resolves to is stored in [cfg] as returned, so
    ["auto"] reaches the preprocessor. *)
Theorem residual_mode_is_auto idx h w (data : list bgr) :
  let u := unique_colors_of idx data in
  ~ ((u < 64)%nat /\ (Canny_edge_density data < 5 # 100)%Q) ->
  ~ (u < 16)%nat ->
  ~ (gray_std data < 30)%Q ->
  ~ (1000 < u)%nat ->
  _detect_mode Canny_edge_density gray_std idx (BGR h w data) = "auto" /\
  (forall a, _detect_mode Canny_edge_density gray_std idx (BGRA h w data a) = "auto") /\
  (forall im, _detect_mode Canny_edge_density gray_std idx im
              ∈ ["photo"; "logo"; "line_art"; "pixel_art"; "auto"]) /\
  (forall exn (C : components exn) (s : gmap string value) im,
      (s ∪ DEFAULT_SETTINGS) !! "mode" = Some (VStr "auto") ->
      cfg_after_detect C s im !! "mode"
      = Some (VStr (_detect_mode (Engine.Canny_edge_density C) (Engine.gray_std C)
                      (random_choice C) im))).
Proof.
  intros u H1 H2 H3 H4.
  split; [apply decide_mode_residual; assumption |].
  split; [intros a; apply decide_mode_residual; assumption |].
  split.
  - intros [? ? ? | ? ? ? | ? ? ? | ? ? ? ?]; cbn [_detect_mode];
      try apply decide_mode_cases; apply list_elem_of_In; simpl; tauto.
  - intros exn C s im Hmode. unfold cfg_after_detect, dict_get.
    rewrite Hmode. cbn [default].
    change (value_eqb (VStr "auto") (VStr "auto")) with true.
    apply lookup_insert_eq.
Qed.

End DetectModeFacts.

Section EngineRuns.
Import Engine.

(** C5, witness: the 128-gray ramp, an edge density of 0.1, a standard
    deviation of 73. *)
Lemma residual_mode_is_auto_witness :
  _detect_mode (fun _ => 1 # 10)%Q (fun _ => 73%Q) [] (BGR 8 16 gray_ramp) = "auto" /\
  (forall a, _detect_mode (fun _ => 1 # 10)%Q (fun _ => 73%Q) [] (BGRA 8 16 gray_ramp a)
             = "auto") /\
  (forall im, _detect_mode (fun _ => 1 # 10)%Q (fun _ => 73%Q) [] im
              ∈ ["photo"; "logo"; "line_art"; "pixel_art"; "auto"]) /\
  (forall exn (C : components exn) (s : gmap string value) im,
      (s ∪ DEFAULT_SETTINGS) !! "mode" = Some (VStr "auto") ->
      cfg_after_detect C s im !! "mode"
      = Some (VStr (_detect_mode (Engine.Canny_edge_density C) (Engine.gray_std C)
                      (random_choice C) im))).
Proof.
  apply (residual_mode_is_auto (fun _ => 1 # 10)%Q (fun _ => 73%Q) [] 8 16 gray_ramp).
  - vm_compute. intros [H _]. lia.
  - vm_compute. lia.
  - vm_compute. discriminate.
  - vm_compute. lia.
Defined.

(** C5, counterexample: the same array is classified ["auto"], which is
    neither ["photo"] nor any of the four modes of the claim. *)
Lemma residual_mode_is_not_photo :
  _detect_mode (fun _ => 1 # 10)%Q (fun _ => 73%Q) [] (BGR 8 16 gray_ramp) = "auto" /\
  _detect_mode (fun _ => 1 # 10)%Q (fun _ => 73%Q) [] (BGR 8 16 gray_ramp)
    ∉ ["photo"; "logo"; "line_art"; "pixel_art"].
Proof.
  assert (H : _detect_mode (fun _ => 1 # 10)%Q (fun _ => 73%Q) [] (BGR 8 16 gray_ramp)
              = "auto") by (vm_compute; reflexivity).
  split; [exact H |]. rewrite H.
  rewrite !not_elem_of_cons. repeat split; try discriminate.
  apply not_elem_of_nil.
Qed.

(** ["auto"] is not ["photo"] to the preprocessor: without heavy noise the
    one skips the denoiser and the other runs it. *)
Lemma auto_is_not_photo_downstream h w laplacian_var unique_ratio :
  (laplacian_var <= 500)%Q ->
  Preprocessor.denoise
    (Preprocessor.analyse_params h w laplacian_var unique_ratio (VStr "auto")) = false /\
  Preprocessor.denoise
    (Preprocessor.analyse_params h w laplacian_var unique_ratio (VStr "photo")) = true.
Proof.
  intros Hle. apply Qle_bool_iff in Hle.
  unfold Preprocessor.analyse_params.
  change (value_eqb (VStr "auto") (VStr "pixel_art")) with false.
  change (value_eqb (VStr "auto") (VStr "line_art")) with false.
  change (value_eqb (VStr "auto") (VStr "logo")) with false.
  change (value_eqb (VStr "auto") (VStr "photo")) with false.
  change (value_eqb (VStr "photo") (VStr "pixel_art")) with false.
  change (value_eqb (VStr "photo") (VStr "line_art")) with false.
  change (value_eqb (VStr "photo") (VStr "logo")) with false.
  change (value_eqb (VStr "photo") (VStr "photo")) with true.
  cbn [Preprocessor.denoise]. rewrite Hle. split; reflexivity.
Qed.

Lemma pair_of_fst {A B} (p : A * B) (a : A) : p.1 = a -> p = (a, p.2).
Proof. intros <-. destruct p; reflexivity. Qed.

(** C10, witness: the two-color run on the example store. *)
Lemma vectorize_leaves_settings_unchanged_witness :
  (heap two_color_run.2) !! 1%positive = Some example_settings /\
  exists cfg c, (cfg ∉ dom (heap example_store)) /\
    heap two_color_run.2 = <[cfg := c]> (heap example_store).
Proof.
  apply (vectorize_leaves_settings_unchanged (example_components black_white true false)
           [] 1%positive example_store example_settings).
  vm_compute. reflexivity.
Defined.

(** X30, witness: a decoder that raises, and a quantizer that raises on
    a two-color array. *)
Lemma stage_failures_witness :
  (vectorize (with_failing_decoder tt (example_components black_white true false))
     [] 1%positive example_store).1 = Raise tt /\
  (vectorize (with_failing_quantizer tt (example_components black_white true false))
     [] 1%positive example_store).1 = Raise tt.
Proof.
  split.
  - apply (stage_failures
             (with_failing_decoder tt (example_components black_white true false))
             [] 1%positive example_store).
    reflexivity.
  - eapply (proj2 (proj2 (proj2 (stage_failures
             (with_failing_quantizer tt (example_components black_white true false))
             [] 1%positive example_store)))).
    + reflexivity.
    + vm_compute. intros [color Hc]. discriminate.
    + reflexivity.
Defined.

End EngineRuns.

Section EngineTracingFacts.
Import Engine EngineTracing.
Context {exn : Type}.
Variable C : components exn.

Lemma trace_layers_absorb_tracer c pairs :
  trace_layers (absorb_tracer C) c pairs = trace_layers C c pairs.
Proof.
  induction pairs as [| [color mask] pairs IH]; [reflexivity |].
  cbn [trace_layers]. unfold absorb_tracer at 1, replace_tracer at 1. cbn [trace_layer].
  destruct (trace_layer C mask color c) as [path_el | e].
  - rewrite IH. reflexivity.
  - rewrite bool_decide_true by reflexivity. cbn [negb]. exact IH.
Qed.

(** C6.  With a callback supplied, a call that returns from the main path
    has reported the seven stage boundaries in order.  A call that returns
    from the single-color fast path has traced the one layer and assembled
    the SVG as well, yet it has reported the first three boundaries only:
    the reports of tracing, assembling, optimizing and done are not made. *)
Theorem fast_path_reports_three_stages image_data settings st cb b st' im :
  progress_callback C = Some cb ->
  vectorize C image_data settings st = (Ok b, st') ->
  _load_image C image_data = Ok im ->
  let c := cfg_after_detect C (default ∅ (heap st !! settings)) im in
  let processed := processed_of C im c in
  let '(h, w, bgr_image) := to_bgr_image processed in
  (~ single_color processed -> calls st' = calls st ++ STAGES) /\
  (forall color, unique_rows [] bgr_image = [color] ->
     calls st' = calls st ++ [(0, "loading"); (10, "preprocessing"); (30, "quantizing")] /\
     calls st' <> calls st ++ STAGES /\
     exists path_el,
       trace_layer C (replicate (h * w) 255) (Quantizer._bgr_to_hex color) c = Ok path_el /\
       svg b = assemble_svg C [(Quantizer._bgr_to_hex color, path_el)] w h c).
Proof.
  intros Hcb Hrun Him. rewrite vectorize_outcome in Hrun. unfold outcome in Hrun.
  rewrite !(emit_app C cb) in Hrun by exact Hcb. rewrite Him in Hrun.
  cbv zeta in *. unfold single_color.
  destruct (to_bgr_image _) as [[h w] bgr_image]. cbn [snd].
  assert (Hshort : forall log : list (Z * string),
             log ++ [(0, "loading"); (10, "preprocessing"); (30, "quantizing")]
             <> log ++ STAGES).
  { intros log Heq. apply app_inv_head in Heq. discriminate. }
  destruct (unique_rows [] bgr_image) as [| color [| color' rest]].
  - destruct (quantize C h w bgr_image _ _) as [[[qi pal] ms] | e]; [| discriminate].
    injection Hrun as _ <-. cbn [calls]. split.
    + intros _. unfold STAGES. rewrite <- !app_assoc. reflexivity.
    + intros k Hk. discriminate.
  - destruct (trace_layer C _ _ _) as [path_el | e] eqn:Et; [| discriminate].
    injection Hrun as <- <-. cbn [calls svg]. split.
    + intros Hn. exfalso. apply Hn. eexists. reflexivity.
    + intros k [= <-]. rewrite <- !app_assoc. cbn [app].
      split; [reflexivity |]. split; [apply Hshort |].
      exists path_el. split; [exact Et | reflexivity].
  - destruct (quantize C h w bgr_image _ _) as [[[qi pal] ms] | e]; [| discriminate].
    injection Hrun as _ <-. cbn [calls]. split.
    + intros _. unfold STAGES. rewrite <- !app_assoc. reflexivity.
    + intros k Hk. discriminate.
Qed.

Lemma outcome_absorb_tracer_main image_data settings st im :
  _load_image C image_data = Ok im ->
  ~ single_color
      (processed_of C im (cfg_after_detect C (default ∅ (heap st !! settings)) im)) ->
  outcome (absorb_tracer C) image_data settings st = outcome C image_data settings st.
Proof.
  intros Him Hmulti. unfold outcome.
  change (_load_image (absorb_tracer C)) with (_load_image C). rewrite Him.
  change (cfg_after_detect (absorb_tracer C)) with (cfg_after_detect C).
  change (processed_of (absorb_tracer C)) with (processed_of C).
  cbv zeta. unfold single_color in Hmulti.
  destruct (to_bgr_image _) as [[h w] bgr_image]. cbn [snd] in Hmulti.
  change (quantize (absorb_tracer C)) with (quantize C).
  destruct (unique_rows [] bgr_image) as [| color [| color' rest]].
  - destruct (quantize C h w bgr_image _ _) as [[[qi pal] ms] | e]; [| reflexivity].
    rewrite trace_layers_absorb_tracer. reflexivity.
  - exfalso. apply Hmulti. eexists. reflexivity.
  - destruct (quantize C h w bgr_image _ _) as [[[qi pal] ms] | e]; [| reflexivity].
    rewrite trace_layers_absorb_tracer. reflexivity.
Qed.

(** C9.  Besides the failures of the decoder and of the quantizer, a
    failure of the tracer reaches the caller.  On the main path an
    exception of [trace_layer] is caught and the layer left out: the run is
    the run with a tracer that returns no path.  On the single-color fast
    path the same call stands outside any [try]: the decoder has returned,
    the quantizer is not called, whichever it is, and the exception of
    [trace_layer] leaves [vectorize], where the run with the absorbing
    tracer returns. *)
Theorem fast_path_tracer_failure_surfaces image_data settings st im :
  _load_image C image_data = Ok im ->
  let c := cfg_after_detect C (default ∅ (heap st !! settings)) im in
  let processed := processed_of C im c in
  let '(h, w, bgr_image) := to_bgr_image processed in
  (~ single_color processed ->
     vectorize C image_data settings st
     = vectorize (absorb_tracer C) image_data settings st) /\
  (forall color e,
     unique_rows [] bgr_image = [color] ->
     trace_layer C (replicate (h * w) 255) (Quantizer._bgr_to_hex color) c = Raise e ->
     (forall q, (vectorize (replace_quantizer q C) image_data settings st).1 = Raise e) /\
     (vectorize C image_data settings st).1 = Raise e /\
     exists b, (vectorize (absorb_tracer C) image_data settings st).1 = Ok b).
Proof.
  intros Him. cbv zeta.
  pose proof (outcome_absorb_tracer_main image_data settings st im Him) as Hmain.
  cbv zeta in Hmain.
  destruct (to_bgr_image (processed_of C im _)) as [[h w] bgr_image] eqn:Eimg.
  split.
  - intros Hmulti. rewrite !vectorize_outcome. symmetry. apply Hmain. exact Hmulti.
  - intros color e Hone Ht.
    assert (Hq : forall q, (vectorize (replace_quantizer q C) image_data settings st).1
                           = Raise e).
    { intros q. rewrite vectorize_outcome. unfold outcome.
      change (_load_image (replace_quantizer q C)) with (_load_image C). rewrite Him.
      change (cfg_after_detect (replace_quantizer q C)) with (cfg_after_detect C).
      change (processed_of (replace_quantizer q C)) with (processed_of C).
      cbv zeta. rewrite Eimg, Hone.
      change (trace_layer (replace_quantizer q C)) with (trace_layer C).
      rewrite Ht. reflexivity. }
    split; [exact Hq |]. split.
    + rewrite vectorize_outcome. unfold outcome. rewrite Him. cbv zeta.
      rewrite Eimg, Hone, Ht. reflexivity.
    + rewrite vectorize_outcome. unfold outcome.
      change (_load_image (absorb_tracer C)) with (_load_image C). rewrite Him.
      change (cfg_after_detect (absorb_tracer C)) with (cfg_after_detect C).
      change (processed_of (absorb_tracer C)) with (processed_of C).
      cbv zeta. rewrite Eimg, Hone.
      unfold absorb_tracer at 1, replace_tracer at 1. cbn [trace_layer].
      rewrite Ht. eexists. reflexivity.
Qed.

Lemma to_bgr_image_map_alpha f im : to_bgr_image (map_alpha f im) = to_bgr_image im.
Proof. destruct im; reflexivity. Qed.

Lemma outcome_replace_processed_alpha f image_data settings st :
  outcome (replace_processed_alpha f C) image_data settings st
  = outcome C image_data settings st.
Proof.
  unfold outcome.
  change (_load_image (replace_processed_alpha f C)) with (_load_image C).
  destruct (_load_image C image_data) as [im | e]; [| reflexivity].
  change (cfg_after_detect (replace_processed_alpha f C)) with (cfg_after_detect C).
  cbv zeta. set (c := cfg_after_detect C _ im).
  assert (Himg : to_bgr_image (processed_of (replace_processed_alpha f C) im c)
                 = to_bgr_image (processed_of C im c)).
  { unfold processed_of, replace_processed_alpha. cbn [preprocess].
    destruct (preprocess C im c) as [processed | e]; [| reflexivity].
    apply to_bgr_image_map_alpha. }
  rewrite Himg. reflexivity.
Qed.

End EngineTracingFacts.

Section EngineTracingRuns.
Import Engine EngineTracing.

(** C8.  The alpha plane does not reach the quantizer: [vectorize] drops
    it from the preprocessed array (lines 146 to 151) and reads it no more,
    so a run with any other alpha plane returns the same bundle, masks
    included, and has the same effects.  On a 1x2 array whose first pixel
    is fully transparent, with every preprocessing stage off, the
    preprocessed array still carries the plane [0, 255], and the mask of
    the first color is 255 at that pixel, where the conjunction with the
    plane is 0. *)
Theorem alpha_plane_dropped_before_quantizer :
  (forall exn (C : components exn) f image_data settings st,
      vectorize (replace_processed_alpha f C) image_data settings st
      = vectorize C image_data settings st) /\
  let C := example_components translucent_pair false false in
  processed_of C translucent_pair (cfg_after_detect C plain_settings translucent_pair)
  = translucent_pair /\
  exists b,
    (vectorize C [] 1%positive plain_store).1 = Ok b /\
    palette b = ["#0a0a0a"; "#c8c8c8"] /\
    masks b = [[255; 0]; [0; 255]] /\
    map (fun mask => Quantizer.bitwise_and mask [0; 255]) (masks b) = [[0; 0]; [0; 255]].
Proof.
  split.
  - intros exn C f image_data settings st. rewrite !vectorize_outcome.
    apply outcome_replace_processed_alpha.
  - cbv zeta. split; [vm_compute; reflexivity |].
    eexists. split; [vm_compute; reflexivity |].
    repeat split; vm_compute; reflexivity.
Qed.

(** C6, witness: a 2x2 array of one color, every preprocessing stage off,
    callback supplied.  The call returns a bundle whose SVG holds the
    traced layer, and the callback has been called three times. *)
Lemma fast_path_reports_three_stages_witness :
  let run := vectorize (example_components solid_red true false) [] 1%positive
               plain_store in
  (exists b, run.1 = Ok b /\ svg b = "path #ff0000;") /\
  calls run.2 = [(0, "loading"); (10, "preprocessing"); (30, "quantizing")] /\
  calls run.2 <> STAGES.
Proof.
  cbv zeta.
  set (C := example_components solid_red true false).
  set (b := Bundle "path #ff0000;" (replicate 4 (0, 0, 255)) ["#ff0000"]
                   [replicate 4 255] 2 2).
  assert (Hrun : vectorize C [] 1%positive plain_store
                 = (Ok b, (vectorize C [] 1%positive plain_store).2))
    by (apply pair_of_fst; vm_compute; reflexivity).
  pose proof (fast_path_reports_three_stages C [] 1%positive plain_store
                (fun _ _ => Ok tt) b _ solid_red eq_refl Hrun eq_refl) as H.
  cbv zeta in H.
  assert (E : to_bgr_image
                (processed_of C solid_red
                   (cfg_after_detect C (default ∅ (heap plain_store !! 1%positive))
                      solid_red))
              = (2%nat, 2%nat, replicate 4 (0, 0, 255))) by (vm_compute; reflexivity).
  rewrite E in H. destruct H as [_ H].
  destruct (H (0, 0, 255) eq_refl) as (H3 & Hne & _).
  split; [exists b; split; [rewrite Hrun; reflexivity | reflexivity] |].
  split; [exact H3 | exact Hne].
Defined.

(** C9, witness: a 2x2 array of one color, and [min_area] given as text.
    The decoder returns, the quantizer is not called, and the TypeError of
    the tracer leaves [vectorize]. *)
Lemma fast_path_tracer_failure_surfaces_witness :
  let C := replace_tracer tracer_comparing_min_area
             (example_components solid_red true false) in
  _load_image C [] = Ok solid_red /\
  (forall q, (vectorize (replace_quantizer q C) [] 1%positive
                store_with_min_area_as_text).1 = Raise tt) /\
  (vectorize C [] 1%positive store_with_min_area_as_text).1 = Raise tt /\
  exists b, (vectorize (absorb_tracer C) [] 1%positive store_with_min_area_as_text).1
            = Ok b.
Proof.
  cbv zeta.
  set (C := replace_tracer tracer_comparing_min_area
              (example_components solid_red true false)).
  split; [reflexivity |].
  pose proof (fast_path_tracer_failure_surfaces C [] 1%positive
                store_with_min_area_as_text solid_red eq_refl) as H.
  cbv zeta in H.
  assert (E : to_bgr_image
                (processed_of C solid_red
                   (cfg_after_detect C
                      (default ∅ (heap store_with_min_area_as_text !! 1%positive))
                      solid_red))
              = (2%nat, 2%nat, replicate 4 (0, 0, 255))) by (vm_compute; reflexivity).
  rewrite E in H. destruct H as [_ H].
  apply (H (0, 0, 255) tt); [reflexivity | vm_compute; reflexivity].
Defined.

(** With [min_area] given as text the decoder returns, the array holds
    one color, the tracer raises and so does [vectorize]; with the area as
    a number the same call returns. *)
Lemma min_area_as_text_run :
  (vectorize (replace_tracer tracer_comparing_min_area
                (example_components solid_red true false))
     [] 1%positive store_with_min_area_as_text).1 = Raise tt /\
  exists b,
    (vectorize (replace_tracer tracer_comparing_min_area
                  (example_components solid_red true false))
       [] 1%positive plain_store).1 = Ok b.
Proof. split; [| eexists]; vm_compute; reflexivity. Qed.

End EngineTracingRuns.

Section EngineSamplingFacts.
Import Engine EngineSampling.

















End EngineSamplingFacts.

(** ** preprocessor.py *)

Section PreprocessorFacts.
Import Preprocessor.
Variable cv2_resize : interpolation -> forall (h w h' w' : nat), list Z -> list Z.
Variable Laplacian_var : nat -> nat -> list bgr -> Q.
Variable unique_gray : list bgr -> nat.
Variable fastNlMeansDenoisingColored :
  nat -> nat -> list bgr -> forall (h hColor tw sw : Z), option (list bgr).
Variable bilateralFilter :
  nat -> nat -> list bgr -> forall (d sigmaColor sigmaSpace : Z), option (list bgr).
Variable clahe_lab :
  nat -> nat -> list bgr -> forall (clipLimit : Q) (tileGridSize : Z * Z), option (list bgr).
Variable unsharp_mask : nat -> nat -> list bgr -> forall (amount : Q), option (list bgr).

Abbreviation preprocess' :=
  (preprocess cv2_resize Laplacian_var unique_gray fastNlMeansDenoisingColored
              bilateralFilter clahe_lab unsharp_mask).
Abbreviation _analyse' := (_analyse Laplacian_var unique_gray).






(** The work record after the upscale stage. *)
Lemma upscale_shape p settings h w data :
  let x := stage_on (truthy (dict_get settings "upscale" (VBool true)))
                    (_upscale cv2_resize p) (Work h w data []) in
  let k := upscale_factor p settings in
  wh x = (h * k)%nat /\ ww x = (w * k)%nat /\
  wcalls x = if (1 <? k)%nat
             then [call_resize color_planes (w * k) (h * k) (interp p)]
             else [].
Proof.
  cbv zeta. unfold stage_on, upscale_factor, _upscale.
  destruct (truthy _); cbn [andb].
  - destruct (scale p <=? 1)%nat eqn:E; cbn [negb wh ww wcalls].
    + repeat split; lia.
    + apply Nat.leb_gt in E.
      destruct (1 <? scale p)%nat eqn:E'; [| apply Nat.ltb_ge in E'; lia].
      repeat split.
  - cbn [wh ww wcalls]. repeat split; lia.
Qed.


End PreprocessorFacts.

Section PreprocessorRuns.
Import Preprocessor.


(** The same array in pixel-art mode: the color planes are resized to 8x8
    with nearest-neighbour sampling, the alpha plane to 8x8 with Lanczos
    interpolation. *)
Lemma pixel_art_alpha_resized_differently :
  exists out calls,
    preprocess_with_identity_kernels (BGRA 2 2 (replicate 4 (0, 0, 255)) [0; 255; 128; 255])
      {[ "mode" := VStr "pixel_art" ]} = Ok (out, calls) /\
    calls = [call_resize color_planes 8 8 INTER_NEAREST;
             call_resize alpha_plane 8 8 INTER_LANCZOS4] /\
    ~ alpha_resized_as_color calls.
Proof.
  eexists _, _. split; [vm_compute; reflexivity |]. split; [reflexivity |].
  intros Hall.
  specialize (Hall 8%nat 8%nat INTER_LANCZOS4).
  assert (Hin : call_resize color_planes 8 8 INTER_LANCZOS4
                ∈ [call_resize color_planes 8 8 INTER_NEAREST;
                   call_resize alpha_plane 8 8 INTER_LANCZOS4]).
  { apply Hall. apply list_elem_of_In. simpl. tauto. }
  apply list_elem_of_In in Hin. simpl in Hin.
  destruct Hin as [Hin | [Hin | []]]; discriminate.
Qed.

End PreprocessorRuns.

(** ** optimizer.py *)

Section OptimizerFacts.
Import Optimizer.

(** [_round_path_coords] glues a number that loses its decimal point to
    the digits of a number written without a leading zero, and a second
    application rounds the glued number. *)
Lemma _round_path_coords_twice :
  _round_path_coords "M2.0.125 3 4" = "M2.125 3 4" /\
  _round_path_coords "M2.125 3 4" = "M2.12 3 4".
Proof. split; vm_compute; reflexivity. Qed.

(** On path data as the tracer writes them, numbers with two decimals
    between spaces, a second application changes nothing. *)
Lemma _round_path_coords_on_tracer_output :
  _round_path_coords "M 1.00 2.50 C 1.17 -3.46 0.33 12.05 -0.00 7.10 Z"
  = "M 1 2.5 C 1.17 -3.46 0.33 12.05 -0 7.1 Z" /\
  _round_path_coords "M 1 2.5 C 1.17 -3.46 0.33 12.05 -0 7.1 Z"
  = "M 1 2.5 C 1.17 -3.46 0.33 12.05 -0 7.1 Z".
Proof. split; vm_compute; reflexivity. Qed.

Variable float_of_string : string -> option pyfloat.
Variable str_of_float : pyfloat -> string.
Variable fromstring : string -> option element.
Variable tostring : element -> string.

Abbreviation optimize := (optimize_svg float_of_string str_of_float fromstring tostring).

(** One run of [optimize_svg] on a one-path document that parses, all
    flags on. *)
Lemma optimize_one_path (s d d' : string) :
  s <> "" ->
  text (remove_comments (length (chars s)) (chars s)) = s ->
  fromstring s = Some (svg_tree d) ->
  _round_path_coords d = d' ->
  d <> "" ->
  tostring (svg_tree d') = svg_serialized d' ->
  text (_minify (chars (XML_DECLARATION +:+ svg_serialized d'))) = svg_optimized d' ->
  optimize s ∅ = svg_optimized d'.
Proof.
  intros Hne Hcomments Hparse Hround Hd Hwrite Hminify.
  unfold optimize_svg.
  rewrite bool_decide_eq_false_2 by exact Hne.
  change (truthy (dict_get ∅ _ (VBool true))) with true. cbv iota.
  rewrite Hcomments, Hparse.
  assert (Htree :
    _optimize_viewbox float_of_string
      (_merge_same_fill_paths
         (_collapse_empty_groups
            (_round_all_paths float_of_string str_of_float (svg_tree d))))
    = svg_tree d').
  { assert (Hr : _round_all_paths float_of_string str_of_float (svg_tree d) = svg_tree d').
    { unfold svg_tree. cbn [_round_all_paths map]. f_equal. f_equal. f_equal.
      unfold round_attrib. cbn [get bool_decide decide_rel].
      rewrite bool_decide_eq_true_2 by reflexivity.
      rewrite bool_decide_eq_false_2 by exact Hd. cbn [negb set].
      rewrite bool_decide_eq_true_2 by reflexivity. rewrite Hround.
      vm_compute. reflexivity. }
    rewrite Hr. vm_compute. reflexivity. }
  rewrite Htree, Hwrite. exact Hminify.
Qed.

(** C7.  With all flags on, [optimize_svg] is not idempotent on the valid
    document [<svg xmlns=...><path d="M2.0.125 3 4"/></svg>], given that
    ElementTree parses this document and the optimizer's output of it to
    the one-path tree and writes that tree back: the first run returns
    the path data [M2.125 3 4], which still has three decimals and has lost
    the point (2.0, .125), and the second run returns [M2.12 3 4]. *)
Theorem optimize_svg_rounds_again :
  fromstring (svg_doc "M2.0.125 3 4") = Some (svg_tree "M2.0.125 3 4") ->
  fromstring (svg_optimized "M2.125 3 4") = Some (svg_tree "M2.125 3 4") ->
  (forall d, tostring (svg_tree d) = svg_serialized d) ->
  optimize (svg_doc "M2.0.125 3 4") ∅ = svg_optimized "M2.125 3 4" /\
  optimize (optimize (svg_doc "M2.0.125 3 4") ∅) ∅ = svg_optimized "M2.12 3 4" /\
  optimize (optimize (svg_doc "M2.0.125 3 4") ∅) ∅ <> optimize (svg_doc "M2.0.125 3 4") ∅.
Proof.
  intros Hparse1 Hparse2 Hwrite.
  assert (H1 : optimize (svg_doc "M2.0.125 3 4") ∅ = svg_optimized "M2.125 3 4").
  { apply (optimize_one_path _ "M2.0.125 3 4" "M2.125 3 4");
      [discriminate | vm_compute; reflexivity | exact Hparse1 | vm_compute; reflexivity
       | discriminate | apply Hwrite | vm_compute; reflexivity]. }
  assert (H2 : optimize (svg_optimized "M2.125 3 4") ∅ = svg_optimized "M2.12 3 4").
  { apply (optimize_one_path _ "M2.125 3 4" "M2.12 3 4");
      [discriminate | vm_compute; reflexivity | exact Hparse2 | vm_compute; reflexivity
       | discriminate | apply Hwrite | vm_compute; reflexivity]. }
  rewrite H1, H2. repeat split.
  intros Heq. apply (f_equal String.length) in Heq. vm_compute in Heq. discriminate.
Qed.

End OptimizerFacts.

Section OptimizerRuns.
Import Optimizer.

(** C7, witness: the table parser and writer. *)
Lemma optimize_svg_rounds_again_witness :
  optimize_svg (fun _ => None) (fun _ => "") fromstring_table tostring_table
    (svg_doc "M2.0.125 3 4") ∅ = svg_optimized "M2.125 3 4" /\
  optimize_svg (fun _ => None) (fun _ => "") fromstring_table tostring_table
    (optimize_svg (fun _ => None) (fun _ => "") fromstring_table tostring_table
       (svg_doc "M2.0.125 3 4") ∅) ∅ = svg_optimized "M2.12 3 4" /\
  optimize_svg (fun _ => None) (fun _ => "") fromstring_table tostring_table
    (optimize_svg (fun _ => None) (fun _ => "") fromstring_table tostring_table
       (svg_doc "M2.0.125 3 4") ∅) ∅
  <> optimize_svg (fun _ => None) (fun _ => "") fromstring_table tostring_table
       (svg_doc "M2.0.125 3 4") ∅.
Proof.
  apply (optimize_svg_rounds_again (fun _ => None) (fun _ => "")
           fromstring_table tostring_table).
  - vm_compute. reflexivity.
  - vm_compute. reflexivity.
  - intros d. reflexivity.
Defined.

End OptimizerRuns.

(** ** color_quantizer.py: what the functions guarantee *)

Section QuantizerContracts.
Import Quantizer.

(** *** Hex strings *)

(** X1.  [_bgr_to_hex] writes an 8-bit color as seven characters,
    [_hex_to_bgr] reads them back to the same color, and so two different
    colors never get the same string. *)
Theorem hex_round_trip (c d : bgr) :
  bgr_uint8 c -> bgr_uint8 d ->
  _hex_to_bgr (_bgr_to_hex c) = c /\
  String.length (_bgr_to_hex c) = 7%nat /\
  (_bgr_to_hex c = _bgr_to_hex d -> c = d).
Proof.
  intros Hc Hd. split; [apply _hex_to_bgr_to_hex; exact Hc |]. split.
  - destruct c as [[b g] r]. reflexivity.
  - intros Heq. rewrite <- (_hex_to_bgr_to_hex c Hc), <- (_hex_to_bgr_to_hex d Hd).
    rewrite Heq. reflexivity.
Qed.

Lemma hex_round_trip_witness :
  _hex_to_bgr (_bgr_to_hex (0, 128, 255)) = (0, 128, 255) /\
  String.length (_bgr_to_hex (0, 128, 255)) = 7%nat /\
  (_bgr_to_hex (0, 128, 255) = _bgr_to_hex (1, 2, 3) -> (0, 128, 255) = (1, 2, 3)).
Proof.
  apply (hex_round_trip (0, 128, 255) (1, 2, 3));
    unfold bgr_uint8, is_uint8, chan_b, chan_g, chan_r; simpl; lia.
Defined.

(** *** Nearest palette entry *)

Lemma argmin_from_spec (pre l : list Z) best_i best :
  pre !! best_i = Some best ->
  (forall j w, pre !! j = Some w -> best <= w) ->
  (forall j w, pre !! j = Some w -> (j < best_i)%nat -> best < w) ->
  exists v, (pre ++ l) !! argmin_from best_i best (length pre) l = Some v /\
    (forall j w, (pre ++ l) !! j = Some w -> v <= w) /\
    (forall j w, (pre ++ l) !! j = Some w ->
       (j < argmin_from best_i best (length pre) l)%nat -> v < w).
Proof.
  revert pre best_i best. induction l as [| x l IH]; intros pre best_i best Hb Hle Hlt.
  - simpl. rewrite app_nil_r. eauto.
  - simpl. replace (pre ++ x :: l) with ((pre ++ [x]) ++ l) by (rewrite <- app_assoc; reflexivity).
    replace (S (length pre)) with (length (pre ++ [x])) by (rewrite length_app; simpl; lia).
    destruct (x <? best) eqn:E.
    + apply Z.ltb_lt in E. apply IH.
      * rewrite lookup_app_r by lia. rewrite Nat.sub_diag. reflexivity.
      * intros j w Hj. apply lookup_app_Some in Hj as [Hj | [_ Hj]].
        -- specialize (Hle _ _ Hj). lia.
        -- apply list_lookup_singleton_Some in Hj as [_ <-]. lia.
      * intros j w Hj Hjl. apply lookup_app_Some in Hj as [Hj | [Hge _]]; [| lia].
        specialize (Hle _ _ Hj). lia.
    + apply Z.ltb_ge in E. apply IH.
      * apply lookup_app_l_Some. exact Hb.
      * intros j w Hj. apply lookup_app_Some in Hj as [Hj | [_ Hj]].
        -- exact (Hle _ _ Hj).
        -- apply list_lookup_singleton_Some in Hj as [_ <-]. exact E.
      * intros j w Hj Hjl. apply lookup_app_Some in Hj as [Hj | [Hge _]].
        -- exact (Hlt _ _ Hj Hjl).
        -- apply lookup_lt_Some in Hb. lia.
Qed.

(** [np.argmin]: the position of the first least entry. *)
Lemma argmin_spec (l : list Z) :
  l <> [] ->
  exists v, l !! argmin l = Some v /\
    (forall j w, l !! j = Some w -> v <= w) /\
    (forall j w, l !! j = Some w -> (j < argmin l)%nat -> v < w).
Proof.
  destruct l as [| x l]; [congruence | intros _].
  apply (argmin_from_spec [x] l 0%nat x).
  - reflexivity.
  - intros j w Hj. apply list_lookup_singleton_Some in Hj as [_ <-]. lia.
  - intros j w _ Hj. lia.
Qed.

(** X2.  [_assign_labels] gives every pixel the index of a palette entry
    at the least squared distance from it, and of the first such entry
    when several are equally near. *)
Theorem assign_labels_nearest (pixels palette : list bgr) :
  palette <> [] ->
  length (_assign_labels pixels palette) = length pixels /\
  forall p px, pixels !! p = Some px ->
    exists l c, _assign_labels pixels palette !! p = Some l /\
      palette !! l = Some c /\
      (forall j cj, palette !! j = Some cj -> dist_sq px c <= dist_sq px cj) /\
      (forall j cj, palette !! j = Some cj -> (j < l)%nat -> dist_sq px c < dist_sq px cj).
Proof.
  intros Hne. unfold _assign_labels. split; [apply length_map |].
  intros p px Hp.
  destruct (argmin_spec (map (dist_sq px) palette)) as (v & Hv & Hle & Hlt).
  { destruct palette; simpl; congruence. }
  rewrite list_lookup_fmap in Hv.
  destruct (palette !! argmin (map (dist_sq px) palette)) as [c |] eqn:Ec; [| discriminate].
  injection Hv as <-.
  exists (argmin (map (dist_sq px) palette)), c.
  rewrite list_lookup_fmap, Hp. split; [reflexivity |]. split; [exact Ec |]. split.
  - intros j cj Hj. apply (Hle j). rewrite list_lookup_fmap, Hj. reflexivity.
  - intros j cj Hj Hjl. apply (Hlt j); [| exact Hjl]. rewrite list_lookup_fmap, Hj. reflexivity.
Qed.

Lemma assign_labels_nearest_witness :
  length (_assign_labels [(0, 0, 0); (9, 9, 9)] [(10, 10, 10); (1, 1, 1)]) = 2%nat /\
  forall p px, [(0, 0, 0); (9, 9, 9)] !! p = Some px ->
    exists l c, _assign_labels [(0, 0, 0); (9, 9, 9)] [(10, 10, 10); (1, 1, 1)] !! p = Some l /\
      [(10, 10, 10); (1, 1, 1)] !! l = Some c /\
      (forall j cj, [(10, 10, 10); (1, 1, 1)] !! j = Some cj -> dist_sq px c <= dist_sq px cj) /\
      (forall j cj, [(10, 10, 10); (1, 1, 1)] !! j = Some cj -> (j < l)%nat ->
         dist_sq px c < dist_sq px cj).
Proof.
  apply (assign_labels_nearest [(0, 0, 0); (9, 9, 9)] [(10, 10, 10); (1, 1, 1)]).
  discriminate.
Defined.

End QuantizerContracts.

Section MedianCutFacts.
Import Quantizer.

(** *** Sorting the boxes *)

Lemma insert_desc_perm {A} (key : A -> Z) x (l : list A) : insert_desc key x l ≡ₚ x :: l.
Proof.
  induction l as [| y l IH]; simpl; [reflexivity |].
  destruct (key y <=? key x); [reflexivity |].
  rewrite IH. apply Permutation_swap.
Qed.

Lemma sort_desc_perm {A} (key : A -> Z) (l : list A) : sort_desc key l ≡ₚ l.
Proof.
  induction l as [| x l IH]; simpl; [reflexivity |].
  unfold sort_desc in *. simpl. rewrite insert_desc_perm, IH. reflexivity.
Qed.

Lemma insert_asc_perm {A} (key : A -> Z) x (l : list A) : insert_asc key x l ≡ₚ x :: l.
Proof.
  induction l as [| y l IH]; simpl; [reflexivity |].
  destruct (key x <=? key y); [reflexivity |].
  rewrite IH. apply Permutation_swap.
Qed.

Lemma sort_asc_perm {A} (key : A -> Z) (l : list A) : sort_asc key l ≡ₚ l.
Proof.
  induction l as [| x l IH]; simpl; [reflexivity |].
  unfold sort_asc in *. simpl. rewrite insert_asc_perm, IH. reflexivity.
Qed.

Lemma insert_desc_sorted {A} (key : A -> Z) x (l : list A) :
  StronglySorted (fun a b => key b <= key a) l ->
  StronglySorted (fun a b => key b <= key a) (insert_desc key x l).
Proof.
  induction 1 as [| y l Hs IH Hy]; simpl.
  - repeat constructor.
  - destruct (key y <=? key x) eqn:E.
    + apply Z.leb_le in E. constructor; [constructor; assumption |].
      constructor; [exact E |].
      eapply Forall_impl; [exact Hy |]. simpl. intros z Hz. lia.
    + apply Z.leb_gt in E. constructor; [exact IH |].
      rewrite insert_desc_perm. constructor; [lia | exact Hy].
Qed.

Lemma sort_desc_sorted {A} (key : A -> Z) (l : list A) :
  StronglySorted (fun a b => key b <= key a) (sort_desc key l).
Proof.
  induction l as [| x l IH]; simpl; [constructor |].
  apply insert_desc_sorted. exact IH.
Qed.

(** After [boxes.sort(..., reverse=True)] no box is larger than the first. *)
Lemma sort_desc_head {A} (key : A -> Z) (l : list A) x rest :
  sort_desc key l = x :: rest -> Forall (fun y => key y <= key x) rest.
Proof.
  intros H. pose proof (sort_desc_sorted key l) as Hs. rewrite H in Hs.
  inversion Hs; assumption.
Qed.

(** *** Splitting a box *)

Lemma split_spec (pixels : list bgr) lo hi :
  split pixels = (lo, hi) ->
  lo ++ hi ≡ₚ pixels /\ length lo = (length pixels / 2)%nat.
Proof.
  unfold split. intros H. injection H as <- <-.
  rewrite take_drop. split; [apply sort_asc_perm |].
  rewrite length_take. pose proof (Permutation_length (sort_asc_perm (channel (_channel_range pixels)) pixels)) as Hl.
  rewrite Hl. apply Nat.min_l. apply Nat.Div0.div_le_upper_bound. lia.
Qed.

Lemma length_concat_ones {A} (boxes : list (list A)) :
  Forall (fun b => length b = 1%nat) boxes -> length (concat boxes) = length boxes.
Proof.
  induction 1 as [| b boxes Hb _ IH]; simpl; [reflexivity |].
  rewrite length_app, Hb, IH. reflexivity.
Qed.

Lemma length_concat_ge {A} (boxes : list (list A)) :
  Forall (fun b => b <> []) boxes -> (length boxes <= length (concat boxes))%nat.
Proof.
  induction 1 as [| b boxes Hb _ IH]; simpl; [lia |].
  rewrite length_app. destruct b; [congruence | simpl; lia].
Qed.

(** *** The loop *)

(** The boxes stay a partition of the pixels into non-empty parts, and
    the loop ends with as many boxes as asked for, or with one box per
    pixel if there are fewer pixels than that. *)
Lemma median_cut_loop_spec fuel (boxes : list (list bgr)) n :
  Forall (fun b => b <> []) boxes ->
  n <= Z.of_nat fuel + Z.of_nat (length boxes) ->
  let r := median_cut_loop fuel boxes n in
  concat r ≡ₚ concat boxes /\
  Forall (fun b => b <> []) r /\
  Z.of_nat (length r)
  = Z.max (Z.of_nat (length boxes)) (Z.min n (Z.of_nat (length (concat boxes)))).
Proof.
  revert boxes. induction fuel as [| fuel IH]; intros boxes Hne Hfuel; cbn zeta.
  - simpl. split; [reflexivity |]. split; [exact Hne |]. lia.
  - cbn [median_cut_loop]. destruct (Z.of_nat (length boxes) <? n) eqn:Elt.
    2:{ apply Z.ltb_ge in Elt. split; [reflexivity |]. split; [exact Hne |]. lia. }
    apply Z.ltb_lt in Elt.
    pose proof (sort_desc_perm box_len boxes) as Hperm.
    destruct (sort_desc box_len boxes) as [| largest rest] eqn:Es.
    { apply Permutation_nil_l in Hperm. subst boxes. simpl in *.
      split; [reflexivity |]. split; [constructor |]. lia. }
    assert (Hne' : Forall (fun b => b <> []) (largest :: rest)).
    { rewrite Hperm. exact Hne. }
    pose proof (length_concat_ge _ Hne) as Hge.
    destruct (box_len largest <? 2) eqn:E2.
    + apply Z.ltb_lt in E2. unfold box_len in E2.
      split; [rewrite Hperm; reflexivity |]. split; [exact Hne' |].
      assert (Hones : Forall (fun b : list bgr => length b = 1%nat) (largest :: rest)).
      { pose proof (sort_desc_head _ _ _ _ Es) as Hhd.
        inversion Hne' as [| ? ? Hl Hr]; subst.
        constructor.
        - destruct largest; [congruence | simpl in *; lia].
        - rewrite Forall_forall in Hhd, Hr |- *. intros b Hb.
          specialize (Hhd b Hb). specialize (Hr b Hb). unfold box_len in Hhd.
          destruct b; [congruence | simpl in *; lia]. }
      apply length_concat_ones in Hones.
      pose proof (Permutation_length Hperm) as Hl. rewrite Hl.
      assert (Hc : length (concat boxes) = length (concat (largest :: rest))).
      { apply Permutation_length. rewrite Hperm. reflexivity. }
      lia.
    + apply Z.ltb_ge in E2. unfold box_len in E2.
      destruct (split largest) as [lo hi] eqn:Esp. cbv beta iota.
      apply split_spec in Esp as [Hsp Hlo].
      assert (Hhi : (length lo + length hi = length largest)%nat).
      { rewrite <- length_app. apply Permutation_length. exact Hsp. }
      assert (Hl2 : (2 <= length largest)%nat) by lia.
      assert (Hlo1 : (1 <= length lo)%nat).
      { rewrite Hlo. apply Nat.div_le_lower_bound; lia. }
      assert (Hlo2 : (length lo < length largest)%nat).
      { rewrite Hlo. apply Nat.div_lt; lia. }
      assert (Hcat : concat (rest ++ [lo; hi]) ≡ₚ concat boxes).
      { rewrite concat_app. simpl. rewrite app_nil_r.
        rewrite <- Hperm. simpl. rewrite <- Hsp.
        rewrite Permutation_app_comm. reflexivity. }
      destruct (IH (rest ++ [lo; hi])) as (Hp & Hn & Hlen).
      * apply Forall_app. split; [inversion Hne'; assumption |].
        repeat constructor; intros ->; simpl in *; lia.
      * rewrite length_app. simpl.
        pose proof (Permutation_length Hperm) as Hl. simpl in Hl. lia.
      * split; [rewrite Hp; exact Hcat |]. split; [exact Hn |].
        rewrite Hlen. rewrite (Permutation_length Hcat).
        rewrite length_app. simpl.
        pose proof (Permutation_length Hperm) as Hl. simpl in Hl.
        assert (Hc : (length rest + length largest <= length (concat boxes))%nat).
        { assert (Hcl : length (concat (largest :: rest)) = length (concat boxes))
            by (apply Permutation_length; rewrite Hperm; reflexivity).
          rewrite <- Hcl. simpl. rewrite length_app.
          pose proof (length_concat_ge rest) as Hr.
          inversion Hne'; subst. specialize (Hr ltac:(assumption)). lia. }
        lia.
Qed.

End MedianCutFacts.

Section MedianCutContracts.
Import Quantizer.

(** X3.  [_median_cut] returns as many colors as asked for when there are
    at least that many pixels, one color per pixel when there are fewer,
    and one color when fewer than two are asked for or the array is
    empty. *)
Theorem median_cut_count (pixels : list bgr) (n : Z) :
  Z.of_nat (length (_median_cut pixels n)) = Z.max 1 (Z.min n (Z.of_nat (length pixels))).
Proof.
  unfold _median_cut. rewrite length_map.
  destruct pixels as [| p pixels].
  - destruct (Z.to_nat n) as [| fuel]; cbn [median_cut_loop]; [cbn [length]; lia |].
    destruct (Z.of_nat (length [[] : list bgr]) <? n); cbn [length]; [| lia].
    unfold box_len. cbn -[Z.max Z.min Quantizer.split median_cut_loop].
    change (Z.of_nat 0 <? 2) with true. cbv iota. cbn [length]. lia.
  - destruct (median_cut_loop_spec (Z.to_nat n) [p :: pixels] n) as (_ & _ & Hlen).
    + repeat constructor. discriminate.
    + cbn [length]. lia.
    + rewrite Hlen. cbn [concat]. rewrite app_nil_r. cbn [length]. lia.
Qed.

(** *** The average of a box *)

Lemma sum_bounds (l : list Z) :
  l <> [] ->
  exists x y, x ∈ l /\ y ∈ l /\
    x * Z.of_nat (length l) <= foldr Z.add 0 l <= y * Z.of_nat (length l).
Proof.
  induction l as [| a l IH]; [congruence | intros _].
  destruct l as [| b l].
  - exists a, a. simpl. repeat split; try apply list_elem_of_here; lia.
  - destruct IH as (x & y & Hx & Hy & Hs); [discriminate |].
    exists (Z.min a x), (Z.max a y).
    split; [| split].
    + destruct (Z.min_spec a x) as [[_ ->] | [_ ->]];
        [apply list_elem_of_here | apply list_elem_of_further; exact Hx].
    + destruct (Z.max_spec a y) as [[_ ->] | [_ ->]];
        [apply list_elem_of_further; exact Hy | apply list_elem_of_here].
    + change (foldr Z.add 0 (a :: b :: l)) with (a + foldr Z.add 0 (b :: l)).
      change (length (a :: b :: l)) with (S (length (b :: l))).
      rewrite Nat2Z.inj_succ. nia.
Qed.

Lemma astype_uint8_mean (t n : Z) :
  0 <= t -> 0 < n -> astype_uint8 (inject_Z t / inject_Z n) = (t / n) mod 256.
Proof.
  intros Ht Hn. destruct n as [| p | p]; try lia.
  unfold astype_uint8, Qdiv, Qmult, Qinv. simpl.
  rewrite Z.mul_1_r. rewrite Z.quot_div_nonneg by lia. reflexivity.
Qed.

Lemma channel_uint8 ch (c : bgr) : bgr_uint8 c -> 0 <= channel ch c < 256.
Proof.
  intros (Hb & Hg & Hr). unfold is_uint8 in *.
  destruct ch as [| [| ch]]; simpl; assumption.
Qed.

Lemma channel_average ch (b : list bgr) :
  channel ch (average b)
  = astype_uint8 (inject_Z (foldr Z.add 0 (map (channel ch) b))
                  / inject_Z (Z.of_nat (length b))).
Proof. destruct ch as [| [| ch]]; reflexivity. Qed.

(** The color of a non-empty box lies between two of its pixels, channel
    by channel. *)
Lemma average_between ch (b : list bgr) :
  Forall bgr_uint8 b -> b <> [] ->
  exists p q, p ∈ b /\ q ∈ b /\ channel ch p <= channel ch (average b) <= channel ch q.
Proof.
  intros Hu Hne.
  destruct (sum_bounds (map (channel ch) b)) as (x & y & Hx & Hy & Hs).
  { destruct b; simpl; congruence. }
  apply list_elem_of_fmap in Hx as (p & -> & Hp).
  apply list_elem_of_fmap in Hy as (q & -> & Hq).
  exists p, q. split; [exact Hp |]. split; [exact Hq |].
  rewrite length_map in Hs.
  rewrite Forall_forall in Hu.
  pose proof (channel_uint8 ch p (Hu p Hp)) as Hpr.
  pose proof (channel_uint8 ch q (Hu q Hq)) as Hqr.
  assert (Hlen : 0 < Z.of_nat (length b)) by (destruct b; simpl in *; [congruence | lia]).
  rewrite channel_average, astype_uint8_mean by nia.
  assert (Hlo : channel ch p <= foldr Z.add 0 (map (channel ch) b) / Z.of_nat (length b))
    by (apply Z.div_le_lower_bound; lia).
  assert (Hhi : foldr Z.add 0 (map (channel ch) b) / Z.of_nat (length b) <= channel ch q)
    by (apply Z.div_le_upper_bound; lia).
  rewrite Z.mod_small by lia. lia.
Qed.

(** X4.  Every color [_median_cut] returns for a non-empty array of 8-bit
    pixels lies, channel by channel, between two pixels of the array. *)
Theorem median_cut_colors_within_input (pixels : list bgr) (n : Z) (c : bgr) (ch : nat) :
  Forall bgr_uint8 pixels -> pixels <> [] -> c ∈ _median_cut pixels n ->
  exists p q, p ∈ pixels /\ q ∈ pixels /\ channel ch p <= channel ch c <= channel ch q.
Proof.
  intros Hu Hne Hc. unfold _median_cut in Hc.
  apply list_elem_of_fmap in Hc as (b & -> & Hb).
  destruct (median_cut_loop_spec (Z.to_nat n) [pixels] n) as (Hperm & Hn & _).
  - repeat constructor. exact Hne.
  - cbn [length]. lia.
  - cbn [concat] in Hperm. rewrite app_nil_r in Hperm.
    assert (Hsub : forall p, p ∈ b -> p ∈ pixels).
    { intros p Hp. rewrite <- Hperm. apply list_elem_of_In, in_concat.
      exists b. split; apply list_elem_of_In; assumption. }
    destruct (average_between ch b) as (p & q & Hp & Hq & Hr).
    + rewrite Forall_forall in Hu |- *. intros p Hp. apply Hu, Hsub, Hp.
    + rewrite Forall_forall in Hn. apply Hn, Hb.
    + exists p, q. auto.
Qed.

Lemma median_cut_colors_within_input_witness :
  exists p q, p ∈ [(10, 20, 30); (50, 60, 70); (90, 0, 5)] /\
              q ∈ [(10, 20, 30); (50, 60, 70); (90, 0, 5)] /\
              channel 1 p <= channel 1 (70, 30, 37) <= channel 1 q.
Proof.
  apply (median_cut_colors_within_input [(10, 20, 30); (50, 60, 70); (90, 0, 5)] 2).
  - repeat (apply Forall_cons_2;
              [unfold bgr_uint8, is_uint8, chan_b, chan_g, chan_r; simpl; lia |]).
    apply Forall_nil_2.
  - discriminate.
  - vm_compute. apply list_elem_of_further, list_elem_of_here.
Defined.

End MedianCutContracts.

Section RefineFacts.
Import Quantizer.

(** *** Coverage through [_refine_palette] *)

Lemma count_map_ge (g : nat -> nat) (a b : nat) (L : list nat) :
  g a = b ->
  (length (filter (fun l => l = a) L) <= length (filter (fun l => l = b) (map g L)))%nat.
Proof.
  intros Hg. induction L as [| l L IH]; simpl; [lia |].
  rewrite !filter_cons. destruct (decide (l = a)) as [-> | Hne].
  - rewrite Hg. rewrite decide_True by reflexivity. simpl. lia.
  - destruct (decide (g l = b)); simpl; lia.
Qed.

Lemma argmax_from_lt best_i best i (l : list Z) :
  (best_i < i)%nat -> (argmax_from best_i best i l < i + length l)%nat.
Proof.
  revert best_i best i; induction l as [| x l IH]; simpl; intros best_i best i H.
  - lia.
  - destruct (best <? x).
    + specialize (IH i x (S i)). lia.
    + specialize (IH best_i best (S i)). lia.
Qed.

Lemma argmax_lt (l : list Z) : l <> [] -> (argmax l < length l)%nat.
Proof.
  destruct l as [| x l]; [congruence | intros _].
  simpl. pose proof (argmax_from_lt 0 x 1 l). lia.
Qed.

Lemma index_of_first (x : nat) (keep : list nat) n :
  NoDup keep -> keep !! n = Some x -> index_of x keep = Some n.
Proof.
  revert n. induction keep as [| y keep IH]; intros n Hnd Hn; [discriminate |].
  apply NoDup_cons in Hnd as [Hy Hnd].
  destruct n as [| n]; simpl in *.
  - injection Hn as ->. rewrite Nat.eqb_refl. reflexivity.
  - destruct (x =? y)%nat eqn:E.
    + apply Nat.eqb_eq in E. subst y. exfalso. apply Hy.
      apply list_elem_of_lookup. eauto.
    + rewrite (IH n Hnd Hn). reflexivity.
Qed.

Lemma map_palette_at_seq (palette : list bgr) :
  map (palette_at palette) (seq 0 (length palette)) = palette.
Proof.
  apply list_eq. intros i. rewrite list_lookup_fmap.
  destruct (palette !! i) as [c |] eqn:E.
  - rewrite lookup_seq_lt by (apply lookup_lt_Some in E; exact E). simpl.
    unfold palette_at. f_equal. apply nth_lookup_Some with (d := (0, 0, 0)) in E. exact E.
  - rewrite lookup_seq_ge by (apply lookup_ge_None in E; lia). reflexivity.
Qed.

Lemma singleton_sublist {A} (x : A) (l : list A) : x ∈ l -> [x] `sublist_of` l.
Proof.
  induction 1 as [x l | x y l _ IH].
  - apply sublist_skip, sublist_nil_l.
  - apply sublist_cons, IH.
Qed.

(** The kept colors are colors of the palette, in its order. *)
Lemma kept_sublist (palette : list bgr) (labels_2d : list nat) :
  palette <> [] ->
  map (palette_at palette) (keep_indices palette labels_2d) `sublist_of` palette.
Proof.
  intros Hne. unfold keep_indices.
  set (counts := bincount labels_2d (length palette)).
  set (keep := filter _ (seq 0 (length palette))).
  assert (Hk : map (palette_at palette) keep `sublist_of` palette).
  { rewrite <- (map_palette_at_seq palette) at 2.
    apply fmap_sublist, sublist_filter. }
  destruct keep as [| k0 keep'] eqn:Ek; [| exact Hk].
  simpl. apply singleton_sublist.
  unfold palette_at.
  apply list_elem_of_In, nth_In.
  pose proof (argmax_lt counts) as Ha.
  unfold counts, bincount in Ha |- *. rewrite length_map, length_seq in Ha.
  apply Ha. destruct palette; simpl; congruence.
Qed.

Lemma remap_count keep (pal Q : list bgr) (L : list nat) o n :
  index_of o keep = Some n -> length Q = length L ->
  (length (filter (fun l => l = o) L)
   <= length (filter (fun l => l = n) (remap_labels keep pal Q L)))%nat.
Proof.
  intros Ho. revert Q. induction L as [| l L IH]; intros [| px Q] Hlen; simpl in *; try lia.
  specialize (IH Q ltac:(lia)). unfold remap_labels in *. simpl.
  rewrite !filter_cons. destruct (decide (l = o)) as [-> | Hne].
  - rewrite Ho. rewrite decide_True by reflexivity. simpl. lia.
  - match goal with |- context [decide (?x = n)] => destruct (decide (x = n)) end; simpl; lia.
Qed.

Lemma remap_single a c (Q : list bgr) (L : list nat) :
  length Q = length L ->
  remap_labels [a] [c] Q L = map (fun _ => 0%nat) L.
Proof.
  revert Q. induction L as [| l L IH]; intros [| px Q] Hlen; simpl in *; try lia; [reflexivity |].
  unfold remap_labels in *. simpl. rewrite IH by lia.
  destruct (l =? a)%nat; reflexivity.
Qed.

Lemma filter_all_zero (L : list nat) :
  filter (fun l => l = 0%nat) (map (fun _ : nat => 0%nat) L) = map (fun _ => 0%nat) L.
Proof.
  induction L as [| l L IH]; simpl; [reflexivity |].
  rewrite filter_cons, decide_True by reflexivity. f_equal. exact IH.
Qed.

(** Every color kept covers a thousandth of the pixels after remapping. *)
Lemma remap_covering (palette quantized_img : list bgr) (labels_2d : list nat) :
  length quantized_img = length labels_2d ->
  let keep := keep_indices palette labels_2d in
  let new_labels :=
    remap_labels keep (map (palette_at palette) keep) quantized_img labels_2d in
  forall n, (n < length keep)%nat ->
    Z.of_nat (length labels_2d)
    <= 1000 * Z.of_nat (length (filter (fun l => l = n) new_labels)).
Proof.
  intros Hlen. cbv zeta. unfold keep_indices. cbv zeta.
  set (counts := bincount labels_2d (length palette)).
  set (keep0 := filter (fun i => covers (nth i counts 0) (Z.of_nat (length labels_2d)))
                  (seq 0 (length palette))).
  assert (Hnd : NoDup keep0) by (apply NoDup_filter, NoDup_seq).
  assert (Hcov : forall o, o ∈ keep0 ->
            Z.of_nat (length labels_2d)
            <= 1000 * Z.of_nat (length (filter (fun l => l = o) labels_2d))).
  { intros o Hin. unfold keep0 in Hin. apply list_elem_of_filter in Hin as [Hc Hseq].
    apply elem_of_seq in Hseq.
    unfold covers in Hc. apply andb_prop_elim in Hc as [_ Hc].
    apply Is_true_eq_true, Z.leb_le in Hc.
    assert (Hcount : nth o counts 0
                     = Z.of_nat (length (filter (fun l => l = o) labels_2d))).
    { unfold counts, bincount.
      erewrite nth_lookup_Some; [reflexivity |].
      rewrite list_lookup_fmap, lookup_seq_lt by lia. reflexivity. }
    rewrite Hcount in Hc. exact Hc. }
  clearbody keep0. destruct keep0 as [| k0 keep'].
  - (* nothing covers: the most frequent color takes every pixel *)
    intros n Hn. simpl in Hn. assert (n = 0%nat) as -> by lia.
    simpl map. rewrite remap_single by exact Hlen.
    rewrite filter_all_zero, length_map. lia.
  - cbv iota. set (keep0 := k0 :: keep') in *. intros n Hn.
    destruct (keep0 !! n) as [o |] eqn:Eo; [| apply lookup_ge_None in Eo; lia].
    assert (Hin : o ∈ keep0) by (apply list_elem_of_lookup; eauto).
    pose proof (remap_count keep0 (map (palette_at palette) keep0) quantized_img labels_2d
                  o n (index_of_first o keep0 n Hnd Eo) Hlen) as Hge.
    specialize (Hcov o Hin). lia.
Qed.

(** A merge keeps every remaining color at least as large. *)
Lemma merge_step_count i j (palette : list bgr) (labels : list nat) m :
  (i < j)%nat ->
  (length (filter (fun l => l = (if (m <? j)%nat then m else S m)) labels)
   <= length (filter (fun l => l = m) (merge_step i j palette labels).2))%nat.
Proof.
  intros Hij. unfold merge_step, _compact_labels. simpl. rewrite map_map.
  apply count_map_ge.
  destruct (m <? j)%nat eqn:E.
  - apply Nat.ltb_lt in E.
    destruct (m =? j)%nat eqn:E1; [apply Nat.eqb_eq in E1; lia |].
    destruct (j <? m)%nat eqn:E2; [apply Nat.ltb_lt in E2; lia | reflexivity].
  - apply Nat.ltb_ge in E.
    destruct (S m =? j)%nat eqn:E1; [apply Nat.eqb_eq in E1; lia |].
    destruct (j <? S m)%nat eqn:E2; [lia | apply Nat.ltb_ge in E2; lia].
Qed.

Lemma merge_loop_covering fuel (palette : list bgr) (labels : list nat) (total : Z) :
  (forall n, (n < length palette)%nat ->
     total <= 1000 * Z.of_nat (length (filter (fun l => l = n) labels))) ->
  forall n, (n < length (merge_loop fuel palette labels).1)%nat ->
    total <= 1000 * Z.of_nat (length (filter (fun l => l = n)
                                        (merge_loop fuel palette labels).2)).
Proof.
  revert palette labels. induction fuel as [| fuel IH]; intros palette labels H; simpl.
  - exact H.
  - destruct (2 <? length palette)%nat; [| exact H].
    destruct (find_pair 0 palette) as [[i j] |] eqn:Ep; [| exact H].
    apply find_pair_some in Ep.
    unfold merge_step. apply IH.
    intros m Hm.
    rewrite length_delete in Hm by (apply lookup_lt_is_Some; lia).
    pose proof (merge_step_count i j palette labels m ltac:(lia)) as Hc.
    unfold merge_step in Hc. cbn [snd] in Hc.
    specialize (H (if (m <? j)%nat then m else S m)).
    destruct (m <? j)%nat; (specialize (H ltac:(lia))); lia.
Qed.

(** X7.  [_refine_palette] invents no color and keeps no rare one: the
    refined palette is a selection of the entries of the palette it is
    given, in their order, and each of its entries is the label of at
    least one pixel in a thousand. *)
Theorem refine_palette_selects_covering_colors
    (quantized_img palette : list bgr) (labels_2d : list nat) :
  labels_2d <> [] ->
  length quantized_img = length labels_2d ->
  Forall (fun l => (l < length palette)%nat) labels_2d ->
  let r := _refine_palette quantized_img palette labels_2d in
  (r.1 `sublist_of` palette) /\
  length r.2 = length labels_2d /\
  forall n, (n < length r.1)%nat ->
    Z.of_nat (length r.2) <= 1000 * Z.of_nat (length (filter (fun l => l = n) r.2)).
Proof.
  intros Hne Hlen Hl r.
  assert (Hpal : palette <> []).
  { destruct labels_2d as [| l L]; [congruence |].
    inversion Hl; subst. destruct palette; simpl in *; [lia | congruence]. }
  assert (Hr2 : length r.2 = length labels_2d) by (apply _refine_palette_length; exact Hlen).
  split; [| split; [exact Hr2 |]].
  - unfold r, _refine_palette. cbv zeta.
    etransitivity; [apply merge_loop_sublist | apply kept_sublist; exact Hpal].
  - rewrite Hr2. unfold r, _refine_palette. cbv zeta.
    apply merge_loop_covering.
    intros n Hn. rewrite length_map in Hn.
    apply (remap_covering palette quantized_img labels_2d Hlen n Hn).
Qed.

Lemma refine_palette_selects_covering_colors_witness :
  ((_refine_palette [(0, 0, 0); (0, 0, 0); (9, 9, 9)] [(0, 0, 0); (9, 9, 9)] [0; 0; 1]%nat).1
     `sublist_of` [(0, 0, 0); (9, 9, 9)]) /\
  length (_refine_palette [(0, 0, 0); (0, 0, 0); (9, 9, 9)] [(0, 0, 0); (9, 9, 9)]
            [0; 0; 1]%nat).2 = 3%nat /\
  forall n,
    Nat.lt n (length (_refine_palette [(0, 0, 0); (0, 0, 0); (9, 9, 9)]
                        [(0, 0, 0); (9, 9, 9)] [0; 0; 1]%nat).1) ->
    Z.of_nat (length (_refine_palette [(0, 0, 0); (0, 0, 0); (9, 9, 9)]
                        [(0, 0, 0); (9, 9, 9)] [0; 0; 1]%nat).2)
    <= 1000 * Z.of_nat (length (filter (fun l => l = n)
                                  (_refine_palette [(0, 0, 0); (0, 0, 0); (9, 9, 9)]
                                     [(0, 0, 0); (9, 9, 9)] [0; 0; 1]%nat).2)).
Proof.
  apply (refine_palette_selects_covering_colors
           [(0, 0, 0); (0, 0, 0); (9, 9, 9)] [(0, 0, 0); (9, 9, 9)] [0; 0; 1]%nat).
  - discriminate.
  - reflexivity.
  - repeat (apply Forall_cons_2; [simpl; lia |]). apply Forall_nil_2.
Defined.

End RefineFacts.

Section QuantizeContracts.
Import Quantizer.
Variable exn : Type.
Variable gray : bgr -> Z.
Variable fit : Z -> Z -> Z -> Z -> Z -> list bgr -> result exn (list (Q * Q * Q)).
Variable cvk : list bgr -> Z -> Z -> Q -> Z -> result exn (list (Q * Q * Q)).

(** X5.  Without an alpha plane, what [quantize] returns fits together:
    there is at least one color and one mask per color, image and masks
    have the size of the input, and at every pixel the mask of exactly one
    color holds 255, every other mask holds 0, and that color is the color
    of the pixel in the quantized image. *)
Theorem quantize_image_palette_masks_agree idx data n m q :
  quantize exn gray fit cvk idx data None n m = Ok q ->
  hex_colors q <> [] /\
  length (masks q) = length (hex_colors q) /\
  length (quantized_img q) = length data /\
  Forall (fun mask => length mask = length data) (masks q) /\
  forall p c, quantized_img q !! p = Some c ->
    exists i, hex_colors q !! i = Some (_bgr_to_hex c) /\
      forall j mask, masks q !! j = Some mask ->
        mask !! p = Some (if (j =? i)%nat then 255 else 0).
Proof.
  intros H.
  pose proof (quantize_labels _ _ _ _ _ _ _ _ _ _ H) as (Hlen & Hlt & Hm).
  apply quantize_ok in H as (palette0 & _ & Hq). cbv zeta in Hq.
  pose proof (_refine_palette_nonempty
                (map (palette_at palette0) (_assign_labels data palette0)) palette0
                (_assign_labels data palette0)) as Hne.
  remember (_refine_palette (map (palette_at palette0) (_assign_labels data palette0))
              palette0 (_assign_labels data palette0)) as r eqn:Er.
  clear Er. subst q. cbn [hex_colors masks quantized_img final_labels final_palette] in *.
  split; [| split; [| split; [| split]]].
  - intros Heq. apply Hne. revert Heq. destruct r.1; [reflexivity | discriminate].
  - rewrite Hm, length_map. reflexivity.
  - rewrite length_map. exact Hlen.
  - unfold _build_masks. rewrite Forall_map. apply Forall_true. intros i. simpl.
    rewrite length_map. exact Hlen.
  - intros p c Hp. rewrite list_lookup_fmap in Hp.
    destruct (r.2 !! p) as [l |] eqn:El; [| discriminate]. injection Hp as <-.
    assert (Hl : (l < length r.1)%nat).
    { rewrite Forall_forall in Hlt. apply Hlt, list_elem_of_lookup. eauto. }
    exists l. split.
    + rewrite list_lookup_fmap. unfold palette_at.
      destruct (lookup_lt_is_Some_2 r.1 l Hl) as [c Hc].
      rewrite Hc. simpl. f_equal. f_equal. symmetry.
      apply nth_lookup_Some. exact Hc.
    + intros j mask Hj.
      assert (Hjl : (j < length r.1)%nat).
      { apply lookup_lt_Some in Hj. rewrite Hm in Hj. exact Hj. }
      rewrite _build_masks_lookup in Hj by exact Hjl. injection Hj as <-.
      rewrite list_lookup_fmap, El. simpl. rewrite Nat.eqb_sym. reflexivity.
Qed.

End QuantizeContracts.

Section QuantizeContractRuns.
Import Quantizer.

Lemma quantize_image_palette_masks_agree_witness :
  hex_colors (Quantized [(0, 0, 0); (200, 200, 200)] ["#000000"; "#c8c8c8"]
                [[255; 0]; [0; 255]] [(0, 0, 0); (200, 200, 200)] [0; 1]%nat) <> [] /\
  length [[255; 0]; [0; 255]] = length ["#000000"; "#c8c8c8"] /\
  length [(0, 0, 0); (200, 200, 200)] = length [(0, 0, 0); (200, 200, 200)] /\
  Forall (fun mask : list Z => length mask = length [(0, 0, 0); (200, 200, 200)])
         [[255; 0]; [0; 255]] /\
  forall p c, [(0, 0, 0); (200, 200, 200)] !! p = Some c ->
    exists i, ["#000000"; "#c8c8c8"] !! i = Some (_bgr_to_hex c) /\
      forall j mask, [[255; 0]; [0; 255]] !! j = Some mask ->
        mask !! p = Some (if (j =? i)%nat then 255 else 0).
Proof.
  apply (quantize_image_palette_masks_agree unit luma14 fit_not_called cv2_kmeans_not_called
           [] [(0, 0, 0); (200, 200, 200)] 2 median_cut
           (Quantized [(0, 0, 0); (200, 200, 200)] ["#000000"; "#c8c8c8"]
              [[255; 0]; [0; 255]] [(0, 0, 0); (200, 200, 200)] [0; 1]%nat)).
  vm_compute. reflexivity.
Defined.

End QuantizeContractRuns.

Section DistanceFacts.
Import Quantizer.

(** The radicand over the common denominator 512. *)
Lemma radicand_over_512 (c1 c2 : bgr) :
  (radicand c1 c2 ==
   inject_Z ((1024 + (chan_r c1 + chan_r c2)) * (chan_r c1 - chan_r c2) ^ 2
             + 2048 * (chan_g c1 - chan_g c2) ^ 2
             + (1534 - (chan_r c1 + chan_r c2)) * (chan_b c1 - chan_b c2) ^ 2) / 512)%Q.
Proof.
  unfold radicand. cbv zeta.
  generalize (chan_r c1 - chan_r c2), (chan_g c1 - chan_g c2), (chan_b c1 - chan_b c2),
    (chan_r c1 + chan_r c2).
  intros dr dg db s.
  replace (dr ^ 2) with (dr * dr) by ring.
  replace (dg ^ 2) with (dg * dg) by ring.
  replace (db ^ 2) with (db * db) by ring.
  replace (1534 - s) with (1534 + - s) by ring.
  rewrite !inject_Z_plus, !inject_Z_mult, !inject_Z_plus, inject_Z_opp.
  field.
Qed.

(** X6.  The perceptual distance is symmetric and never negative, and
    between 8-bit colors it is zero only from a color to itself. *)
Theorem color_distance_separates (c1 c2 : bgr) :
  bgr_uint8 c1 -> bgr_uint8 c2 ->
  _color_distance c1 c2 = _color_distance c2 c1 /\
  (0 <= _color_distance c1 c2)%R /\
  (_color_distance c1 c2 = 0%R <-> c1 = c2).
Proof.
  intros (Hb1 & Hg1 & Hr1) (Hb2 & Hg2 & Hr2). unfold is_uint8 in *.
  unfold _color_distance. split; [| split].
  - f_equal. apply Qreals.Qeq_eqR, radicand_sym.
  - apply sqrt_pos.
  - set (X := (chan_r c1 - chan_r c2) ^ 2).
    set (Y := (chan_g c1 - chan_g c2) ^ 2).
    set (W := (chan_b c1 - chan_b c2) ^ 2).
    set (A := 1024 + (chan_r c1 + chan_r c2)).
    set (B := 1534 - (chan_r c1 + chan_r c2)).
    assert (HX : 0 <= X) by (apply Z.pow_even_nonneg; exists 1; reflexivity).
    assert (HY : 0 <= Y) by (apply Z.pow_even_nonneg; exists 1; reflexivity).
    assert (HW : 0 <= W) by (apply Z.pow_even_nonneg; exists 1; reflexivity).
    assert (HA : 0 < A) by (unfold A; lia).
    assert (HB : 0 < B) by (unfold B; lia).
    assert (HAX : 0 <= A * X) by (apply Z.mul_nonneg_nonneg; lia).
    assert (HBW : 0 <= B * W) by (apply Z.mul_nonneg_nonneg; lia).
    assert (Hrad : Q2R (radicand c1 c2) = (IZR (A * X + 2048 * Y + B * W) / 512)%R).
    { rewrite (Qreals.Qeq_eqR _ _ (radicand_over_512 c1 c2)).
      fold X Y W A B.
      unfold Qdiv. rewrite Qreals.Q2R_mult, Qreals.Q2R_inv by discriminate.
      unfold Q2R. simpl. lra. }
    rewrite Hrad. split.
    + intros H0. apply sqrt_eq_0 in H0.
      2:{ apply Rmult_le_pos; [apply IZR_le; lia | lra]. }
      assert (HN0 : A * X + 2048 * Y + B * W = 0).
      { apply eq_IZR. lra. }
      assert (HX0 : X = 0).
      { assert (HAX0 : A * X = 0) by lia. apply Z.mul_eq_0 in HAX0. lia. }
      assert (HY0 : Y = 0) by lia.
      assert (HW0 : W = 0).
      { assert (HBW0 : B * W = 0) by lia. apply Z.mul_eq_0 in HBW0. lia. }
      unfold X in HX0. unfold Y in HY0. unfold W in HW0.
      apply Z.pow_eq_0_iff in HX0 as [? | [_ HX0]]; [lia |].
      apply Z.pow_eq_0_iff in HY0 as [? | [_ HY0]]; [lia |].
      apply Z.pow_eq_0_iff in HW0 as [? | [_ HW0]]; [lia |].
      destruct c1 as [[b1 g1] r1], c2 as [[b2 g2] r2].
      unfold chan_b, chan_g, chan_r in *; simpl in *.
      assert (r1 = r2) by lia. assert (g1 = g2) by lia. assert (b1 = b2) by lia.
      congruence.
    + intros ->. unfold X, Y, W. rewrite !Z.sub_diag. simpl.
      rewrite !Z.mul_0_r. change (0 + 0 + 0) with 0.
      replace (0 / 512)%R with 0%R by lra. apply sqrt_0.
Qed.

Lemma color_distance_separates_witness :
  _color_distance (1, 2, 3) (40, 50, 60) = _color_distance (40, 50, 60) (1, 2, 3) /\
  Rle 0%R (_color_distance (1, 2, 3) (40, 50, 60)) /\
  (_color_distance (1, 2, 3) (40, 50, 60) = 0%R <-> (1, 2, 3) = (40, 50, 60)).
Proof.
  apply (color_distance_separates (1, 2, 3) (40, 50, 60));
    unfold bgr_uint8, is_uint8, chan_b, chan_g, chan_r; simpl; lia.
Defined.

End DistanceFacts.

Section EngineContracts.
Import Engine EngineVariants.
Context {exn : Type}.
Variable C : components exn.

(** X8.  On an image that is of one color after preprocessing,
    [vectorize] returns from the fast path: one palette entry, one mask
    that is 255 everywhere, the image itself, and the SVG as the tracer
    assembled it.  Neither the quantizer nor the optimizer is called, so the
    run is the same whatever they are, also with ["optimize"] on. *)
Theorem fast_path_skips_quantizer_and_optimizer q o image_data settings st im color :
  _load_image C image_data = Ok im ->
  let c := cfg_after_detect C (default ∅ (heap st !! settings)) im in
  let processed := processed_of C im c in
  unique_rows [] (to_bgr_image processed).2 = [color] ->
  vectorize (replace_quantizer_optimizer q o C) image_data settings st
  = vectorize C image_data settings st /\
  forall b, (vectorize C image_data settings st).1 = Ok b ->
    palette b = [Quantizer._bgr_to_hex color] /\
    masks b = [replicate ((to_bgr_image processed).1.1 * (to_bgr_image processed).1.2) 255] /\
    quantized_img b = (to_bgr_image processed).2 /\
    exists path_el,
      trace_layer C (replicate ((to_bgr_image processed).1.1 * (to_bgr_image processed).1.2) 255)
        (Quantizer._bgr_to_hex color) c = Ok path_el /\
      svg b = assemble_svg C [(Quantizer._bgr_to_hex color, path_el)]
                (to_bgr_image processed).1.2 (to_bgr_image processed).1.1 c.
Proof.
  intros Hload c processed Hone.
  rewrite !vectorize_outcome. unfold outcome.
  change (_load_image (replace_quantizer_optimizer q o C)) with (_load_image C).
  rewrite Hload.
  change (cfg_after_detect (replace_quantizer_optimizer q o C)) with (cfg_after_detect C).
  change (processed_of (replace_quantizer_optimizer q o C)) with (processed_of C).
  fold c. fold processed.
  destruct (to_bgr_image processed) as [[h w] data] eqn:Ei. cbn [fst snd] in *.
  rewrite Hone.
  change (trace_layer (replace_quantizer_optimizer q o C)) with (trace_layer C).
  change (assemble_svg (replace_quantizer_optimizer q o C)) with (assemble_svg C).
  split.
  - destruct (trace_layer C _ _ c); reflexivity.
  - intros b Hb.
    destruct (trace_layer C (replicate (h * w) 255) (Quantizer._bgr_to_hex color) c)
      as [path_el | e] eqn:Et; cbn [fst] in Hb; [| discriminate].
    injection Hb as <-. cbn [palette masks quantized_img svg].
    repeat split; try reflexivity. exists path_el. split; reflexivity.
Qed.

(** X9.  With any mode other than ["auto"] in the settings, [vectorize]
    does not consult [_detect_mode]: the run is the same whatever the edge
    density, the standard deviation and the random draw are. *)
Theorem explicit_mode_skips_detection edge_density std_dev idx image_data settings st :
  value_eqb (dict_get (default ∅ (heap st !! settings) ∪ DEFAULT_SETTINGS) "mode" (VStr ""))
            (VStr "auto") = false ->
  vectorize (replace_detector edge_density std_dev idx C) image_data settings st
  = vectorize C image_data settings st.
Proof.
  intros Hmode. rewrite !vectorize_outcome. unfold outcome.
  change (_load_image (replace_detector edge_density std_dev idx C)) with (_load_image C).
  destruct (_load_image C image_data) as [im | e]; [| reflexivity].
  assert (Hc : forall D : components exn,
             cfg_after_detect D (default ∅ (heap st !! settings)) im
             = default ∅ (heap st !! settings) ∪ DEFAULT_SETTINGS).
  { intros D. unfold cfg_after_detect. cbv zeta. rewrite Hmode. reflexivity. }
  rewrite !Hc. reflexivity.
Qed.

End EngineContracts.

Section DetectModeContracts.
Import Engine.
Variable Canny_edge_density : list bgr -> Q.
Variable gray_std : list bgr -> Q.

(** X10.  The decision list of [_detect_mode], rule by rule.  An array
    of one channel is line art.  For an array of three or four channels,
    with [u] the distinct colors of the sample: logo exactly when [u < 64]
    and the edge density is below 0.05; pixel art exactly when [u < 16] and
    it is not; photo exactly when [u > 1000] and the standard deviation is
    at least 30. *)
Theorem detect_mode_rules idx (im : image) :
  match im with
  | Gray _ _ _ | Gray1 _ _ _ =>
      _detect_mode Canny_edge_density gray_std idx im = "line_art"
  | BGR _ _ data | BGRA _ _ data _ =>
      let u := unique_colors_of idx data in
      let mode := _detect_mode Canny_edge_density gray_std idx im in
      (mode = "logo" <-> (u < 64)%nat /\ (Canny_edge_density data < 5 # 100)%Q) /\
      (mode = "pixel_art" <-> (u < 16)%nat /\ ~ (Canny_edge_density data < 5 # 100)%Q) /\
      (mode = "photo" <-> (1000 < u)%nat /\ ~ (gray_std data < 30)%Q) /\
      (mode = "line_art" <->
         ~ ((u < 64)%nat /\ (Canny_edge_density data < 5 # 100)%Q) /\
         (16 <= u)%nat /\ (gray_std data < 30)%Q)
  end.
Proof.
  assert (Hgen : forall data,
    let u := unique_colors_of idx data in
    let mode := decide_mode u (Canny_edge_density data) (gray_std data) in
    (mode = "logo" <-> (u < 64)%nat /\ (Canny_edge_density data < 5 # 100)%Q) /\
    (mode = "pixel_art" <-> (u < 16)%nat /\ ~ (Canny_edge_density data < 5 # 100)%Q) /\
    (mode = "photo" <-> (1000 < u)%nat /\ ~ (gray_std data < 30)%Q) /\
    (mode = "line_art" <->
       ~ ((u < 64)%nat /\ (Canny_edge_density data < 5 # 100)%Q) /\
       (16 <= u)%nat /\ (gray_std data < 30)%Q)).
  { intros data u mode. unfold mode, decide_mode. clearbody u. clear mode.
    assert (Hed : negb (Qle_bool (5 # 100) (Canny_edge_density data)) = true
                  <-> (Canny_edge_density data < 5 # 100)%Q).
    { rewrite negb_true_iff, <- not_true_iff_false, Qle_bool_iff. split.
      - apply Qnot_le_lt.
      - intros Hlt Hle. exact (Qlt_not_le _ _ Hlt Hle). }
    assert (Hsd : negb (Qle_bool 30 (gray_std data)) = true <-> (gray_std data < 30)%Q).
    { rewrite negb_true_iff, <- not_true_iff_false, Qle_bool_iff. split.
      - apply Qnot_le_lt.
      - intros Hlt Hle. exact (Qlt_not_le _ _ Hlt Hle). }
    generalize dependent (Canny_edge_density data < 5 # 100)%Q.
    generalize dependent (gray_std data < 30)%Q.
    intros P2 Hsd P1 Hed.
    destruct (negb (Qle_bool (5 # 100) (Canny_edge_density data)));
      [assert (HP1 : P1) by (apply Hed; reflexivity)
      | assert (HP1 : ~ P1) by (intros HP; apply Hed in HP; discriminate)];
      clear Hed;
    (destruct (negb (Qle_bool 30 (gray_std data)));
      [assert (HP2 : P2) by (apply Hsd; reflexivity)
      | assert (HP2 : ~ P2) by (intros HP; apply Hsd in HP; discriminate)]);
      clear Hsd;
    destruct (Nat.ltb_spec u 64); destruct (Nat.ltb_spec u 16);
    destruct (Nat.ltb_spec 1000 u); cbn [andb];
    intuition (try discriminate; try lia). }
  destruct im as [h w d | h w d | h w d | h w d a]; try reflexivity; apply (Hgen d).
Qed.

End DetectModeContracts.

Section EngineContractRuns.
Import Engine EngineVariants.

Lemma fast_path_skips_quantizer_and_optimizer_witness :
  let C := example_components solid_red true false in
  let c := cfg_after_detect C (default ∅ (heap example_store !! 1%positive)) solid_red in
  let processed := processed_of C solid_red c in
  vectorize (replace_quantizer_optimizer (fun _ _ _ _ _ => Raise tt) (fun _ _ => Raise tt) C)
    [] 1%positive example_store
  = vectorize C [] 1%positive example_store /\
  forall b, (vectorize C [] 1%positive example_store).1 = Ok b ->
    palette b = [Quantizer._bgr_to_hex (0, 0, 255)] /\
    masks b = [replicate ((to_bgr_image processed).1.1 * (to_bgr_image processed).1.2) 255] /\
    quantized_img b = (to_bgr_image processed).2 /\
    exists path_el,
      trace_layer C (replicate ((to_bgr_image processed).1.1 * (to_bgr_image processed).1.2) 255)
        (Quantizer._bgr_to_hex (0, 0, 255)) c = Ok path_el /\
      svg b = assemble_svg C [(Quantizer._bgr_to_hex (0, 0, 255), path_el)]
                (to_bgr_image processed).1.2 (to_bgr_image processed).1.1 c.
Proof.
  apply (fast_path_skips_quantizer_and_optimizer (example_components solid_red true false)
           (fun _ _ _ _ _ => Raise tt) (fun _ _ => Raise tt) [] 1%positive example_store
           solid_red (0, 0, 255)).
  - reflexivity.
  - vm_compute. reflexivity.
Defined.

Lemma explicit_mode_skips_detection_witness :
  vectorize (replace_detector (fun _ => 1%Q) (fun _ => 99%Q) [3; 1; 2]%nat
               (example_components black_white true false))
    [] 1%positive (State {[ 1%positive := {[ "mode" := VStr "logo" ]} ]} [])
  = vectorize (example_components black_white true false)
      [] 1%positive (State {[ 1%positive := {[ "mode" := VStr "logo" ]} ]} []).
Proof.
  apply (explicit_mode_skips_detection (example_components black_white true false)).
  vm_compute. reflexivity.
Defined.

End EngineContractRuns.

Section PreprocessorContracts.
Import Preprocessor PreprocessorRuns.
Variable cv2_resize : interpolation -> forall (h w h' w' : nat), list Z -> list Z.
Variable Laplacian_var : nat -> nat -> list bgr -> Q.
Variable unique_gray : list bgr -> nat.
Variable fastNlMeansDenoisingColored :
  nat -> nat -> list bgr -> forall (h hColor tw sw : Z), option (list bgr).
Variable bilateralFilter :
  nat -> nat -> list bgr -> forall (d sigmaColor sigmaSpace : Z), option (list bgr).
Variable clahe_lab :
  nat -> nat -> list bgr -> forall (clipLimit : Q) (tileGridSize : Z * Z), option (list bgr).
Variable unsharp_mask : nat -> nat -> list bgr -> forall (amount : Q), option (list bgr).

Abbreviation run_preprocess :=
  (preprocess cv2_resize Laplacian_var unique_gray fastNlMeansDenoisingColored
              bilateralFilter clahe_lab unsharp_mask).

Lemma analyse_scale h w lv ur mode :
  scale (analyse_params h w lv ur mode) = scale_for (Nat.max h w).
Proof.
  unfold analyse_params, scale_for. cbv zeta.
  destruct (value_eqb mode (VStr "pixel_art")); [reflexivity |].
  destruct (value_eqb mode (VStr "line_art")).
  - cbn [scale].
    destruct (Nat.max h w <? 200)%nat; [reflexivity |].
    destruct (Nat.max h w <? 500)%nat; [reflexivity |].
    destruct (Nat.max h w <? 1000)%nat; reflexivity.
  - destruct (value_eqb mode (VStr "logo")); reflexivity.
Qed.

Lemma scale_for_bound longest :
  (1 <= scale_for longest <= 4)%nat /\
  (longest * scale_for longest <= Nat.max longest 1998)%nat.
Proof.
  unfold scale_for.
  destruct (Nat.ltb_spec longest 200); [lia |].
  destruct (Nat.ltb_spec longest 500); [lia |].
  destruct (Nat.ltb_spec longest 1000); lia.
Qed.

(** The shape of the work record through the stages after the upscale. *)
Lemma stages_shape p settings x :
  let on key := truthy (dict_get settings key (VBool true)) in
  let x4 :=
    stage_on (on "clahe" && clahe p) (_clahe clahe_lab p)
      (stage_on (on "bilateral" && bilateral p) (_bilateral bilateralFilter p)
         (stage_on (on "denoise" && denoise p) (_denoise fastNlMeansDenoisingColored p) x)) in
  wh x4 = wh x /\ ww x4 = ww x.
Proof.
  cbv zeta. unfold stage_on, _clahe, _bilateral, _denoise, guarded.
  repeat match goal with
         | |- context [if ?b then _ else _] => destruct b
         | |- context [match ?o with Some _ => _ | None => _ end] => destruct o
         end; cbn [wh ww]; auto.
Qed.

(** X11.  A call of [preprocess] that returns gives an array of the
    input's channels whose sides are the input's sides times a factor of
    4, 3, 2 or 1, chosen by the longest side alone (and 1 with ["upscale"]
    off); the longest side of the result is at most 1998, unless the input
    was larger already. *)
Theorem preprocess_output_size h w data alpha settings out calls :
  run_preprocess (color_image h w data alpha) settings = Ok (out, calls) ->
  let k := if truthy (dict_get settings "upscale" (VBool true))
           then scale_for (Nat.max h w) else 1%nat in
  (exists data',
      out = match alpha with
            | Some a => BGRA (h * k) (w * k) data'
                             (cv2_resize INTER_LANCZOS4 h w (h * k) (w * k) a)
            | None => BGR (h * k) (w * k) data'
            end) /\
  (Nat.max (h * k) (w * k) <= Nat.max (Nat.max h w) 1998)%nat.
Proof.
  intros H k.
  assert (Hk : forall p, scale p = scale_for (Nat.max h w) -> upscale_factor p settings = k).
  { intros p Hp. unfold upscale_factor, k. rewrite Hp.
    destruct (truthy _); [| reflexivity]. cbn [andb].
    pose proof (scale_for_bound (Nat.max h w)) as [Hb _].
    destruct (Nat.leb_spec (scale_for (Nat.max h w)) 1); cbn [negb]; lia. }
  split.
  2:{ unfold k. pose proof (scale_for_bound (Nat.max h w)) as [Hb Hm].
      destruct (truthy _); [| lia].
      destruct (Nat.max_spec h w) as [[_ Hmax] | [_ Hmax]]; rewrite Hmax in *; nia. }
  unfold preprocess in H.
  assert (Hmatch :
    match color_image h w data alpha with
    | BGR h0 w0 d0 | BGRA h0 w0 d0 _ => h0 = h /\ w0 = w /\ d0 = data
    | _ => False
    end) by (destruct alpha; repeat split).
  set (p := _analyse Laplacian_var unique_gray h w data
              (dict_get settings "mode" (VStr "auto"))) in *.
  pose proof (upscale_shape cv2_resize p settings h w data) as (Hh & Hw & _).
  rewrite (Hk p) in Hh, Hw by (apply analyse_scale).
  set (x1 := stage_on (truthy (dict_get settings "upscale" (VBool true)))
                      (_upscale cv2_resize p) (Work h w data [])) in *.
  pose proof (stages_shape p settings x1) as (Hh4 & Hw4). cbv zeta in Hh4, Hw4.
  set (x4 := stage_on _ (_clahe clahe_lab p) _) in *.
  assert (Hs : forall y, (if truthy (dict_get settings "sharpen" (VBool true)) && sharpen p
                          then _sharpen unsharp_mask p x4 else Ok x4) = Ok y ->
                         wh y = (h * k)%nat /\ ww y = (w * k)%nat).
  { intros y Hy.
    destruct (truthy (dict_get settings "sharpen" (VBool true)) && sharpen p).
    - unfold _sharpen in Hy. destruct (unsharp_mask _ _ _ _); [| discriminate].
      injection Hy as <-. cbn [wh ww]. split; congruence.
    - injection Hy as <-. split; congruence. }
  destruct alpha as [a |]; cbn [color_image] in H;
    (destruct (h * w =? 0)%nat; [discriminate |]);
    fold p in H; fold x1 in H; fold x4 in H;
    destruct (if truthy (dict_get settings "sharpen" (VBool true)) && sharpen p
              then _sharpen unsharp_mask p x4 else Ok x4) as [y | e] eqn:Ey;
    try discriminate;
    destruct (Hs y eq_refl) as [Hyh Hyw];
    injection H as <- _; exists (wdata y); rewrite Hyh, Hyw; reflexivity.
Qed.


Lemma analyse_pixel_art h w data :
  _analyse Laplacian_var unique_gray h w data (VStr "pixel_art")
  = Params (scale_for (Nat.max h w)) INTER_NEAREST false false false false
           5 7 21 5 50 50 2 (8, 8) (1 # 2).
Proof. reflexivity. Qed.

(** X12.  In pixel-art mode [preprocess] cannot fail on a non-empty color
    array and does nothing but resize: the color planes by
    nearest-neighbour sampling if the array is upscaled, the alpha plane if
    there is one; no filter is called, whatever the filter settings are. *)
Theorem pixel_art_only_resizes h w data alpha settings :
  (h * w)%nat <> 0%nat ->
  dict_get settings "mode" (VStr "auto") = VStr "pixel_art" ->
  let k := if truthy (dict_get settings "upscale" (VBool true))
           then scale_for (Nat.max h w) else 1%nat in
  run_preprocess (color_image h w data alpha) settings
  = Ok (color_image (h * k) (w * k)
          (if (1 <? k)%nat
           then resize_color cv2_resize INTER_NEAREST h w (h * k) (w * k) data
           else data)
          (cv2_resize INTER_LANCZOS4 h w (h * k) (w * k) <$> alpha),
        (if (1 <? k)%nat then [call_resize color_planes (w * k) (h * k) INTER_NEAREST] else [])
        ++ match alpha with
           | Some _ => [call_resize alpha_plane (w * k) (h * k) INTER_LANCZOS4]
           | None => []
           end).
Proof.
  intros Hne Hmode k.
  assert (Hx1 :
    stage_on (truthy (dict_get settings "upscale" (VBool true)))
      (_upscale cv2_resize
         (_analyse Laplacian_var unique_gray h w data (VStr "pixel_art")))
      (Work h w data [])
    = Work (h * k) (w * k)
        (if (1 <? k)%nat
         then resize_color cv2_resize INTER_NEAREST h w (h * k) (w * k) data
         else data)
        (if (1 <? k)%nat then [call_resize color_planes (w * k) (h * k) INTER_NEAREST]
         else [])).
  { rewrite analyse_pixel_art. unfold stage_on, _upscale, k. cbn [scale interp wh ww wdata wcalls].
    pose proof (scale_for_bound (Nat.max h w)) as [Hb _].
    destruct (truthy _).
    - destruct (Nat.leb_spec (scale_for (Nat.max h w)) 1).
      + assert (Hs : scale_for (Nat.max h w) = 1%nat) by lia. rewrite Hs.
        cbn [Nat.ltb Nat.leb]. rewrite !Nat.mul_1_r. reflexivity.
      + destruct (Nat.ltb_spec 1 (scale_for (Nat.max h w))); [reflexivity | lia].
    - cbn [Nat.ltb Nat.leb]. rewrite !Nat.mul_1_r. reflexivity. }
  unfold preprocess.
  destruct alpha as [a |]; cbn [color_image];
    (destruct (Nat.eqb_spec (h * w) 0); [contradiction |]);
    rewrite Hmode, Hx1, analyse_pixel_art;
    cbn [denoise bilateral clahe sharpen]; rewrite !andb_false_r;
    cbn [stage_on wh ww wdata wcalls fmap option_fmap option_map color_image];
    unfold alpha_interpolation; rewrite ?app_nil_r; reflexivity.
Qed.

(** *** A filter that fails *)

Lemma stage_same_pixels (b : bool) (f g : work -> work) (x y : work) :
  same_pixels x y ->
  (forall x' y', same_pixels x' y' -> same_pixels (f x') (g y')) ->
  same_pixels (stage_on b f x) (stage_on b g y).
Proof. intros Hxy Hfg. unfold stage_on. destruct b; auto. Qed.

Lemma guarded_same_pixels c c' (out out' : option (list bgr)) (x y : work) :
  same_pixels x y -> out = out' -> same_pixels (guarded c out x) (guarded c' out' y).
Proof.
  intros (Hh & Hw & Hd) <-. unfold guarded, same_pixels.
  destruct out; cbn [wh ww wdata]; auto.
Qed.

Lemma guarded_none_same_pixels c (x y : work) :
  same_pixels x y -> same_pixels (guarded c None x) y.
Proof. intros H. exact H. Qed.

Lemma _denoise_same_pixels p x y :
  same_pixels x y ->
  same_pixels (_denoise fastNlMeansDenoisingColored p x)
              (_denoise fastNlMeansDenoisingColored p y).
Proof.
  intros H. unfold _denoise. apply guarded_same_pixels; [exact H |].
  destruct H as (-> & -> & ->). reflexivity.
Qed.

Lemma _bilateral_same_pixels p x y :
  same_pixels x y ->
  same_pixels (_bilateral bilateralFilter p x) (_bilateral bilateralFilter p y).
Proof.
  intros H. unfold _bilateral. apply guarded_same_pixels; [exact H |].
  destruct H as (-> & -> & ->). reflexivity.
Qed.

Lemma _clahe_same_pixels p x y :
  same_pixels x y ->
  same_pixels (_clahe clahe_lab p x) (_clahe clahe_lab p y).
Proof.
  intros H. unfold _clahe. apply guarded_same_pixels; [exact H |].
  destruct H as (-> & -> & ->). reflexivity.
Qed.

(** The end of [preprocess], from the sharpening on, on two work records
    with the same pixels. *)
Lemma finish_same_pixels (b : bool) p (alpha : option (list Z)) h w (x y : work) :
  same_pixels x y ->
  returned_image
    match (if b then _sharpen unsharp_mask p x else Ok x) with
    | Raise e => Raise e
    | Ok x =>
        match alpha with
        | Some a =>
            Ok (BGRA (wh x) (ww x) (wdata x)
                  (cv2_resize alpha_interpolation h w (wh x) (ww x) a),
                wcalls x ++ [call_resize alpha_plane (ww x) (wh x) alpha_interpolation])
        | None => Ok (BGR (wh x) (ww x) (wdata x), wcalls x)
        end
    end
  = returned_image
      match (if b then _sharpen unsharp_mask p y else Ok y) with
      | Raise e => Raise e
      | Ok x =>
          match alpha with
          | Some a =>
              Ok (BGRA (wh x) (ww x) (wdata x)
                    (cv2_resize alpha_interpolation h w (wh x) (ww x) a),
                  wcalls x ++ [call_resize alpha_plane (ww x) (wh x) alpha_interpolation])
          | None => Ok (BGR (wh x) (ww x) (wdata x), wcalls x)
          end
      end.
Proof.
  intros (Hh & Hw & Hd). unfold _sharpen. rewrite Hh, Hw, Hd.
  destruct b; [destruct (unsharp_mask _ _ _ _) |]; destruct alpha;
    cbn [returned_image wh ww wdata]; rewrite ?Hh, ?Hw, ?Hd; reflexivity.
Qed.


Lemma dict_get_insert_ne (d : gmap string value) (k k' : string) (v dflt : value) :
  k <> k' -> dict_get (<[k := v]> d) k' dflt = dict_get d k' dflt.
Proof. intros Hne. unfold dict_get. rewrite lookup_insert_ne by exact Hne. reflexivity. Qed.

Lemma dict_get_insert (d : gmap string value) (k : string) (v dflt : value) :
  dict_get (<[k := v]> d) k dflt = v.
Proof. unfold dict_get. rewrite lookup_insert_eq. reflexivity. Qed.

Ltac other_keys :=
  rewrite ?dict_get_insert, ?dict_get_insert_ne by discriminate.

(** X13.  An OpenCV error in the denoising, in the bilateral filter or in
    the contrast enhancement is absorbed: [preprocess] returns, or raises,
    what it does with that filter switched off in the settings. *)
Theorem failing_filter_is_skipped_filter (im : image) (settings : gmap string value) :
  returned_image
    (preprocess cv2_resize Laplacian_var unique_gray (fun _ _ _ _ _ _ _ => None)
       bilateralFilter clahe_lab unsharp_mask im settings)
  = returned_image (run_preprocess im (<["denoise" := VBool false]> settings)) /\
  returned_image
    (preprocess cv2_resize Laplacian_var unique_gray fastNlMeansDenoisingColored
       (fun _ _ _ _ _ _ => None) clahe_lab unsharp_mask im settings)
  = returned_image (run_preprocess im (<["bilateral" := VBool false]> settings)) /\
  returned_image
    (preprocess cv2_resize Laplacian_var unique_gray fastNlMeansDenoisingColored
       bilateralFilter (fun _ _ _ _ _ => None) unsharp_mask im settings)
  = returned_image (run_preprocess im (<["clahe" := VBool false]> settings)).
Proof.
  split; [| split].
  - unfold preprocess. other_keys.
    destruct im as [h w d | h w d | h w d | h w d a]; try reflexivity;
      (destruct (h * w =? 0)%nat; [reflexivity |]);
      cbn [truthy andb];
      [apply (finish_same_pixels _ _ None h w) | apply (finish_same_pixels _ _ (Some a) h w)];
      (apply stage_same_pixels; [| intros; apply _clahe_same_pixels; assumption]);
      (apply stage_same_pixels; [| intros; apply _bilateral_same_pixels; assumption]);
      unfold stage_on;
      (destruct (_ && _); [apply guarded_none_same_pixels |]); repeat split.
  - unfold preprocess. other_keys.
    destruct im as [h w d | h w d | h w d | h w d a]; try reflexivity;
      (destruct (h * w =? 0)%nat; [reflexivity |]);
      cbn [truthy andb];
      [apply (finish_same_pixels _ _ None h w) | apply (finish_same_pixels _ _ (Some a) h w)];
      (apply stage_same_pixels; [| intros; apply _clahe_same_pixels; assumption]);
      unfold stage_on at 1 4;
      (destruct (_ && _); [apply guarded_none_same_pixels |]); repeat split.
  - unfold preprocess. other_keys.
    destruct im as [h w d | h w d | h w d | h w d a]; try reflexivity;
      (destruct (h * w =? 0)%nat; [reflexivity |]);
      cbn [truthy andb];
      [apply (finish_same_pixels _ _ None h w) | apply (finish_same_pixels _ _ (Some a) h w)];
      unfold stage_on at 1 5;
      (destruct (_ && _); [apply guarded_none_same_pixels |]); repeat split.
Qed.

End PreprocessorContracts.

Section PreprocessorContractRuns.
Import Preprocessor PreprocessorRuns.

Lemma pixel_art_only_resizes_witness :
  let settings : gmap string value := {[ "mode" := VStr "pixel_art" ]} in
  let data := replicate 4 (0, 0, 255) in
  let k := if truthy (dict_get settings "upscale" (VBool true))
           then scale_for (Nat.max 2 2) else 1%nat in
  preprocess sample_resize (fun _ _ _ => 0%Q) (fun _ => 1%nat)
    (fun _ _ data _ _ _ _ => Some data) (fun _ _ data _ _ _ => Some data)
    (fun _ _ data _ _ => Some data) (fun _ _ data _ => Some data)
    (color_image 2 2 data None) settings
  = Ok (color_image (2 * k) (2 * k)
          (if (1 <? k)%nat
           then resize_color sample_resize INTER_NEAREST 2 2 (2 * k) (2 * k) data
           else data)
          (sample_resize INTER_LANCZOS4 2 2 (2 * k) (2 * k) <$> None),
        (if (1 <? k)%nat then [call_resize color_planes (2 * k) (2 * k) INTER_NEAREST] else [])
        ++ []).
Proof.
  apply (pixel_art_only_resizes sample_resize (fun _ _ _ => 0%Q) (fun _ => 1%nat)
           (fun _ _ data _ _ _ _ => Some data) (fun _ _ data _ _ _ => Some data)
           (fun _ _ data _ _ => Some data) (fun _ _ data _ => Some data)
           2%nat 2%nat (replicate 4 (0, 0, 255)) None {[ "mode" := VStr "pixel_art" ]}).
  - discriminate.
  - reflexivity.
Defined.

End PreprocessorContractRuns.

Section PreprocessorSizeRuns.
Import Preprocessor PreprocessorRuns.

Lemma preprocess_output_size_witness :
  let settings : gmap string value := {[ "upscale" := VBool false ]} in
  let k := if truthy (dict_get settings "upscale" (VBool true))
           then scale_for (Nat.max 1 2) else 1%nat in
  (exists data',
      BGR 1 2 [(1, 2, 3); (4, 5, 6)]
      = match @None (list Z) with
        | Some a => BGRA (1 * k) (2 * k) data'
                         (sample_resize INTER_LANCZOS4 1 2 (1 * k) (2 * k) a)
        | None => BGR (1 * k) (2 * k) data'
        end) /\
  (Nat.max (1 * k) (2 * k) <= Nat.max (Nat.max 1 2) 1998)%nat.
Proof.
  apply (preprocess_output_size sample_resize (fun _ _ _ => 0%Q) (fun _ => 1%nat)
           (fun _ _ data _ _ _ _ => Some data) (fun _ _ data _ _ _ => Some data)
           (fun _ _ data _ _ => Some data) (fun _ _ data _ => Some data)
           1%nat 2%nat [(1, 2, 3); (4, 5, 6)] None {[ "upscale" := VBool false ]}
           (BGR 1 2 [(1, 2, 3); (4, 5, 6)])
           [call_bilateralFilter color_planes; call_CLAHE color_planes;
            call_unsharp color_planes]).
  vm_compute. reflexivity.
Defined.

End PreprocessorSizeRuns.

Section MergeFacts.
Import Optimizer OptimizerShapes.

(** *** _merge_same_fill_paths *)

Lemma get_set_other (a : list (string * string)) (k k' v : string) :
  k' <> k -> get (set a k v) k' = get a k'.
Proof.
  intros Hne. induction a as [| [k0 v0] a IH]; simpl.
  - rewrite bool_decide_false by congruence. reflexivity.
  - destruct (bool_decide (k0 = k)) eqn:E; simpl.
    + apply bool_decide_eq_true in E. subst k0.
      rewrite !bool_decide_false by congruence. reflexivity.
    + destruct (bool_decide (k0 = k')); [reflexivity | exact IH].
Qed.

Lemma alike_refl a : alike a a.
Proof. repeat split. Qed.

Lemma alike_trans a b c : alike a b -> alike b c -> alike a c.
Proof. intros (? & ? & ?) (? & ? & ?). repeat split; congruence. Qed.

Lemma mergeable_alike a a' b b' :
  alike a a' -> alike b b' -> mergeable a b = mergeable a' b'.
Proof.
  intros (Ht & Hf & Hr) (Ht' & Hf' & Hr'). unfold mergeable.
  rewrite Ht, Hf, Hr, Ht', Hf', Hr'. reflexivity.
Qed.

Lemma merge_into_alike curr nxt : alike (merge_into curr nxt) curr.
Proof.
  destruct curr as [tag attrib txt tail children]. unfold merge_into, alike. simpl.
  rewrite !get_set_other by discriminate. repeat split.
Qed.

Lemma merge_into_size curr nxt : size (merge_into curr nxt) = size curr.
Proof. destruct curr. reflexivity. Qed.

Lemma merge_run_head curr rest :
  exists c' rest', merge_run curr rest = c' :: rest' /\ alike c' curr.
Proof.
  revert curr. induction rest as [| nxt rest IH]; intros curr; simpl.
  - exists curr, []. split; [reflexivity | apply alike_refl].
  - destruct (mergeable curr nxt).
    + destruct (IH (merge_into curr nxt)) as (c' & rest' & -> & Ha).
      exists c', rest'. split; [reflexivity |].
      eapply alike_trans; [exact Ha | apply merge_into_alike].
    + exists curr, (merge_run nxt rest). split; [reflexivity | apply alike_refl].
Qed.

Lemma merge_run_no_adjacent curr rest : no_adjacent_mergeable (merge_run curr rest).
Proof.
  revert curr. induction rest as [| nxt rest IH]; intros curr; simpl.
  - split; exact I.
  - destruct (mergeable curr nxt) eqn:E; [apply IH |].
    destruct (merge_run_head nxt rest) as (c' & rest' & Hrun & Ha).
    pose proof (IH nxt) as Hn. rewrite Hrun in Hn |- *.
    split; [| exact Hn].
    rewrite (mergeable_alike curr curr c' nxt (alike_refl _) Ha). exact E.
Qed.

Lemma merge_children_no_adjacent children : no_adjacent_mergeable (merge_children children).
Proof. destruct children; [exact I | apply merge_run_no_adjacent]. Qed.

Lemma merge_run_sizes n curr rest :
  (size curr <= n)%nat -> Forall (fun c => (size c <= n)%nat) rest ->
  Forall (fun c => (size c <= n)%nat) (merge_run curr rest).
Proof.
  revert curr. induction rest as [| nxt rest IH]; intros curr Hc Hr; simpl.
  - repeat constructor. exact Hc.
  - inversion Hr; subst. destruct (mergeable curr nxt).
    + apply IH; [rewrite merge_into_size; exact Hc | assumption].
    + constructor; [exact Hc | apply IH; assumption].
Qed.

Lemma merge_children_sizes n children :
  Forall (fun c => (size c <= n)%nat) children ->
  Forall (fun c => (size c <= n)%nat) (merge_children children).
Proof.
  destruct children as [| c rest]; [constructor |].
  intros H. inversion H; subst. apply merge_run_sizes; assumption.
Qed.

Lemma merge_pass_alike fuel e : alike (merge_pass fuel e) e.
Proof.
  destruct fuel; [apply alike_refl |]. destruct e. cbn [merge_pass]. repeat split.
Qed.

Lemma no_adjacent_map (f : element -> element) (l : list element) :
  (forall e, alike (f e) e) -> no_adjacent_mergeable l -> no_adjacent_mergeable (map f l).
Proof.
  intros Hf. induction l as [| a rest IH]; [auto |].
  intros [Hab Hrest]. split; [| apply IH; exact Hrest].
  destruct rest as [| b rest']; [exact I |]. simpl.
  rewrite (mergeable_alike _ a _ b (Hf a) (Hf b)). exact Hab.
Qed.

Lemma children_sizes (children : list element) n :
  (sizes children <= n)%nat -> Forall (fun c => (size c <= n)%nat) children.
Proof.
  revert n. induction children as [| c rest IH]; intros n H; [constructor |].
  unfold sizes in *. simpl in H. constructor; [lia | apply IH; lia].
Qed.

Lemma size_children tag attrib txt tail children :
  size (Element tag attrib txt tail children) = S (sizes children).
Proof. reflexivity. Qed.

Lemma merge_pass_merged fuel e : (size e <= fuel)%nat -> merged (merge_pass fuel e).
Proof.
  revert e. induction fuel as [| fuel IH]; intros e Hsize.
  - destruct e. rewrite size_children in Hsize. lia.
  - destruct e as [tag attrib txt tail children]. rewrite size_children in Hsize.
    cbn [merge_pass]. constructor.
    + apply no_adjacent_map; [intros e; apply merge_pass_alike |].
      apply merge_children_no_adjacent.
    + rewrite Forall_map.
      eapply Forall_impl; [apply (merge_children_sizes fuel), children_sizes; lia |].
      intros c Hc. simpl. apply IH. exact Hc.
Qed.

Lemma merge_run_fixed curr rest :
  no_adjacent_mergeable (curr :: rest) -> merge_run curr rest = curr :: rest.
Proof.
  revert curr. induction rest as [| nxt rest IH]; intros curr [Hab Hrest]; simpl.
  - reflexivity.
  - rewrite Hab. f_equal. apply IH. exact Hrest.
Qed.

Lemma merge_pass_fixed fuel e : merged e -> merge_pass fuel e = e.
Proof.
  revert e. induction fuel as [| fuel IH]; intros e He; [reflexivity |].
  destruct He as [tag attrib txt tail children Hn Hm]. cbn [merge_pass]. f_equal.
  assert (Hc : merge_children children = children).
  { destruct children; [reflexivity | apply merge_run_fixed; exact Hn]. }
  rewrite Hc. clear Hc Hn.
  induction Hm as [| c rest Hc _ IHrest]; [reflexivity |].
  simpl. rewrite (IH c Hc), IHrest. reflexivity.
Qed.

(** X14.  After [_merge_same_fill_paths] no element of the tree has two
    neighbouring children that are paths of the same non-empty fill and
    the same fill rule, and applying it again changes nothing. *)
Theorem merge_same_fill_paths_settles (root : element) :
  merged (_merge_same_fill_paths root) /\
  _merge_same_fill_paths (_merge_same_fill_paths root) = _merge_same_fill_paths root.
Proof.
  assert (Hm : merged (_merge_same_fill_paths root))
    by (apply merge_pass_merged; reflexivity).
  split; [exact Hm |]. apply merge_pass_fixed. exact Hm.
Qed.

End MergeFacts.

Section CollapseFacts.
Import Optimizer OptimizerShapes.

(** *** _collapse_empty_groups *)

Lemma sizes_app (l1 l2 : list element) : sizes (l1 ++ l2) = (sizes l1 + sizes l2)%nat.
Proof.
  unfold sizes. induction l1 as [| c l1 IH]; simpl; [reflexivity |]. rewrite IH. lia.
Qed.

Lemma sizes_cons c (l : list element) : sizes (c :: l) = (size c + sizes l)%nat.
Proof. reflexivity. Qed.

Lemma size_pos (e : element) : (1 <= size e)%nat.
Proof. destruct e. rewrite size_children. lia. Qed.

Lemma content_plain_group (c : element) :
  plain_group c = true -> content c = flat_map content (children_of c).
Proof. destruct c as [tag attrib txt tail children]. simpl. intros ->. reflexivity. Qed.

(** One parent: what goes is a group without attributes, what stays keeps
    its place, and the flag is raised exactly when a group was unwrapped. *)
Lemma collapse_children_spec (children : list element) :
  let r := collapse_children children in
  (sizes r.1 <= sizes children)%nat /\
  (r.2 = true -> (sizes r.1 < sizes children)%nat) /\
  flat_map content r.1 = flat_map content children /\
  (r.2 = false -> Forall (fun c => plain_group c = false) r.1).
Proof.
  induction children as [| child rest IH]; cbn zeta.
  - simpl. split; [lia |]. split; [discriminate |]. split; [reflexivity |]. constructor.
  - cbn [collapse_children].
    destruct (collapse_children rest) as [rest' changed] eqn:Er.
    cbn zeta in IH. cbn [fst snd] in IH.
    destruct IH as (Hle & Hlt & Hc & Hg).
    pose proof (size_pos child) as Hpos.
    change (flat_map content (child :: rest)) with (content child ++ flat_map content rest).
    destruct (plain_group child) eqn:Ep.
    + rewrite (content_plain_group _ Ep).
      destruct child as [tag attrib txt tail grandchildren].
      cbn [children_of].
      destruct grandchildren as [| g gs]; cbn [fst snd].
      * rewrite sizes_cons.
        split; [lia |]. split; [intros H; specialize (Hlt H); lia |].
        split; [exact Hc | exact Hg].
      * rewrite sizes_app, (sizes_cons (Element tag attrib txt tail (g :: gs)) rest),
          size_children.
        split; [lia |]. split; [intros _; lia |].
        split; [| discriminate].
        rewrite flat_map_app, Hc. reflexivity.
    + cbn [fst snd]. rewrite !sizes_cons.
      split; [lia |]. split; [intros H; specialize (Hlt H); lia |].
      split.
      * change (flat_map content (child :: rest'))
          with (content child ++ flat_map content rest').
        rewrite Hc. reflexivity.
      * intros H. constructor; [exact Ep | apply Hg, H].
Qed.

Lemma collapse_pass_plain_group fuel e : plain_group (collapse_pass fuel e).1 = plain_group e.
Proof.
  destruct fuel; [reflexivity |]. destruct e as [tag attrib txt tail children].
  cbn [collapse_pass]. destruct (collapse_children children). reflexivity.
Qed.

Lemma collapse_pass_list fuel (l : list element) :
  Forall (pass_ok fuel) l ->
  let visited := map (collapse_pass fuel) l in
  (sizes (map fst visited) <= sizes l)%nat /\
  (existsb snd visited = true -> (sizes (map fst visited) < sizes l)%nat) /\
  flat_map content (map fst visited) = flat_map content l /\
  (existsb snd visited = false -> Forall group_free (map fst visited)) /\
  (Forall (fun c => plain_group c = false) l ->
   Forall (fun c => plain_group c = false) (map fst visited)).
Proof.
  induction 1 as [| c rest Hc _ IH]; cbn zeta.
  - simpl. repeat split; try lia; try discriminate; constructor.
  - cbn zeta in IH. destruct IH as (Hle & Hlt & Hco & Hg & Hp).
    destruct Hc as (Hcle & Hclt & Hcco & Hcg).
    cbn [map existsb]. rewrite !sizes_cons.
    split; [lia |]. split; [| split; [| split]].
    + intros H. apply orb_true_iff in H as [H | H]; [specialize (Hclt H) | specialize (Hlt H)]; lia.
    + simpl. rewrite Hcco, Hco. reflexivity.
    + intros H. apply orb_false_iff in H as [H1 H2].
      constructor; [apply Hcg, H1 | apply Hg, H2].
    + intros H. inversion H; subst. constructor; [| apply Hp; assumption].
      rewrite collapse_pass_plain_group. assumption.
Qed.

Lemma collapse_pass_ok fuel e : (size e <= fuel)%nat -> pass_ok fuel e.
Proof.
  revert e. induction fuel as [| fuel IH]; intros e Hsize.
  - pose proof (size_pos e). lia.
  - destruct e as [tag attrib txt tail children]. rewrite size_children in Hsize.
    unfold pass_ok. cbn [collapse_pass].
    pose proof (collapse_children_spec children) as Hspec. cbn zeta in Hspec.
    destruct (collapse_children children) as [children' changed]. cbn [fst snd] in Hspec.
    destruct Hspec as (Hle & Hlt & Hco & Hg).
    assert (Hall : Forall (pass_ok fuel) children').
    { eapply Forall_impl; [apply (children_sizes children' fuel); lia |].
      intros c Hc. simpl. apply IH, Hc. }
    pose proof (collapse_pass_list fuel children' Hall) as Hl. cbn zeta in Hl.
    destruct Hl as (Hvle & Hvlt & Hvco & Hvg & Hvp).
    cbn zeta. cbn [fst snd]. rewrite !size_children.
    split; [lia |]. split; [| split].
    + intros H. apply orb_true_iff in H as [H | H];
        [specialize (Hlt H) | specialize (Hvlt H)]; lia.
    + change (content (Element tag attrib txt tail
                         (map fst (map (collapse_pass fuel) children'))))
        with ((if plain_group (Element tag attrib txt tail children) then []
               else [(tag, attrib)])
              ++ flat_map content (map fst (map (collapse_pass fuel) children'))).
      rewrite Hvco, Hco. reflexivity.
    + intros H. apply orb_false_iff in H as [H1 H2].
      constructor; [apply Hvp, Hg, H1 | apply Hvg, H2].
Qed.

Lemma collapse_loop_spec fuel root :
  (size root <= fuel)%nat ->
  group_free (collapse_loop fuel root) /\
  content (collapse_loop fuel root) = content root.
Proof.
  revert root. induction fuel as [| fuel IH]; intros root Hsize.
  - pose proof (size_pos root). lia.
  - cbn [collapse_loop].
    pose proof (collapse_pass_ok (size root) root (Nat.le_refl _)) as Hp.
    unfold pass_ok in Hp. cbn zeta in Hp.
    destruct (collapse_pass (size root) root) as [root' changed]. cbn [fst snd] in Hp.
    destruct Hp as (Hle & Hlt & Hco & Hg).
    destruct changed.
    + specialize (Hlt eq_refl). destruct (IH root') as [Hgf Hc]; [lia |].
      split; [exact Hgf | congruence].
    + split; [apply Hg; reflexivity | exact Hco].
Qed.

(** X15.  [_collapse_empty_groups] leaves no [<g>] without attributes
    (other than [id]) anywhere below the root, and every other element
    stays, with its tag and its attributes, in document order. *)
Theorem collapse_empty_groups_removes_plain_groups (root : element) :
  group_free (_collapse_empty_groups root) /\
  content (_collapse_empty_groups root) = content root.
Proof. apply collapse_loop_spec. reflexivity. Qed.

End CollapseFacts.

Section ChaikinFacts.
Import Tracer.

Lemma length_flat_map_pairs {A B} (f g : A -> B) (l : list A) :
  length (flat_map (fun i => [f i; g i]) l) = (2 * length l)%nat.
Proof. induction l as [| a l IH]; simpl; [reflexivity |]. rewrite IH. lia. Qed.

Lemma length_chaikin_pass closed (pts : list point) :
  length (chaikin_pass closed pts)
  = (2 * (if closed then length pts else length pts - 1))%nat.
Proof.
  unfold chaikin_pass. cbv zeta.
  rewrite (length_flat_map_pairs
             (fun i => lerp (3 # 4) (1 # 4) (nth i pts (0, 0)%Q)
                         (nth ((i + 1) mod length pts) pts (0, 0)%Q))
             (fun i => lerp (1 # 4) (3 # 4) (nth i pts (0, 0)%Q)
                         (nth ((i + 1) mod length pts) pts (0, 0)%Q))).
  rewrite length_seq. reflexivity.
Qed.

Lemma length_chaikin_loop_closed k (pts : list point) :
  length (chaikin_loop k true pts) = (length pts * 2 ^ k)%nat.
Proof.
  revert pts. induction k as [| k IH]; intros pts; simpl; [lia |].
  rewrite IH, length_chaikin_pass. lia.
Qed.

Lemma length_chaikin_loop_open k (pts : list point) :
  (2 <= length pts)%nat ->
  length (chaikin_loop k false pts) = ((length pts - 2) * 2 ^ k + 2)%nat.
Proof.
  revert pts. induction k as [| k IH]; intros pts Hn; simpl; [lia |].
  rewrite IH; rewrite length_chaikin_pass; lia.
Qed.

Lemma chaikin_loop_nil k closed : chaikin_loop k closed [] = [].
Proof. induction k as [| k IH]; [reflexivity |]. simpl. destruct closed; exact IH. Qed.

(** X16.  [_chaikin_smooth] doubles the number of points of a closed
    contour in every pass; an open polyline of n >= 2 points gets
    (n - 2) * 2^k + 2 points after k passes, and one of fewer than two
    points is empty after the first pass. *)
Theorem chaikin_point_count (points : list (Z * Z)) (iterations : Z) :
  let n := length points in
  let k := Z.to_nat iterations in
  length (_chaikin_smooth points iterations true) = (n * 2 ^ k)%nat /\
  ((2 <= n)%nat ->
   length (_chaikin_smooth points iterations false) = ((n - 2) * 2 ^ k + 2)%nat) /\
  ((n < 2)%nat -> (0 < k)%nat -> _chaikin_smooth points iterations false = []).
Proof.
  cbv zeta. unfold _chaikin_smooth.
  assert (Hlen : length (astype_float64 points) = length points)
    by (unfold astype_float64; apply length_map).
  split; [| split].
  - rewrite length_chaikin_loop_closed, Hlen. reflexivity.
  - intros Hn. rewrite length_chaikin_loop_open by lia. rewrite Hlen. reflexivity.
  - intros Hn Hk. destruct (Z.to_nat iterations) as [| k]; [lia |]. simpl.
    assert (Hp : chaikin_pass false (astype_float64 points) = []).
    { apply length_zero_iff_nil. rewrite length_chaikin_pass, Hlen. lia. }
    rewrite Hp. apply chaikin_loop_nil.
Qed.

(** *** The bounding box *)

Lemma lerp_in_box xlo xhi ylo yhi (p0 p1 : point) :
  in_box xlo xhi ylo yhi p0 -> in_box xlo xhi ylo yhi p1 ->
  in_box xlo xhi ylo yhi (lerp (3 # 4) (1 # 4) p0 p1) /\
  in_box xlo xhi ylo yhi (lerp (1 # 4) (3 # 4) p0 p1).
Proof.
  unfold in_box, lerp. destruct p0 as [x0 y0], p1 as [x1 y1]. simpl.
  intros (H1 & H2 & H3 & H4) (H5 & H6 & H7 & H8).
  repeat split; Lqa.lra.
Qed.

Lemma chaikin_pass_in_box xlo xhi ylo yhi closed (pts : list point) :
  Forall (in_box xlo xhi ylo yhi) pts ->
  Forall (in_box xlo xhi ylo yhi) (chaikin_pass closed pts).
Proof.
  intros H. unfold chaikin_pass. cbv zeta.
  assert (Hnth : forall i, (i < length pts)%nat ->
                   in_box xlo xhi ylo yhi (nth i pts (0, 0)%Q)).
  { intros i Hi. rewrite Forall_forall in H. apply H, list_elem_of_In, nth_In, Hi. }
  assert (Hstop : ((if closed then length pts else length pts - 1) <= length pts)%nat)
    by (destruct closed; lia).
  revert Hstop. generalize (if closed then length pts else (length pts - 1)%nat) as stop.
  intros stop Hstop.
  apply Forall_flat_map. rewrite Forall_forall. intros i Hi.
  apply elem_of_seq in Hi.
  assert (Hn : (0 < length pts)%nat) by lia.
  destruct (lerp_in_box xlo xhi ylo yhi (nth i pts (0, 0)%Q)
              (nth ((i + 1) mod length pts) pts (0, 0)%Q)) as [Ha Hb].
  - apply Hnth. lia.
  - apply Hnth. apply Nat.mod_upper_bound. lia.
  - apply Forall_cons_2; [exact Ha |]. apply Forall_cons_2; [exact Hb |]. apply Forall_nil_2.
Qed.

(** X17.  Smoothing never leaves the bounding box of the contour: if
    every point of the contour lies in an axis-parallel box, so does every
    point [_chaikin_smooth] returns. *)
Theorem chaikin_stays_in_bounding_box xlo xhi ylo yhi points iterations closed :
  Forall (in_box xlo xhi ylo yhi) (astype_float64 points) ->
  Forall (in_box xlo xhi ylo yhi) (_chaikin_smooth points iterations closed).
Proof.
  unfold _chaikin_smooth. generalize (astype_float64 points) as pts.
  induction (Z.to_nat iterations) as [| k IH]; intros pts H; simpl; [exact H |].
  apply IH, chaikin_pass_in_box, H.
Qed.

Lemma chaikin_stays_in_bounding_box_witness :
  Forall (in_box 0 4 0 3) (_chaikin_smooth [(0, 0); (4, 0); (4, 3)] 2 true).
Proof.
  apply (chaikin_stays_in_bounding_box 0 4 0 3 [(0, 0); (4, 0); (4, 3)] 2 true).
  repeat (apply Forall_cons_2; [unfold in_box; simpl; repeat split; discriminate |]).
  apply Forall_nil_2.
Defined.

End ChaikinFacts.

Section ChaikinCentroid.
Import Tracer.

Lemma map_nth_seq {A} (d : A) (l : list A) : map (fun i => nth i l d) (seq 0 (length l)) = l.
Proof.
  apply list_eq. intros i. rewrite list_lookup_fmap.
  destruct (l !! i) as [x |] eqn:E.
  - rewrite lookup_seq_lt by (apply lookup_lt_Some in E; exact E). simpl.
    f_equal. apply nth_lookup_Some with (d := d) in E. exact E.
  - rewrite lookup_seq_ge by (apply lookup_ge_None in E; lia). reflexivity.
Qed.

(** The successors of the points of a closed contour: the contour turned
    by one place. *)
Lemma successors_closed {A} (d p : A) (rest : list A) :
  map (fun i => nth ((i + 1) mod length (p :: rest)) (p :: rest) d)
      (seq 0 (length (p :: rest)))
  = rest ++ [p].
Proof.
  cbn [length]. rewrite seq_S, map_app. cbn [map Nat.add]. f_equal.
  - rewrite <- (map_nth_seq d rest) at 2.
    apply map_ext_in. intros i Hi. apply in_seq in Hi.
    rewrite Nat.mod_small by lia. rewrite Nat.add_1_r. reflexivity.
  - rewrite Nat.add_1_r, Nat.Div0.mod_same. reflexivity.
Qed.

Lemma sum_x_app (l1 l2 : list point) : (sum_x (l1 ++ l2) == sum_x l1 + sum_x l2)%Q.
Proof.
  unfold sum_x. induction l1 as [| p l1 IH]; simpl; [ring |]. rewrite IH. ring.
Qed.

Lemma sum_y_app (l1 l2 : list point) : (sum_y (l1 ++ l2) == sum_y l1 + sum_y l2)%Q.
Proof.
  unfold sum_y. induction l1 as [| p l1 IH]; simpl; [ring |]. rewrite IH. ring.
Qed.

Lemma sum_pairs (f g : nat -> point) (l : list nat) :
  (sum_x (flat_map (fun i => [lerp (3 # 4) (1 # 4) (f i) (g i);
                              lerp (1 # 4) (3 # 4) (f i) (g i)]) l)
   == sum_x (map f l) + sum_x (map g l))%Q /\
  (sum_y (flat_map (fun i => [lerp (3 # 4) (1 # 4) (f i) (g i);
                              lerp (1 # 4) (3 # 4) (f i) (g i)]) l)
   == sum_y (map f l) + sum_y (map g l))%Q.
Proof.
  induction l as [| i l [IHx IHy]]; [split; unfold sum_x, sum_y; simpl; ring |].
  split.
  - unfold sum_x in *. simpl. rewrite IHx. unfold lerp. simpl. ring.
  - unfold sum_y in *. simpl. rewrite IHy. unfold lerp. simpl. ring.
Qed.

Lemma chaikin_pass_sums (pts : list point) :
  (sum_x (chaikin_pass true pts) == 2 * sum_x pts)%Q /\
  (sum_y (chaikin_pass true pts) == 2 * sum_y pts)%Q.
Proof.
  unfold chaikin_pass. cbv zeta.
  destruct (sum_pairs (fun i => nth i pts (0, 0)%Q)
              (fun i => nth ((i + 1) mod length pts) pts (0, 0)%Q)
              (seq 0 (length pts))) as [Hx Hy].
  rewrite Hx, Hy, map_nth_seq.
  destruct pts as [| p rest]; [split; unfold sum_x, sum_y; simpl; ring |].
  rewrite successors_closed, sum_x_app, sum_y_app.
  split; [unfold sum_x | unfold sum_y]; simpl; ring.
Qed.

(** Each pass of the exact loop doubles the sum of the coordinates. *)
Lemma chaikin_loop_sums k (pts : list point) :
  (sum_x (chaikin_loop k true pts) == inject_Z (2 ^ Z.of_nat k) * sum_x pts)%Q /\
  (sum_y (chaikin_loop k true pts) == inject_Z (2 ^ Z.of_nat k) * sum_y pts)%Q.
Proof.
  revert pts. induction k as [| k IH]; intros pts.
  - cbn [chaikin_loop]. change (inject_Z (2 ^ Z.of_nat 0)) with 1%Q. split; ring.
  - cbn [chaikin_loop]. destruct (IH (chaikin_pass true pts)) as [IHx IHy].
    destruct (chaikin_pass_sums pts) as [Hx Hy].
    rewrite IHx, IHy, Hx, Hy.
    rewrite Nat2Z.inj_succ, Z.pow_succ_r by lia.
    rewrite inject_Z_mult. split; ring.
Qed.

End ChaikinCentroid.

(** ** segmentation.py *)

Section SegmentationFacts.
Import Segmentation.

Lemma py_index_in_range {A} (l : list A) (i : Z) :
  0 <= i < Z.of_nat (length l) -> py_index l i = l !! Z.to_nat i.
Proof.
  intros Hi. unfold py_index. cbv zeta.
  destruct (0 <=? i) eqn:E1; [| lia]. destruct (i <? Z.of_nat (length l)) eqn:E2; [| lia].
  reflexivity.
Qed.

Lemma existsb_eqb_elem (x : Z) (l : list Z) :
  existsb (Z.eqb x) l = true <-> x ∈ l.
Proof.
  rewrite existsb_exists. split.
  - intros (y & Hy & He). apply Z.eqb_eq in He. subst y. apply list_elem_of_In. exact Hy.
  - intros Hx. exists x. split; [apply list_elem_of_In; exact Hx | apply Z.eqb_refl].
Qed.

Lemma elem_of_insert_sorted (x a : Z) (l : list Z) :
  x ∈ insert_sorted a l <-> x = a \/ x ∈ l.
Proof.
  induction l as [| y l IH]; simpl.
  - rewrite list_elem_of_singleton. split; [auto | intros [H | H]; [exact H | inversion H]].
  - destruct (a <? y) eqn:E1.
    + rewrite elem_of_cons. reflexivity.
    + destruct (a =? y) eqn:E2.
      * apply Z.eqb_eq in E2. subst y. rewrite elem_of_cons. tauto.
      * rewrite !elem_of_cons, IH. tauto.
Qed.

Lemma elem_of_sorted_set (x : Z) (xs : list Z) : x ∈ sorted_set xs <-> x ∈ xs.
Proof.
  induction xs as [| a xs IH]; simpl; [reflexivity |].
  rewrite elem_of_insert_sorted, elem_of_cons, IH. reflexivity.
Qed.

Lemma insert_sorted_sorted (a : Z) (l : list Z) :
  StronglySorted Z.lt l -> StronglySorted Z.lt (insert_sorted a l).
Proof.
  induction l as [| y l IH]; intros Hs; simpl.
  - constructor; [constructor | constructor].
  - inversion Hs as [| ? ? Hs' Hall]; subst.
    destruct (a <? y) eqn:E1.
    + apply Z.ltb_lt in E1. constructor; [exact Hs |].
      constructor; [exact E1 |].
      eapply Forall_impl; [exact Hall |]. simpl. intros z Hz. lia.
    + destruct (a =? y) eqn:E2; [exact Hs |].
      apply Z.ltb_ge in E1. apply Z.eqb_neq in E2.
      constructor; [apply IH; exact Hs' |].
      apply Forall_forall. intros z Hz. apply elem_of_insert_sorted in Hz.
      destruct Hz as [-> | Hz]; [lia |].
      rewrite Forall_forall in Hall. apply Hall. exact Hz.
Qed.

Lemma sorted_set_sorted (xs : list Z) : StronglySorted Z.lt (sorted_set xs).
Proof.
  induction xs as [| a xs IH]; simpl; [constructor |].
  apply insert_sorted_sorted. exact IH.
Qed.

(** *** Arrays *)

Lemma paint_spec (img : list bgr) (m : list Z) (c : bgr) :
  length m = length img ->
  exists img', paint img m c = Some img' /\ length img' = length img /\
    forall p, img' !! p = if decide (m !! p = Some 255) then Some c else img !! p.
Proof.
  intros Hlen. unfold paint. rewrite Hlen, Nat.eqb_refl.
  eexists. split; [reflexivity |]. split.
  - rewrite length_zip_with. lia.
  - intros p. rewrite lookup_zip_with.
    destruct (img !! p) as [px |] eqn:Ei; simpl.
    + destruct (lookup_lt_is_Some_2 m p) as [v Hv].
      { rewrite Hlen. eapply lookup_lt_Some. exact Ei. }
      rewrite Hv. simpl. destruct (v =? 255) eqn:Ev.
      * apply Z.eqb_eq in Ev. subst v. rewrite decide_True by reflexivity. reflexivity.
      * apply Z.eqb_neq in Ev. rewrite decide_False by congruence. reflexivity.
    + rewrite decide_False; [reflexivity |].
      intros Hm. apply lookup_lt_Some in Hm. apply lookup_ge_None in Ei. lia.
Qed.

Lemma bitwise_or_spec (a b : list Z) :
  length a = length b -> Forall binary_value a -> Forall binary_value b ->
  exists r, bitwise_or a b = Some r /\ length r = length a /\ Forall binary_value r /\
    forall p, r !! p = Some 255 <-> a !! p = Some 255 \/ b !! p = Some 255.
Proof.
  intros Hlen Ha Hb. unfold bitwise_or. rewrite Hlen, Nat.eqb_refl.
  eexists. split; [reflexivity |]. split; [rewrite length_zip_with; lia |]. split.
  - apply Forall_lookup. intros p v Hv. rewrite lookup_zip_with in Hv.
    destruct (a !! p) as [x |] eqn:Ea; simpl in Hv; [| discriminate].
    destruct (b !! p) as [y |] eqn:Eb; simpl in Hv; [| discriminate].
    injection Hv as <-.
    rewrite Forall_lookup in Ha, Hb.
    destruct (Ha p x Ea) as [-> | ->], (Hb p y Eb) as [-> | ->]; [left | right | right | right]; reflexivity.
  - intros p. rewrite lookup_zip_with.
    destruct (a !! p) as [x |] eqn:Ea; simpl.
    + destruct (b !! p) as [y |] eqn:Eb; simpl.
      * rewrite Forall_lookup in Ha, Hb.
        destruct (Ha p x Ea) as [-> | ->], (Hb p y Eb) as [-> | ->]; simpl;
          split; intros H; try (destruct H as [H | H]); try discriminate; auto.
      * apply lookup_lt_Some in Ea. apply lookup_ge_None in Eb. lia.
    + split; [discriminate |]. intros [H | H]; [discriminate |].
      apply lookup_lt_Some in H. apply lookup_ge_None in Ea. lia.
Qed.

(** *** The loops of merge_segments *)

Lemma merge_masks_spec (n : nat) (masks : list (list Z)) (keep_idx : Z) (c : bgr) :
  Forall (fun m => length m = n) masks ->
  Forall (Forall binary_value) masks ->
  forall (indices : list Z) (img : list bgr) (merged : list Z),
    length img = n -> length merged = n -> Forall binary_value merged ->
    Forall (fun i => 0 <= i < Z.of_nat (length masks)) indices ->
    exists img' merged',
      merge_masks indices keep_idx c masks img merged = Some (img', merged') /\
      length img' = n /\ length merged' = n /\ Forall binary_value merged' /\
      (forall p, merged' !! p = Some 255 <->
         merged !! p = Some 255 \/
         exists idx m, idx ∈ indices /\ masks !! Z.to_nat idx = Some m /\ m !! p = Some 255) /\
      (forall p, (p < n)%nat ->
         img !! p = Some c \/
         (exists idx m, idx ∈ indices /\ idx <> keep_idx /\
                        masks !! Z.to_nat idx = Some m /\ m !! p = Some 255) ->
         img' !! p = Some c) /\
      (forall p,
         (forall idx m, idx ∈ indices -> idx <> keep_idx ->
                        masks !! Z.to_nat idx = Some m -> m !! p <> Some 255) ->
         img' !! p = img !! p).
Proof.
  intros Hshape Hbin. induction indices as [| idx rest IH]; intros img merged Hi Hm Hb Hr.
  - exists img, merged. simpl. split; [reflexivity |]. repeat split; try assumption.
    + intros H; left; exact H.
    + intros [H | (idx & m & Hin & _)]; [exact H | inversion Hin].
    + intros p Hp [H | (idx & m & Hin & _)]; [exact H | inversion Hin].
  - apply Forall_cons in Hr. destruct Hr as [Hidx Hr].
    cbn [merge_masks]. rewrite (py_index_in_range masks idx Hidx).
    destruct (lookup_lt_is_Some_2 masks (Z.to_nat idx)) as [m Hmk]; [lia |].
    rewrite Hmk.
    assert (Hlm : length m = n) by (rewrite Forall_lookup in Hshape; exact (Hshape _ _ Hmk)).
    assert (Hbm : Forall binary_value m) by (rewrite Forall_lookup in Hbin; exact (Hbin _ _ Hmk)).
    destruct (bitwise_or_spec merged m) as (merged1 & -> & Hl1 & Hb1 & Hon1); [lia | exact Hb | exact Hbm |].
    destruct (idx =? keep_idx) eqn:Ek.
    + apply Z.eqb_eq in Ek.
      destruct (IH img merged1) as (img' & merged' & -> & Hli & Hlm' & Hb' & Hon & Hc & Hu);
        [exact Hi | lia | exact Hb1 | exact Hr |].
      exists img', merged'. split; [reflexivity |]. repeat split; try assumption.
      * intros H. apply Hon in H. destruct H as [H | (i2 & m2 & Hin & Hm2 & Ho)].
        -- apply Hon1 in H. destruct H as [H | H]; [left; exact H |].
           right. exists idx, m. split; [apply list_elem_of_here |]. split; assumption.
        -- right. exists i2, m2. split; [apply list_elem_of_further; exact Hin |]. split; assumption.
      * intros [H | (i2 & m2 & Hin & Hm2 & Ho)]; apply Hon.
        -- left. apply Hon1. left. exact H.
        -- apply elem_of_cons in Hin. destruct Hin as [-> | Hin].
           ++ left. apply Hon1. right. congruence.
           ++ right. exists i2, m2. repeat split; assumption.
      * intros p Hp [H | (i2 & m2 & Hin & Hne & Hm2 & Ho)]; apply Hc; try exact Hp.
        -- left. exact H.
        -- apply elem_of_cons in Hin. destruct Hin as [-> | Hin]; [congruence |].
           right. exists i2, m2. repeat split; assumption.
      * intros p H. apply Hu. intros i2 m2 Hin. apply H. apply list_elem_of_further. exact Hin.
    + apply Z.eqb_neq in Ek.
      destruct (paint_spec img m c) as (img1 & -> & Hli1 & Hp1); [lia |].
      destruct (IH img1 merged1) as (img' & merged' & -> & Hli & Hlm' & Hb' & Hon & Hc & Hu);
        [lia | lia | exact Hb1 | exact Hr |].
      exists img', merged'. split; [reflexivity |]. repeat split; try assumption.
      * intros H. apply Hon in H. destruct H as [H | (i2 & m2 & Hin & Hm2 & Ho)].
        -- apply Hon1 in H. destruct H as [H | H]; [left; exact H |].
           right. exists idx, m. split; [apply list_elem_of_here |]. split; assumption.
        -- right. exists i2, m2. split; [apply list_elem_of_further; exact Hin |]. split; assumption.
      * intros [H | (i2 & m2 & Hin & Hm2 & Ho)]; apply Hon.
        -- left. apply Hon1. left. exact H.
        -- apply elem_of_cons in Hin. destruct Hin as [-> | Hin].
           ++ left. apply Hon1. right. congruence.
           ++ right. exists i2, m2. repeat split; assumption.
      * intros p Hp H. apply Hc; [exact Hp |].
        destruct H as [H | (i2 & m2 & Hin & Hne & Hm2 & Ho)].
        -- left. rewrite Hp1. destruct (decide (m !! p = Some 255)); [reflexivity | exact H].
        -- apply elem_of_cons in Hin. destruct Hin as [-> | Hin].
           ++ left. rewrite Hp1. rewrite decide_True; [reflexivity | congruence].
           ++ right. exists i2, m2. repeat split; assumption.
      * intros p H. rewrite Hu.
        -- rewrite Hp1. rewrite decide_False; [reflexivity |].
           apply (H idx m); [apply list_elem_of_here | exact Ek | exact Hmk].
        -- intros i2 m2 Hin. apply H. apply list_elem_of_further. exact Hin.
Qed.

Lemma owners_cons (p : nat) (m : list Z) (l : list (list Z)) :
  owners p (m :: l) = ((if decide (m !! p = Some 255%Z) then 1 else 0) + owners p l)%nat.
Proof.
  unfold owners. rewrite filter_cons. destruct (decide (m !! p = Some 255)); reflexivity.
Qed.

Lemma owners_pos (p : nat) (l : list (list Z)) :
  (1 <= owners p l)%nat <-> exists m, m ∈ l /\ m !! p = Some 255.
Proof.
  induction l as [| m l IH].
  - split; [unfold owners; simpl; lia | intros (m & Hin & _); inversion Hin].
  - rewrite owners_cons. destruct (decide (m !! p = Some 255)) as [Ho | Ho].
    + split; [| lia]. intros _. exists m. split; [apply list_elem_of_here | exact Ho].
    + simpl. rewrite IH. split.
      * intros (m2 & Hin & H2). exists m2. split; [apply list_elem_of_further; exact Hin | exact H2].
      * intros (m2 & Hin & H2). apply elem_of_cons in Hin. destruct Hin as [-> | Hin]; [contradiction |].
        exists m2. split; assumption.
Qed.

Lemma owners_unique (p : nat) (l : list (list Z)) (i j : nat) (a b : list Z) :
  owners p l = 1%nat ->
  l !! i = Some a -> a !! p = Some 255 ->
  l !! j = Some b -> b !! p = Some 255 ->
  i = j.
Proof.
  revert i j. induction l as [| m l IH]; intros i j H1 Hi Ha Hj Hb; [discriminate |].
  rewrite owners_cons in H1.
  destruct i as [| i], j as [| j]; simpl in Hi, Hj.
  - reflexivity.
  - injection Hi as ->. rewrite decide_True in H1 by exact Ha.
    assert (1 <= owners p l)%nat; [| lia].
    apply owners_pos. exists b. split; [eapply list_elem_of_lookup_2; exact Hj | exact Hb].
  - injection Hj as ->. rewrite decide_True in H1 by exact Hb.
    assert (1 <= owners p l)%nat; [| lia].
    apply owners_pos. exists a. split; [eapply list_elem_of_lookup_2; exact Hi | exact Ha].
  - f_equal. apply IH; try assumption.
    destruct (decide (m !! p = Some 255)); [| exact H1].
    assert (1 <= owners p l)%nat; [| lia].
    apply owners_pos. exists a. split; [eapply list_elem_of_lookup_2; exact Hi | exact Ha].
Qed.

Lemma elem_of_listed (i : nat) (indices : list Z) (masks : list (list Z)) (m : list Z) :
  m ∈ listed i indices masks <->
  exists j, masks !! j = Some m /\ Z.of_nat (i + j) ∈ indices.
Proof.
  revert i. induction masks as [| a masks IH]; intros i; simpl.
  - split; [intros H; inversion H | intros (j & Hj & _); discriminate].
  - destruct (existsb (Z.eqb (Z.of_nat i)) indices) eqn:E.
    + rewrite elem_of_cons, IH. split.
      * intros [-> | (j & Hj & Hin)].
        -- exists 0%nat. split; [reflexivity |]. apply existsb_eqb_elem.
           rewrite Nat.add_0_r. exact E.
        -- exists (S j). split; [exact Hj |]. replace (i + S j)%nat with (S i + j)%nat by lia. exact Hin.
      * intros ([| j] & Hj & Hin); simpl in Hj.
        -- left. congruence.
        -- right. exists j. split; [exact Hj |].
           replace (S i + j)%nat with (i + S j)%nat by lia. exact Hin.
    + rewrite IH. split.
      * intros (j & Hj & Hin). exists (S j). split; [exact Hj |].
        replace (i + S j)%nat with (S i + j)%nat by lia. exact Hin.
      * intros ([| j] & Hj & Hin); simpl in Hj.
        -- apply existsb_eqb_elem in Hin. rewrite Nat.add_0_r in Hin. congruence.
        -- exists j. split; [exact Hj |].
           replace (S i + j)%nat with (i + S j)%nat by lia. exact Hin.
Qed.

Lemma owners_listed_le (p i : nat) (indices : list Z) (masks : list (list Z)) :
  (owners p (listed i indices masks) <= owners p masks)%nat.
Proof.
  revert i. induction masks as [| a masks IH]; intros i; simpl; [lia |].
  destruct (existsb (Z.eqb (Z.of_nat i)) indices).
  - rewrite !owners_cons. specialize (IH (S i)). lia.
  - rewrite owners_cons. specialize (IH (S i)). lia.
Qed.

(** What [rebuild] writes and what it leaves out add up to what it reads,
    plus the merged mask when the kept position is among those read. *)
Lemma rebuild_owners (p : nat) (indices : list Z) (keep_idx : Z) (merged : list Z) :
  keep_idx ∈ indices ->
  forall (pairs : list (list Z * string)) (i : nat),
    (owners p (map fst (rebuild i indices keep_idx merged pairs))
     + owners p (listed i indices (map fst pairs))
     = owners p (map fst pairs)
       + (if decide (Z.of_nat i <= keep_idx < Z.of_nat (i + length pairs))%Z
          then owners p [merged] else 0))%nat.
Proof.
  intros Hk. induction pairs as [| [m c] pairs IH]; intros i.
  - simpl. rewrite decide_False by lia. reflexivity.
  - cbn [rebuild map fst listed length]. specialize (IH (S i)).
    remember (owners p [merged]) as om eqn:Eom.
    destruct (existsb (Z.eqb (Z.of_nat i)) indices) eqn:E.
    + destruct (Z.of_nat i =? keep_idx) eqn:Ek; cbn [andb negb].
      * apply Z.eqb_eq in Ek. cbn [map fst].
        rewrite decide_False in IH by lia. rewrite decide_True by lia.
        rewrite !owners_cons. rewrite Eom, owners_cons. change (owners p []) with 0%nat. lia.
      * apply Z.eqb_neq in Ek.
        destruct (decide (Z.of_nat (S i) <= keep_idx < Z.of_nat (S i + length pairs))%Z);
          [rewrite decide_True by lia | rewrite decide_False by lia];
          rewrite !owners_cons; lia.
    + cbn [andb]. destruct (Z.of_nat i =? keep_idx) eqn:Ek.
      * apply Z.eqb_eq in Ek. apply existsb_eqb_elem in Hk. rewrite <- Ek in Hk. congruence.
      * apply Z.eqb_neq in Ek. cbn [map fst].
        destruct (decide (Z.of_nat (S i) <= keep_idx < Z.of_nat (S i + length pairs))%Z);
          [rewrite decide_True by lia | rewrite decide_False by lia];
          rewrite !owners_cons; lia.
Qed.

Lemma rebuild_length (indices : list Z) (keep_idx : Z) (merged : list Z) :
  keep_idx ∈ indices ->
  forall (pairs : list (list Z * string)) (i : nat),
    (length (rebuild i indices keep_idx merged pairs)
     + length (listed i indices (map fst pairs))
     = length pairs
       + (if decide (Z.of_nat i <= keep_idx < Z.of_nat (i + length pairs))%Z then 1 else 0))%nat.
Proof.
  intros Hk. induction pairs as [| [m c] pairs IH]; intros i.
  - simpl. rewrite decide_False by lia. reflexivity.
  - cbn [rebuild map fst listed length]. specialize (IH (S i)).
    destruct (existsb (Z.eqb (Z.of_nat i)) indices) eqn:E.
    + destruct (Z.of_nat i =? keep_idx) eqn:Ek; cbn [andb negb length].
      * apply Z.eqb_eq in Ek.
        rewrite decide_False in IH by lia. rewrite decide_True by lia. lia.
      * apply Z.eqb_neq in Ek.
        destruct (decide (Z.of_nat (S i) <= keep_idx < Z.of_nat (S i + length pairs))%Z);
          [rewrite decide_True by lia | rewrite decide_False by lia]; lia.
    + cbn [andb]. destruct (Z.of_nat i =? keep_idx) eqn:Ek.
      * apply Z.eqb_eq in Ek. apply existsb_eqb_elem in Hk. rewrite <- Ek in Hk. congruence.
      * apply Z.eqb_neq in Ek. cbn [length].
        destruct (decide (Z.of_nat (S i) <= keep_idx < Z.of_nat (S i + length pairs))%Z);
          [rewrite decide_True by lia | rewrite decide_False by lia]; lia.
Qed.

(** Every row that [rebuild] writes is a row it read at a position that
    is not listed, or the merged mask with the color of the kept row. *)
Lemma rebuild_rows (indices : list Z) (keep_idx : Z) (merged : list Z)
    (pairs : list (list Z * string)) (i : nat) (m : list Z) (c : string) :
  (m, c) ∈ rebuild i indices keep_idx merged pairs ->
  exists j mj, pairs !! j = Some (mj, c) /\
    ((Z.of_nat (i + j) = keep_idx /\ m = merged) \/
     (~ Z.of_nat (i + j) ∈ indices /\ m = mj)).
Proof.
  revert i. induction pairs as [| [a d] pairs IH]; intros i Hin; [inversion Hin |].
  cbn [rebuild] in Hin.
  assert (Hrest : (m, c) ∈ rebuild (S i) indices keep_idx merged pairs ->
    exists j mj, ((a, d) :: pairs) !! j = Some (mj, c) /\
      ((Z.of_nat (i + j) = keep_idx /\ m = merged) \/
       (~ Z.of_nat (i + j) ∈ indices /\ m = mj))).
  { intros H. destruct (IH (S i) H) as (j & mj & Hj & Hc).
    exists (S j), mj. split; [exact Hj |].
    replace (i + S j)%nat with (S i + j)%nat by lia. exact Hc. }
  destruct (existsb (Z.eqb (Z.of_nat i)) indices) eqn:E;
    destruct (Z.of_nat i =? keep_idx) eqn:Ek; cbn [andb negb] in Hin.
  - apply elem_of_cons in Hin. destruct Hin as [Heq | Hin]; [| exact (Hrest Hin)].
    injection Heq as -> ->. apply Z.eqb_eq in Ek.
    exists 0%nat, a. split; [reflexivity |]. left. rewrite Nat.add_0_r. split; [exact Ek | reflexivity].
  - exact (Hrest Hin).
  - apply elem_of_cons in Hin. destruct Hin as [Heq | Hin]; [| exact (Hrest Hin)].
    injection Heq as -> ->. apply Z.eqb_eq in Ek.
    exists 0%nat, a. split; [reflexivity |]. left. rewrite Nat.add_0_r. split; [exact Ek | reflexivity].
  - apply elem_of_cons in Hin. destruct Hin as [Heq | Hin]; [| exact (Hrest Hin)].
    injection Heq as -> ->.
    exists 0%nat, a. split; [reflexivity |]. right. rewrite Nat.add_0_r. split; [| reflexivity].
    intros H. apply existsb_eqb_elem in H. congruence.
Qed.

Lemma listed_ext (indices indices' : list Z) (masks : list (list Z)) (i : nat) :
  (forall j, (i <= j)%nat ->
     existsb (Z.eqb (Z.of_nat j)) indices = existsb (Z.eqb (Z.of_nat j)) indices') ->
  listed i indices masks = listed i indices' masks.
Proof.
  revert i. induction masks as [| m masks IH]; intros i H; simpl; [reflexivity |].
  rewrite (H i) by lia. rewrite (IH (S i)); [reflexivity |].
  intros j Hj. apply H. lia.
Qed.

Lemma listed_length_sorted (masks : list (list Z)) :
  forall (i : nat) (indices : list Z),
    StronglySorted Z.lt indices ->
    Forall (fun x => Z.of_nat i <= x < Z.of_nat (i + length masks)) indices ->
    length (listed i indices masks) = length indices.
Proof.
  induction masks as [| m masks IH]; intros i indices Hs Hr.
  - destruct indices as [| x indices]; [reflexivity |].
    apply Forall_cons in Hr. destruct Hr as [Hx _]. simpl in Hx. lia.
  - destruct indices as [| x indices].
    + simpl. apply (IH (S i) []); constructor.
    + inversion Hs as [| ? ? Hs' Hall]; subst.
      apply Forall_cons in Hr. destruct Hr as [Hx Hr]. cbn [length] in Hx, Hr.
      assert (Hrest : Forall (fun y => Z.of_nat (S i) <= y < Z.of_nat (S i + length masks)) indices).
      { apply Forall_forall. intros y Hy.
        rewrite Forall_forall in Hall, Hr.
        assert (Hxy : x < y) by (apply Hall; exact Hy).
        specialize (Hr y Hy). lia. }
      cbn [listed existsb]. destruct (Z.of_nat i =? x) eqn:E; cbn [orb].
      * cbn [length]. f_equal.
        rewrite (listed_ext (x :: indices) indices).
        -- apply IH; assumption.
        -- intros j Hj. cbn [existsb]. apply Z.eqb_eq in E.
           destruct (Z.of_nat j =? x) eqn:E2; [apply Z.eqb_eq in E2; lia | reflexivity].
      * apply Z.eqb_neq in E.
        destruct (existsb (Z.eqb (Z.of_nat i)) indices) eqn:E2.
        -- apply existsb_eqb_elem in E2. rewrite Forall_forall in Hrest.
           specialize (Hrest _ E2). lia.
        -- apply (IH (S i) (x :: indices)); [exact Hs |].
           apply Forall_cons. split; [lia | exact Hrest].
Qed.

Lemma map_lookup_Some {A B} (f : A -> B) (l : list A) (i : nat) (y : B) :
  map f l !! i = Some y -> exists x, l !! i = Some x /\ f x = y.
Proof.
  revert i. induction l as [| a l IH]; intros [| i] H; simpl in H; try discriminate.
  - injection H as <-. exists a. split; reflexivity.
  - exact (IH i H).
Qed.

Lemma map_fst_zip {A B} (l : list A) (k : list B) :
  length l = length k -> map fst (zip l k) = l.
Proof.
  revert k. induction l as [| a l IH]; intros [| b k] H; simpl in *; try discriminate; [reflexivity |].
  f_equal. apply IH. lia.
Qed.

Lemma zip_lookup_Some {A B} (l : list A) (k : list B) (i : nat) (a : A) (b : B) :
  zip l k !! i = Some (a, b) -> l !! i = Some a /\ k !! i = Some b.
Proof.
  intros H. apply lookup_zip_with_Some in H. destruct H as (x & y & Heq & Hx & Hy).
  injection Heq as -> ->. split; assumption.
Qed.

Lemma zeros_like_off (m : list Z) (p : nat) : zeros_like m !! p <> Some 255.
Proof.
  unfold zeros_like. intros H. apply map_lookup_Some in H. destruct H as (x & _ & H). discriminate.
Qed.

Lemma zeros_like_binary (m : list Z) : Forall binary_value (zeros_like m).
Proof.
  unfold zeros_like. induction m as [| a m IH]; simpl; [apply Forall_nil_2 |].
  apply Forall_cons_2; [left; reflexivity | exact IH].
Qed.

(** The run of [merge_segments] on a segmentation that fits together. *)
Lemma merge_segments_run (quantized_img : list bgr) (masks : list (list Z))
    (palette : list string) (indices_to_merge : list Z) :
  fits quantized_img masks palette ->
  (2 <= length indices_to_merge)%nat ->
  Forall (fun i => 0 <= i < Z.of_nat (length masks)) indices_to_merge ->
  exists keep_idx rest keep_color keep_bgr new_img merged,
    sorted_set indices_to_merge = keep_idx :: rest /\
    0 <= keep_idx < Z.of_nat (length masks) /\
    Forall (fun i => 0 <= i < Z.of_nat (length masks)) (keep_idx :: rest) /\
    palette !! Z.to_nat keep_idx = Some keep_color /\
    _hex_to_bgr keep_color = Some keep_bgr /\
    merge_segments quantized_img masks palette indices_to_merge
    = Some (new_img,
            map fst (rebuild 0 (keep_idx :: rest) keep_idx merged (zip masks palette)),
            map snd (rebuild 0 (keep_idx :: rest) keep_idx merged (zip masks palette))) /\
    length new_img = length quantized_img /\
    length merged = length quantized_img /\
    Forall binary_value merged /\
    (forall p, merged !! p = Some 255 <->
       exists idx m, idx ∈ keep_idx :: rest /\ masks !! Z.to_nat idx = Some m /\
                     m !! p = Some 255) /\
    (forall p, (p < length quantized_img)%nat ->
       quantized_img !! p = Some keep_bgr \/
       (exists idx m, idx ∈ keep_idx :: rest /\ idx <> keep_idx /\
                      masks !! Z.to_nat idx = Some m /\ m !! p = Some 255) ->
       new_img !! p = Some keep_bgr) /\
    (forall p,
       (forall idx m, idx ∈ keep_idx :: rest -> idx <> keep_idx ->
                      masks !! Z.to_nat idx = Some m -> m !! p <> Some 255) ->
       new_img !! p = quantized_img !! p).
Proof.
  intros [Hlen Hshape Hbin Hown Hvalid Hcolor] H2 Hrange.
  unfold merge_segments.
  destruct (length indices_to_merge <? 2)%nat eqn:E2; [apply Nat.ltb_lt in E2; lia |].
  clear E2. cbv zeta.
  assert (HrangeS : Forall (fun i => 0 <= i < Z.of_nat (length masks)) (sorted_set indices_to_merge)).
  { apply Forall_forall. intros x Hx. apply (proj1 (elem_of_sorted_set _ _)) in Hx.
    rewrite Forall_forall in Hrange. apply Hrange. exact Hx. }
  remember (sorted_set indices_to_merge) as indices eqn:EI in *.
  destruct indices as [| keep_idx rest].
  { exfalso. destruct indices_to_merge as [| a l]; [simpl in H2; lia |].
    assert (Ha : a ∈ sorted_set (a :: l)) by (apply elem_of_sorted_set, list_elem_of_here).
    rewrite <- EI in Ha. inversion Ha. }
  assert (Hk : keep_idx ∈ keep_idx :: rest) by apply list_elem_of_here.
  assert (Hkr : 0 <= keep_idx < Z.of_nat (length masks)).
  { apply Forall_cons in HrangeS. tauto. }
  rewrite (py_index_in_range palette keep_idx) by lia.
  destruct (lookup_lt_is_Some_2 palette (Z.to_nat keep_idx)) as [keep_color Hkc]; [lia |].
  rewrite Hkc.
  assert (Hkv : is_Some (_hex_to_bgr keep_color)).
  { rewrite Forall_lookup in Hvalid. exact (Hvalid _ _ Hkc). }
  destruct Hkv as [keep_bgr Hkb]. rewrite Hkb.
  rewrite (py_index_in_range masks keep_idx) by lia.
  destruct (lookup_lt_is_Some_2 masks (Z.to_nat keep_idx)) as [keep_mask Hkm]; [lia |].
  rewrite Hkm.
  assert (Hlk : length keep_mask = length quantized_img).
  { rewrite Forall_lookup in Hshape. exact (Hshape _ _ Hkm). }
  destruct (merge_masks_spec (length quantized_img) masks keep_idx keep_bgr Hshape Hbin
              (keep_idx :: rest) quantized_img (zeros_like keep_mask))
    as (new_img & merged & -> & Hli & Hlm & Hbm & Hon & Hpaint & Hkeep);
    [reflexivity | unfold zeros_like; rewrite length_map; exact Hlk
     | apply zeros_like_binary | exact HrangeS |].
  exists keep_idx, rest, keep_color, keep_bgr, new_img, merged.
  split; [reflexivity |]. split; [exact Hkr |]. split; [exact HrangeS |].
  split; [exact Hkc |]. split; [exact Hkb |]. split; [reflexivity |].
  split; [exact Hli |]. split; [exact Hlm |]. split; [exact Hbm |].
  split; [| split; [exact Hpaint | exact Hkeep]].
  intros p. rewrite Hon. split.
  - intros [H | H]; [exfalso; exact (zeros_like_off _ _ H) | exact H].
  - intros H. right. exact H.
Qed.

(** X19.  Merging two or more segments of a segmentation that fits
    together succeeds and gives one that fits together again: every pixel
    is still held by exactly one mask, and it has the color of that mask's
    palette entry.  The number of segments drops by the number of distinct
    listed indices less one. *)
Theorem merge_segments_keeps_fit (quantized_img : list bgr) (masks : list (list Z))
    (palette : list string) (indices_to_merge : list Z) :
  fits quantized_img masks palette ->
  (2 <= length indices_to_merge)%nat ->
  Forall (fun i => 0 <= i < Z.of_nat (length masks)) indices_to_merge ->
  exists new_img new_masks new_palette,
    merge_segments quantized_img masks palette indices_to_merge
    = Some (new_img, new_masks, new_palette) /\
    fits new_img new_masks new_palette /\
    (length new_masks + length (sorted_set indices_to_merge) = length masks + 1)%nat.
Proof.
  intros Hfits H2 Hrange.
  destruct (merge_segments_run _ _ _ _ Hfits H2 Hrange)
    as (keep_idx & rest & keep_color & keep_bgr & new_img & merged & EI & Hkr & HrangeS
        & Hkc & Hkb & -> & Hli & Hlm & Hbm & Hon & Hpaint & Hkeep).
  destruct Hfits as [Hlen Hshape Hbin Hown Hvalid Hcolor].
  assert (Hsorted := sorted_set_sorted indices_to_merge). rewrite EI in *.
  assert (Hk : keep_idx ∈ keep_idx :: rest) by apply list_elem_of_here.
  set (rows := rebuild 0 (keep_idx :: rest) keep_idx merged (zip masks palette)).
  exists new_img, (map fst rows), (map snd rows). split; [reflexivity |].
  assert (Hrow : forall q m c, rows !! q = Some (m, c) ->
            exists j mj, masks !! j = Some mj /\ palette !! j = Some c /\
              ((Z.of_nat j = keep_idx /\ m = merged) \/
               (~ Z.of_nat j ∈ keep_idx :: rest /\ m = mj))).
  { intros q m c Hq.
    destruct (rebuild_rows (keep_idx :: rest) keep_idx merged (zip masks palette) 0 m c)
      as (j & mj & Hj & Hcase); [eapply list_elem_of_lookup_2; exact Hq |].
    apply zip_lookup_Some in Hj. destruct Hj as [Hj1 Hj2].
    exists j, mj. split; [exact Hj1 |]. split; [exact Hj2 |]. exact Hcase. }
  assert (Hmerged_on : forall p, merged !! p = Some 255 <->
            exists m, m ∈ listed 0 (keep_idx :: rest) masks /\ m !! p = Some 255).
  { intros p. rewrite Hon. split.
    - intros (idx & m & Hin & Hm & Ho).
      exists m. split; [| exact Ho]. apply elem_of_listed.
      exists (Z.to_nat idx). split; [exact Hm |].
      rewrite Forall_forall in HrangeS. pose proof (HrangeS idx Hin) as Hidx.
      replace (Z.of_nat (0 + Z.to_nat idx)) with idx by lia. exact Hin.
    - intros (m & Hin & Ho). apply (proj1 (elem_of_listed _ _ _ _)) in Hin.
      destruct Hin as (j & Hj & Hin). exists (Z.of_nat j), m.
      split; [exact Hin |]. split; [| exact Ho].
      rewrite Nat2Z.id. exact Hj. }
  split.
  - split.
    + rewrite !length_map. reflexivity.
    + apply Forall_lookup. intros q m Hq.
      apply map_lookup_Some in Hq. destruct Hq as ([m' c] & Hq & <-). simpl.
      destruct (Hrow q m' c Hq) as (j & mj & Hj & _ & [[_ ->] | [_ ->]]).
      * rewrite Hli. exact Hlm.
      * rewrite Hli. rewrite Forall_lookup in Hshape. exact (Hshape _ _ Hj).
    + apply Forall_lookup. intros q m Hq.
      apply map_lookup_Some in Hq. destruct Hq as ([m' c] & Hq & <-). simpl.
      destruct (Hrow q m' c Hq) as (j & mj & Hj & _ & [[_ ->] | [_ ->]]).
      * exact Hbm.
      * rewrite Forall_lookup in Hbin. exact (Hbin _ _ Hj).
    + intros p Hp. rewrite Hli in Hp.
      pose proof (rebuild_owners p (keep_idx :: rest) keep_idx merged Hk (zip masks palette) 0) as Ho.
      fold rows in Ho. rewrite (map_fst_zip masks palette Hlen) in Ho.
      rewrite (Hown p Hp) in Ho.
      rewrite decide_True in Ho by (rewrite length_zip_with; lia).
      rewrite owners_cons in Ho. change (owners p []) with 0%nat in Ho.
      pose proof (owners_listed_le p 0 (keep_idx :: rest) masks) as Hle.
      rewrite (Hown p Hp) in Hle.
      destruct (decide (merged !! p = Some 255)) as [Hm | Hm].
      * assert (1 <= owners p (listed 0 (keep_idx :: rest) masks))%nat; [| lia].
        apply owners_pos. apply Hmerged_on. exact Hm.
      * destruct (owners p (listed 0 (keep_idx :: rest) masks)) as [| [| k]] eqn:El; [lia | | lia].
        exfalso. apply Hm. apply Hmerged_on. apply owners_pos. lia.
    + apply Forall_lookup. intros q c Hq.
      apply map_lookup_Some in Hq. destruct Hq as ([m' c'] & Hq & <-). simpl.
      destruct (Hrow q m' c' Hq) as (j & mj & _ & Hj & _).
      rewrite Forall_lookup in Hvalid. exact (Hvalid _ _ Hj).
    + intros q m c p Hqm Hqc Hp.
      apply map_lookup_Some in Hqm. destruct Hqm as ([m1 c1] & Hq1 & Hm1).
      apply map_lookup_Some in Hqc. destruct Hqc as ([m2 c2] & Hq2 & Hc2).
      rewrite Hq1 in Hq2. injection Hq2 as <- <-. simpl in Hm1, Hc2. subst m1 c1.
      destruct (Hrow q m c Hq1) as (j & mj & Hj & Hjc & [[Hjk ->] | [Hnl ->]]).
      * assert (Hpn : (p < length quantized_img)%nat).
        { rewrite <- Hlm. eapply lookup_lt_Some. exact Hp. }
        assert (c = keep_color) as ->.
        { subst keep_idx. rewrite Nat2Z.id in Hkc. congruence. }
        exists keep_bgr. split; [exact Hkb |].
        apply Hpaint; [exact Hpn |].
        apply (proj1 (Hon _)) in Hp. destruct Hp as (idx & m & Hin & Hm & Ho).
        destruct (Z.eq_dec idx keep_idx) as [-> | Hne].
        -- left. destruct (Hcolor _ _ _ p Hm Hkc Ho) as (px & Hpx & Hi). congruence.
        -- right. exists idx, m. repeat split; assumption.
      * destruct (Hcolor _ _ _ p Hj Hjc Hp) as (px & Hpx & Hi).
        exists px. split; [exact Hpx |]. rewrite Hkeep; [exact Hi |].
        intros idx m Hin Hne Hm Ho. apply Hnl.
        assert (Hpn : (p < length quantized_img)%nat) by (eapply lookup_lt_Some; exact Hi).
        rewrite (owners_unique p masks j (Z.to_nat idx) mj m (Hown p Hpn) Hj Hp Hm Ho).
        rewrite Forall_forall in HrangeS. pose proof (HrangeS idx Hin) as Hidx.
        rewrite Z2Nat.id by lia. exact Hin.
  - rewrite length_map.
    pose proof (rebuild_length (keep_idx :: rest) keep_idx merged Hk (zip masks palette) 0) as Hl.
    fold rows in Hl. rewrite (map_fst_zip masks palette Hlen) in Hl.
    rewrite decide_True in Hl by (rewrite length_zip_with; lia).
    rewrite length_zip_with in Hl.
    rewrite (listed_length_sorted masks 0 (keep_idx :: rest) Hsorted) in Hl.
    + rewrite <- Hlen in Hl. lia.
    + eapply Forall_impl; [exact HrangeS |]. simpl. intros x Hx. lia.
Qed.

(** X20.  The merged segment takes the color of the smallest listed
    index, wherever that index stands in the list: every pixel of every
    listed mask is painted with it, and the pixels of the other masks keep
    their color. *)
Theorem merge_segments_takes_color_of_smallest_index (quantized_img : list bgr)
    (masks : list (list Z)) (palette : list string) (indices_to_merge : list Z) :
  fits quantized_img masks palette ->
  (2 <= length indices_to_merge)%nat ->
  Forall (fun i => 0 <= i < Z.of_nat (length masks)) indices_to_merge ->
  exists new_img new_masks new_palette keep_idx keep_color keep_bgr,
    merge_segments quantized_img masks palette indices_to_merge
    = Some (new_img, new_masks, new_palette) /\
    keep_idx ∈ indices_to_merge /\
    (forall i, i ∈ indices_to_merge -> keep_idx <= i) /\
    palette !! Z.to_nat keep_idx = Some keep_color /\
    _hex_to_bgr keep_color = Some keep_bgr /\
    (forall idx m p, idx ∈ indices_to_merge -> masks !! Z.to_nat idx = Some m ->
       m !! p = Some 255 -> new_img !! p = Some keep_bgr) /\
    (forall p,
       (forall idx m, idx ∈ indices_to_merge -> masks !! Z.to_nat idx = Some m ->
                      m !! p <> Some 255) ->
       new_img !! p = quantized_img !! p).
Proof.
  intros Hfits H2 Hrange.
  destruct (merge_segments_run _ _ _ _ Hfits H2 Hrange)
    as (keep_idx & rest & keep_color & keep_bgr & new_img & merged & EI & Hkr & HrangeS
        & Hkc & Hkb & Hrun & Hli & Hlm & Hbm & Hon & Hpaint & Hkeep).
  destruct Hfits as [Hlen Hshape Hbin Hown Hvalid Hcolor].
  assert (Hsorted := sorted_set_sorted indices_to_merge). rewrite EI in Hsorted.
  assert (Hmem : forall i, i ∈ indices_to_merge <-> i ∈ keep_idx :: rest).
  { intros i. rewrite <- EI. symmetry. apply elem_of_sorted_set. }
  eexists new_img, _, _, keep_idx, keep_color, keep_bgr.
  split; [exact Hrun |]. split; [apply Hmem, list_elem_of_here |].
  split; [| split; [exact Hkc | split; [exact Hkb | split]]].
  - intros i Hi. apply (proj1 (Hmem i)) in Hi. apply elem_of_cons in Hi.
    destruct Hi as [-> | Hi]; [lia |].
    inversion Hsorted as [| ? ? _ Hall]; subst. rewrite Forall_forall in Hall.
    specialize (Hall i Hi). lia.
  - intros idx m p Hin Hm Ho. apply (proj1 (Hmem idx)) in Hin.
    assert (Hpn : (p < length quantized_img)%nat).
    { rewrite Forall_lookup in Hshape. rewrite <- (Hshape _ _ Hm).
      eapply lookup_lt_Some. exact Ho. }
    apply Hpaint; [exact Hpn |].
    destruct (Z.eq_dec idx keep_idx) as [-> | Hne].
    + left. destruct (Hcolor _ _ _ p Hm Hkc Ho) as (px & Hpx & Hi). congruence.
    + right. exists idx, m. repeat split; assumption.
  - intros p H. apply Hkeep. intros idx m Hin _. apply H. apply Hmem. exact Hin.
Qed.

(** *** recolor_segment *)

Lemma lower_char_hash (a : ascii) : Ascii.eqb (lower_char a) "#" = Ascii.eqb a "#".
Proof. destruct a as [[] [] [] [] [] [] [] []]; reflexivity. Qed.

Lemma lower_char_is_hex (a : ascii) : is_hex (lower_char a) = is_hex a.
Proof. destruct a as [[] [] [] [] [] [] [] []]; reflexivity. Qed.

Lemma lower_char_hex_value (a : ascii) :
  Quantizer.hex_value (lower_char a) = Quantizer.hex_value a.
Proof. destruct a as [[] [] [] [] [] [] [] []]; reflexivity. Qed.

Lemma lstrip_hash_eqb (a : ascii) (s : string) :
  Quantizer.lstrip_hash (String a s)
  = if Ascii.eqb a "#" then Quantizer.lstrip_hash s else String a s.
Proof. destruct a as [[] [] [] [] [] [] [] []]; reflexivity. Qed.

Lemma lstrip_hash_lower (s : string) :
  Quantizer.lstrip_hash (lower s) = lower (Quantizer.lstrip_hash s).
Proof.
  induction s as [| a s IH]; [reflexivity |].
  cbn [lower]. rewrite !lstrip_hash_eqb, lower_char_hash.
  destruct (Ascii.eqb a "#"); [exact IH | reflexivity].
Qed.

Lemma substring_lower (n k : nat) (s : string) :
  String.substring n k (lower s) = lower (String.substring n k s).
Proof.
  revert n k. induction s as [| a s IH]; intros n k.
  - destruct n, k; reflexivity.
  - destruct n as [| n].
    + destruct k as [| k]; [reflexivity |]. simpl. f_equal. apply IH.
    + simpl. apply IH.
Qed.

Lemma hex_pair_lower (s : string) : hex_pair (lower s) = hex_pair s.
Proof.
  destruct s as [| a [| b [| c s]]]; try reflexivity.
  cbn [lower hex_pair]. rewrite !lower_char_is_hex, !lower_char_hex_value. reflexivity.
Qed.

Lemma _hex_to_bgr_lower (s : string) : _hex_to_bgr (lower s) = _hex_to_bgr s.
Proof.
  unfold _hex_to_bgr. cbv zeta.
  rewrite lstrip_hash_lower, !substring_lower, !hex_pair_lower. reflexivity.
Qed.

Lemma _hex_to_bgr_palette_entry (new_color : string) :
  _hex_to_bgr (palette_entry new_color) = _hex_to_bgr new_color.
Proof.
  unfold palette_entry. destruct (startswith_hash new_color).
  - apply _hex_to_bgr_lower.
  - reflexivity.
Qed.

Lemma is_hex_value (a : ascii) : is_hex a = true -> 0 <= Quantizer.hex_value a < 16.
Proof.
  unfold is_hex, Quantizer.hex_value. cbv zeta.
  set (n := Z.of_nat (nat_of_ascii a)).
  destruct (48 <=? n) eqn:E1, (n <=? 57) eqn:E2, (97 <=? n) eqn:E3, (n <=? 102) eqn:E4,
    (65 <=? n) eqn:E5, (n <=? 70) eqn:E6; cbn [andb orb]; intros H; try discriminate H;
    lia.
Qed.

Lemma hex_pair_digits (a b : ascii) :
  is_hex a = true -> is_hex b = true ->
  exists v, hex_pair (String a (String b EmptyString)) = Some v /\ 0 <= v < 256.
Proof.
  intros Ha Hb. cbn [hex_pair]. rewrite Ha, Hb. cbn [andb].
  pose proof (is_hex_value a Ha). pose proof (is_hex_value b Hb).
  eexists. split; [reflexivity | lia].
Qed.

(** A color of six hexadecimal digits is read, as three channels between
    0 and 255. *)
Lemma _hex_to_bgr_six_hex_digits (hex_color : string) :
  six_hex_digits hex_color = true ->
  exists c, _hex_to_bgr hex_color = Some c /\ bgr_uint8 c.
Proof.
  unfold six_hex_digits, _hex_to_bgr. cbv zeta.
  destruct (Quantizer.lstrip_hash hex_color) as [| a [| b [| c [| d [| e [| f rest]]]]]];
    cbn [String.list_ascii_of_string]; try discriminate.
  intros H. repeat (apply andb_true_iff in H as [H ?]).
  destruct (hex_pair_digits a b) as (r & Er & Hr); [assumption | assumption |].
  destruct (hex_pair_digits c d) as (g & Eg & Hg); [assumption | assumption |].
  destruct (hex_pair_digits e f) as (bl & Eb & Hb); [assumption | assumption |].
  change (String.substring 0 2 (String a (String b (String c (String d (String e (String f rest)))))))
    with (String a (String b EmptyString)).
  change (String.substring 2 2 (String a (String b (String c (String d (String e (String f rest)))))))
    with (String c (String d EmptyString)).
  replace (String.substring 4 2 (String a (String b (String c (String d (String e (String f rest)))))))
    with (String e (String f EmptyString)) by (destruct rest; reflexivity).
  rewrite Er, Eg, Eb. exists (bl, g, r). split; [reflexivity |].
  unfold bgr_uint8, is_uint8, chan_b, chan_g, chan_r. cbn [fst snd]. lia.
Qed.

(** X21.  Recoloring a segment of a segmentation that fits together with
    a color written as six hexadecimal digits, with or without ['#'] in
    front, leaves the masks as they are, paints the pixels of that segment
    with the three channels the digits spell, each between 0 and 255, and
    writes a palette entry that reads back as the painted color: the
    result fits together again. *)
Theorem recolor_segment_keeps_fit (quantized_img : list bgr) (masks : list (list Z))
    (palette : list string) (index : Z) (new_color : string) :
  fits quantized_img masks palette ->
  0 <= index < Z.of_nat (length masks) ->
  six_hex_digits new_color = true ->
  exists new_img new_bgr,
    _hex_to_bgr new_color = Some new_bgr /\ bgr_uint8 new_bgr /\
    recolor_segment quantized_img masks palette index new_color
    = Some (new_img, masks, <[Z.to_nat index := palette_entry new_color]> palette) /\
    fits new_img masks (<[Z.to_nat index := palette_entry new_color]> palette) /\
    _hex_to_bgr (palette_entry new_color) = Some new_bgr /\
    (forall p,
       new_img !! p
       = if decide (nth (Z.to_nat index) masks [] !! p = Some 255)
         then Some new_bgr else quantized_img !! p).
Proof.
  intros [Hlen Hshape Hbin Hown Hvalid Hcolor] Hidx Hsix.
  destruct (_hex_to_bgr_six_hex_digits new_color Hsix) as (new_bgr & Hnew & Hu8).
  unfold recolor_segment.
  destruct ((index <? 0) || (Z.of_nat (length masks) <=? index)) eqn:E.
  { apply orb_true_iff in E. destruct E as [E | E]; [apply Z.ltb_lt in E | apply Z.leb_le in E]; lia. }
  clear E. rewrite Hnew.
  destruct (lookup_lt_is_Some_2 masks (Z.to_nat index)) as [m Hm]; [lia |].
  rewrite (nth_lookup_Some _ _ [] _ Hm).
  assert (Hlm : length m = length quantized_img).
  { rewrite Forall_lookup in Hshape. exact (Hshape _ _ Hm). }
  destruct (paint_spec quantized_img m new_bgr Hlm) as (new_img & -> & Hli & Hp).
  destruct (Z.to_nat index <? length palette)%nat eqn:E; [| apply Nat.ltb_ge in E; lia].
  exists new_img, new_bgr. split; [reflexivity |]. split; [exact Hu8 |].
  split; [reflexivity |].
  pose proof (_hex_to_bgr_palette_entry new_color) as Hentry. rewrite Hnew in Hentry.
  split; [| split; [exact Hentry |]].
  2:{ exact Hp. }
  split.
  - rewrite length_insert. exact Hlen.
  - rewrite Hli. exact Hshape.
  - exact Hbin.
  - intros p Hpn. apply Hown. lia.
  - apply Forall_insert; [exact Hvalid |]. rewrite Hentry. eexists. reflexivity.
  - intros i mi c p Hi Hc Ho. rewrite Hp.
    destruct (Nat.eq_dec i (Z.to_nat index)) as [-> | Hne].
    + rewrite list_lookup_insert_eq in Hc by (apply Nat.ltb_lt; exact E).
      injection Hc as <-. rewrite Hm in Hi. injection Hi as <-.
      rewrite decide_True by exact Ho. exists new_bgr. split; [exact Hentry | reflexivity].
    + rewrite list_lookup_insert_ne in Hc by congruence.
      destruct (Hcolor _ _ _ p Hi Hc Ho) as (px & Hpx & Hq).
      exists px. split; [exact Hpx |].
      rewrite decide_False; [exact Hq |].
      intros Hon. apply Hne.
      assert (Hpn : (p < length quantized_img)%nat) by (eapply lookup_lt_Some; exact Hq).
      exact (owners_unique p masks _ _ _ _ (Hown p Hpn) Hi Ho Hm Hon).
Qed.

(** *** delete_segment *)

Lemma owners_delete (p k : nat) (masks : list (list Z)) (m : list Z) :
  masks !! k = Some m ->
  owners p masks
  = ((if decide (m !! p = Some 255%Z) then 1 else 0) + owners p (delete k masks))%nat.
Proof.
  revert k. induction masks as [| a masks IH]; intros [| k] H; simpl in H; try discriminate.
  - injection H as ->. simpl. apply owners_cons.
  - change (delete (S k) (a :: masks)) with (a :: delete k masks).
    rewrite !owners_cons, (IH k H). lia.
Qed.

(** X22.  Deleting a segment of a segmentation that fits together blacks
    out the pixels of that segment and leaves them to no mask; every other
    pixel keeps its color and its one mask, and every remaining mask still
    has the color of its palette entry. *)
Theorem delete_segment_leaves_hole (quantized_img : list bgr) (masks : list (list Z))
    (palette : list string) (index : Z) (m : list Z) :
  fits quantized_img masks palette ->
  0 <= index ->
  masks !! Z.to_nat index = Some m ->
  exists new_img new_masks new_palette,
    delete_segment quantized_img masks palette index
    = Some (new_img, new_masks, new_palette) /\
    (length new_masks = length new_palette /\ S (length new_masks) = length masks) /\
    (forall p, m !! p = Some 255 ->
       new_img !! p = Some (0, 0, 0) /\ owners p new_masks = 0%nat) /\
    (forall p, (p < length quantized_img)%nat -> m !! p <> Some 255 ->
       new_img !! p = quantized_img !! p /\ owners p new_masks = 1%nat) /\
    (forall i mi c p, new_masks !! i = Some mi -> new_palette !! i = Some c ->
       mi !! p = Some 255 ->
       exists px, _hex_to_bgr c = Some px /\ new_img !! p = Some px).
Proof.
  intros [Hlen Hshape Hbin Hown Hvalid Hcolor] H0 Hm.
  assert (Hk : (Z.to_nat index < length masks)%nat) by (eapply lookup_lt_Some; exact Hm).
  unfold delete_segment.
  destruct ((index <? 0) || (Z.of_nat (length masks) <=? index)) eqn:E.
  { apply orb_true_iff in E. destruct E as [E | E]; [apply Z.ltb_lt in E | apply Z.leb_le in E]; lia. }
  clear E. rewrite (nth_lookup_Some _ _ [] _ Hm).
  assert (Hlm : length m = length quantized_img).
  { rewrite Forall_lookup in Hshape. exact (Hshape _ _ Hm). }
  destruct (paint_spec quantized_img m (0, 0, 0) Hlm) as (new_img & -> & Hli & Hp).
  unfold without. eexists new_img, _, _. split; [reflexivity |].
  split; [| split; [| split]].
  - rewrite (length_delete masks) by (apply lookup_lt_is_Some_2; exact Hk).
    rewrite (length_delete palette) by (apply lookup_lt_is_Some_2; lia).
    split; lia.
  - intros p Ho. split.
    + rewrite Hp, decide_True by exact Ho. reflexivity.
    + assert (Hpn : (p < length quantized_img)%nat).
      { rewrite <- Hlm. eapply lookup_lt_Some. exact Ho. }
      pose proof (owners_delete p _ _ _ Hm) as Hd.
      rewrite (Hown p Hpn), decide_True in Hd by exact Ho. lia.
  - intros p Hpn Ho. split.
    + rewrite Hp, decide_False by exact Ho. reflexivity.
    + pose proof (owners_delete p _ _ _ Hm) as Hd.
      rewrite (Hown p Hpn), decide_False in Hd by exact Ho. lia.
  - intros i mi c p Hi Hc Ho.
    assert (Hsrc : exists j, j <> Z.to_nat index /\ masks !! j = Some mi /\ palette !! j = Some c).
    { destruct (Nat.lt_ge_cases i (Z.to_nat index)) as [Hlt | Hge].
      - rewrite list_lookup_delete_lt in Hi by exact Hlt.
        rewrite list_lookup_delete_lt in Hc by exact Hlt.
        exists i. split; [lia |]. split; assumption.
      - rewrite list_lookup_delete_ge in Hi by exact Hge.
        rewrite list_lookup_delete_ge in Hc by exact Hge.
        exists (S i). split; [lia |]. split; assumption. }
    destruct Hsrc as (j & Hne & Hj & Hjc).
    destruct (Hcolor _ _ _ p Hj Hjc Ho) as (px & Hpx & Hq).
    exists px. split; [exact Hpx |]. rewrite Hp, decide_False; [exact Hq |].
    intros Hon. apply Hne.
    assert (Hpn : (p < length quantized_img)%nat) by (eapply lookup_lt_Some; exact Hq).
    exact (owners_unique p masks _ _ _ _ (Hown p Hpn) Hj Ho Hm Hon).
Qed.

End SegmentationFacts.

Section SegmentationRuns.
Import Segmentation.

(** Three pixels, red, blue and green, one segment each. *)
Lemma three_segments_fit :
  fits [(0, 0, 255); (255, 0, 0); (0, 255, 0)]
       [[255; 0; 0]; [0; 255; 0]; [0; 0; 255]]
       ["#ff0000"; "#0000ff"; "#00ff00"]%string.
Proof.
  split.
  - reflexivity.
  - repeat (apply Forall_cons_2; [reflexivity |]). apply Forall_nil_2.
  - repeat first [apply Forall_nil_2 | apply Forall_cons_2
                  | (left; reflexivity) | (right; reflexivity)].
  - intros [| [| [| p]]] Hp; try reflexivity. simpl in Hp. lia.
  - repeat (apply Forall_cons_2; [eexists; vm_compute; reflexivity |]). apply Forall_nil_2.
  - intros [| [| [| i]]] m c p Hi Hc Ho; simpl in Hi, Hc; try discriminate;
      injection Hi as <-; injection Hc as <-;
      destruct p as [| [| [| p]]]; simpl in Ho; try discriminate;
      eexists; (split; [vm_compute; reflexivity | reflexivity]).
Qed.

Lemma merge_segments_keeps_fit_witness :
  exists new_img new_masks new_palette,
    merge_segments [(0, 0, 255); (255, 0, 0); (0, 255, 0)]
      [[255; 0; 0]; [0; 255; 0]; [0; 0; 255]]
      ["#ff0000"; "#0000ff"; "#00ff00"]%string [2; 0]
    = Some (new_img, new_masks, new_palette) /\
    fits new_img new_masks new_palette /\
    Nat.add (length new_masks) (length (sorted_set [2; 0]))
    = Nat.add (length [[255; 0; 0]; [0; 255; 0]; [0; 0; 255]]) 1.
Proof.
  apply merge_segments_keeps_fit.
  - exact three_segments_fit.
  - simpl. lia.
  - repeat (apply Forall_cons_2; [simpl; lia |]). apply Forall_nil_2.
Defined.

Lemma merge_segments_takes_color_of_smallest_index_witness :
  exists new_img new_masks new_palette keep_idx keep_color keep_bgr,
    merge_segments [(0, 0, 255); (255, 0, 0); (0, 255, 0)]
      [[255; 0; 0]; [0; 255; 0]; [0; 0; 255]]
      ["#ff0000"; "#0000ff"; "#00ff00"]%string [2; 0]
    = Some (new_img, new_masks, new_palette) /\
    keep_idx ∈ [2; 0] /\
    (forall i, i ∈ [2; 0] -> keep_idx <= i) /\
    ["#ff0000"; "#0000ff"; "#00ff00"]%string !! Z.to_nat keep_idx = Some keep_color /\
    _hex_to_bgr keep_color = Some keep_bgr /\
    (forall idx m p, idx ∈ [2; 0] ->
       [[255; 0; 0]; [0; 255; 0]; [0; 0; 255]] !! Z.to_nat idx = Some m ->
       m !! p = Some 255 -> new_img !! p = Some keep_bgr) /\
    (forall p,
       (forall idx m, idx ∈ [2; 0] ->
          [[255; 0; 0]; [0; 255; 0]; [0; 0; 255]] !! Z.to_nat idx = Some m ->
          m !! p <> Some 255) ->
       new_img !! p = [(0, 0, 255); (255, 0, 0); (0, 255, 0)] !! p).
Proof.
  apply merge_segments_takes_color_of_smallest_index.
  - exact three_segments_fit.
  - simpl. lia.
  - repeat (apply Forall_cons_2; [simpl; lia |]). apply Forall_nil_2.
Defined.

Lemma recolor_segment_keeps_fit_witness :
  exists new_img new_bgr,
    _hex_to_bgr "#FFCC00" = Some new_bgr /\ bgr_uint8 new_bgr /\
    recolor_segment [(0, 0, 255); (255, 0, 0); (0, 255, 0)]
      [[255; 0; 0]; [0; 255; 0]; [0; 0; 255]]
      ["#ff0000"; "#0000ff"; "#00ff00"]%string 1 "#FFCC00"
    = Some (new_img, [[255; 0; 0]; [0; 255; 0]; [0; 0; 255]],
            <[Z.to_nat 1 := palette_entry "#FFCC00"]>
              ["#ff0000"; "#0000ff"; "#00ff00"]%string) /\
    fits new_img [[255; 0; 0]; [0; 255; 0]; [0; 0; 255]]
      (<[Z.to_nat 1 := palette_entry "#FFCC00"]> ["#ff0000"; "#0000ff"; "#00ff00"]%string) /\
    _hex_to_bgr (palette_entry "#FFCC00") = Some new_bgr /\
    (forall p,
       new_img !! p
       = if decide (nth (Z.to_nat 1) [[255; 0; 0]; [0; 255; 0]; [0; 0; 255]] [] !! p
                    = Some 255)
         then Some new_bgr else [(0, 0, 255); (255, 0, 0); (0, 255, 0)] !! p).
Proof.
  apply recolor_segment_keeps_fit.
  - exact three_segments_fit.
  - simpl. lia.
  - vm_compute. reflexivity.
Defined.

Lemma delete_segment_leaves_hole_witness :
  exists new_img new_masks new_palette,
    delete_segment [(0, 0, 255); (255, 0, 0); (0, 255, 0)]
      [[255; 0; 0]; [0; 255; 0]; [0; 0; 255]]
      ["#ff0000"; "#0000ff"; "#00ff00"]%string 1
    = Some (new_img, new_masks, new_palette) /\
    (length new_masks = length new_palette /\
     S (length new_masks) = length [[255; 0; 0]; [0; 255; 0]; [0; 0; 255]]) /\
    (forall p, [0; 255; 0] !! p = Some 255 ->
       new_img !! p = Some (0, 0, 0) /\ owners p new_masks = 0%nat) /\
    (forall p, Nat.lt p (length [(0, 0, 255); (255, 0, 0); (0, 255, 0)]) ->
       [0; 255; 0] !! p <> Some 255 ->
       new_img !! p = [(0, 0, 255); (255, 0, 0); (0, 255, 0)] !! p /\
       owners p new_masks = 1%nat) /\
    (forall i mi c p, new_masks !! i = Some mi -> new_palette !! i = Some c ->
       mi !! p = Some 255 ->
       exists px, _hex_to_bgr c = Some px /\ new_img !! p = Some px).
Proof.
  apply delete_segment_leaves_hole.
  - exact three_segments_fit.
  - lia.
  - reflexivity.
Defined.

End SegmentationRuns.

(** ** From the quantizer to the segmentation editor *)

Section QuantizerToSegmentation.
Import Quantizer.
Variable exn : Type.
Variable gray : bgr -> Z.
Variable fit : Z -> Z -> Z -> Z -> Z -> list bgr -> result exn (list (Q * Q * Q)).
Variable cvk : list bgr -> Z -> Z -> Q -> Z -> result exn (list (Q * Q * Q)).

Lemma hex_pair_format_02x v :
  0 <= v < 256 -> Segmentation.hex_pair (format_02x v) = Some v.
Proof.
  intros Hv.
  assert (Hall : forallb (fun v => match Segmentation.hex_pair (format_02x v) with
                                   | Some w => w =? v
                                   | None => false
                                   end) (seqZ 0 256) = true)
    by (vm_compute; reflexivity).
  rewrite forallb_forall in Hall.
  assert (Hin : In v (seqZ 0 256)) by (apply list_elem_of_In, elem_of_seqZ; lia).
  specialize (Hall v Hin).
  destruct (Segmentation.hex_pair (format_02x v)) as [w |]; [| discriminate].
  apply Z.eqb_eq in Hall. congruence.
Qed.

(** The editor's [_hex_to_bgr] reads what [_bgr_to_hex] writes. *)
Lemma editor_reads_bgr_to_hex (c : bgr) :
  bgr_uint8 c -> Segmentation._hex_to_bgr (_bgr_to_hex c) = Some c.
Proof.
  destruct c as [[b g] r]. unfold bgr_uint8, is_uint8, chan_b, chan_g, chan_r; simpl.
  intros (Hb & Hg & Hr).
  unfold Segmentation._hex_to_bgr, _bgr_to_hex, chan_b, chan_g, chan_r.
  cbn [fst snd lstrip_hash].
  replace (lstrip_hash (format_02x r +:+ format_02x g +:+ format_02x b))
    with (format_02x r +:+ format_02x g +:+ format_02x b)
    by (symmetry; apply lstrip_hash_hex_digit).
  change (String.substring 0 2 (format_02x r +:+ format_02x g +:+ format_02x b))
    with (format_02x r).
  change (String.substring 2 2 (format_02x r +:+ format_02x g +:+ format_02x b))
    with (format_02x g).
  change (String.substring 4 2 (format_02x r +:+ format_02x g +:+ format_02x b))
    with (format_02x b).
  rewrite !hex_pair_format_02x by lia. reflexivity.
Qed.

Lemma owners_build_masks (labels : list nat) (p l : nat) :
  labels !! p = Some l ->
  forall k a,
    Segmentation.owners p
      (map (fun i => map (fun l => if (l =? i)%nat then 255 else 0) labels) (seq a k))
    = if decide (a <= l < a + k)%nat then 1%nat else 0%nat.
Proof.
  intros Hl. induction k as [| k IH]; intros a.
  - simpl. rewrite decide_False by lia. reflexivity.
  - cbn [seq map]. unfold Segmentation.owners in *. rewrite filter_cons.
    rewrite list_lookup_fmap, Hl. cbn [fmap option_fmap option_map].
    destruct (l =? a)%nat eqn:E.
    + apply Nat.eqb_eq in E. rewrite decide_True by reflexivity.
      cbn [length]. rewrite IH. rewrite decide_False by lia. rewrite decide_True by lia.
      reflexivity.
    + apply Nat.eqb_neq in E. rewrite decide_False by discriminate.
      rewrite IH. destruct (decide (S a <= l < S a + k)%nat);
        [rewrite decide_True by lia | rewrite decide_False by lia]; reflexivity.
Qed.

(** X23.  Without an alpha plane, what [quantize] returns is a
    segmentation that fits together in the editor's sense: the editor reads
    every palette entry, and image, masks and palette agree at every
    pixel. *)
Theorem quantize_output_fits idx data n m q :
  quantize exn gray fit cvk idx data None n m = Ok q ->
  Segmentation.fits (quantized_img q) (masks q) (hex_colors q).
Proof.
  intros H.
  pose proof (quantize_labels _ _ _ _ _ _ _ _ _ _ H) as (Hlen & Hlt & Hm).
  pose proof (quantize_hex_colors _ _ _ _ _ _ _ _ _ _ H) as (Hhex & Hu & _).
  apply quantize_ok in H as (palette0 & _ & Hq). cbv zeta in Hq.
  remember (_refine_palette (map (palette_at palette0) (_assign_labels data palette0))
              palette0 (_assign_labels data palette0)) as r eqn:Er.
  clear Er. subst q. cbn [hex_colors masks quantized_img final_labels final_palette] in *.
  assert (Hmask : forall i mask, _build_masks r.2 (length r.1) !! i = Some mask ->
            (i < length r.1)%nat /\
            mask = map (fun l => if (l =? i)%nat then 255 else 0) r.2).
  { intros i mask Hi.
    assert (Hil : (i < length r.1)%nat).
    { apply lookup_lt_Some in Hi. rewrite Hm in Hi. exact Hi. }
    split; [exact Hil |].
    rewrite _build_masks_lookup in Hi by exact Hil. congruence. }
  split.
  - rewrite Hm, length_map. reflexivity.
  - apply Forall_lookup. intros i mask Hi. apply Hmask in Hi as [_ ->].
    rewrite !length_map. reflexivity.
  - apply Forall_lookup. intros i mask Hi. apply Hmask in Hi as [_ ->].
    apply Forall_lookup. intros p v Hv. rewrite list_lookup_fmap in Hv.
    destruct (r.2 !! p) as [l |]; [| discriminate]. injection Hv as <-.
    destruct (l =? i)%nat; [right | left]; reflexivity.
  - intros p Hp. rewrite length_map in Hp.
    destruct (lookup_lt_is_Some_2 r.2 p Hp) as [l Hl].
    unfold _build_masks. rewrite (owners_build_masks r.2 p l Hl).
    rewrite decide_True; [reflexivity |].
    rewrite Forall_forall in Hlt. split; [lia |]. apply Hlt, list_elem_of_lookup. eauto.
  - apply Forall_lookup. intros i c Hc. rewrite list_lookup_fmap in Hc.
    destruct (r.1 !! i) as [px |] eqn:Ei; [| discriminate]. injection Hc as <-.
    rewrite editor_reads_bgr_to_hex; [eexists; reflexivity |].
    rewrite Forall_lookup in Hu. exact (Hu _ _ Ei).
  - intros i mask c p Hi Hc Ho. apply Hmask in Hi as [Hil ->].
    rewrite list_lookup_fmap in Hc.
    destruct (r.1 !! i) as [px |] eqn:Ei; [| discriminate]. injection Hc as <-.
    exists px. split.
    + apply editor_reads_bgr_to_hex. rewrite Forall_lookup in Hu. exact (Hu _ _ Ei).
    + rewrite list_lookup_fmap in Ho. rewrite list_lookup_fmap.
      destruct (r.2 !! p) as [l |]; [| discriminate]. simpl in Ho |- *.
      destruct (l =? i)%nat eqn:E; [| discriminate]. apply Nat.eqb_eq in E. subst l.
      f_equal. unfold palette_at. apply nth_lookup_Some. exact Ei.
Qed.

End QuantizerToSegmentation.

Section QuantizerToSegmentationRuns.
Import Quantizer.

Lemma quantize_output_fits_witness :
  Segmentation.fits [(0, 0, 0); (200, 200, 200)] [[255; 0]; [0; 255]]
    ["#000000"; "#c8c8c8"]%string.
Proof.
  apply (quantize_output_fits unit luma14 fit_not_called cv2_kmeans_not_called
           [] [(0, 0, 0); (200, 200, 200)] 2 median_cut
           (Quantized [(0, 0, 0); (200, 200, 200)] ["#000000"; "#c8c8c8"]
              [[255; 0]; [0; 255]] [(0, 0, 0); (200, 200, 200)] [0; 1]%nat)).
  vm_compute. reflexivity.
Defined.

End QuantizerToSegmentationRuns.

(** ** main.py *)

Section MainFacts.
Context {exn : Type}.
Variable C : Engine.components exn.
Variable str : exn -> string.

(** X24.  When [_run_vectorize] returns, the job is done or failed, never
    left processing.  A done job shows progress 100 and stage done and
    holds the SVG, also when the engine stopped reporting at 30 on the
    single-color path.  A failed job holds the error text, keeps the SVG,
    the palette, the masks and the image it held before, and shows the
    progress the engine reported last, which is 0 or 30. *)
Theorem run_vectorize_terminal_state (j : Main.job) (image_data : list Byte.byte)
    (settings : positive) (st : Engine.state) :
  let j' := (Main._run_vectorize C str j image_data settings st).1 in
  (Main.status j' = "done" /\ Main.progress j' = 100 /\ Main.stage j' = "done" /\
   is_Some (Main.svg j') /\ is_Some (Main.quantized_img j') /\
   Main.error j' = Main.error j) \/
  (Main.status j' = "error" /\ Main.stage j' = "error" /\ is_Some (Main.error j') /\
   (Main.progress j' = 0 \/ Main.progress j' = 30) /\
   Main.svg j' = Main.svg j /\ Main.palette j' = Main.palette j /\
   Main.masks j' = Main.masks j /\ Main.quantized_img j' = Main.quantized_img j).
Proof.
  cbv zeta. unfold Main._run_vectorize. rewrite vectorize_outcome.
  unfold Engine.outcome, Engine.emit, Main.engine_with_job_callback.
  cbn [Engine.progress_callback Engine._load_image Engine.trace_layer Engine.quantize].
  destruct (Engine._load_image C image_data) as [im | e].
  - cbv zeta.
    destruct (Engine.to_bgr_image _) as [[h w] bgr_image].
    destruct (Engine.unique_rows [] bgr_image) as [| color [| color2 rest]].
    + destruct (Engine.quantize C _ _ _ _ _) as [[[qi pal] mk] | e];
        cbn [fst snd Engine.calls]; rewrite <- ?app_assoc, drop_app_length; cbn;
        [left | right]; repeat split; eauto.
    + destruct (Engine.trace_layer C _ _ _) as [path_el | e];
        cbn [fst snd Engine.calls]; rewrite <- ?app_assoc, drop_app_length; cbn;
        [left | right]; repeat split; eauto.
    + destruct (Engine.quantize C _ _ _ _ _) as [[[qi pal] mk] | e];
        cbn [fst snd Engine.calls]; rewrite <- ?app_assoc, drop_app_length; cbn;
        [left | right]; repeat split; eauto.
  - cbn [fst snd Engine.calls]. rewrite drop_app_length. cbn.
    right. repeat split; eauto.
Qed.

End MainFacts.

(** *** split_segment *)

Section SplitFacts.
Import Segmentation.

Lemma owners_app (p : nat) (a b : list (list Z)) :
  owners p (a ++ b) = (owners p a + owners p b)%nat.
Proof. unfold owners. rewrite filter_app, length_app. reflexivity. Qed.

Lemma owners_one_of_seq (p : nat) (f : nat -> list Z) (k0 : nat) :
  (forall k, f k !! p = Some 255 <-> k = k0) ->
  forall n a,
    owners p (map f (seq a n)) = if decide (a <= k0 < a + n)%nat then 1%nat else 0%nat.
Proof.
  intros Hf. induction n as [| n IH]; intros a.
  - simpl. rewrite decide_False by lia. reflexivity.
  - cbn [seq map]. rewrite owners_cons, IH.
    destruct (decide (f a !! p = Some 255)) as [Ho | Ho].
    + apply Hf in Ho. subst a.
      rewrite decide_False by lia. rewrite decide_True by lia. reflexivity.
    + assert (a <> k0) by (intros ->; apply Ho, Hf; reflexivity).
      destruct (decide (S a <= k0 < S a + n)%nat);
        [rewrite decide_True by lia | rewrite decide_False by lia]; reflexivity.
Qed.

Lemma owners_none_of (p : nat) (l : list (list Z)) :
  (forall m, m ∈ l -> m !! p <> Some 255) -> owners p l = 0%nat.
Proof.
  intros H. destruct (owners p l) as [| k] eqn:E; [reflexivity |].
  assert (Hpos : (1 <= owners p l)%nat) by lia.
  apply owners_pos in Hpos. destruct Hpos as (m & Hin & Ho). exfalso. exact (H m Hin Ho).
Qed.

Lemma fold_set_255 (w : nat) (cs : list (Z * Z)) :
  forall base : list Z,
    length (fold_left (set_255 w) cs base) = length base /\
    (Forall binary_value base -> Forall binary_value (fold_left (set_255 w) cs base)) /\
    forall p, fold_left (set_255 w) cs base !! p = Some 255 <->
      base !! p = Some 255 \/
      ((p < length base)%nat /\
       exists c, c ∈ cs /\ Z.to_nat (c.2 * Z.of_nat w + c.1) = p).
Proof.
  induction cs as [| c cs IH]; intros base.
  - simpl. split; [reflexivity |]. split; [auto |]. intros p. split; [auto |].
    intros [H | (_ & c & Hin & _)]; [exact H | inversion Hin].
  - cbn [fold_left]. destruct (IH (set_255 w base c)) as (Hl & Hb & Hp).
    unfold set_255 in *. rewrite length_insert in Hl, Hp.
    split; [exact Hl |]. split.
    + intros Hbase. apply Hb. apply Forall_insert; [exact Hbase | right; reflexivity].
    + intros p. rewrite Hp. split.
      * intros [H | (Hlt & c' & Hin & Hc')].
        -- apply list_lookup_insert_Some in H.
           destruct H as [(Heq & _ & Hlt) | (_ & H)]; [| left; exact H].
           right. split; [lia |]. exists c. split; [apply list_elem_of_here | exact Heq].
        -- right. split; [exact Hlt |]. exists c'. split; [apply list_elem_of_further; exact Hin | exact Hc'].
      * intros [H | (Hlt & c' & Hin & Hc')].
        -- left. apply list_lookup_insert_Some.
           destruct (Nat.eq_dec (Z.to_nat (c.2 * Z.of_nat w + c.1)) p) as [Heq | Hne].
           ++ left. split; [exact Heq |]. split; [reflexivity |].
              subst p. eapply lookup_lt_Some. exact H.
           ++ right. split; [exact Hne | exact H].
        -- apply elem_of_cons in Hin. destruct Hin as [-> | Hin].
           ++ left. apply list_lookup_insert_Some. left.
              split; [exact Hc' |]. split; [reflexivity | lia].
           ++ right. split; [exact Hlt |]. exists c'. split; assumption.
Qed.

Lemma flat_of_coords (w p : nat) :
  (0 < w)%nat ->
  Z.to_nat (Z.of_nat (p / w) * Z.of_nat w + Z.of_nat (p mod w)) = p.
Proof.
  intros Hw. rewrite <- Nat2Z.inj_mul, <- Nat2Z.inj_add, Nat2Z.id.
  pose proof (Nat.div_mod_eq p w). lia.
Qed.

Lemma elem_of_where_255 (mask : list Z) (p : nat) :
  p ∈ where_255 mask <-> mask !! p = Some 255.
Proof.
  unfold where_255. rewrite list_elem_of_filter, elem_of_seq. split.
  - intros [H _]. exact H.
  - intros H. split; [exact H |]. apply lookup_lt_Some in H. lia.
Qed.

Lemma where_255_NoDup (mask : list Z) : NoDup (where_255 mask).
Proof. unfold where_255. apply NoDup_filter, NoDup_seq. Qed.

Lemma part_mask_of_on (w : nat) (mask : list Z) (labels : list Z) (part p : nat) :
  (0 < w)%nat ->
  part_mask_of w mask
    (map (fun p => (Z.of_nat (p mod w), Z.of_nat (p / w))) (where_255 mask)) labels part !! p
  = Some 255
  <-> exists j, where_255 mask !! j = Some p /\ labels !! j = Some (Z.of_nat part).
Proof.
  intros Hw. unfold part_mask_of. cbv zeta.
  destruct (fold_set_255 w
              (map fst (filter (fun cl : Z * Z * Z => cl.2 = Z.of_nat part)
                 (zip (map (fun p => (Z.of_nat (p mod w), Z.of_nat (p / w))) (where_255 mask))
                      labels)))
              (zeros_like mask)) as (_ & _ & Hp).
  rewrite Hp. clear Hp. split.
  - intros [H | (Hlt & c & Hin & Hc)]; [exfalso; exact (zeros_like_off _ _ H) |].
    apply list_elem_of_fmap in Hin. destruct Hin as ([c' l] & -> & Hin).
    apply list_elem_of_filter in Hin. destruct Hin as [Hl Hin]. simpl in Hl, Hc. subst l.
    apply list_elem_of_lookup in Hin. destruct Hin as [j Hj].
    apply zip_lookup_Some in Hj. destruct Hj as [Hj1 Hj2].
    rewrite list_lookup_fmap in Hj1.
    destruct (where_255 mask !! j) as [q |] eqn:Eq; [| discriminate].
    injection Hj1 as <-. simpl in Hc. rewrite flat_of_coords in Hc by exact Hw. subst q.
    exists j. split; [exact Eq | exact Hj2].
  - intros (j & Hj & Hl). right. split.
    + unfold zeros_like. rewrite length_map.
      assert (Hin : p ∈ where_255 mask) by (eapply list_elem_of_lookup_2; exact Hj).
      apply elem_of_where_255 in Hin. eapply lookup_lt_Some. exact Hin.
    + exists (Z.of_nat (p mod w), Z.of_nat (p / w)). split.
      * apply list_elem_of_fmap. exists ((Z.of_nat (p mod w), Z.of_nat (p / w)), Z.of_nat part).
        split; [reflexivity |]. apply list_elem_of_filter. split; [reflexivity |].
        apply list_elem_of_lookup. exists j. apply lookup_zip_with_Some.
        eexists _, _. split; [reflexivity |]. split; [| exact Hl].
        rewrite list_lookup_fmap, Hj. reflexivity.
      * simpl. apply flat_of_coords. exact Hw.
Qed.

Lemma aligned_app {X Y} (P : X -> Y -> Prop) (A1 A2 : list X) (B1 B2 : list Y) :
  length A1 = length B1 ->
  (forall i x y, A1 !! i = Some x -> B1 !! i = Some y -> P x y) ->
  (forall i x y, A2 !! i = Some x -> B2 !! i = Some y -> P x y) ->
  forall i x y, (A1 ++ A2) !! i = Some x -> (B1 ++ B2) !! i = Some y -> P x y.
Proof.
  intros Hlen H1 H2 i x y Hx Hy.
  destruct (Nat.lt_ge_cases i (length A1)) as [Hlt | Hge].
  - rewrite lookup_app_l in Hx by exact Hlt. rewrite lookup_app_l in Hy by lia.
    exact (H1 i x y Hx Hy).
  - rewrite lookup_app_r in Hx by exact Hge. rewrite lookup_app_r in Hy by lia.
    rewrite <- Hlen in Hy. exact (H2 _ x y Hx Hy).
Qed.

Lemma part_mask_of_shape (w : nat) (mask : list Z) (coords : list (Z * Z)) (labels : list Z)
    (part : nat) :
  length (part_mask_of w mask coords labels part) = length mask /\
  Forall binary_value (part_mask_of w mask coords labels part).
Proof.
  unfold part_mask_of. cbv zeta.
  destruct (fold_set_255 w
              (map fst (filter (fun cl : Z * Z * Z => cl.2 = Z.of_nat part) (zip coords labels)))
              (zeros_like mask)) as (Hl & Hb & _).
  split.
  - rewrite Hl. unfold zeros_like. apply length_map.
  - apply Hb, zeros_like_binary.
Qed.

(** X25.  Splitting a segment of a segmentation that fits together into
    [n_parts] parts, when [cv2.kmeans] gives every pixel of the segment
    one label below [n_parts], leaves the image as it is and gives a
    segmentation that fits together again: the parts share the pixels of
    the segment among them and carry its color.  There are [n_parts - 1]
    segments more. *)
Theorem split_segment_keeps_fit (cv2_kmeans_labels : list (Z * Z) -> Z -> option (list Z))
    (w : nat) (quantized_img : list bgr) (masks : list (list Z)) (palette : list string)
    (index n_parts : Z) (mask : list Z) :
  fits quantized_img masks palette ->
  (0 < w)%nat ->
  0 <= index ->
  masks !! Z.to_nat index = Some mask ->
  2 <= n_parts <= Z.of_nat (length (where_255 mask)) ->
  (forall coords, n_parts <= Z.of_nat (length coords) ->
     exists labels, cv2_kmeans_labels coords n_parts = Some labels /\
       length labels = length coords /\
       Forall (fun l => 0 <= l < n_parts) labels) ->
  exists new_masks new_palette,
    split_segment cv2_kmeans_labels w quantized_img masks palette index n_parts
    = Some (quantized_img, new_masks, new_palette) /\
    fits quantized_img new_masks new_palette /\
    Z.of_nat (length new_masks) = Z.of_nat (length masks) + n_parts - 1.
Proof.
  intros [Hlen Hshape Hbin Hown Hvalid Hcolor] Hw H0 Hm Hn Hcv.
  assert (Hi : (Z.to_nat index < length masks)%nat) by (eapply lookup_lt_Some; exact Hm).
  unfold split_segment.
  destruct ((index <? 0) || (Z.of_nat (length masks) <=? index)) eqn:E.
  { apply orb_true_iff in E. destruct E as [E | E]; [apply Z.ltb_lt in E | apply Z.leb_le in E]; lia. }
  clear E. destruct (n_parts <? 2) eqn:E; [apply Z.ltb_lt in E; lia |]. clear E.
  cbv zeta. rewrite (nth_lookup_Some _ _ [] _ Hm).
  destruct (lookup_lt_is_Some_2 palette (Z.to_nat index)) as [color Hc]; [lia |].
  rewrite Hc.
  destruct (Z.of_nat (length (where_255 mask)) <? n_parts) eqn:E; [apply Z.ltb_lt in E; lia |].
  clear E.
  set (coords := map (fun p => (Z.of_nat (p mod w), Z.of_nat (p / w))) (where_255 mask)).
  destruct (Hcv coords) as (labels & -> & Hll & Hlr).
  { unfold coords. rewrite length_map. lia. }
  rewrite Hll, Nat.eqb_refl. cbn [negb].
  set (i := Z.to_nat index) in *.
  set (parts := map (part_mask_of w mask coords labels) (seq 0 (Z.to_nat n_parts))).
  eexists _, _. split; [reflexivity |].
  assert (Hlm : length mask = length quantized_img).
  { rewrite Forall_lookup in Hshape. exact (Hshape _ _ Hm). }
  assert (Hparts : forall q m, parts !! q = Some m ->
            (q < Z.to_nat n_parts)%nat /\ m = part_mask_of w mask coords labels q).
  { intros q m Hq. unfold parts in Hq. rewrite list_lookup_fmap in Hq.
    destruct (seq 0 (Z.to_nat n_parts) !! q) as [k |] eqn:Ek; [| discriminate].
    apply lookup_seq in Ek. destruct Ek as [-> Hlt]. injection Hq as <-. split; [exact Hlt | reflexivity]. }
  assert (Hpart_on : forall q p, part_mask_of w mask coords labels q !! p = Some 255 ->
            mask !! p = Some 255).
  { intros q p Ho. apply part_mask_of_on in Ho; [| exact Hw].
    destruct Ho as (j & Hj & _). apply elem_of_where_255.
    eapply list_elem_of_lookup_2. exact Hj. }
  assert (Hmid : masks = take i masks ++ mask :: drop (S i) masks).
  { symmetry. apply take_drop_middle. exact Hm. }
  split; [split |].
  - rewrite !length_app, !length_take, !length_drop. unfold parts.
    rewrite length_map, length_seq, length_replicate. lia.
  - rewrite !Forall_app. split; [apply Forall_take; exact Hshape |].
    split; [| apply Forall_drop; exact Hshape].
    apply Forall_lookup. intros q m Hq. apply Hparts in Hq. destruct Hq as [_ ->].
    rewrite <- Hlm. apply part_mask_of_shape.
  - rewrite !Forall_app. split; [apply Forall_take; exact Hbin |].
    split; [| apply Forall_drop; exact Hbin].
    apply Forall_lookup. intros q m Hq. apply Hparts in Hq. destruct Hq as [_ ->].
    apply part_mask_of_shape.
  - intros p Hp. rewrite !owners_app.
    pose proof (Hown p Hp) as H1. rewrite Hmid, owners_app, owners_cons in H1.
    enough (Hpo : owners p parts = if decide (mask !! p = Some 255) then 1%nat else 0%nat)
      by (rewrite Hpo; lia).
    destruct (decide (mask !! p = Some 255)) as [Ho | Ho].
    + assert (Hin : p ∈ where_255 mask) by (apply elem_of_where_255; exact Ho).
      apply list_elem_of_lookup in Hin. destruct Hin as [j Hj].
      destruct (lookup_lt_is_Some_2 labels j) as [l Hl].
      { rewrite Hll. unfold coords. rewrite length_map. eapply lookup_lt_Some. exact Hj. }
      assert (Hlr' : 0 <= l < n_parts).
      { rewrite Forall_lookup in Hlr. exact (Hlr _ _ Hl). }
      unfold parts.
      rewrite (owners_one_of_seq p (part_mask_of w mask coords labels) (Z.to_nat l)).
      * rewrite decide_True by lia. reflexivity.
      * intros k. unfold coords. rewrite part_mask_of_on by exact Hw. split.
        -- intros (j' & Hj' & Hl').
           rewrite (NoDup_lookup _ _ _ _ (where_255_NoDup mask) Hj' Hj) in Hl'.
           rewrite Hl in Hl'. injection Hl' as ->. rewrite Nat2Z.id. reflexivity.
        -- intros ->. exists j. split; [exact Hj |]. rewrite Z2Nat.id by lia. exact Hl.
    + apply owners_none_of. intros m Hin Hon.
      apply list_elem_of_lookup in Hin. destruct Hin as [q Hq].
      apply Hparts in Hq. destruct Hq as [_ ->]. exact (Ho (Hpart_on _ _ Hon)).
  - rewrite !Forall_app. split; [apply Forall_take; exact Hvalid |].
    split; [| apply Forall_drop; exact Hvalid].
    apply Forall_replicate. rewrite Forall_lookup in Hvalid. exact (Hvalid _ _ Hc).
  - intros q m c p Hqm Hqc. revert p.
    revert q m c Hqm Hqc.
    apply (aligned_app
             (fun m c => forall p, m !! p = Some 255 ->
                exists px, _hex_to_bgr c = Some px /\ quantized_img !! p = Some px)).
    + rewrite !length_take. lia.
    + intros q m c Hqm Hqc p Ho.
      apply lookup_take_Some in Hqm. apply lookup_take_Some in Hqc.
      exact (Hcolor _ _ _ p (proj1 Hqm) (proj1 Hqc) Ho).
    + apply (aligned_app
               (fun m c => forall p, m !! p = Some 255 ->
                  exists px, _hex_to_bgr c = Some px /\ quantized_img !! p = Some px)).
      * unfold parts. rewrite length_map, length_seq, length_replicate. reflexivity.
      * intros q m c Hqm Hqc p Ho.
        apply Hparts in Hqm. destruct Hqm as [_ ->].
        apply lookup_replicate in Hqc. destruct Hqc as [-> _].
        exact (Hcolor _ _ _ p Hm Hc (Hpart_on _ _ Ho)).
      * intros q m c Hqm Hqc p Ho.
        rewrite lookup_drop in Hqm. rewrite lookup_drop in Hqc.
        exact (Hcolor _ _ _ p Hqm Hqc Ho).
  - rewrite !length_app, length_take, length_drop. unfold parts.
    rewrite length_map, length_seq. lia.
Qed.

End SplitFacts.

Section SplitRuns.
Import Segmentation.

Lemma two_segments_fit :
  fits [(0, 0, 255); (0, 0, 255); (255, 0, 0); (0, 0, 255)]
       [[255; 255; 0; 255]; [0; 0; 255; 0]]
       ["#ff0000"; "#0000ff"]%string.
Proof.
  split.
  - reflexivity.
  - repeat (apply Forall_cons_2; [reflexivity |]). apply Forall_nil_2.
  - repeat first [apply Forall_nil_2 | apply Forall_cons_2
                  | (left; reflexivity) | (right; reflexivity)].
  - intros [| [| [| [| p]]]] Hp; try reflexivity. simpl in Hp. lia.
  - repeat (apply Forall_cons_2; [eexists; vm_compute; reflexivity |]). apply Forall_nil_2.
  - intros [| [| i]] m c p Hi Hc Ho; simpl in Hi, Hc; try discriminate;
      injection Hi as <-; injection Hc as <-;
      destruct p as [| [| [| [| p]]]]; simpl in Ho; try discriminate;
      eexists; (split; [vm_compute; reflexivity | reflexivity]).
Qed.

(** A 2x2 image; the labels a clustering of its red pixels may give. *)
Lemma split_segment_keeps_fit_witness :
  exists new_masks new_palette,
    split_segment (fun coords _ => Some (map (fun c => c.1 mod 2) coords)) 2
      [(0, 0, 255); (0, 0, 255); (255, 0, 0); (0, 0, 255)]
      [[255; 255; 0; 255]; [0; 0; 255; 0]] ["#ff0000"; "#0000ff"]%string 0 2
    = Some ([(0, 0, 255); (0, 0, 255); (255, 0, 0); (0, 0, 255)], new_masks, new_palette) /\
    fits [(0, 0, 255); (0, 0, 255); (255, 0, 0); (0, 0, 255)] new_masks new_palette /\
    Z.of_nat (length new_masks)
    = Z.of_nat (length [[255; 255; 0; 255]; [0; 0; 255; 0]]) + 2 - 1.
Proof.
  apply (split_segment_keeps_fit (fun coords _ => Some (map (fun c => c.1 mod 2) coords)) 2
           _ _ _ 0 2 [255; 255; 0; 255]).
  - exact two_segments_fit.
  - lia.
  - lia.
  - reflexivity.
  - vm_compute. split; discriminate.
  - intros coords Hn. eexists. split; [reflexivity |]. split; [apply length_map |].
    apply Forall_forall. intros l Hin. apply list_elem_of_fmap in Hin.
    destruct Hin as (c & -> & _). apply Z.mod_pos_bound. lia.
Defined.

End SplitRuns.

Section FloatFacts.
Import Optimizer.

Lemma round_half_even_scale (k a b : Z) :
  0 < k -> 0 < b -> round_half_even (k * a) (k * b) = round_half_even a b.
Proof.
  intros Hk Hb. unfold round_half_even. cbv zeta.
  rewrite Z.div_mul_cancel_l by lia.
  rewrite Z.mul_mod_distr_l by lia.
  pose proof (Z.mod_pos_bound a b Hb) as Hr.
  replace (2 * (k * (a mod b)) <? k * b) with (2 * (a mod b) <? b).
  - replace (k * b <? 2 * (k * (a mod b))) with (b <? 2 * (a mod b)); [reflexivity |].
    destruct (b <? 2 * (a mod b)) eqn:E1, (k * b <? 2 * (k * (a mod b))) eqn:E2;
      try reflexivity;
      [apply Z.ltb_lt in E1; apply Z.ltb_ge in E2 | apply Z.ltb_ge in E1; apply Z.ltb_lt in E2]; nia.
  - destruct (2 * (a mod b) <? b) eqn:E1, (2 * (k * (a mod b)) <? k * b) eqn:E2;
      try reflexivity;
      [apply Z.ltb_lt in E1; apply Z.ltb_ge in E2 | apply Z.ltb_ge in E1; apply Z.ltb_lt in E2]; nia.
Qed.

Lemma round_half_even_bounds (a b : Z) :
  0 < b -> a / b <= round_half_even a b <= a / b + 1.
Proof.
  intros Hb. unfold round_half_even. cbv zeta.
  destruct (2 * (a mod b) <? b); [lia |].
  destruct (b <? 2 * (a mod b)); [lia |].
  destruct (Z.even (a / b)); lia.
Qed.

Lemma round_half_even_down (a b : Z) :
  0 < b -> 2 * (a mod b) < b -> round_half_even a b = a / b.
Proof.
  intros Hb Hr. unfold round_half_even. cbv zeta.
  destruct (2 * (a mod b) <? b) eqn:E; [reflexivity | apply Z.ltb_ge in E; lia].
Qed.

(** [floor_log2 n d] is the exponent of the binade of [n / d]. *)
Lemma floor_log2_spec (n d : positive) :
  let e := floor_log2 n d in
  Zpos d * 2 ^ Z.max 0 e <= Zpos n * 2 ^ Z.max 0 (- e) /\
  Zpos n * 2 ^ Z.max 0 (- (e + 1)) < Zpos d * 2 ^ Z.max 0 (e + 1).
Proof.
  cbv zeta. unfold floor_log2. cbv zeta.
  pose proof (Z.log2_spec (Zpos n) ltac:(lia)) as [Hn1 Hn2].
  pose proof (Z.log2_spec (Zpos d) ltac:(lia)) as [Hd1 Hd2].
  pose proof (Z.log2_nonneg (Zpos n)) as Hn0.
  pose proof (Z.log2_nonneg (Zpos d)) as Hd0.
  set (a := Z.log2 (Zpos n)) in *. set (b := Z.log2 (Zpos d)) in *.
  assert (Hpow : forall x y, 0 <= x -> 0 <= y -> 2 ^ (x + y) = 2 ^ x * 2 ^ y)
    by (intros; apply Z.pow_add_r; lia).
  assert (Hpos : forall x, 0 <= x -> 0 < 2 ^ x) by (intros; apply Z.pow_pos_nonneg; lia).
  destruct (Zpos d * 2 ^ Z.max 0 (a - b) <=? Zpos n * 2 ^ Z.max 0 (- (a - b))) eqn:E.
  - apply Z.leb_le in E. split; [exact E |].
    destruct (Z.le_gt_cases b a) as [Hab | Hab].
    + (* 0 <= a - b *)
      replace (Z.max 0 (- (a - b + 1))) with 0 by lia.
      replace (Z.max 0 (a - b + 1)) with (a - b + 1) by lia.
      rewrite Z.pow_0_r, Z.mul_1_r.
      assert (H1 : 2 ^ (a + 1) = 2 ^ b * 2 ^ (a - b + 1)).
      { rewrite <- Hpow by lia. f_equal. lia. }
      pose proof (Hpos (a - b + 1) ltac:(lia)).
      assert (2 ^ b * 2 ^ (a - b + 1) <= Zpos d * 2 ^ (a - b + 1))
        by (apply Z.mul_le_mono_nonneg_r; lia).
      lia.
    + (* a - b < 0 *)
      replace (Z.max 0 (- (a - b + 1))) with (b - a - 1) by lia.
      replace (Z.max 0 (a - b + 1)) with 0 by lia.
      rewrite Z.pow_0_r, Z.mul_1_r.
      assert (H1 : 2 ^ b = 2 ^ (a + 1) * 2 ^ (b - a - 1)).
      { rewrite <- Hpow by lia. f_equal. lia. }
      pose proof (Hpos (b - a - 1) ltac:(lia)).
      assert (Zpos n * 2 ^ (b - a - 1) < 2 ^ (a + 1) * 2 ^ (b - a - 1))
        by (apply Z.mul_lt_mono_pos_r; lia).
      lia.
  - apply Z.leb_gt in E. replace (a - b - 1 + 1) with (a - b) by lia. split; [| exact E].
    destruct (Z.le_gt_cases (a - b) 0) as [Hab | Hab].
    + replace (Z.max 0 (a - b - 1)) with 0 by lia.
      replace (Z.max 0 (- (a - b - 1))) with (b - a + 1) by lia.
      rewrite Z.pow_0_r, Z.mul_1_r.
      assert (H1 : 2 ^ (b + 1) = 2 ^ a * 2 ^ (b - a + 1)).
      { rewrite <- Hpow by lia. f_equal. lia. }
      pose proof (Hpos (b - a + 1) ltac:(lia)).
      assert (2 ^ a * 2 ^ (b - a + 1) <= Zpos n * 2 ^ (b - a + 1))
        by (apply Z.mul_le_mono_nonneg_r; lia).
      lia.
    + replace (Z.max 0 (a - b - 1)) with (a - b - 1) by lia.
      replace (Z.max 0 (- (a - b - 1))) with 0 by lia.
      rewrite Z.pow_0_r, Z.mul_1_r.
      assert (H1 : 2 ^ a = 2 ^ (b + 1) * 2 ^ (a - b - 1)).
      { rewrite <- Hpow by lia. f_equal. lia. }
      pose proof (Hpos (a - b - 1) ltac:(lia)).
      assert (Zpos d * 2 ^ (a - b - 1) < 2 ^ (b + 1) * 2 ^ (a - b - 1))
        by (apply Z.mul_lt_mono_pos_r; lia).
      lia.
Qed.

End FloatFacts.

(** ** batch/processor.py *)

Section BatchFacts.
Import Batch.

Lemma Qred_factor (a : Z) (b : positive) :
  exists g, 0 < g /\ a = g * Qnum (Qred (a # b)) /\ Zpos b = g * Zpos (Qden (Qred (a # b))).
Proof.
  unfold Qred.
  pose proof (Z.ggcd_correct_divisors a (Zpos b)) as Hd.
  pose proof (Z.ggcd_gcd a (Zpos b)) as Hg.
  pose proof (Z.gcd_nonneg a (Zpos b)) as Hn.
  destruct (Z.ggcd a (Zpos b)) as [g [aa bb]]. simpl in *. subst g.
  destruct Hd as [Ha Hb].
  assert (Hbb : 0 < bb) by nia.
  exists (Z.gcd a (Zpos b)). split; [nia |]. split; [exact Ha |].
  rewrite Z2Pos.id by exact Hbb. exact Hb.
Qed.

Lemma percent_of_all (t : Z) : 0 < t -> percent_of t t = Some 100.
Proof.
  intros Ht. unfold percent_of.
  destruct (t =? 0) eqn:E; [apply Z.eqb_eq in E; lia |]. clear E.
  destruct t as [| n | n]; try lia. simpl Z.to_pos.
  assert (Hx : Optimizer.to_binary64 (Zpos n # n) = Some 1%Q).
  { unfold Optimizer.to_binary64. cbn [Qnum Qden].
    pose proof (floor_log2_spec n n) as [E1 E2]. cbv zeta in E1, E2.
    set (e := Optimizer.floor_log2 n n) in *.
    assert (He : e = 0).
    { assert (Hp : forall x, 0 <= x -> 0 < 2 ^ x) by (intros; apply Z.pow_pos_nonneg; lia).
      destruct (Z.lt_trichotomy e 0) as [Hlt | [Heq | Hgt]]; [| exact Heq |].
      - exfalso. replace (Z.max 0 (e + 1)) with 0 in E2 by lia.
        pose proof (Hp (Z.max 0 (- (e + 1))) ltac:(lia)). rewrite Z.pow_0_r in E2. nia.
      - exfalso. replace (Z.max 0 (- e)) with 0 in E1 by lia.
        replace (Z.max 0 e) with e in E1 by lia.
        assert (2 ^ 1 <= 2 ^ e) by (apply Z.pow_le_mono_r; lia).
        rewrite Z.pow_0_r in E1. change (2 ^ 1) with 2 in *. nia. }
    clearbody e. subst e. cbv zeta.
    change (Z.max (0 - 52) (-1074)) with (-52).
    change (Z.max 0 (- -52)) with 52. change (Z.max 0 (-52)) with 0.
    rewrite !Z.pow_0_r, !Z.mul_1_r.
    rewrite (Z.mul_comm (Zpos n) (2 ^ 52)).
    replace (Optimizer.round_half_even (2 ^ 52 * Zpos n) (Zpos n)) with (2 ^ 52).
    - vm_compute. reflexivity.
    - unfold Optimizer.round_half_even. cbv zeta.
      rewrite Z.div_mul by lia. rewrite Z.mod_mul by lia.
      destruct (2 * 0 <? Zpos n) eqn:E; [reflexivity | apply Z.ltb_ge in E; lia]. }
  rewrite Hx. vm_compute. reflexivity.
Qed.

Lemma percent_of_none (t : Z) : 0 <= t -> percent_of 0 t = Some 0.
Proof.
  intros Ht. unfold percent_of. destruct (t =? 0); [reflexivity |].
  vm_compute. reflexivity.
Qed.

(** A quotient in the normal range of binary64, at or below 2^53: the
    significand has at most 53 bits and nothing overflows. *)
Lemma to_binary64_normal (n d : positive) :
  -1022 <= Optimizer.floor_log2 n d <= 52 ->
  let U := 52 - Optimizer.floor_log2 n d in
  let m := Optimizer.round_half_even (Zpos n * 2 ^ U) (Zpos d) in
  0 <= m <= 2 ^ 53 /\
  Optimizer.to_binary64 (Zpos n # d) = Some (Qred (m # Z.to_pos (2 ^ U))).
Proof.
  intros He. cbv zeta.
  pose proof (floor_log2_spec n d) as [_ E2]. cbv zeta in E2.
  unfold Optimizer.to_binary64. cbn [Qnum Qden]. cbv zeta.
  set (e := Optimizer.floor_log2 n d) in *. clearbody e.
  replace (Z.max (e - 52) (-1074)) with (e - 52) by lia.
  replace (Z.max 0 (- (e - 52))) with (52 - e) by lia.
  replace (Z.max 0 (e - 52)) with 0 by lia.
  rewrite !Z.pow_0_r, !Z.mul_1_r.
  assert (Hp : forall x, 0 <= x -> 0 < 2 ^ x) by (intros; apply Z.pow_pos_nonneg; lia).
  assert (Hlt : Zpos n * 2 ^ (52 - e) < Zpos d * 2 ^ 53).
  { destruct (Z.le_gt_cases (e + 1) 0) as [Hneg | Hpos].
    - replace (Z.max 0 (- (e + 1))) with (- e - 1) in E2 by lia.
      replace (Z.max 0 (e + 1)) with 0 in E2 by lia.
      rewrite Z.pow_0_r, Z.mul_1_r in E2.
      replace (52 - e) with ((- e - 1) + 53) by lia.
      rewrite Z.pow_add_r by lia. rewrite Z.mul_assoc.
      apply Z.mul_lt_mono_pos_r; [apply Hp; lia | exact E2].
    - replace (Z.max 0 (- (e + 1))) with 0 in E2 by lia.
      replace (Z.max 0 (e + 1)) with (e + 1) in E2 by lia.
      rewrite Z.pow_0_r, Z.mul_1_r in E2.
      replace 53 with ((e + 1) + (52 - e)) by lia.
      rewrite Z.pow_add_r by lia. rewrite Z.mul_assoc.
      apply Z.mul_lt_mono_pos_r; [apply Hp; lia | exact E2]. }
  pose proof (round_half_even_bounds (Zpos n * 2 ^ (52 - e)) (Zpos d) ltac:(lia)) as Hb.
  assert (Hq : Zpos n * 2 ^ (52 - e) / Zpos d < 2 ^ 53)
    by (apply Z.div_lt_upper_bound; [lia | exact Hlt]).
  assert (Hq0 : 0 <= Zpos n * 2 ^ (52 - e) / Zpos d).
  { apply Z.div_pos; [| lia]. pose proof (Hp (52 - e) ltac:(lia)). nia. }
  split; [lia |].
  destruct (2 ^ 1024 <=? _) eqn:E; [| reflexivity].
  apply Z.leb_le in E. exfalso.
  assert (2 ^ 53 < 2 ^ 1024) by (apply Z.pow_lt_mono_r; lia). lia.
Qed.

Lemma round_100_over_128 (m : Z) :
  0 <= m <= 2 ^ 53 - 1 -> Optimizer.round_half_even (100 * m) 128 < 100 * 2 ^ 46.
Proof.
  intros Hm. unfold Optimizer.round_half_even. cbv zeta.
  pose proof (Z.div_mod (100 * m) 128 ltac:(lia)) as Hdm.
  pose proof (Z.mod_pos_bound (100 * m) 128 ltac:(lia)) as Hr.
  set (q := 100 * m / 128) in *. set (r := (100 * m) mod 128) in *.
  clearbody q r.
  change (2 ^ 53) with 9007199254740992 in Hm.
  change (2 ^ 46) with 70368744177664.
  destruct (2 * r <? 128) eqn:E1; [apply Z.ltb_lt in E1; lia |].
  apply Z.ltb_ge in E1.
  destruct (128 <? 2 * r); [lia |].
  destruct (Z.even q); lia.
Qed.

(** With some job not done, the percentage stays below 100. *)
Lemma percent_of_below (d t : Z) :
  0 < d < t -> t < 2 ^ 53 ->
  exists v, percent_of d t = Some v /\ 0 <= v < 100.
Proof.
  intros Hd Ht. unfold percent_of.
  destruct (t =? 0) eqn:E; [apply Z.eqb_eq in E; lia |]. clear E.
  destruct d as [| n | n]; try lia. destruct t as [| dd | dd]; try lia.
  simpl Z.to_pos.
  assert (Hp : forall x, 0 <= x -> 0 < 2 ^ x) by (intros; apply Z.pow_pos_nonneg; lia).
  (* the quotient *)
  pose proof (floor_log2_spec n dd) as [E1 E2]. cbv zeta in E1, E2.
  assert (He : -53 <= Optimizer.floor_log2 n dd <= -1).
  { set (e := Optimizer.floor_log2 n dd) in *. clearbody e. split.
    - destruct (Z.le_gt_cases (-53) e) as [H | H]; [exact H | exfalso].
      replace (Z.max 0 (- (e + 1))) with (- e - 1) in E2 by lia.
      replace (Z.max 0 (e + 1)) with 0 in E2 by lia.
      rewrite Z.pow_0_r, Z.mul_1_r in E2.
      assert (2 ^ 53 <= 2 ^ (- e - 1)) by (apply Z.pow_le_mono_r; lia). nia.
    - destruct (Z.le_gt_cases e (-1)) as [H | H]; [exact H | exfalso].
      replace (Z.max 0 e) with e in E1 by lia.
      replace (Z.max 0 (- e)) with 0 in E1 by lia.
      rewrite Z.pow_0_r, Z.mul_1_r in E1.
      pose proof (Hp e ltac:(lia)). nia. }
  destruct (to_binary64_normal n dd ltac:(lia)) as [Hm ->].
  set (e := Optimizer.floor_log2 n dd) in *. clearbody e.
  set (U := 52 - e) in *.
  assert (HU : 53 <= U <= 105) by (unfold U; lia).
  set (m := Optimizer.round_half_even (Zpos n * 2 ^ U) (Zpos dd)) in *.
  assert (HU53 : 2 ^ 53 <= 2 ^ U) by (apply Z.pow_le_mono_r; lia).
  assert (Hm1 : 1 <= m).
  { pose proof (round_half_even_bounds (Zpos n * 2 ^ U) (Zpos dd) ltac:(lia)) as Hb.
    fold m in Hb.
    assert (1 <= Zpos n * 2 ^ U / Zpos dd); [| lia].
    apply Z.div_le_lower_bound; [lia |]. nia. }
  assert (Hm53 : U = 53 -> m <= 2 ^ 53 - 1).
  { intros HU'.
    pose proof (round_half_even_bounds (Zpos n * 2 ^ U) (Zpos dd) ltac:(lia)) as Hb.
    fold m in Hb. rewrite HU' in Hb.
    assert (Zpos n * 2 ^ 53 / Zpos dd < 2 ^ 53 - 1); [| lia].
    apply Z.div_lt_upper_bound; [lia |].
    change (2 ^ 53) with 9007199254740992 in *. nia. }
  clearbody m.
  destruct (Qred_factor m (Z.to_pos (2 ^ U))) as (g & Hg & Hgm & Hgd).
  rewrite Z2Pos.id in Hgd by (apply Hp; lia).
  set (x := Qred (m # Z.to_pos (2 ^ U))) in *. clearbody x.
  destruct x as [nx dx]. cbn [Qnum Qden] in Hgm, Hgd.
  assert (Hnx : 0 < nx) by nia.
  destruct nx as [| p | p]; try lia.
  assert (Hpd : Zpos p <= Zpos dx) by nia.
  (* the product *)
  change ((Zpos p # dx) * 100)%Q with (Zpos (p * 100) # (dx * 1))%Q.
  rewrite Pos.mul_1_r.
  pose proof (floor_log2_spec (p * 100) dx) as [F1 F2]. cbv zeta in F1, F2.
  rewrite Pos2Z.inj_mul in F1, F2.
  assert (Hdx : Zpos dx <= 2 ^ 105).
  { assert (2 ^ U <= 2 ^ 105) by (apply Z.pow_le_mono_r; lia). nia. }
  assert (He' : -1022 <= Optimizer.floor_log2 (p * 100) dx <= 6).
  { set (e' := Optimizer.floor_log2 (p * 100) dx) in *. clearbody e'. split.
    - destruct (Z.le_gt_cases (-1022) e') as [H | H]; [exact H | exfalso].
      replace (Z.max 0 (- (e' + 1))) with (- e' - 1) in F2 by lia.
      replace (Z.max 0 (e' + 1)) with 0 in F2 by lia.
      rewrite Z.pow_0_r, Z.mul_1_r in F2.
      assert (2 ^ 105 < 2 ^ 1022) by (apply Z.pow_lt_mono_r; lia).
      assert (2 ^ 1022 <= 2 ^ (- e' - 1)) by (apply Z.pow_le_mono_r; lia).
      nia.
    - destruct (Z.le_gt_cases e' 6) as [H | H]; [exact H | exfalso].
      replace (Z.max 0 e') with e' in F1 by lia.
      replace (Z.max 0 (- e')) with 0 in F1 by lia.
      rewrite Z.pow_0_r, Z.mul_1_r in F1.
      assert (2 ^ 7 <= 2 ^ e') by (apply Z.pow_le_mono_r; lia).
      change (2 ^ 7) with 128 in *. nia. }
  destruct (to_binary64_normal (p * 100) dx ltac:(lia)) as [Hm' ->].
  rewrite Pos2Z.inj_mul in Hm' |- *.
  set (e' := Optimizer.floor_log2 (p * 100) dx) in *. clearbody e'.
  set (U' := 52 - e') in *.
  set (m' := Optimizer.round_half_even (Zpos p * 100 * 2 ^ U') (Zpos dx)) in *.
  assert (Hbound : m' < 100 * 2 ^ U').
  { destruct (Z.le_gt_cases e' 5) as [H5 | H6].
    - assert (2 ^ 47 <= 2 ^ U') by (apply Z.pow_le_mono_r; unfold U'; lia).
      change (2 ^ 47) with 140737488355328 in *.
      change (2 ^ 53) with 9007199254740992 in *. lia.
    - assert (e' = 6) by lia. subst e'.
      replace (Z.max 0 6) with 6 in F1 by lia.
      replace (Z.max 0 (- 6)) with 0 in F1 by lia.
      rewrite Z.pow_0_r, Z.mul_1_r in F1. change (2 ^ 6) with 64 in F1.
      assert (HUeq : U = 53).
      { destruct (Z.le_gt_cases U 53) as [H | H]; [lia | exfalso].
        assert (2 ^ 54 <= 2 ^ U) by (apply Z.pow_le_mono_r; lia).
        change (2 ^ 54) with 18014398509481984 in *.
        change (2 ^ 53) with 9007199254740992 in *. nia. }
      specialize (Hm53 HUeq). rewrite HUeq in Hgd.
      unfold m', U'. change (52 - 6) with 46.
      rewrite <- (round_half_even_scale g (Zpos p * 100 * 2 ^ 46) (Zpos dx) Hg ltac:(lia)).
      rewrite <- Hgd.
      replace (g * (Zpos p * 100 * 2 ^ 46)) with (2 ^ 46 * (100 * m)) by (rewrite Hgm; ring).
      change (2 ^ 53) with (2 ^ 46 * 128).
      rewrite round_half_even_scale by lia.
      apply round_100_over_128. change (2 ^ 46 * 128) with (2 ^ 53) in Hm53. lia. }
  clearbody m'.
  assert (HU' : 0 <= U') by (unfold U'; lia).
  destruct (Qred_factor m' (Z.to_pos (2 ^ U'))) as (g' & Hg' & Hgm' & Hgd').
  rewrite Z2Pos.id in Hgd' by (apply Hp; lia).
  set (y := Qred (m' # Z.to_pos (2 ^ U'))) in *. clearbody y.
  destruct y as [ny dy]. cbn [Qnum Qden] in *.
  eexists. split; [reflexivity |].
  assert (Hny : 0 <= ny).
  { clear - Hg' Hgm' Hm'. nia. }
  rewrite Z.quot_div_nonneg by lia. split.
  - apply Z.div_pos; lia.
  - apply Z.div_lt_upper_bound; [lia |].
    apply (Z.mul_lt_mono_pos_l g'); [exact Hg' |]. rewrite <- Hgm'.
    replace (g' * (Zpos dy * 100)) with (100 * (g' * Zpos dy)) by ring.
    rewrite <- Hgd'. exact Hbound.
Qed.

Lemma count_status_all (s : string) (jobs : list _BatchJob) :
  0 <= count_status s jobs <= Z.of_nat (length jobs) /\
  (count_status s jobs = Z.of_nat (length jobs) <-> Forall (fun j => status j = s) jobs).
Proof.
  unfold count_status. induction jobs as [| j jobs IH].
  - simpl. split; [lia |]. split; [intros _; apply Forall_nil_2 | reflexivity].
  - rewrite filter_cons. destruct IH as [Hb Hiff].
    destruct (decide (status j = s)) as [Hs | Hs]; cbn [length].
    + split; [lia |]. split.
      * intros H. apply Forall_cons_2; [exact Hs | apply Hiff; lia].
      * intros H. apply Forall_cons in H. destruct H as [_ H]. apply Hiff in H. lia.
    + split; [lia |]. split; [lia |].
      intros H. apply Forall_cons in H. destruct H as [H _]. contradiction.
Qed.

(** X26.  A batch of fewer than 2^53 jobs reports done exactly when it has
    at least one job and every job is done: the percentage, computed in
    doubles, is 100 then and below 100 as soon as one job is queued,
    processing or failed, so a batch with a failed job does not report
    done. *)
Theorem batch_done_iff_all_done (jobs : list _BatchJob) :
  Z.of_nat (length jobs) < 2 ^ 53 ->
  exists st,
    get_status jobs = Some st /\
    0 <= percent st <= 100 /\
    (batch_job_status st = "done"
     <-> jobs <> [] /\ Forall (fun j => status j = "done") jobs).
Proof.
  intros Hlen. unfold get_status. cbv zeta.
  destruct (count_status_all "done" jobs) as [Hb Hiff].
  set (d := count_status "done" jobs) in *. clearbody d.
  assert (Hne : jobs <> [] <-> 0 < Z.of_nat (length jobs)).
  { destruct jobs; simpl; split; intros H; try lia; congruence. }
  set (t := Z.of_nat (length jobs)) in *. clearbody t.
  destruct (Z.eq_dec d t) as [-> | Hdt].
  - destruct (Z.eq_dec t 0) as [-> | Ht0].
    + rewrite percent_of_none by lia. eexists. split; [reflexivity |].
      unfold batch_job_status. cbn [percent]. split; [lia |].
      split; [discriminate |]. intros [H _]. apply Hne in H. lia.
    + rewrite percent_of_all by lia. eexists. split; [reflexivity |].
      unfold batch_job_status. cbn [percent]. split; [lia |].
      split; [| reflexivity]. intros _. split; [apply Hne; lia | apply Hiff; reflexivity].
  - assert (Hv : exists v, percent_of d t = Some v /\ 0 <= v < 100).
    { destruct (Z.eq_dec d 0) as [-> | Hd0].
      - rewrite percent_of_none by lia. exists 0. split; [reflexivity | lia].
      - apply percent_of_below; lia. }
    destruct Hv as (v & -> & Hv). eexists. split; [reflexivity |].
    unfold batch_job_status. cbn [percent]. split; [lia |].
    destruct (v =? 100) eqn:E; [apply Z.eqb_eq in E; lia |].
    split; [discriminate |]. intros [_ H]. apply Hiff in H. contradiction.
Qed.

(** X27.  The job statuses being the four that [_BatchJob] and
    [_process_job] write, the number reported as queued, a difference, is
    the number of jobs whose status is queued. *)
Theorem get_status_queued_counts_queued (jobs : list _BatchJob) (st : batch_status) :
  Forall (fun j => status j ∈ ["queued"; "processing"; "done"; "error"]%string) jobs ->
  get_status jobs = Some st ->
  queued st = count_status "queued" jobs /\
  total st = done st + error_count st + in_progress st + queued st.
Proof.
  intros Hall Hst. unfold get_status in Hst. cbv zeta in Hst.
  destruct (percent_of _ _) as [v |]; [| discriminate]. injection Hst as <-.
  cbn [queued total done error_count in_progress]. split; [| lia].
  unfold count_status. induction jobs as [| j jobs IH]; [reflexivity |].
  apply Forall_cons in Hall. destruct Hall as [Hj Hall]. specialize (IH Hall).
  rewrite !filter_cons.
  assert (Hcases : (status j = "queued" \/ status j = "processing" \/ status j = "done"
                    \/ status j = "error")%string).
  { apply list_elem_of_In in Hj. simpl in Hj.
    destruct Hj as [H | [H | [H | [H | []]]]]; symmetry in H; tauto. }
  destruct Hcases as [H | [H | [H | H]]]; rewrite H;
    repeat first [rewrite decide_True by reflexivity | rewrite decide_False by discriminate];
    cbn [length]; lia.
Qed.

End BatchFacts.

Section BatchRuns.
Import Batch.

Lemma batch_done_iff_all_done_witness :
  exists st,
    get_status [BatchJob "a" "a.png" "done" None (Some "<svg/>");
                BatchJob "b" "b.png" "error" (Some "cannot decode") None] = Some st /\
    0 <= percent st <= 100 /\
    (batch_job_status st = "done"%string
     <-> [BatchJob "a" "a.png" "done" None (Some "<svg/>");
          BatchJob "b" "b.png" "error" (Some "cannot decode") None] <> [] /\
         Forall (fun j => status j = "done"%string)
           [BatchJob "a" "a.png" "done" None (Some "<svg/>");
            BatchJob "b" "b.png" "error" (Some "cannot decode") None]).
Proof.
  apply batch_done_iff_all_done. simpl. lia.
Defined.

Lemma get_status_queued_counts_queued_witness :
  queued (BatchStatus 3 1 0 1 1 33)
  = count_status "queued"
      [BatchJob "a" "a.png" "done" None (Some "<svg/>");
       BatchJob "b" "b.png" "processing" None None;
       BatchJob "c" "c.png" "queued" None None] /\
  total (BatchStatus 3 1 0 1 1 33)
  = done (BatchStatus 3 1 0 1 1 33) + error_count (BatchStatus 3 1 0 1 1 33)
    + in_progress (BatchStatus 3 1 0 1 1 33) + queued (BatchStatus 3 1 0 1 1 33).
Proof.
  apply (get_status_queued_counts_queued
           [BatchJob "a" "a.png" "done" None (Some "<svg/>");
            BatchJob "b" "b.png" "processing" None None;
            BatchJob "c" "c.png" "queued" None None]).
  - repeat (apply Forall_cons_2; [apply list_elem_of_In; simpl; tauto |]). apply Forall_nil_2.
  - vm_compute. reflexivity.
Defined.

End BatchRuns.

Section ChaikinFloat64.
Import Tracer TracerFloat64.

Lemma round_half_even_exact (d K : Z) :
  0 < d -> Optimizer.round_half_even (d * K) d = K.
Proof.
  intros Hd. rewrite round_half_even_down; [| exact Hd |].
  - rewrite (Z.mul_comm d K). apply Z.div_mul. lia.
  - rewrite (Z.mul_comm d K), Z.mod_mul by lia. lia.
Qed.

(** A positive dyadic rational whose numerator has at most 53 bits is a
    double: rounding returns it. *)
Lemma to_binary64_dyadic (n d : positive) (z j : Z) :
  0 <= j <= 1022 -> 0 < z < 2 ^ 53 ->
  Zpos n * 2 ^ j = z * Zpos d ->
  exists r, Optimizer.to_binary64 (Zpos n # d) = Some r /\ (r == Zpos n # d)%Q.
Proof.
  intros Hj Hz Heq.
  assert (Hp : forall x, 0 <= x -> 0 < 2 ^ x) by (intros; apply Z.pow_pos_nonneg; lia).
  pose proof (floor_log2_spec n d) as [S1 S2]. cbv zeta in S1, S2.
  pose proof (to_binary64_normal n d) as Hnorm. cbv zeta in Hnorm.
  set (e := Optimizer.floor_log2 n d) in *. clearbody e.
  pose proof (Hp j ltac:(lia)) as Hpj.
  assert (Hhi : e + j <= 52).
  { destruct (Z.le_gt_cases (e + j) 52) as [Hle | Hgt]; [exact Hle | exfalso].
    assert (H53 : 2 ^ 53 <= 2 ^ (e + j)) by (apply Z.pow_le_mono_r; lia).
    destruct (Z.le_gt_cases 0 e) as [He | He].
    - replace (Z.max 0 e) with e in S1 by lia.
      replace (Z.max 0 (- e)) with 0 in S1 by lia.
      rewrite Z.pow_0_r, Z.mul_1_r in S1.
      assert (Zpos d * 2 ^ e * 2 ^ j <= Zpos n * 2 ^ j)
        by (apply Z.mul_le_mono_nonneg_r; lia).
      rewrite Z.pow_add_r in H53 by lia.
      assert (Zpos d * 2 ^ 53 <= Zpos d * (2 ^ e * 2 ^ j))
        by (apply Z.mul_le_mono_nonneg_l; lia).
      assert (z * Zpos d < 2 ^ 53 * Zpos d) by (apply Z.mul_lt_mono_pos_r; lia).
      lia.
    - replace (Z.max 0 e) with 0 in S1 by lia.
      replace (Z.max 0 (- e)) with (- e) in S1 by lia.
      rewrite Z.pow_0_r, Z.mul_1_r in S1.
      pose proof (Hp (- e) ltac:(lia)) as Hpe.
      assert (Hsplit : 2 ^ j = 2 ^ (e + j) * 2 ^ (- e)).
      { rewrite <- Z.pow_add_r by lia. f_equal. lia. }
      assert (Zpos d * 2 ^ j <= Zpos n * 2 ^ (- e) * 2 ^ j)
        by (apply Z.mul_le_mono_nonneg_r; lia).
      assert (Hzd : Zpos n * 2 ^ (- e) * 2 ^ j = z * 2 ^ (- e) * Zpos d).
      { replace (Zpos n * 2 ^ (- e) * 2 ^ j) with (Zpos n * 2 ^ j * 2 ^ (- e)) by ring.
        rewrite Heq. ring. }
      assert (Hle2 : 2 ^ j <= z * 2 ^ (- e)).
      { apply (Z.mul_le_mono_pos_l _ _ (Zpos d)); lia. }
      rewrite Hsplit in Hle2.
      assert (2 ^ (e + j) <= z).
      { apply (Z.mul_le_mono_pos_r _ _ (2 ^ (- e))); lia. }
      lia. }
  assert (Hlo : - j <= e).
  { destruct (Z.le_gt_cases (- j) e) as [Hle | Hgt]; [exact Hle | exfalso].
    replace (Z.max 0 (e + 1)) with 0 in S2 by lia.
    replace (Z.max 0 (- (e + 1))) with (- e - 1) in S2 by lia.
    rewrite Z.pow_0_r, Z.mul_1_r in S2.
    assert (Hge : 2 ^ j <= 2 ^ (- e - 1)) by (apply Z.pow_le_mono_r; lia).
    assert (Zpos n * 2 ^ (- e - 1) * 2 ^ j < Zpos d * 2 ^ j)
      by (apply Z.mul_lt_mono_pos_r; lia).
    assert (Hzd : Zpos n * 2 ^ (- e - 1) * 2 ^ j = z * 2 ^ (- e - 1) * Zpos d).
    { replace (Zpos n * 2 ^ (- e - 1) * 2 ^ j) with (Zpos n * 2 ^ j * 2 ^ (- e - 1)) by ring.
      rewrite Heq. ring. }
    assert (Hlt2 : z * 2 ^ (- e - 1) < 2 ^ j).
    { apply (Z.mul_lt_mono_pos_l (Zpos d)); lia. }
    assert (1 * 2 ^ (- e - 1) <= z * 2 ^ (- e - 1))
      by (apply Z.mul_le_mono_nonneg_r; lia).
    lia. }
  destruct (Hnorm ltac:(lia)) as [_ ->].
  set (U := 52 - e) in *.
  pose proof (Hp U ltac:(lia)) as HpU.
  assert (HU : 2 ^ U = 2 ^ j * 2 ^ (U - j)).
  { rewrite <- Z.pow_add_r by lia. f_equal. lia. }
  assert (Hdiv : Zpos n * 2 ^ U = Zpos d * (z * 2 ^ (U - j))).
  { rewrite HU, Z.mul_assoc, Heq. ring. }
  rewrite Hdiv, round_half_even_exact by lia.
  eexists. split; [reflexivity |].
  rewrite Qred_correct. unfold Qeq. cbn [Qnum Qden].
  rewrite Z2Pos.id by lia. lia.
Qed.

Lemma to_float64_dyadic (q : Q) (z j : Z) :
  0 <= j <= 1022 -> Z.abs z < 2 ^ 53 ->
  (q == z # Z.to_pos (2 ^ j))%Q ->
  exists r, to_float64 q = Some r /\ (r == q)%Q.
Proof.
  intros Hj Hz Hq.
  assert (Hpj : 0 < 2 ^ j) by (apply Z.pow_pos_nonneg; lia).
  destruct q as [num den]. unfold Qeq in Hq. cbn [Qnum Qden] in Hq.
  rewrite Z2Pos.id in Hq by exact Hpj.
  unfold to_float64. cbn [Qnum Qden].
  destruct num as [| n | n].
  - exists 0%Q. split; [reflexivity |]. reflexivity.
  - apply (to_binary64_dyadic n den z j); [exact Hj | | exact Hq].
    assert (0 < z * Zpos den) by lia. nia.
  - destruct (to_binary64_dyadic n den (- z) j) as (r & -> & Hr); [exact Hj | | |].
    + assert (z * Zpos den < 0) by lia. nia.
    + lia.
    + exists (- r)%Q. split; [reflexivity |]. rewrite Hr. reflexivity.
Qed.

Lemma dyadic_quarters (c z j : Z) (x : Q) :
  0 <= j -> (x == z # Z.to_pos (2 ^ j))%Q ->
  ((c # 4) * x == (c * z) # Z.to_pos (2 ^ (j + 2)))%Q.
Proof.
  intros Hj Hx. rewrite Hx. unfold Qeq, Qmult. cbn [Qnum Qden].
  assert (0 < 2 ^ j) by (apply Z.pow_pos_nonneg; lia).
  assert (0 < 2 ^ (j + 2)) by (apply Z.pow_pos_nonneg; lia).
  rewrite Pos2Z.inj_mul, !Z2Pos.id by lia.
  rewrite Z.pow_add_r by lia. change (2 ^ 2) with 4. change (Zpos 4) with 4. ring.
Qed.

Lemma dyadic_sum (u v : Z) (p : positive) (x y : Q) :
  (x == u # p)%Q -> (y == v # p)%Q -> (x + y == (u + v) # p)%Q.
Proof.
  intros -> ->. unfold Qeq, Qplus. cbn [Qnum Qden]. rewrite Pos2Z.inj_mul. ring.
Qed.

(** The three roundings of one coordinate are exact while the numerators
    stay below 2^53. *)
Lemma axpby_exact (c1 c2 j M : Z) (x0 x1 : Q) :
  0 <= c1 -> 0 <= c2 -> c1 + c2 = 4 ->
  0 <= j -> j + 2 <= 1022 -> 4 * M < 2 ^ 53 ->
  dyadic j M x0 -> dyadic j M x1 ->
  exists r, axpby (c1 # 4) (c2 # 4) x0 x1 = Some r /\
            (r == (c1 # 4) * x0 + (c2 # 4) * x1)%Q /\
            dyadic (j + 2) (4 * M) r.
Proof.
  intros Hc1 Hc2 Hc Hj Hj2 HM (z0 & Hz0 & Hx0) (z1 & Hz1 & Hx1).
  pose proof (dyadic_quarters c1 z0 j x0 Hj Hx0) as Ha.
  pose proof (dyadic_quarters c2 z1 j x1 Hj Hx1) as Hb.
  assert (HM0 : 0 <= M) by lia.
  assert (Hb0 : Z.abs (c1 * z0) <= c1 * M).
  { rewrite Z.abs_mul, (Z.abs_eq c1) by lia. apply Z.mul_le_mono_nonneg_l; lia. }
  assert (Hb1 : Z.abs (c2 * z1) <= c2 * M).
  { rewrite Z.abs_mul, (Z.abs_eq c2) by lia. apply Z.mul_le_mono_nonneg_l; lia. }
  assert (Hc1M : c1 * M <= 4 * M) by (apply Z.mul_le_mono_nonneg_r; lia).
  assert (Hc2M : c2 * M <= 4 * M) by (apply Z.mul_le_mono_nonneg_r; lia).
  assert (Hsum : c1 * M + c2 * M = 4 * M) by (rewrite <- Z.mul_add_distr_r, Hc; reflexivity).
  destruct (to_float64_dyadic _ (c1 * z0) (j + 2) ltac:(lia) ltac:(lia) Ha) as (ax & Eax & Hax).
  destruct (to_float64_dyadic _ (c2 * z1) (j + 2) ltac:(lia) ltac:(lia) Hb) as (bx & Ebx & Hbx).
  assert (Hs : (ax + bx == (c1 * z0 + c2 * z1) # Z.to_pos (2 ^ (j + 2)))%Q).
  { apply dyadic_sum; [rewrite Hax; exact Ha | rewrite Hbx; exact Hb]. }
  assert (Hbs : Z.abs (c1 * z0 + c2 * z1) <= 4 * M).
  { pose proof (Z.abs_triangle (c1 * z0) (c2 * z1)). lia. }
  destruct (to_float64_dyadic _ (c1 * z0 + c2 * z1) (j + 2) ltac:(lia) ltac:(lia) Hs)
    as (r & Er & Hr).
  exists r. unfold axpby. rewrite Eax. cbn [mbind option_bind]. rewrite Ebx.
  cbn [mbind option_bind]. split; [exact Er |]. split.
  - rewrite Hr, Hax, Hbx. reflexivity.
  - exists (c1 * z0 + c2 * z1). split; [exact Hbs |]. rewrite Hr. exact Hs.
Qed.

Lemma lerp_float64_exact (c1 c2 j M : Z) (p0 p1 : point) :
  0 <= c1 -> 0 <= c2 -> c1 + c2 = 4 ->
  0 <= j -> j + 2 <= 1022 -> 4 * M < 2 ^ 53 ->
  dyadic_point j M p0 -> dyadic_point j M p1 ->
  exists p, lerp_float64 (c1 # 4) (c2 # 4) p0 p1 = Some p /\
            same_point p (lerp (c1 # 4) (c2 # 4) p0 p1) /\
            dyadic_point (j + 2) (4 * M) p.
Proof.
  intros Hc1 Hc2 Hc Hj Hj2 HM [Hx0 Hy0] [Hx1 Hy1].
  destruct (axpby_exact c1 c2 j M p0.1 p1.1) as (x & Ex & Hx & Dx); try assumption.
  destruct (axpby_exact c1 c2 j M p0.2 p1.2) as (y & Ey & Hy & Dy); try assumption.
  exists (x, y). unfold lerp_float64. rewrite Ex. cbn [mbind option_bind]. rewrite Ey.
  cbn [mbind option_bind]. split; [reflexivity |]. split.
  - split; [exact Hx | exact Hy].
  - split; [exact Dx | exact Dy].
Qed.

Lemma nth_Forall {A} (P : A -> Prop) (l : list A) (d : A) (i : nat) :
  Forall P l -> P d -> P (nth i l d).
Proof.
  intros Hl Hd. revert i. induction Hl as [| x l Hx _ IH]; intros [| i]; simpl; auto.
Qed.

Lemma dyadic_origin j M : 0 <= M -> dyadic_point j M (0, 0)%Q.
Proof. intros HM. split; exists 0; (split; [simpl; lia | reflexivity]). Qed.

Lemma chaikin_pass_float64_exact (j M : Z) closed (pts : list point) :
  0 <= j -> j + 2 <= 1022 -> 0 <= M -> 4 * M < 2 ^ 53 ->
  Forall (dyadic_point j M) pts ->
  exists out, chaikin_pass_float64 closed pts = Some out /\
              Forall2 same_point out (chaikin_pass closed pts) /\
              Forall (dyadic_point (j + 2) (4 * M)) out.
Proof.
  intros Hj Hj2 HM0 HM Hpts. unfold chaikin_pass_float64, chaikin_pass. cbv zeta.
  generalize (seq 0 (if closed then length pts else (length pts - 1)%nat)) as l.
  induction l as [| i l (out & Eo & Hsame & Hdy)].
  - exists []. split; [reflexivity |]. split; constructor.
  - pose proof (nth_Forall _ pts (0, 0)%Q i Hpts (dyadic_origin j M HM0)) as D0.
    pose proof (nth_Forall _ pts (0, 0)%Q ((i + 1) mod length pts) Hpts
                  (dyadic_origin j M HM0)) as D1.
    destruct (lerp_float64_exact 3 1 j M _ _ ltac:(lia) ltac:(lia) eq_refl Hj Hj2 HM D0 D1)
      as (q & Eq & Sq & Dq).
    destruct (lerp_float64_exact 1 3 j M _ _ ltac:(lia) ltac:(lia) eq_refl Hj Hj2 HM D0 D1)
      as (r & Er & Sr & Dr).
    destruct (mapM _ l) as [outs |] eqn:Em; [| discriminate].
    cbn [mbind option_bind] in Eo. injection Eo as <-.
    exists (q :: r :: concat outs).
    cbn [mapM]. rewrite Eq. cbn [mbind option_bind]. rewrite Er. cbn [mbind option_bind].
    rewrite Em. cbn [mbind option_bind mret option_ret concat app].
    split; [reflexivity |]. split.
    + cbn [flat_map app]. constructor; [exact Sq |]. constructor; [exact Sr | exact Hsame].
    + constructor; [exact Dq |]. constructor; [exact Dr | exact Hdy].
Qed.

Lemma same_point_refl p : same_point p p.
Proof. split; reflexivity. Qed.

Lemma same_point_trans p q r : same_point p q -> same_point q r -> same_point p r.
Proof. intros [H1 H2] [H3 H4]. split; [rewrite H1; exact H3 | rewrite H2; exact H4]. Qed.

Lemma lerp_same a b p0 p1 q0 q1 :
  same_point p0 q0 -> same_point p1 q1 -> same_point (lerp a b p0 p1) (lerp a b q0 q1).
Proof.
  intros [H1 H2] [H3 H4]. unfold lerp. split; cbn [fst snd].
  - rewrite H1, H3. reflexivity.
  - rewrite H2, H4. reflexivity.
Qed.

Lemma nth_same (pts pts' : list point) i :
  Forall2 same_point pts pts' ->
  same_point (nth i pts (0, 0)%Q) (nth i pts' (0, 0)%Q).
Proof.
  intros H. revert i. induction H as [| p q l l' Hpq _ IH]; intros [| i]; simpl;
    try apply same_point_refl; auto.
Qed.

(** The rational loop maps equal contours to equal contours. *)
Lemma chaikin_pass_same closed (pts pts' : list point) :
  Forall2 same_point pts pts' ->
  Forall2 same_point (chaikin_pass closed pts) (chaikin_pass closed pts').
Proof.
  intros H. unfold chaikin_pass. cbv zeta.
  rewrite <- (Forall2_length _ _ _ H).
  generalize (seq 0 (if closed then length pts else (length pts - 1)%nat)) as l.
  induction l as [| i l IH]; [constructor |].
  cbn [flat_map app].
  constructor; [apply lerp_same; apply nth_same; exact H |].
  constructor; [apply lerp_same; apply nth_same; exact H | exact IH].
Qed.

Lemma chaikin_loop_same k closed (pts pts' : list point) :
  Forall2 same_point pts pts' ->
  Forall2 same_point (chaikin_loop k closed pts) (chaikin_loop k closed pts').
Proof.
  revert pts pts'. induction k as [| k IH]; intros pts pts' H; [exact H |].
  cbn [chaikin_loop]. apply IH, chaikin_pass_same, H.
Qed.

Lemma Forall2_same_point_trans (l1 l2 l3 : list point) :
  Forall2 same_point l1 l2 -> Forall2 same_point l2 l3 -> Forall2 same_point l1 l3.
Proof.
  intros H. revert l3. induction H as [| p q l l' Hpq _ IH]; intros l3 H3.
  - inversion H3. constructor.
  - inversion H3 as [| q' r l2' l3' Hqr Hrest]; subst.
    constructor; [eapply same_point_trans; eassumption | apply IH; assumption].
Qed.

Lemma sums_same (l l' : list point) :
  Forall2 same_point l l' -> (sum_x l == sum_x l' /\ sum_y l == sum_y l')%Q.
Proof.
  induction 1 as [| p q l l' [Hx Hy] _ [IHx IHy]]; [split; reflexivity |].
  unfold sum_x, sum_y in *. cbn [foldr]. rewrite Hx, Hy, IHx, IHy. split; reflexivity.
Qed.

Lemma chaikin_loop_float64_exact k (j M : Z) closed (pts : list point) :
  0 <= j -> j + 2 * Z.of_nat k <= 1022 -> 0 <= M -> M * 4 ^ Z.of_nat k < 2 ^ 53 ->
  Forall (dyadic_point j M) pts ->
  exists out, chaikin_loop_float64 k closed pts = Some out /\
              Forall2 same_point out (chaikin_loop k closed pts).
Proof.
  revert j M pts. induction k as [| k IH]; intros j M pts Hj Hjk HM0 HM Hpts.
  - exists pts. split; [reflexivity |]. cbn [chaikin_loop].
    clear. induction pts; constructor; [apply same_point_refl | assumption].
  - rewrite Nat2Z.inj_succ, Z.pow_succ_r in HM by lia.
    assert (H4k : 0 < 4 ^ Z.of_nat k) by (apply Z.pow_pos_nonneg; lia).
    destruct (chaikin_pass_float64_exact j M closed pts) as (out1 & E1 & S1 & D1);
      [lia | lia | lia | nia | exact Hpts |].
    destruct (IH (j + 2) (4 * M) out1) as (out & E & S'); [lia | lia | lia | lia | exact D1 |].
    exists out. cbn [chaikin_loop_float64 chaikin_loop]. rewrite E1.
    cbn [mbind option_bind]. split; [exact E |].
    eapply Forall2_same_point_trans; [exact S' |].
    apply chaikin_loop_same. exact S1.
Qed.

Lemma astype_float64_rounded_exact (points : list (Z * Z)) (B : Z) :
  B < 2 ^ 53 ->
  Forall (fun p : Z * Z => Z.abs p.1 <= B /\ Z.abs p.2 <= B) points ->
  exists pts, astype_float64_rounded points = Some pts /\
              Forall2 same_point pts (astype_float64 points) /\
              Forall (dyadic_point 0 B) pts.
Proof.
  intros HB H. unfold astype_float64_rounded, astype_float64.
  induction H as [| p points [Hx Hy] _ (pts & E & S' & D)].
  - exists []. split; [reflexivity |]. split; constructor.
  - assert (Ex : exists x, to_float64 (inject_Z p.1) = Some x /\ (x == inject_Z p.1)%Q).
    { apply (to_float64_dyadic _ p.1 0); [lia | lia | reflexivity]. }
    assert (Ey : exists y, to_float64 (inject_Z p.2) = Some y /\ (y == inject_Z p.2)%Q).
    { apply (to_float64_dyadic _ p.2 0); [lia | lia | reflexivity]. }
    destruct Ex as (x & Ex & Sx), Ey as (y & Ey & Sy).
    exists ((x, y) :: pts). cbn [mapM]. rewrite Ex. cbn [mbind option_bind].
    rewrite Ey. cbn [mbind option_bind]. rewrite E.
    cbn [mbind option_bind mret option_ret]. split; [reflexivity |]. split.
    + cbn [map]. constructor; [split; assumption | exact S'].
    + constructor; [| exact D].
      split; [exists p.1 | exists p.2]; (split; [lia |]); assumption.
Qed.

(** X18.  On a closed contour of integer coordinates of magnitude at
    most [B], with [B * 4^iterations] below 2^53, every product and every
    sum of the smoothing loop is exact in binary64: the loop returns the
    contour that exact arithmetic gives, with 2^k times as many points and
    2^k times the sum of the x and of the y coordinates, so the centroid
    stays where it was. *)
Theorem chaikin_keeps_centroid (points : list (Z * Z)) (iterations B : Z) :
  0 < B ->
  Forall (fun p : Z * Z => Z.abs p.1 <= B /\ Z.abs p.2 <= B) points ->
  B * 4 ^ Z.max 0 iterations < 2 ^ 53 ->
  let k := Z.to_nat iterations in
  exists out,
    _chaikin_smooth_float64 points iterations true = Some out /\
    Forall2 same_point out (_chaikin_smooth points iterations true) /\
    length out = (length points * 2 ^ k)%nat /\
    (sum_x out == inject_Z (2 ^ Z.of_nat k) * sum_x (astype_float64 points))%Q /\
    (sum_y out == inject_Z (2 ^ Z.of_nat k) * sum_y (astype_float64 points))%Q.
Proof.
  intros HB Hpts Hbound. cbv zeta.
  replace (Z.max 0 iterations) with (Z.of_nat (Z.to_nat iterations)) in Hbound by lia.
  set (k := Z.to_nat iterations) in *.
  assert (H4k : 0 < 4 ^ Z.of_nat k) by (apply Z.pow_pos_nonneg; lia).
  assert (Hk : 2 * Z.of_nat k <= 52).
  { assert (H : 4 ^ Z.of_nat k < 2 ^ 53) by nia.
    replace (4 ^ Z.of_nat k) with (2 ^ (2 * Z.of_nat k)) in H
      by (rewrite Z.pow_mul_r by lia; reflexivity).
    apply Z.pow_lt_mono_r_iff in H; lia. }
  destruct (astype_float64_rounded_exact points B) as (pts & E0 & S0 & D0);
    [nia | exact Hpts |].
  destruct (chaikin_loop_float64_exact k 0 B true pts) as (out & E & S');
    [lia | lia | lia | exact Hbound | exact D0 |].
  assert (Hsame : Forall2 same_point out (_chaikin_smooth points iterations true)).
  { unfold _chaikin_smooth. fold k.
    eapply Forall2_same_point_trans; [exact S' |]. apply chaikin_loop_same. exact S0. }
  exists out. unfold _chaikin_smooth_float64. rewrite E0. cbn [mbind option_bind].
  fold k. split; [exact E |]. split; [exact Hsame |].
  destruct (sums_same _ _ Hsame) as [Hx Hy].
  destruct (chaikin_loop_sums k (astype_float64 points)) as [Lx Ly].
  split.
  - rewrite (Forall2_length _ _ _ Hsame). unfold _chaikin_smooth. fold k.
    rewrite length_chaikin_loop_closed. unfold astype_float64. rewrite length_map.
    reflexivity.
  - unfold _chaikin_smooth in Hx, Hy. fold k in Hx, Hy.
    rewrite Hx, Hy. split; [exact Lx | exact Ly].
Qed.

(** X18, witness: two passes over the square with corners (0, 0) and
    (4, 4). *)
Lemma chaikin_keeps_centroid_witness :
  let square : list (Z * Z) := [(0, 0); (4, 0); (4, 4); (0, 4)] in
  exists out,
    _chaikin_smooth_float64 square 2 true = Some out /\
    Forall2 same_point out (_chaikin_smooth square 2 true) /\
    length out = 16%nat /\
    (sum_x out == 4 * sum_x (astype_float64 square))%Q /\
    (sum_y out == 4 * sum_y (astype_float64 square))%Q.
Proof.
  apply (chaikin_keeps_centroid [(0, 0); (4, 0); (4, 4); (0, 4)] 2 4).
  - lia.
  - repeat (apply Forall_cons_2; [simpl; lia |]). apply Forall_nil_2.
  - reflexivity.
Defined.

End ChaikinFloat64.
